(** * A shallow embedding of the nonlocal finite-element assembly core

    The development follows the C++ sources of the repository:

    - [include/solvers/finite_element_solver_base.hpp]: the [indexator] that
      builds the sparsity portrait of [K_inner] and [K_bound], [mesh_index],
      [prepare_memory], [sort_indices], [set_mesh] and
      [boundary_condition_first_kind];
    - [include/solvers/solver_1d/finite_element_solver_base_1d.hpp]: the 1D
      solver ([integrate_basic_pair], [create_matrix_portrait], [calc_matrix],
      [stationary]);
    - [include/solvers/finite_element_routine.hpp] and
      [libraries/mesh/mesh_2d/mesh_container_2d_utils.hpp]: the geometry
      precomputations in all quadrature nodes and the VTK writer;
    - [libraries/mesh/mesh_2d/su2_parser.hpp]: the SU2 reader;
    - [src/static_analysis.cpp]: the triplet based elasticity assembly.

    Vectors are lists read with stdpp's lookup and written with stdpp's
    insert.  An index outside a vector is undefined behaviour in C++; the
    total lookup then yields the type's inhabitant and the insert leaves the
    list alone, and every theorem that depends on an access states the bounds
    under which the access is inside.  The geometry precomputations, whose
    writes are placed by a vector supplied by the caller, keep a write
    outside the result apart as the outcome [undefined].  Index types
    ([size_t], [I]) are naturals: no computation below gets near their range,
    and no allocation is refused for its size or for lack of memory.  The
    shift vectors that a caller hands to the geometry precomputations are
    the exception: their entries are of the type [I], which is signed in
    [thermal.cpp], and the functions do not test them, so they are integers,
    and a negative count or index is followed through its conversion to
    [size_t].  The scalar type [T] of the templates is an interface
    ([Scalar]) whose instance [double] is the binary64 arithmetic of the
    kernel. *)

From Stdlib Require Import PrimFloat.
From stdpp Require Import base tactics option list numbers sorting strings gmap.

(** ** Scalars *)

(** The operations the solvers use on the template parameter [T]. *)
Class Scalar (T : Type) := {
  zero : T;
  one : T;
  add : T -> T -> T;
  sub : T -> T -> T;
  mul : T -> T -> T;
  div : T -> T -> T;
  (** [gtb a b] is the C++ comparison [a > b], [ltb a b] is [a < b] and
      [eqb a b] is [a == b]. *)
  gtb : T -> T -> bool;
  ltb : T -> T -> bool;
  eqb : T -> T -> bool;
  (** The literals [1e-5] and [0.999] of the sources, rounded to [T]. *)
  lit_1e_5 : T;
  lit_0_999 : T
}.

(** A read outside a vector of scalars has no defined value; the total
    lookup yields [zero] there. *)
#[export] Instance Scalar_inhabited {T : Type} `{!Scalar T} : Inhabited T :=
  populate zero.

(** [double]: IEEE 754 binary64.  The two literals are written in
    hexadecimal: they are the doubles nearest to 1e-5 and to 0.999. *)
#[export] Instance double : Scalar float := {
  zero := 0%float;
  one := 1%float;
  add := PrimFloat.add;
  sub := PrimFloat.sub;
  mul := PrimFloat.mul;
  div := PrimFloat.div;
  gtb := fun a b => PrimFloat.ltb b a;
  ltb := PrimFloat.ltb;
  eqb := PrimFloat.eqb;
  lit_1e_5 := 0x1.4f8b588e368f1p-17%float;
  lit_0_999 := 0x1.ff7ced916872bp-1%float
}.

(** The unary minus and the two functions of [<cmath>] that the sources
    call on [T]. *)
Class Scalar_functions (T : Type) := {
  opp : T -> T;
  abs : T -> T;
  sqrt : T -> T
}.

#[export] Instance double_functions : Scalar_functions float := {
  opp := PrimFloat.opp;
  abs := PrimFloat.abs;
  sqrt := PrimFloat.sqrt
}.

(** [std::vector<T>::resize(n)]: the first cells are kept and the new ones
    are value-initialised. *)
Definition vector_resize {A} (cleared : A) (n : nat) (v : list A) : list A :=
  take n v ++ replicate (n - length v) cleared.

(** ** Eigen's row-major compressed sparse matrix *)

Module Eigen.

(** [Eigen::SparseMatrix<T, Eigen::RowMajor, I>] in compressed mode: the
    three arrays behind [outerIndexPtr()], [innerIndexPtr()] and
    [valuePtr()]. Row [i] owns the positions from [outerIndexPtr[i]] up to,
    excluding, [outerIndexPtr[i+1]].  A matrix that [coeffRef] has inserted
    into is kept by Eigen in uncompressed mode, with free cells after the
    entries of each row; the record then lists the entries of the rows
    without those cells, so that [row_indices] and [row_values] are the
    stored entries of a row in either mode, and says nothing of the mode. *)
Record SparseMatrix (T : Type) := {
  rows : nat;
  cols : nat;
  outerIndexPtr : list nat;
  innerIndexPtr : list nat;
  valuePtr : list T
}.
Arguments rows {T} _.
Arguments cols {T} _.
Arguments outerIndexPtr {T} _.
Arguments innerIndexPtr {T} _.
Arguments valuePtr {T} _.

(** The constructor [SparseMatrix(rows, cols)]: no entry, and an outer
    index array of [rows + 1] zeros. *)
Definition make {T} (r c : nat) : SparseMatrix T :=
  {| rows := r; cols := c; outerIndexPtr := replicate (S r) 0;
     innerIndexPtr := []; valuePtr := [] |}.

Definition set_outer {T} (K : SparseMatrix T) (o : list nat) : SparseMatrix T :=
  {| rows := rows K; cols := cols K; outerIndexPtr := o;
     innerIndexPtr := innerIndexPtr K; valuePtr := valuePtr K |}.

Definition set_inner {T} (K : SparseMatrix T) (i : list nat) : SparseMatrix T :=
  {| rows := rows K; cols := cols K; outerIndexPtr := outerIndexPtr K;
     innerIndexPtr := i; valuePtr := valuePtr K |}.

Definition set_values {T} (K : SparseMatrix T) (v : list T) : SparseMatrix T :=
  {| rows := rows K; cols := cols K; outerIndexPtr := outerIndexPtr K;
     innerIndexPtr := innerIndexPtr K; valuePtr := v |}.

(** The column indices stored in row [i]. *)
Definition row_indices {T} (K : SparseMatrix T) (i : nat) : list nat :=
  take (outerIndexPtr K !!! S i - outerIndexPtr K !!! i)
       (drop (outerIndexPtr K !!! i) (innerIndexPtr K)).

(** The values stored in row [i], in the order of [row_indices]. *)
Definition row_values {T} (K : SparseMatrix T) (i : nat) : list T :=
  take (outerIndexPtr K !!! S i - outerIndexPtr K !!! i)
       (drop (outerIndexPtr K !!! i) (valuePtr K)).

(** [K.coeffRef(row, col)] used to replace the coefficient [v] by [f v].
    Eigen searches the column in the row and returns the stored value; when
    the entry is absent it inserts a zero at its place in the row.  The
    insertion leaves Eigen's matrix in uncompressed mode; in the record,
    which keeps the rows and not the mode, the later entries move up by one
    cell. *)
Definition coeffRef_update {T} `{!Scalar T} (f : T -> T) (K : SparseMatrix T)
    (row col : nat) : SparseMatrix T :=
  let start := outerIndexPtr K !!! row in
  let stored := row_indices K row in
  match list_find (fun k => k = col) stored with
  | Some (d, _) =>
      set_values K (<[start + d := f (valuePtr K !!! (start + d))]> (valuePtr K))
  | None =>
      let p := start + length (filter (fun k => k < col) stored) in
      {| rows := rows K; cols := cols K;
         outerIndexPtr :=
           imap (fun i o => if bool_decide (row < i) then S o else o) (outerIndexPtr K);
         innerIndexPtr := take p (innerIndexPtr K) ++ col :: drop p (innerIndexPtr K);
         valuePtr := take p (valuePtr K) ++ f zero :: drop p (valuePtr K) |}
  end.

(** [K.data().resize(n)]: the first cells are kept and the new ones hold
    whatever the allocator returned, here [fresh p] for the cell [p]. *)
Definition resize {A} (fresh : nat -> A) (n : nat) (l : list A) : list A :=
  take n l ++ (fresh <$> seq (length l) (n - length l)).

End Eigen.

(** ** Finite elements with their quadrature tables *)

Module finite_element.

(** [enum class side_1d] of [geometry_1d.hpp], and the sides that
    [element_2d_integrate::set] names. *)
Module side_1d.
Inductive t := LEFT | RIGHT.
End side_1d.

Module side_2d.
Inductive t := LEFT | RIGHT | DOWN | UP.
End side_2d.

Section defs.
Context {T : Type} `{!Scalar T}.

(** [element_1d_integrate]: the tables that [set] fills.  The shape
    functions themselves are not needed once the tables are there. *)
Record element_1d_integrate := {
  nodes_count_1d : nat;
  weights_1d : list T;
  NInQuad_1d : list T;
  NxiInQuad_1d : list T
}.

(** [element_2d_integrate], likewise. *)
Record element_2d_integrate := {
  nodes_count_2d : nat;
  weights_2d : list T;
  NInQuad_2d : list T;
  NxiInQuad_2d : list T;
  NetaInQuad_2d : list T
}.

(** The common face of the two, [element_integrate_base]: what the
    integration loops of the solvers call. *)
Class element_integrate_base (E : Type) := {
  nodes_count : E -> nat;
  qnodes_count : E -> nat;
  weight : E -> nat -> T;
  qN : E -> nat -> nat -> T;
  qNxi : E -> nat -> nat -> T
}.

#[export] Instance integrate_1d : element_integrate_base element_1d_integrate := {
  nodes_count := nodes_count_1d;
  qnodes_count := fun el => length (weights_1d el);
  weight := fun el q => weights_1d el !!! q;
  qN := fun el i q => NInQuad_1d el !!! (i * length (weights_1d el) + q);
  qNxi := fun el i q => NxiInQuad_1d el !!! (i * length (weights_1d el) + q)
}.

#[export] Instance integrate_2d : element_integrate_base element_2d_integrate := {
  nodes_count := nodes_count_2d;
  qnodes_count := fun el => length (weights_2d el);
  weight := fun el q => weights_2d el !!! q;
  qN := fun el i q => NInQuad_2d el !!! (i * length (weights_2d el) + q);
  qNxi := fun el i q => NxiInQuad_2d el !!! (i * length (weights_2d el) + q)
}.

(** [element_2d_integrate_base] adds the second derivative table. *)
Definition qNeta (el : element_2d_integrate) (i q : nat) : T :=
  NetaInQuad_2d el !!! (i * length (weights_2d el) + q).

(** [geometry_1d<Type, Shape_Type>::boundary(bound)]: the entry of the
    static array [Shape_Type<Type>::boundary] at [static_cast<size_t>(bound)]. *)
Definition geometry_1d (boundary : list T) (bound : side_1d.t) : T :=
  boundary !!! match bound with side_1d.LEFT => 0 | side_1d.RIGHT => 1 end.

(** [quadrature_base<Type>], declared outside the sources at hand: the
    members that [set] calls. *)
Record quadrature_base := {
  quad_nodes_count : nat;
  quad_node : nat -> T;
  quad_weight : nat -> T;
  quad_boundary : side_1d.t -> T
}.

(** The base [element_1d<Type, Element_Type>] of [element_1d_integrate]:
    the shape functions, their derivatives and the geometry. *)
Record element_1d := {
  element_1d_nodes_count : nat;
  N_1d : nat -> T -> T;
  Nxi_1d : nat -> T -> T;
  boundary_1d : side_1d.t -> T
}.

(** The base [element_2d<Type, Element_Type>] of [element_2d_integrate]. *)
Record element_2d := {
  element_2d_nodes_count : nat;
  N_2d : nat -> T -> T -> T;
  Nxi_2d : nat -> T -> T -> T;
  Neta_2d : nat -> T -> T -> T;
  boundary_2d : side_2d.t -> T -> T
}.

(** [element_1d_integrate::set(quad)] on the object [this] whose base is
    [shape], in the three steps of its body.  First the Jacobian of the map
    from the segment of the quadrature onto that of the element. *)
Definition set_1d_jacobian (shape : element_1d) (quad : quadrature_base) : T :=
  div (sub (boundary_1d shape side_1d.RIGHT) (boundary_1d shape side_1d.LEFT))
      (sub (quad_boundary quad side_1d.RIGHT) (quad_boundary quad side_1d.LEFT)).

(** The first loop: the local vector [xi] and the member [weights], over
    [q < qnodes_count()], which is [weights.size()]. *)
Definition set_1d_nodes (shape : element_1d) (this : element_1d_integrate)
    (quad : quadrature_base) : list T * list T :=
  let jacobian := set_1d_jacobian shape quad in
  let weights := vector_resize zero (quad_nodes_count quad) (weights_1d this) in
  foldl (fun (s : list T * list T) q =>
           (<[q := add (boundary_1d shape side_1d.LEFT)
                       (mul (sub (quad_node quad q) (quad_boundary quad side_1d.LEFT))
                            jacobian)]> s.1,
            <[q := mul (quad_weight quad q) jacobian]> s.2))
        (replicate (quad_nodes_count quad) zero, weights) (seq 0 (length weights)).

(** The second loop nest: the tables [NInQuad] and [NxiInQuad]. *)
Definition set_1d_tables (shape : element_1d) (this : element_1d_integrate)
    (xi : list T) (qnodes_count : nat) : list T * list T :=
  let nodes_count := element_1d_nodes_count shape in
  foldl (fun tables i =>
    foldl (fun (s : list T * list T) q =>
             (<[i * qnodes_count + q := N_1d shape i (xi !!! q)]> s.1,
              <[i * qnodes_count + q := Nxi_1d shape i (xi !!! q)]> s.2))
          tables (seq 0 qnodes_count))
    (vector_resize zero (qnodes_count * nodes_count) (NInQuad_1d this),
     vector_resize zero (qnodes_count * nodes_count) (NxiInQuad_1d this))
    (seq 0 nodes_count).

Definition set_1d (shape : element_1d) (this : element_1d_integrate)
    (quad : quadrature_base) : element_1d_integrate :=
  let xi_weights := set_1d_nodes shape this quad in
  let tables := set_1d_tables shape this xi_weights.1 (length xi_weights.2) in
  {| nodes_count_1d := element_1d_nodes_count shape; weights_1d := xi_weights.2;
     NInQuad_1d := tables.1; NxiInQuad_1d := tables.2 |}.

(** The local vectors of [element_2d_integrate::set] and the member
    [weights]. *)
Record set_2d_nodes := {
  jacobianEta : list T;
  xi : list T;
  eta : list T;
  weights : list T
}.

(** [element_2d_integrate::set(quadXi, quadEta)], likewise. *)
Definition set_2d_jacobianXi (shape : element_2d) (quadXi : quadrature_base) : T :=
  div (sub (boundary_2d shape side_2d.RIGHT zero) (boundary_2d shape side_2d.LEFT zero))
      (sub (quad_boundary quadXi side_1d.RIGHT) (quad_boundary quadXi side_1d.LEFT)).

(** One turn of the loop over the nodes of [quadXi]: [xi[i]] and
    [jacobianEta[i]] are stored, then the loop over the nodes of [quadEta]
    stores [eta[j]] and the weight of the pair. *)
Definition set_2d_row (shape : element_2d) (quadXi quadEta : quadrature_base)
    (s : set_2d_nodes) (i : nat) : set_2d_nodes :=
  let jacobianXi := set_2d_jacobianXi shape quadXi in
  let xi_i :=
    add (boundary_2d shape side_2d.LEFT zero)
        (mul (sub (quad_node quadXi i) (quad_boundary quadXi side_1d.LEFT)) jacobianXi) in
  let s := {| jacobianEta := jacobianEta s; xi := <[i := xi_i]> (xi s);
              eta := eta s; weights := weights s |} in
  let jacobianEta_i :=
    div (sub (boundary_2d shape side_2d.UP (xi s !!! i))
             (boundary_2d shape side_2d.DOWN (xi s !!! i)))
        (sub (quad_boundary quadEta side_1d.RIGHT) (quad_boundary quadEta side_1d.LEFT)) in
  let s := {| jacobianEta := <[i := jacobianEta_i]> (jacobianEta s); xi := xi s;
              eta := eta s; weights := weights s |} in
  foldl (fun s j =>
           {| jacobianEta := jacobianEta s; xi := xi s;
              eta := <[j := add (boundary_2d shape side_2d.DOWN (xi s !!! i))
                                (mul (sub (quad_node quadEta j)
                                          (quad_boundary quadEta side_1d.LEFT))
                                     (jacobianEta s !!! i))]> (eta s);
              weights :=
                <[i * quad_nodes_count quadEta + j :=
                    mul (mul (mul (quad_weight quadXi i) jacobianXi)
                             (quad_weight quadEta j))
                        (jacobianEta s !!! i)]> (weights s) |})
        s (seq 0 (quad_nodes_count quadEta)).

Definition set_2d_quadrature (shape : element_2d) (this : element_2d_integrate)
    (quadXi quadEta : quadrature_base) : set_2d_nodes :=
  foldl (set_2d_row shape quadXi quadEta)
        {| jacobianEta := replicate (quad_nodes_count quadXi) zero;
           xi := replicate (quad_nodes_count quadXi) zero;
           eta := replicate (quad_nodes_count quadEta) zero;
           weights :=
             vector_resize zero (quad_nodes_count quadXi * quad_nodes_count quadEta)
                           (weights_2d this) |}
        (seq 0 (quad_nodes_count quadXi)).

(** The second loop nest: the three tables. *)
Definition set_2d_tables (shape : element_2d) (this : element_2d_integrate)
    (quadXi quadEta : quadrature_base) (xi eta : list T) (qnodes_count : nat)
    : list T * list T * list T :=
  let nodes_count := element_2d_nodes_count shape in
  foldl (fun tables i =>
    foldl (fun tables j =>
      foldl (fun (s : list T * list T * list T) k =>
               let p := i * qnodes_count + j * quad_nodes_count quadEta + k in
               (<[p := N_2d shape i (xi !!! j) (eta !!! k)]> s.1.1,
                <[p := Nxi_2d shape i (xi !!! j) (eta !!! k)]> s.1.2,
                <[p := Neta_2d shape i (xi !!! j) (eta !!! k)]> s.2))
            tables (seq 0 (quad_nodes_count quadEta)))
      tables (seq 0 (quad_nodes_count quadXi)))
    (vector_resize zero (qnodes_count * nodes_count) (NInQuad_2d this),
     vector_resize zero (qnodes_count * nodes_count) (NxiInQuad_2d this),
     vector_resize zero (qnodes_count * nodes_count) (NetaInQuad_2d this))
    (seq 0 nodes_count).

Definition set_2d (shape : element_2d) (this : element_2d_integrate)
    (quadXi quadEta : quadrature_base) : element_2d_integrate :=
  let nodes := set_2d_quadrature shape this quadXi quadEta in
  let tables :=
    set_2d_tables shape this quadXi quadEta (xi nodes) (eta nodes)
                  (length (weights nodes)) in
  {| nodes_count_2d := element_2d_nodes_count shape; weights_2d := weights nodes;
     NInQuad_2d := tables.1.1; NxiInQuad_2d := tables.1.2; NetaInQuad_2d := tables.2 |}.

End defs.
Arguments element_1d_integrate T : clear implicits.
Arguments element_2d_integrate T : clear implicits.
Arguments quadrature_base T : clear implicits.
Arguments element_1d T : clear implicits.
Arguments element_2d T : clear implicits.
Arguments set_2d_nodes T : clear implicits.
End finite_element.

(** ** The indexer of [finite_element_solver_base] *)

Inductive theory := LOCAL | NONLOCAL.
Inductive index_stage := SHIFTS | NONZERO.

Module indexator.
Import Eigen.

Section defs.
Context {T : Type} `{!Scalar T}.

(** The template parameter [DoF] and the members fixed at construction. *)
Variable DoF : nat.
Variable _inner_nodes : list bool.
Variable _node_shift : nat.

Record t := {
  _K_inner : SparseMatrix T;
  _K_bound : SparseMatrix T;
  _inner : list (list bool);
  _bound : list (list bool);
  _inner_index : list nat;
  _bound_index : list nat
}.

(** The constructor: [DoF] cleared bitsets of the size of [_inner_nodes]
    for each matrix, and zero cursors. *)
Definition make (K_inner K_bound : SparseMatrix T) : t :=
  {| _K_inner := K_inner; _K_bound := K_bound;
     _inner := replicate DoF (replicate (length _inner_nodes) false);
     _bound := replicate DoF (replicate (length _inner_nodes) false);
     _inner_index := replicate DoF 0;
     _bound_index := replicate DoF 0 |}.

(** [std::fill(std::next(v.begin(), k), v.end(), false)]. *)
Definition fill_from (k : nat) (v : list bool) : list bool :=
  take k v ++ replicate (length v - k) false.

(** One turn of the loop of [fill]. *)
Definition fill_component (node : nat) (ind : t) (i : nat) : t :=
  {| _K_inner := _K_inner ind; _K_bound := _K_bound ind;
     _inner := <[i := fill_from (DoF * node) (_inner ind !!! i)]> (_inner ind);
     _bound := <[i := fill_from 0 (_bound ind !!! i)]> (_bound ind);
     _inner_index :=
       <[i := outerIndexPtr (_K_inner ind) !!! (DoF * (node - _node_shift) + i)]>
         (_inner_index ind);
     _bound_index :=
       <[i := outerIndexPtr (_K_bound ind) !!! (DoF * (node - _node_shift) + i)]>
         (_bound_index ind) |}.

Definition fill (ind : t) (node : nat) : t :=
  foldl (fill_component node) ind (seq 0 DoF).

(** [stage<Stage>(K, inner, inner_index, row, col)]: the three
    references it receives are returned updated. *)
Definition stage (Stage : index_stage) (K : SparseMatrix T)
    (inner : list (list bool)) (inner_index : list nat) (row col : nat)
    : SparseMatrix T * list (list bool) * list nat :=
  let i := row mod DoF in
  if negb ((inner !!! i) !!! col) then
    let K' :=
      match Stage with
      | SHIFTS =>
          let k := row - DoF * _node_shift + 1 in
          set_outer K (<[k := S (outerIndexPtr K !!! k)]> (outerIndexPtr K))
      | NONZERO =>
          set_inner (set_values K (<[inner_index !!! i := zero]> (valuePtr K)))
                    (<[inner_index !!! i := col]> (innerIndexPtr K))
      end in
    let inner_index' :=
      match Stage with
      | SHIFTS => inner_index
      | NONZERO => <[i := S (inner_index !!! i)]> inner_index
      end in
    (K', <[i := <[col := true]> (inner !!! i)]> inner, inner_index')
  else (K, inner, inner_index).

(** [stage<Stage>(_K_inner, _inner, _inner_index, row, col)]. *)
Definition stage_inner (Stage : index_stage) (ind : t) (row col : nat) : t :=
  let '(K, seen, cursor) :=
    stage Stage (_K_inner ind) (_inner ind) (_inner_index ind) row col in
  {| _K_inner := K; _K_bound := _K_bound ind;
     _inner := seen; _bound := _bound ind;
     _inner_index := cursor; _bound_index := _bound_index ind |}.

(** [stage<Stage>(_K_bound, _bound, _bound_index, row, col)]. *)
Definition stage_bound (Stage : index_stage) (ind : t) (row col : nat) : t :=
  let '(K, seen, cursor) :=
    stage Stage (_K_bound ind) (_bound ind) (_bound_index ind) row col in
  {| _K_inner := _K_inner ind; _K_bound := K;
     _inner := _inner ind; _bound := seen;
     _inner_index := _inner_index ind; _bound_index := cursor |}.

(** The body of the two loops of [index], for one pair of degrees of
    freedom. *)
Definition index_pair (Stage : index_stage) (ind : t) (row col : nat) : t :=
  if (_inner_nodes !!! row) && (_inner_nodes !!! col) then
    if bool_decide (row <= col) then stage_inner Stage ind row col else ind
  else if negb (bool_decide (row = col)) then
    if negb (_inner_nodes !!! col) then stage_bound Stage ind row col else ind
  else stage_inner Stage ind row col.

(** [index<Stage>(block_row, block_col)]. *)
Definition index (Stage : index_stage) (ind : t) (block_row block_col : nat) : t :=
  foldl (fun ind comp_row =>
    foldl (fun ind comp_col =>
      index_pair Stage ind (DoF * block_row + comp_row) (DoF * block_col + comp_col))
      ind (seq 0 DoF))
    ind (seq 0 DoF).

End defs.
End indexator.

(** ** Exceptions *)

(** The exceptions the sources throw, and [std::length_error], which the
    constructor of [std::vector] throws for a count above [max_size()]; in
    C++ it derives from [std::logic_error]. *)
Inductive exception :=
  | invalid_argument
  | logic_error
  | domain_error
  | length_error.

(** ** The two-dimensional mesh and its proxy *)

(** The headers of [mesh::mesh_2d] and [mesh::mesh_proxy] are not part of the
    sources at hand: the accessors the solver calls are the fields of these
    records. *)
Module mesh.

Record mesh_2d (T : Type) := {
  nodes_count_all : nat;                    (* nodes_count() *)
  elements_count_2d : nat;                  (* elements_count() *)
  element_2d : nat -> finite_element.element_2d_integrate T;
                                            (* element_2d(element_2d_type(el)) *)
  nodes_count : nat -> nat;                 (* nodes_count(e) *)
  node_number : nat -> nat -> nat;          (* node_number(e, i) *)
  node : nat -> T * T;                      (* node(n) *)
  boundary_groups_count : nat;              (* boundary_groups_count() *)
  elements_count : nat -> nat;              (* elements_count(b) *)
  nodes_count_1d : nat -> nat -> nat;       (* element_1d(b, el)->nodes_count() *)
  node_number_1d : nat -> nat -> nat -> nat (* node_number(b, el, i) *)
}.
Arguments nodes_count_all {T} _.
Arguments elements_count_2d {T} _.
Arguments element_2d {T} _ _.
Arguments nodes_count {T} _ _.
Arguments node_number {T} _ _ _.
Arguments node {T} _ _.
Arguments boundary_groups_count {T} _.
Arguments elements_count {T} _ _.
Arguments nodes_count_1d {T} _ _ _.
Arguments node_number_1d {T} _ _ _ _.

Record mesh_proxy (T : Type) := {
  mesh : mesh_2d T;
  first_node : nat;
  last_node : nat;
  nodes_elements_map : nat -> list nat;
  neighbors : nat -> list nat
}.
Arguments mesh {T} _.
Arguments first_node {T} _.
Arguments last_node {T} _.
Arguments nodes_elements_map {T} _ _.
Arguments neighbors {T} _ _.

End mesh.

(** ** [finite_element_solver_base] *)

Inductive boundary_type := FIRST_KIND | SECOND_KIND.

#[export] Instance boundary_type_eq_dec : EqDecision boundary_type.
Proof. solve_decision. Defined.

(** [boundary_condition<T, B, DoF>]: a kind and a function per component. *)
Record boundary_condition (T : Type) := {
  type : nat -> boundary_type;
  func : nat -> T * T -> T
}.
Arguments type {T} _ _.
Arguments func {T} _ _ _.

Module finite_element_solver_base.
Import Eigen mesh.

Section defs.
Context {T : Type} `{!Scalar T}.

(** The object: its only member is the shared pointer [_mesh_proxy],
    [None] when it is null. *)
Record t := { _mesh_proxy : option (mesh_proxy T) }.

(** A member function that may throw: the object after the call together
    with the exception or the returned value.  A throwing call hands back
    the object as the throw left it. *)
Definition method (A : Type) : Type := t -> t * (exception + A).

Definition set_mesh (mesh_proxy : option (mesh_proxy T)) : method unit :=
  fun this =>
    match mesh_proxy with
    | None => (this, inl invalid_argument)
    | Some p => ({| _mesh_proxy := Some p |}, inr tt)
    end.

(** The constructor runs [set_mesh] on the default-initialised member;
    when it throws no object comes to exist. *)
Definition construct (mesh : option (mesh_proxy T)) : exception + t :=
  match set_mesh mesh {| _mesh_proxy := None |} with
  | (this, inr _) => inr this
  | (_, inl e) => inl e
  end.

(** The objects a program can hold: built by the constructor and then
    passed through any number of [set_mesh] calls, throwing or not. *)
Inductive constructed : t -> Prop :=
  | constructed_new mesh this :
      construct mesh = inr this -> constructed this
  | constructed_set_mesh mesh this :
      constructed this -> constructed (set_mesh mesh this).1.

(** The assembly half works on a proxy that is there. *)
Variable proxy : mesh_proxy T.
Variable DoF : nat.

(** The block columns [index] is called with for the row block [node],
    in the order of the loops of [mesh_index]. *)
Definition mesh_index_node (Stage : index_stage) (Theory : theory)
    (inner_nodes : list bool)
    (ind : indexator.t) (node : nat) : indexator.t :=
  let index := indexator.index DoF inner_nodes (first_node proxy) Stage in
  foldl (fun ind eL =>
    match Theory with
    | LOCAL =>
        foldl (fun ind jL => index ind node (node_number (mesh proxy) eL jL))
              ind (seq 0 (nodes_count (mesh proxy) eL))
    | NONLOCAL =>
        foldl (fun ind eNL =>
          foldl (fun ind jNL => index ind node (node_number (mesh proxy) eNL jNL))
                ind (seq 0 (nodes_count (mesh proxy) eNL)))
          ind (neighbors proxy eL)
    end)
    (indexator.fill DoF (first_node proxy) ind node)
    (nodes_elements_map proxy node).

(** [mesh_index<DoF, Stage, Theory>(K_inner, K_bound, inner_nodes)], the
    nodes taken in increasing order.  Each thread of the parallel loop
    works on its own copy of the indexer and [fill] resets that copy at
    every node, so the order in which the nodes are taken does not show
    in the matrices. *)
Definition mesh_index (Stage : index_stage) (Theory : theory)
    (K_inner K_bound : SparseMatrix T) (inner_nodes : list bool)
    : SparseMatrix T * SparseMatrix T :=
  let ind :=
    foldl (mesh_index_node Stage Theory inner_nodes)
          (indexator.make DoF inner_nodes K_inner K_bound)
          (seq (first_node proxy) (last_node proxy - first_node proxy)) in
  (indexator._K_inner ind, indexator._K_bound ind).

(** The cells that [K.data().resize] allocates hold arbitrary data. *)
Variable fresh_index : nat -> nat.
Variable fresh_value : nat -> T.

Definition prepare_memory (K : SparseMatrix T) : SparseMatrix T :=
  let outer :=
    foldl (fun o i => <[S i := o !!! S i + o !!! i]> o)
          (outerIndexPtr K) (seq 0 (rows K)) in
  let n := outer !!! rows K in
  {| rows := rows K; cols := cols K; outerIndexPtr := outer;
     innerIndexPtr := resize fresh_index n (innerIndexPtr K);
     valuePtr := resize fresh_value n (valuePtr K) |}.

(** [std::sort(&v[a], &v[b])] on the index array. *)
Definition sort_range (a b : nat) (v : list nat) : list nat :=
  take a v ++ merge_sort le (take (b - a) (drop a v)) ++ drop b v.

Definition sort_indices (K : SparseMatrix T) : SparseMatrix T :=
  foldl (fun K i =>
    set_inner K (sort_range (outerIndexPtr K !!! i) (outerIndexPtr K !!! S i)
                            (innerIndexPtr K)))
    K (seq 0 (rows K)).

(** Modelled from the spec: the caller of [mesh_index] (the portrait
    builder of the two-dimensional solvers) is not among the sources.
    Section 4.3 gives its steps: pass S counts the entries of each row,
    the counters are prefix-summed into [outer] and the arrays are sized,
    pass N writes the columns, and the column lists are sorted per row. *)
Definition create_matrix_portrait (Theory : theory) (inner_nodes : list bool)
    : SparseMatrix T * SparseMatrix T :=
  let rows := DoF * (last_node proxy - first_node proxy) in
  let cols := DoF * nodes_count_all (mesh proxy) in
  let '(K_inner, K_bound) :=
    mesh_index SHIFTS Theory (make rows cols) (make rows cols) inner_nodes in
  let K_inner := prepare_memory K_inner in
  let K_bound := prepare_memory K_bound in
  let '(K_inner, K_bound) := mesh_index NONZERO Theory K_inner K_bound inner_nodes in
  (sort_indices K_inner, sort_indices K_bound).

(** [boundary_nodes_run(callback)], the callback threading a state. *)
Definition boundary_nodes_run {S : Type} (callback : S -> nat -> nat -> nat -> S)
    (s : S) : S :=
  foldl (fun s b =>
    foldl (fun s el =>
      foldl (fun s i => callback s b el i)
            s (seq 0 (nodes_count_1d (mesh proxy) b el)))
      s (seq 0 (elements_count (mesh proxy) b)))
    s (seq 0 (boundary_groups_count (mesh proxy))).

(** The first callback of [boundary_condition_first_kind]: it fills the
    vector [x] of the prescribed values. *)
Definition first_kind_value (bounds_cond : list (boundary_condition T))
    (x : list T) (b el i : nat) : list T :=
  match bounds_cond !! b with
  | None => x
  | Some bc =>
      foldl (fun x comp =>
        if decide (type bc comp = FIRST_KIND) then
          let node := DoF * node_number_1d (mesh proxy) b el i + comp in
          if eqb (x !!! node) zero
          then <[node := func bc comp (mesh.node (mesh proxy) node)]> x
          else x
        else x)
        x (seq 0 DoF)
  end.

Definition first_kind_values (bounds_cond : list (boundary_condition T))
    (K_bound : SparseMatrix T) : list T :=
  boundary_nodes_run (first_kind_value bounds_cond) (replicate (cols K_bound) zero).

(** The product [K_bound * x], row by row. *)
Definition row_times (K : SparseMatrix T) (x : list T) (r : nat) : T :=
  foldl (fun acc cv => add acc (mul cv.2 (x !!! cv.1))) zero
        (zip (row_indices K r) (row_values K r)).

(** The second callback: the rows of the first-kind degrees of freedom
    this rank owns receive the prescribed value. *)
Definition first_kind_row (bounds_cond : list (boundary_condition T))
    (x : list T) (f : list T) (b el i : nat) : list T :=
  match bounds_cond !! b with
  | None => f
  | Some bc =>
      foldl (fun f comp =>
        if decide (type bc comp = FIRST_KIND) then
          let node := DoF * node_number_1d (mesh proxy) b el i + comp in
          if bool_decide (DoF * first_node proxy <= node)
             && bool_decide (node < DoF * last_node proxy)
          then <[node - DoF * first_node proxy := x !!! node]> f
          else f
        else f)
        f (seq 0 DoF)
  end.

Definition boundary_condition_first_kind (f : list T)
    (bounds_cond : list (boundary_condition T)) (K_bound : SparseMatrix T)
    : list T :=
  let x := first_kind_values bounds_cond K_bound in
  let f := imap (fun r fr => sub fr (row_times K_bound x r)) f in
  boundary_nodes_run (first_kind_row bounds_cond x) f.

Context `{!Scalar_functions T}.
Import finite_element.

(** [jacobian(const std::array<T, 4>&)] and [jacobian(const std::array<T, 2>&)]. *)
Definition jacobian_2d (J : T * T * T * T) : T :=
  let '(J0, J1, J2, J3) := J in abs (sub (mul J0 J3) (mul J1 J2)).

Definition jacobian_1d (J : T * T) : T :=
  sqrt (add (mul J.1 J.1) (mul J.2 J.2)).

(** What the integrals read through the proxy: [quad_coord_1d b e q] and
    [jacobi_matrix_1d b e q] are the entries that the iterators
    [mesh_proxy()->quad_coord(b, e)] and [mesh_proxy()->jacobi_matrix(b, e)]
    reach after [q] increments. *)
Variable quad_coord_1d : nat -> nat -> nat -> T * T.
Variable jacobi_matrix_1d : nat -> nat -> nat -> T * T.
Variable element_1d : nat -> nat -> finite_element.element_1d_integrate T.

Definition integrate_boundary_gradient (b e i : nat) (boundary_gradient : T * T -> T) : T :=
  let be := element_1d b e in
  foldl (fun integral q =>
           add integral
               (mul (mul (mul (finite_element.weight be q) (finite_element.qN be i q))
                         (boundary_gradient (quad_coord_1d b e q)))
                    (jacobian_1d (jacobi_matrix_1d b e q))))
        zero (seq 0 (finite_element.qnodes_count be)).

(** [integrate_boundary_condition_second_kind(f, bounds_cond)]; the loop
    runs over the conditions, [bounds_cond.size()] of them. *)
Definition integrate_boundary_condition_second_kind (f : list T)
    (bounds_cond : list (boundary_condition T)) : list T :=
  foldl (fun f b =>
    match bounds_cond !! b with
    | None => f
    | Some bc =>
        foldl (fun f comp =>
          if decide (type bc comp = SECOND_KIND) then
            foldl (fun f e =>
              foldl (fun f i =>
                let node := DoF * node_number_1d (mesh proxy) b e i + comp in
                if bool_decide (DoF * first_node proxy <= node)
                   && bool_decide (node < DoF * last_node proxy)
                then <[node - DoF * first_node proxy :=
                         add (f !!! (node - DoF * first_node proxy))
                             (integrate_boundary_gradient b e i (func bc comp))]> f
                else f)
                f (seq 0 (finite_element.nodes_count (element_1d b e))))
              f (seq 0 (elements_count (mesh proxy) b))
          else f)
          f (seq 0 DoF)
    end) f (seq 0 (length bounds_cond)).

End defs.
End finite_element_solver_base.

(** ** Outcomes of a call *)

(** A call returns, throws, or runs into undefined behaviour by writing
    outside a vector.  The last case is kept apart wherever a statement is
    about a function returning normally. *)
Inductive outcome (A : Type) :=
  | returned (a : A)
  | thrown (e : exception)
  | undefined.
Arguments returned {A} _.
Arguments thrown {A} _.
Arguments undefined {A}.

#[export] Instance outcome_bind : MBind outcome := fun A B f o =>
  match o with
  | returned a => f a
  | thrown e => thrown e
  | undefined => undefined
  end.

#[export] Instance outcome_ret : MRet outcome := fun A a => returned a.

(** [v[k] = f(v[k])] on a vector. *)
Definition update_at {A} (k : nat) (f : A -> A) (v : list A) : outcome (list A) :=
  match v !! k with
  | Some a => returned (<[k := f a]> v)
  | None => undefined
  end.

(** [v.back()], read after the size of [v] is known to be positive. *)
Definition back (v : list nat) : nat := default 0 (last v).

(** The shift vectors of the geometry precomputations are [std::vector<I>]
    for the index type [I] of the mesh, a template parameter that
    [thermal.cpp] sets to [int] and [static_analysis.cpp] to [uint32_t], and
    the functions that receive them test their size only: what they hold is
    an integer, negative or not. *)

(** [v.back()] on such a vector. *)
Definition back_I (v : list Z) : Z := default 0%Z (last v).

(** [std::vector<A> data(n)] for a count [n] of type [I].  The count is
    converted to [size_t]; a negative one lands above [max_size()], and the
    constructor throws [std::length_error].  A count that is not negative
    is, for the 32-bit index types of the repository, below [max_size()]. *)
Definition vector_of_size {A} (cleared : A) (n : Z) : outcome (list A) :=
  if decide (n < 0)%Z then thrown length_error
  else returned (replicate (Z.to_nat n) cleared).

(** [v[k]] and [v[k] = f(v[k])] for an index [k] that is the sum of a value
    of type [I] and of [size_t] offsets.  The sum is taken in [size_t]: it is
    [k] when [k] is not negative, and lies past the end of every vector
    when it is. *)
Definition lookup_I {A} (k : Z) (v : list A) : option A :=
  if decide (k < 0)%Z then None else v !! Z.to_nat k.

Definition update_at_I {A} (k : Z) (f : A -> A) (v : list A) : outcome (list A) :=
  if decide (k < 0)%Z then undefined else update_at (Z.to_nat k) f v.

(** ** [finite_element_routine]: geometry in all quadrature nodes *)

Module finite_element_routine.
Import finite_element mesh.

Section defs.
Context {T : Type} `{!Scalar T}.
Variable mesh : mesh_2d T.

(** [mesh_run_loc(mesh, rule)], the rule threading a state and the
    elements taken in increasing order. *)
Definition mesh_run_loc {S : Type} (rule : S -> nat -> nat -> nat -> S) (s : S) : S :=
  foldl (fun s el =>
    let e := element_2d mesh el in
    foldl (fun s i =>
      foldl (fun s j => rule s i j el) s (seq 0 (finite_element.nodes_count e)))
      s (seq 0 (finite_element.nodes_count e)))
    s (seq 0 (elements_count_2d mesh)).

Definition quadrature_shifts_init : list Z :=
  foldl (fun shifts el =>
           <[S el := (shifts !!! el + Z.of_nat (qnodes_count (element_2d mesh el)))%Z]>
             shifts)
        (replicate (elements_count_2d mesh + 1) 0%Z)
        (seq 0 (elements_count_2d mesh)).

(** The loops shared by [approx_all_quad_nodes] and
    [approx_all_jacobi_matrices]: after the size check, a vector of
    [shifts.back()] cleared entries receives at [shifts[el] + q] the
    contribution of every node [i] of the element [el]. *)
Definition accumulate_in_quad_nodes {A} (cleared : A)
    (contribution : nat -> nat -> nat -> A -> A) (shifts : list Z)
    : outcome (list A) :=
  if decide (elements_count_2d mesh + 1 ≠ length shifts) then thrown logic_error
  else
    coords ← vector_of_size cleared (back_I shifts);
    foldl (fun data el =>
      let e := element_2d mesh el in
      foldl (fun data q =>
        foldl (fun data i =>
                 data ≫= update_at_I (shifts !!! el + Z.of_nat q)%Z (contribution el q i))
              data (seq 0 (finite_element.nodes_count e)))
        data (seq 0 (qnodes_count e)))
      (returned coords)
      (seq 0 (elements_count_2d mesh)).

(** [coords[shifts[el]+q][comp] += node(node_number(el, i))[comp] * qN(i, q)]
    for [comp] 0 and 1. *)
Definition approx_all_quad_nodes (shifts : list Z) : outcome (list (T * T)) :=
  accumulate_in_quad_nodes (zero, zero)
    (fun el q i c =>
       let e := element_2d mesh el in
       let n := node mesh (node_number mesh el i) in
       (add c.1 (mul n.1 (qN e i q)), add c.2 (mul n.2 (qN e i q))))
    shifts.

(** The four entries of the Jacobi matrix, in the order of the source. *)
Definition approx_all_jacobi_matrices (shifts : list Z)
    : outcome (list (T * T * T * T)) :=
  accumulate_in_quad_nodes (zero, zero, zero, zero)
    (fun el q i J =>
       let e := element_2d mesh el in
       let n := node mesh (node_number mesh el i) in
       let '(J0, J1, J2, J3) := J in
       (add J0 (mul n.1 (qNxi e i q)), add J1 (mul n.1 (qNeta e i q)),
        add J2 (mul n.2 (qNxi e i q)), add J3 (mul n.2 (qNeta e i q))))
    shifts.

(** [mesh.element_neighbors(elL)]. *)
Variable element_neighbors : nat -> list nat.

(** [mesh_run_nonloc(mesh, rule)], the rule threading a state and the
    elements taken in increasing order. *)
Definition mesh_run_nonloc {S : Type} (rule : S -> nat -> nat -> nat -> nat -> S) (s : S)
    : S :=
  foldl (fun s elL =>
    let eL := element_2d mesh elL in
    foldl (fun s elNL =>
      let eNL := element_2d mesh elNL in
      foldl (fun s iL =>
        foldl (fun s jNL => rule s iL jNL elL elNL)
              s (seq 0 (finite_element.nodes_count eNL)))
        s (seq 0 (finite_element.nodes_count eL)))
      s (element_neighbors elL))
    s (seq 0 (elements_count_2d mesh)).

End defs.
End finite_element_routine.

(** ** [mesh::utils]: the same precomputations over [mesh_container_2d] *)

Module utils.

Section defs.
(** What the functions read of the container: the number of 2D elements
    and the number of quadrature nodes of each. *)
Variable elements_2d_count : nat.
Variable qnodes_count : nat -> nat.

(** [quadrature_shifts_2d(mesh, shift)]. *)
Definition quadrature_shifts_2d (shift : nat -> nat) : list Z :=
  foldl (fun quad_shifts e =>
           <[S e := (quad_shifts !!! e + Z.of_nat (shift e))%Z]> quad_shifts)
        (replicate (elements_2d_count + 1) 0%Z)
        (seq 0 elements_2d_count).

Definition elements_quadrature_shifts_2d : list Z :=
  quadrature_shifts_2d qnodes_count.

(** [approx_in_all_quad_nodes<Output>(mesh, qshifts, functor)]; the
    functor is applied to the data of the element [e] and to [q], and
    [cleared] is the value-initialised [Output<T, 2>]. *)
Definition approx_in_all_quad_nodes {A} (cleared : A) (qshifts : list Z)
    (functor : nat -> nat -> A) : outcome (list A) :=
  if decide (elements_2d_count + 1 ≠ length qshifts) then thrown logic_error
  else
    data ← vector_of_size cleared (back_I qshifts);
    foldl (fun data e =>
      foldl (fun data q =>
               data ≫= update_at_I (qshifts !!! e + Z.of_nat q)%Z (fun _ => functor e q))
            data (seq 0 (qnodes_count e)))
      (returned data)
      (seq 0 elements_2d_count).

(** The two users: the functors are [element_data.quad_coord] and
    [element_data.jacobi_matrix]. *)
Definition approx_all_quad_nodes {A} (cleared : A) (quad_coord : nat -> nat -> A)
    (qshifts : list Z) : outcome (list A) :=
  approx_in_all_quad_nodes cleared qshifts quad_coord.

Definition approx_all_jacobi_matrices {A} (cleared : A)
    (jacobi_matrix : nat -> nat -> A) (qshifts : list Z) : outcome (list A) :=
  approx_in_all_quad_nodes cleared qshifts jacobi_matrix.

End defs.

Import finite_element.

Section container.
Context {T : Type} `{!Scalar T} `{!Scalar_functions T}.

(** What the functions below read of [mesh_container_2d]: [nodes_count()],
    the node lists [nodes(e)] of the 2D elements, which are the elements
    [0 .. elements_2d_count()), and the element [element_2d(e)]. *)
Variable nodes_count : nat.
Variable nodes : list (list nat).
Variable element_2d : nat -> finite_element.element_2d_integrate T.

(** [node_elements_2d(mesh)]; a node number that is not below
    [nodes_count()] is a write outside the vector. *)
Definition node_elements_2d : outcome (list (list nat)) :=
  foldl (fun node_elements e =>
    foldl (fun node_elements node =>
             node_elements ≫= update_at node (fun elements => elements ++ [e]))
          node_elements (nodes !!! e))
    (returned (replicate nodes_count [])) (seq 0 (length nodes)).

(** [global_to_local(mesh)]: the maps are [std::unordered_map<I, uint8_t>],
    the local index is stored as a byte. *)
Definition global_to_local : list (gmap nat nat) :=
  foldl (fun global_to_local_numbering e =>
    foldl (fun numbering i =>
             <[e := <[(nodes !!! e) !!! i := i mod 256]> (numbering !!! e)]> numbering)
          global_to_local_numbering (seq 0 (length (nodes !!! e))))
    (replicate (length nodes) ∅) (seq 0 (length nodes)).

(** [element_node_shits_quadrature_shifts_2d(mesh)]. *)
Definition element_node_shits_quadrature_shifts_2d : list Z :=
  quadrature_shifts_2d (length nodes) (fun e =>
    finite_element.nodes_count (element_2d e) * finite_element.qnodes_count (element_2d e)).

(** [derivatives_in_quad]; a Jacobi matrix [J] is the pair of its rows.
    Reading a matrix that is not there is undefined as a write outside the
    result is.  The comparison of [quad_element_shifts.back()] with the size
    of [jacobi_matrices] is made in [size_t], where a negative shift is
    above every size. *)
Definition derivatives_in_quad (quad_element_shifts quad_nodes_shifts : list Z)
    (jacobi_matrices : list ((T * T) * (T * T))) : outcome (list (T * T)) :=
  if decide (length nodes + 1 ≠ length quad_element_shifts
             \/ length nodes + 1 ≠ length quad_nodes_shifts)
  then thrown logic_error
  else if decide (back_I quad_element_shifts ≠ Z.of_nat (length jacobi_matrices))
  then thrown logic_error
  else
    derivatives ← vector_of_size (zero, zero) (back_I quad_nodes_shifts);
    foldl (fun derivatives e =>
      let el := element_2d e in
      foldl (fun derivatives i =>
        foldl (fun derivatives q =>
          match lookup_I (quad_element_shifts !!! e + Z.of_nat q)%Z jacobi_matrices with
          | Some J =>
              derivatives ≫=
                update_at_I
                  (quad_nodes_shifts !!! e
                   + Z.of_nat (i * finite_element.qnodes_count el) + Z.of_nat q)%Z
                  (fun _ =>
                     (sub (mul (finite_element.qNxi el i q) J.2.2)
                          (mul (finite_element.qNeta el i q) J.2.1),
                      add (mul (opp (finite_element.qNxi el i q)) J.1.2)
                          (mul (finite_element.qNeta el i q) J.1.1)))
          | None => undefined
          end)
          derivatives (seq 0 (finite_element.qnodes_count el)))
        derivatives (seq 0 (finite_element.nodes_count el)))
      (returned derivatives)
      (seq 0 (length nodes)).

End container.
End utils.

(** ** [mesh_container_2d]: reading SU2 elements and writing VTK cells *)

Module mesh_container_2d.

Inductive element_2d_t :=
  | TRIANGLE
  | QUADRATIC_TRIANGLE
  | BILINEAR
  | QUADRATIC_SERENDIPITY
  | QUADRATIC_LAGRANGE
  | CUBIC_SERENDIPITY.

(** Modelled from the spec: the enumeration [vtk_element_number] is declared
    outside the sources at hand; section 6 lists its codes. *)
Definition vtk_TRIANGLE : nat := 5.
Definition vtk_QUADRATIC_TRIANGLE : nat := 22.
Definition vtk_BILINEAR : nat := 9.
Definition vtk_QUADRATIC_SERENDIPITY : nat := 23.
Definition vtk_QUADRATIC_LAGRANGE : nat := 28.

(** Modelled from the spec: [get_elements_set().model_to_local_2d(type)],
    the local tag of a VTK code of section 6; [None] for any other code. *)
Definition model_to_local_2d (type : nat) : option element_2d_t :=
  if decide (type = vtk_TRIANGLE) then Some TRIANGLE
  else if decide (type = vtk_QUADRATIC_TRIANGLE) then Some QUADRATIC_TRIANGLE
  else if decide (type = vtk_BILINEAR) then Some BILINEAR
  else if decide (type = vtk_QUADRATIC_SERENDIPITY) then Some QUADRATIC_SERENDIPITY
  else if decide (type = vtk_QUADRATIC_LAGRANGE) then Some QUADRATIC_LAGRANGE
  else None.

(** The index packs of the reader and of the writer, as the two [switch]
    statements spell them. *)
Definition read_pack (type : nat) : option (list nat) :=
  if decide (type = vtk_TRIANGLE) then Some [0; 1; 2]
  else if decide (type = vtk_QUADRATIC_TRIANGLE) then Some [0; 1; 2; 3; 4; 5]
  else if decide (type = vtk_BILINEAR) then Some [0; 1; 2; 3]
  else if decide (type = vtk_QUADRATIC_SERENDIPITY) then Some [0; 2; 4; 6; 1; 3; 5; 7]
  else if decide (type = vtk_QUADRATIC_LAGRANGE) then Some [0; 2; 4; 6; 1; 3; 5; 7; 8]
  else None.

Definition write_pack (type : element_2d_t) : option (list nat) :=
  match type with
  | TRIANGLE => Some [0; 1; 2]
  | QUADRATIC_TRIANGLE => Some [0; 1; 2; 3; 4; 5]
  | BILINEAR => Some [0; 1; 2; 3]
  | QUADRATIC_SERENDIPITY => Some [0; 2; 4; 6; 1; 3; 5; 7]
  | QUADRATIC_LAGRANGE => Some [0; 2; 4; 6; 1; 3; 5; 7; 8]
  | CUBIC_SERENDIPITY => None
  end.

(** An input stream: the blank-separated tokens still to be read and the
    fail bit. *)
Inductive token := word (s : string) | number (n : nat).
Record stream := { tokens : list token; failed : bool }.

(** [mesh_file >> pass] for a [std::string]. *)
Definition read_string (s : stream) : stream :=
  if failed s then s
  else match tokens s with
       | [] => {| tokens := []; failed := true |}
       | _ :: rest => {| tokens := rest; failed := false |}
       end.

(** [mesh_file >> n] for an integer [n] that holds [old]: a failed stream
    leaves it alone and a failing extraction stores zero. *)
Definition read_number (s : stream) (old : nat) : stream * nat :=
  if failed s then (s, old)
  else match tokens s with
       | number n :: rest => ({| tokens := rest; failed := false |}, n)
       | _ => ({| tokens := tokens s; failed := true |}, 0)
       end.

(** [read_element<K...>(mesh_file)]: the next token goes to the slot [k],
    for each [k] of the pack in turn. *)
Definition read_element (K : list nat) (mesh_file : stream) : list nat * stream :=
  foldl (fun '(element, s) k =>
           let '(s, v) := read_number s (element !!! k) in
           (<[k := v]> element, s))
        (replicate (length K) 0, mesh_file) K.

(** One turn of the loop of [read_elements_2d]. *)
Definition read_elements_2d_step
    (acc : outcome (list (list nat) * list element_2d_t * stream)) (e : nat)
    : outcome (list (list nat) * list element_2d_t * stream) :=
  '(elements_2d, elements_types_2d, s) ← acc;
  let '(s, type) := read_number s 0 in
  match model_to_local_2d type, read_pack type with
  | Some local, Some K =>
      let '(element, s) := read_element K s in
      returned (<[e := element]> elements_2d, <[e := local]> elements_types_2d,
                read_string s)
  | _, _ => thrown domain_error
  end.

Definition read_elements_2d (mesh_file : stream)
    : outcome (list (list nat) * list element_2d_t * stream) :=
  let s := read_string (read_string (read_string mesh_file)) in
  let '(s, elements_count) := read_number s 0 in
  foldl read_elements_2d_step
        (returned (replicate elements_count [], replicate elements_count TRIANGLE, s))
        (seq 0 elements_count).

(** [write_element(stream, element, std::index_sequence<K...>)]: the
    numbers written, in order. *)
Definition write_element (element : list nat) (K : list nat) : list nat :=
  (fun k => element !!! k) <$> K.

(** The CELLS block of [save_as_vtk]: one line of numbers per element, the
    node count first. *)
Definition save_cells (elements : list (list nat)) (types : list element_2d_t)
    : outcome (list (list nat)) :=
  foldl (fun lines '(element, type) =>
           lines ← lines;
           match write_pack type with
           | Some K => returned (lines ++ [length element :: write_element element K])
           | None => thrown domain_error
           end)
        (returned []) (zip elements types).

End mesh_container_2d.

(** ** The one-dimensional solver *)

Record equation_parameters (T : Type) := {
  lambda : T;
  rho : T;
  c : T;
  p1 : T;
  r : T
}.
Arguments lambda {T} _.
Arguments rho {T} _.
Arguments c {T} _.
Arguments p1 {T} _.
Arguments r {T} _.

Module finite_element_solver_base_1d.
Import Eigen finite_element.

Section defs.
Context {T : Type} `{!Scalar T}.

(** The header of [mesh::mesh_1d] is not part of the sources at hand: its
    accessors are the fields.  [node_elements(node).arr] holds two pairs
    (element, local index); a pair whose element is the sentinel
    [numeric_limits<size_t>::max()] is [None] here. *)
Record mesh_1d := {
  element : element_1d_integrate T;
  elements_count : nat;
  nodes_count_all : nat;
  jacobian : T;
  node_number : nat -> nat -> nat;
  node_elements : nat -> list (option (nat * nat));
  left_neighbour : nat -> nat;
  right_neighbour : nat -> nat;
  quad_coord : nat -> nat -> T
}.

Variable mesh : mesh_1d.

Definition stationary_boundary : Type := (boundary_type * T) * (boundary_type * T).

(** [for (q = 0; q < n; ++q) integral += term(q)]. *)
Definition sum_to (n : nat) (term : nat -> T) : T :=
  foldl (fun integral q => add integral (term q)) zero (seq 0 n).

Definition integrate_basic (e i : nat) : T :=
  let el := element mesh in
  mul (sum_to (qnodes_count el) (fun q => mul (weight el q) (qN el i q)))
      (jacobian mesh).

Definition integrate_basic_pair (e i j : nat) : T :=
  let el := element mesh in
  mul (sum_to (nodes_count el)
              (fun q => mul (mul (weight el q) (qN el i q)) (qN el j q)))
      (jacobian mesh).

Definition integrate_loc (e i j : nat) : T :=
  let el := element mesh in
  div (sum_to (qnodes_count el)
              (fun q => mul (mul (weight el q) (qNxi el i q)) (qNxi el j q)))
      (jacobian mesh).

Definition integrate_nonloc (eL eNL iL jNL : nat) (influence_function : T -> T -> T) : T :=
  let el := element mesh in
  sum_to (qnodes_count el) (fun qL =>
    let qcoordL := quad_coord mesh eL qL in
    let inner_integral :=
      sum_to (qnodes_count el) (fun qNL =>
        let qcoordNL := quad_coord mesh eNL qNL in
        mul (mul (weight el qNL) (influence_function qcoordL qcoordNL))
            (qNxi el jNL qNL)) in
    mul (mul (weight el qL) (qNxi el iL qL)) inner_integral).

(** [mesh_run<theory::LOCAL>(callback)], the callback threading a state
    and the nodes taken in increasing order. *)
Definition mesh_run_local {S : Type} (callback : S -> nat -> nat -> nat -> S) (s : S) : S :=
  foldl (fun s node =>
    foldl (fun s eLiL =>
      match eLiL with
      | Some (eL, iL) =>
          foldl (fun s jL => callback s eL iL jL) s
                (seq 0 (nodes_count (element mesh)))
      | None => s
      end) s (node_elements mesh node))
    s (seq 0 (nodes_count_all mesh)).

(** [mesh_run<theory::NONLOCAL>(callback)]. *)
Definition mesh_run_nonlocal {S : Type}
    (callback : S -> nat -> nat -> nat -> nat -> S) (s : S) : S :=
  foldl (fun s node =>
    foldl (fun s eLiL =>
      match eLiL with
      | Some (eL, iL) =>
          let start := left_neighbour mesh eL in
          foldl (fun s eNL =>
            foldl (fun s jNL => callback s eL eNL iL jNL) s
                  (seq 0 (nodes_count (element mesh))))
            s (seq start (right_neighbour mesh eL - start))
      | None => s
      end) s (node_elements mesh node))
    s (seq 0 (nodes_count_all mesh)).

(** Uninitialised cells, as in the two-dimensional solver. *)
Variable fresh_index : nat -> nat.
Variable fresh_value : nat -> T.

Definition prepare_memory (K : SparseMatrix T) : SparseMatrix T :=
  let outer :=
    foldl (fun o i => <[S i := o !!! S i + o !!! i]> o)
          (outerIndexPtr K) (seq 0 (rows K)) in
  let n := outer !!! rows K in
  {| rows := rows K; cols := cols K; outerIndexPtr := outer;
     innerIndexPtr := resize fresh_index n (innerIndexPtr K);
     valuePtr := resize fresh_value n (valuePtr K) |}.

Definition Nat_of_bool (b : bool) : nat := if b then 1 else 0.

(** The first loop nest of [create_matrix_portrait]: the number of entries
    of every row. *)
Definition portrait_counts (K_inner : SparseMatrix T)
    (boundary_first_kind : bool * bool) (nonlocal_task : bool) : SparseMatrix T :=
  let n := nodes_count (element mesh) in
  foldl (fun K e =>
    let right_neighbour := if nonlocal_task then right_neighbour mesh e else e + 1 in
    foldl (fun K i =>
      let row := e * (n - 1) + i + 1 in
      if boundary_first_kind.1 && bool_decide (row = 1)
         || boundary_first_kind.2 && bool_decide (row = nodes_count_all mesh)
      then set_outer K (<[row := 1]> (outerIndexPtr K))
      else
        let last_node_first_kind :=
          boundary_first_kind.2
          && bool_decide (right_neighbour * (n - 1) = nodes_count_all mesh - 1) in
        set_outer K
          (<[row := (right_neighbour - e) * (n - 1) - i + 1
                    - Nat_of_bool last_node_first_kind]> (outerIndexPtr K)))
      K (seq 0 n))
    K_inner (seq 0 (elements_count mesh)).

Definition create_matrix_portrait (K_inner : SparseMatrix T) (neumann_task : bool)
    (boundary_first_kind : bool * bool) (nonlocal_task : bool) : SparseMatrix T :=
  let K := portrait_counts K_inner boundary_first_kind nonlocal_task in
  let K :=
    if neumann_task
    then foldl (fun K row =>
                  set_outer K (<[S row := S (outerIndexPtr K !!! S row)]> (outerIndexPtr K)))
               K (seq 0 (rows K))
    else K in
  let K := prepare_memory K in
  let K :=
    if neumann_task
    then foldl (fun K row =>
                  set_inner K (<[outerIndexPtr K !!! S row - 1 := nodes_count_all mesh]>
                                 (innerIndexPtr K)))
               K (seq 0 (rows K))
    else K in
  foldl (fun K i =>
    let first := outerIndexPtr K !!! i in
    let last := outerIndexPtr K !!! S i in
    foldl (fun K d =>
      let j := first + d in
      let k := i + d in
      let K :=
        if bool_decide (j < last - Nat_of_bool neumann_task)
        then set_inner K (<[j := k]> (innerIndexPtr K))
        else K in
      set_values K (<[j := zero]> (valuePtr K)))
      K (seq 0 (last - first)))
    K (seq 0 (rows K)).

(** [calc_matrix]. The parameters [K_bound] and [boundary_first_kind] are
    captured by the callbacks and never used: the function leaves
    [K_bound] as it was, and only [K_inner] is returned. *)
Definition calc_matrix (K_inner : SparseMatrix T)
    (K_bound : list (nat * T) * list (nat * T))
    (neumann_task : bool) (boundary_first_kind : bool * bool)
    (integrate_rule_loc : nat -> nat -> nat -> T)
    (integrate_rule_nonloc : nat -> nat -> nat -> nat -> (T -> T -> T) -> T)
    (nonlocal_task : bool) (influence_fun : T -> T -> T) : SparseMatrix T :=
  let K :=
    if neumann_task then
      foldl (fun K node =>
        let K := coeffRef_update (fun val => val) K node (nodes_count_all mesh) in
        foldl (fun K ei =>
          match ei with
          | Some (e, i) =>
              coeffRef_update (fun val => add val (integrate_basic e i))
                              K node (nodes_count_all mesh)
          | None => K
          end) K (node_elements mesh node))
        K_inner (seq 0 (nodes_count_all mesh))
    else K_inner in
  let K :=
    mesh_run_local (fun K e i j =>
      let row := node_number mesh e i in
      let col := node_number mesh e j in
      if bool_decide (row <= col)
      then coeffRef_update (fun v => add v (integrate_rule_loc e i j)) K row col
      else K) K in
  if nonlocal_task then
    mesh_run_nonlocal (fun K eL eNL iL jNL =>
      let row := node_number mesh eL iL in
      let col := node_number mesh eNL jNL in
      if bool_decide (row <= col)
      then coeffRef_update
             (fun v => add v (integrate_rule_nonloc eL eNL iL jNL influence_fun))
             K row col
      else K) K
  else K.

Definition is_first_kind (b : boundary_type * T) : bool :=
  bool_decide (b.1 = FIRST_KIND).

Definition create_matrix (K_inner : SparseMatrix T)
    (K_bound : list (nat * T) * list (nat * T))
    (neumann_task : bool) (bound_cond : stationary_boundary)
    (integrate_rule_loc : nat -> nat -> nat -> T)
    (integrate_rule_nonloc : nat -> nat -> nat -> nat -> (T -> T -> T) -> T)
    (nonlocal_task : bool) (influence_fun : T -> T -> T) : SparseMatrix T :=
  let boundary_first_kind := (is_first_kind bound_cond.1, is_first_kind bound_cond.2) in
  let K := create_matrix_portrait K_inner neumann_task boundary_first_kind nonlocal_task in
  calc_matrix K K_bound neumann_task boundary_first_kind
              integrate_rule_loc integrate_rule_nonloc nonlocal_task influence_fun.

(** The two ends [fval = {&f[0], &f[nodes_count - 1]}]. *)
Definition fval (b : nat) : nat :=
  if decide (b = 0) then 0 else nodes_count_all mesh - 1.

Definition bound_cond_at (bound_cond : stationary_boundary) (b : nat)
    : boundary_type * T :=
  if decide (b = 0) then bound_cond.1 else bound_cond.2.

Definition K_bound_at (K_bound : list (nat * T) * list (nat * T)) (b : nat)
    : list (nat * T) :=
  if decide (b = 0) then K_bound.1 else K_bound.2.

Definition boundary_condition_first_kind (f : list T) (bound_cond : stationary_boundary)
    (K_bound : list (nat * T) * list (nat * T)) : list T :=
  foldl (fun f b =>
    let bc := bound_cond_at bound_cond b in
    if decide (bc.1 = FIRST_KIND) then
      let f := foldl (fun f '(i, val) => <[i := add (f !!! i) (mul val bc.2)]> f)
                     f (K_bound_at K_bound b) in
      <[fval b := bc.2]> f
    else f) f (seq 0 2).

Definition boundary_condition_second_kind (f : list T) (bound_cond : stationary_boundary)
    : list T :=
  foldl (fun f b =>
    let bc := bound_cond_at bound_cond b in
    if decide (bc.1 = SECOND_KIND)
    then <[fval b := add (f !!! fval b) bc.2]> f
    else f) f (seq 0 2).

Definition integrate_function (e i : nat) (func : T -> T) : T :=
  let el := element mesh in
  mul (sum_to (qnodes_count el)
              (fun q => mul (mul (weight el q) (qN el i q)) (func (quad_coord mesh e q))))
      (jacobian mesh).

Definition integrate_right_part (f : list T) (right_part : T -> T) : list T :=
  foldl (fun f node =>
    foldl (fun f ei =>
      match ei with
      | Some (e, i) => <[node := add (f !!! node) (integrate_function e i right_part)]> f
      | None => f
      end) f (node_elements mesh node))
    f (seq 0 (nodes_count_all mesh)).

(** [Eigen::ConjugateGradient<..., Eigen::Upper> solver{K_inner}] followed
    by [solver.solve(f)]: the linear solver is Eigen's. *)
Variable solve : SparseMatrix T -> list T -> list T.

(** The size of the linear system [stationary] sets up. *)
Definition is_neumann_task (bound_cond : stationary_boundary) : bool :=
  bool_decide (bound_cond.1.1 = SECOND_KIND) && bool_decide (bound_cond.2.1 = SECOND_KIND).

Definition system_size (bound_cond : stationary_boundary) : nat :=
  nodes_count_all mesh + Nat_of_bool (is_neumann_task bound_cond).

(** The system handed to the linear solver: the matrix and the right
    part, both of [system_size]. *)
Definition stationary_system (parameters : equation_parameters T)
    (bound_cond : stationary_boundary) (right_part : T -> T)
    (influence_function : T -> T -> T) : SparseMatrix T * list T :=
  let neumann_task := is_neumann_task bound_cond in
  let nonlocal_task := ltb (p1 parameters) lit_0_999 in
  let size := system_size bound_cond in
  let K_bound : list (nat * T) * list (nat * T) := ([], []) in
  let f := replicate size zero in
  let integrate_rule_loc :=
    let factor := mul (lambda parameters) (p1 parameters) in
    fun e i j => mul factor (integrate_loc e i j) in
  let integrate_rule_nonloc :=
    let factor := mul (lambda parameters) (sub one (p1 parameters)) in
    fun eL eNL iL jNL influence_function =>
      mul factor (integrate_nonloc eL eNL iL jNL influence_function) in
  let K_inner :=
    create_matrix (make size size) K_bound neumann_task bound_cond
                  integrate_rule_loc integrate_rule_nonloc nonlocal_task
                  influence_function in
  let f := integrate_right_part f right_part in
  let f := boundary_condition_second_kind f bound_cond in
  let f := boundary_condition_first_kind f bound_cond K_bound in
  (K_inner, f).

(** The test at the head of [stationary]. *)
Definition unsolvable (bound_cond : stationary_boundary) : bool :=
  is_neumann_task bound_cond && gtb (add bound_cond.1.2 bound_cond.2.2) lit_1e_5.

Definition stationary (parameters : equation_parameters T)
    (bound_cond : stationary_boundary) (right_part : T -> T)
    (influence_function : T -> T -> T) : outcome (list T) :=
  if unsolvable bound_cond then thrown domain_error
  else
    let '(K_inner, f) :=
      stationary_system parameters bound_cond right_part influence_function in
    let temperature := solve K_inner f in
    returned (take (nodes_count_all mesh) temperature).

End defs.
Arguments mesh_1d T : clear implicits.
End finite_element_solver_base_1d.

(** ** [static_analysis.cpp]: the triplet based assembly of elasticity *)

Module statics_with_nonloc.
Import finite_element mesh.

Inductive component := X | Y.

(** [size_t(projection)]. *)
Definition size_t (c : component) : nat :=
  match c with X => 0 | Y => 1 end.

Section defs.
Context {T : Type} `{!Scalar T}.
Variable mesh : mesh_2d T.

(** [Eigen::Triplet<double>]: row, column, value; a default-constructed
    triplet is [(0, 0, 0)]. *)
Definition Triplet : Type := nat * nat * T.

(** [integrate_basic(e, i, jacobi_matrices)]; [jacobi_matrices q k] is
    the entry [(q, k)] of the matrix. *)
Definition integrate_basic (e : element_2d_integrate T) (i : nat)
    (jacobi_matrices : nat -> nat -> T) : T :=
  foldl (fun integral q =>
           add integral
               (mul (mul (weight e q) (qN e i q))
                    (sub (mul (jacobi_matrices q 0) (jacobi_matrices q 3))
                         (mul (jacobi_matrices q 1) (jacobi_matrices q 2)))))
        zero (seq 0 (finite_element.nodes_count e)).

(** [counter_loc] of [mesh_analysis], on the pair of arrays
    [(shifts_loc, shifts_bound_loc)]. *)
Definition counter_loc (inner_nodes : list bool) (s : list nat * list nat)
    (i j el : nat) (projection form : component) : list nat * list nat :=
  let row := 2 * node_number mesh el i + size_t projection in
  let col := 2 * node_number mesh el j + size_t form in
  if bool_decide (col <= row) (* row >= col *) then
    if (inner_nodes !!! row) && (inner_nodes !!! col)
    then (<[S el := S (s.1 !!! S el)]> s.1, s.2)
    else if negb (bool_decide (row = col))
    then (s.1, <[S el := S (s.2 !!! S el)]> s.2)
    else s
  else s.

(** The prefix sums [shifts[i] += shifts[i-1]] for [i] from 1. *)
Definition prefix_sums (shifts : list nat) : list nat :=
  foldl (fun sh i => <[i := sh !!! i + sh !!! (i - 1)]> sh)
        shifts (seq 1 (length shifts - 1)).

(** [mesh_analysis] for a local problem ([nonlocal] false): the arrays
    [shifts_loc] and [shifts_bound_loc].  The two arrays of the nonlocal
    stencil are counted the same way over the neighbours of each element. *)
Definition mesh_analysis (inner_nodes : list bool) : list nat * list nat :=
  let s0 := (replicate (elements_count_2d mesh + 1) 0,
             replicate (elements_count_2d mesh + 1) 0) in
  let s :=
    finite_element_routine.mesh_run_loc mesh (fun s i j el =>
      let s := counter_loc inner_nodes s i j el X X in
      let s := counter_loc inner_nodes s i j el X Y in
      let s := counter_loc inner_nodes s i j el Y X in
      counter_loc inner_nodes s i j el Y Y) s0 in
  let shifts_loc := <[0 := length (filter (fun b => b = false) inner_nodes)]> s.1 in
  (prefix_sums shifts_loc, prefix_sums s.2).

(** The state of the filling pass: the two cursor arrays and the two
    triplet vectors. *)
Record filling := {
  shifts_loc : list nat;
  shifts_bound_loc : list nat;
  triplets : list Triplet;
  triplets_bound : list Triplet
}.

(** [filler_loc]; [integral] is the value of
    [p1 * integrate_rule(element, i, j, all_jacobi_matrices, shifts_quad[el], D)]. *)
Definition filler_loc (inner_nodes : list bool) (s : filling)
    (i j el : nat) (projection form : component) (integral : T) : filling :=
  let row := 2 * node_number mesh el i + size_t projection in
  let col := 2 * node_number mesh el j + size_t form in
  if bool_decide (col <= row) (* row >= col *) then
    if (inner_nodes !!! row) && (inner_nodes !!! col) then
      {| shifts_loc := <[el := S (shifts_loc s !!! el)]> (shifts_loc s);
         shifts_bound_loc := shifts_bound_loc s;
         triplets := <[shifts_loc s !!! el := (row, col, integral)]> (triplets s);
         triplets_bound := triplets_bound s |}
    else if negb (bool_decide (row = col)) then
      {| shifts_loc := shifts_loc s;
         shifts_bound_loc := <[el := S (shifts_bound_loc s !!! el)]> (shifts_bound_loc s);
         triplets := triplets s;
         triplets_bound :=
           <[shifts_bound_loc s !!! el :=
               if (inner_nodes !!! col : bool)
               then (col, row, integral) else (row, col, integral)]>
             (triplets_bound s) |}
    else s
  else s.

(** The loop that stores the unit diagonal of the rows that are not
    inner: [triplets[j++] = Triplet(i, i, 1.)]. *)
Definition unit_diagonal (inner_nodes : list bool) (triplets : list Triplet)
    : list Triplet :=
  (foldl (fun (s : list Triplet * nat) i =>
            if negb (inner_nodes !!! i)
            then (<[s.2 := (i, i, one)]> s.1, S s.2)
            else s)
         (triplets, 0) (seq 0 (length inner_nodes))).1.

(** [triplets_fill] for a local problem.  [integrate_rule] stands for
    the four instances of [p1 * integrate_loc<Projection, Form>] at the
    element [el] and the local indices [i], [j]. *)
Definition triplets_fill (inner_nodes : list bool)
    (integrate_rule : component -> component -> nat -> nat -> nat -> T)
    : list Triplet * list Triplet :=
  let shifts := mesh_analysis inner_nodes in
  let s0 := {| shifts_loc := shifts.1; shifts_bound_loc := shifts.2;
               triplets :=
                 unit_diagonal inner_nodes (replicate (back shifts.1) (0, 0, zero));
               triplets_bound := replicate (back shifts.2) (0, 0, zero) |} in
  let s :=
    finite_element_routine.mesh_run_loc mesh (fun s i j el =>
      let s := filler_loc inner_nodes s i j el X X (integrate_rule X X el i j) in
      let s := filler_loc inner_nodes s i j el X Y (integrate_rule X Y el i j) in
      let s := filler_loc inner_nodes s i j el Y X (integrate_rule Y X el i j) in
      filler_loc inner_nodes s i j el Y Y (integrate_rule Y Y el i j)) s0 in
  (triplets s, triplets_bound s).

(** [nonlocal_condition]: the triplets handed to [setFromTriplets] for the
    matrix of [2 * nodes_count + 2] rows and columns, the state of the loop
    being the vector and the cursor [triplets_count];
    [jacobi_matrices el] is what [approx_jacobi_matrices] leaves for the
    element [el]. *)
Definition nonlocal_condition (jacobi_matrices : nat -> nat -> nat -> T) : list Triplet :=
  let triplets_count :=
    foldl (fun triplets_count el =>
             triplets_count + finite_element.nodes_count (element_2d mesh el))
          0 (seq 0 (elements_count_2d mesh)) in
  (foldl (fun (s : list Triplet * nat) el =>
     let e := element_2d mesh el in
     foldl (fun (s : list Triplet * nat) i =>
              let s := (<[s.2 := (2 * nodes_count_all mesh, 2 * node_number mesh el i,
                                  integrate_basic e i (jacobi_matrices el))]> s.1,
                        S s.2) in
              (<[s.2 := (2 * nodes_count_all mesh + 1, 2 * node_number mesh el i + 1,
                         integrate_basic e i (jacobi_matrices el))]> s.1,
               S s.2))
           s (seq 0 (finite_element.nodes_count e)))
    (replicate (2 * triplets_count) (0, 0, zero), 0)
    (seq 0 (elements_count_2d mesh))).1.

Variable element_neighbors : nat -> list nat.

(** [counter_nonloc] of [mesh_analysis], on the pair of arrays
    [(shifts_nonloc, shifts_bound_nonloc)]. *)
Definition counter_nonloc (inner_nodes : list bool) (s : list nat * list nat)
    (iL jNL elL elNL : nat) (projection form : component) : list nat * list nat :=
  let row := 2 * node_number mesh elL iL + size_t projection in
  let col := 2 * node_number mesh elNL jNL + size_t form in
  if bool_decide (col <= row) (* row >= col *) then
    if (inner_nodes !!! row) && (inner_nodes !!! col)
    then (<[S elL := S (s.1 !!! S elL)]> s.1, s.2)
    else if negb (bool_decide (row = col))
    then (s.1, <[S elL := S (s.2 !!! S elL)]> s.2)
    else s
  else s.

(** The part of [mesh_analysis] that runs when [nonlocal] is true: the
    arrays [shifts_nonloc] and [shifts_bound_nonloc], which start where the
    arrays of the local stencil end. *)
Definition mesh_analysis_nonloc (inner_nodes : list bool) : list nat * list nat :=
  let shifts := mesh_analysis inner_nodes in
  let s0 := (vector_resize 0 (elements_count_2d mesh + 1) [],
             vector_resize 0 (elements_count_2d mesh + 1) []) in
  let s :=
    finite_element_routine.mesh_run_nonloc mesh element_neighbors
      (fun s iL jNL elL elNL =>
         let s := counter_nonloc inner_nodes s iL jNL elL elNL X X in
         let s := counter_nonloc inner_nodes s iL jNL elL elNL X Y in
         let s := counter_nonloc inner_nodes s iL jNL elL elNL Y X in
         counter_nonloc inner_nodes s iL jNL elL elNL Y Y) s0 in
  (prefix_sums (<[0 := back shifts.1]> s.1), prefix_sums (<[0 := back shifts.2]> s.2)).

(** The state of the nonlocal filling pass. *)
Record filling_nonloc := {
  shifts_nonloc : list nat;
  shifts_bound_nonloc : list nat;
  triplets_nonloc : list Triplet;
  triplets_bound_nonloc : list Triplet
}.

(** [filler_nonloc]; [integral] is the value of [p2 * integrate_rule(...)]. *)
Definition filler_nonloc (inner_nodes : list bool) (s : filling_nonloc)
    (iL jNL elL elNL : nat) (projection form : component) (integral : T)
    : filling_nonloc :=
  let row := 2 * node_number mesh elL iL + size_t projection in
  let col := 2 * node_number mesh elNL jNL + size_t form in
  if bool_decide (col <= row) (* row >= col *) then
    if (inner_nodes !!! row) && (inner_nodes !!! col) then
      {| shifts_nonloc := <[elL := S (shifts_nonloc s !!! elL)]> (shifts_nonloc s);
         shifts_bound_nonloc := shifts_bound_nonloc s;
         triplets_nonloc :=
           <[shifts_nonloc s !!! elL := (row, col, integral)]> (triplets_nonloc s);
         triplets_bound_nonloc := triplets_bound_nonloc s |}
    else if negb (bool_decide (row = col)) then
      {| shifts_nonloc := shifts_nonloc s;
         shifts_bound_nonloc :=
           <[elL := S (shifts_bound_nonloc s !!! elL)]> (shifts_bound_nonloc s);
         triplets_nonloc := triplets_nonloc s;
         triplets_bound_nonloc :=
           <[shifts_bound_nonloc s !!! elL :=
               if (inner_nodes !!! col : bool)
               then (col, row, integral) else (row, col, integral)]>
             (triplets_bound_nonloc s) |}
    else s
  else s.

(** [triplets_fill] for a nonlocal problem ([p1 < MAX_LOCAL_WEIGHT]): the
    two vectors have the sizes that the nonlocal arrays end with, the local
    pass fills them first and the nonlocal pass goes on.
    [integrate_rule_nonloc] stands for the four instances of
    [p2 * integrate_nonloc<Projection, Form>] at the elements [elL], [elNL]
    and the local indices [iL], [jNL]. *)
Definition triplets_fill_nonlocal (inner_nodes : list bool)
    (integrate_rule : component -> component -> nat -> nat -> nat -> T)
    (integrate_rule_nonloc : component -> component -> nat -> nat -> nat -> nat -> T)
    : list Triplet * list Triplet :=
  let shifts := mesh_analysis inner_nodes in
  let shifts_nl := mesh_analysis_nonloc inner_nodes in
  let s0 := {| shifts_loc := shifts.1; shifts_bound_loc := shifts.2;
               triplets :=
                 unit_diagonal inner_nodes (replicate (back shifts_nl.1) (0, 0, zero));
               triplets_bound := replicate (back shifts_nl.2) (0, 0, zero) |} in
  let s :=
    finite_element_routine.mesh_run_loc mesh (fun s i j el =>
      let s := filler_loc inner_nodes s i j el X X (integrate_rule X X el i j) in
      let s := filler_loc inner_nodes s i j el X Y (integrate_rule X Y el i j) in
      let s := filler_loc inner_nodes s i j el Y X (integrate_rule Y X el i j) in
      filler_loc inner_nodes s i j el Y Y (integrate_rule Y Y el i j)) s0 in
  let s0 := {| shifts_nonloc := shifts_nl.1; shifts_bound_nonloc := shifts_nl.2;
               triplets_nonloc := triplets s;
               triplets_bound_nonloc := triplets_bound s |} in
  let s :=
    finite_element_routine.mesh_run_nonloc mesh element_neighbors
      (fun s iL jNL elL elNL =>
         let s := filler_nonloc inner_nodes s iL jNL elL elNL X X
                    (integrate_rule_nonloc X X elL elNL iL jNL) in
         let s := filler_nonloc inner_nodes s iL jNL elL elNL X Y
                    (integrate_rule_nonloc X Y elL elNL iL jNL) in
         let s := filler_nonloc inner_nodes s iL jNL elL elNL Y X
                    (integrate_rule_nonloc Y X elL elNL iL jNL) in
         filler_nonloc inner_nodes s iL jNL elL elNL Y Y
           (integrate_rule_nonloc Y Y elL elNL iL jNL)) s0 in
  (triplets_nonloc s, triplets_bound_nonloc s).

End defs.

(** [boundary_type] and [boundary_condition<Type>] of the elasticity solver:
    a kind and a function for each axis. Their header and that of the mesh
    of this solver are not part of the sources at hand. *)
Inductive boundary_type := TRANSLATION | PRESSURE.

#[export] Instance statics_boundary_type_eq_dec : EqDecision boundary_type.
Proof. solve_decision. Defined.

Record boundary_condition (T : Type) := {
  type_x : boundary_type;
  type_y : boundary_type;
  func_x : T -> T -> T;
  func_y : T -> T -> T
}.
Arguments type_x {T} _.
Arguments type_y {T} _.
Arguments func_x {T} _ _ _.
Arguments func_y {T} _ _ _.

Section boundaries.
Context {T : Type}.
Variable mesh : mesh_2d T.

(** [mesh.boundary(b)]: the nodes met from [cbegin()] to [cend()]. *)
Variable boundary : nat -> list nat.

(** [inner_nodes_vector]. *)
Definition inner_nodes_vector (bounds_cond : list (boundary_condition T)) : list bool :=
  foldl (fun inner_nodes b =>
    match bounds_cond !! b with
    | Some bc =>
        let inner_nodes :=
          if decide (type_x bc = TRANSLATION)
          then foldl (fun inner_nodes node => <[2 * node := false]> inner_nodes)
                     inner_nodes (boundary b)
          else inner_nodes in
        if decide (type_y bc = TRANSLATION)
        then foldl (fun inner_nodes node => <[2 * node + 1 := false]> inner_nodes)
                   inner_nodes (boundary b)
        else inner_nodes
    | None => inner_nodes
    end)
    (replicate (2 * nodes_count_all mesh) true) (seq 0 (length bounds_cond)).

(** [kinematic_nodes_vectors]. The inner loop over [k] stops at the first
    list that holds the node; the node is appended to the list of the
    boundary when no list holds it. *)
Definition kinematic_nodes_vectors (bounds_cond : list (boundary_condition T))
    : list (list nat) :=
  foldl (fun kinematic_nodes b =>
    match bounds_cond !! b with
    | Some bc =>
        if decide (type_x bc = TRANSLATION \/ type_y bc = TRANSLATION)
        then
          foldl (fun kinematic_nodes node =>
            match list_find (fun nodes : list nat => node ∈ nodes) kinematic_nodes with
            | Some _ => kinematic_nodes
            | None => <[b := kinematic_nodes !!! b ++ [node]]> kinematic_nodes
            end) kinematic_nodes (boundary b)
        else kinematic_nodes
    | None => kinematic_nodes
    end)
    (replicate (length bounds_cond) []) (seq 0 (length bounds_cond)).

End boundaries.

Section right_part.
Context {T : Type} `{!Scalar T}.
Variable mesh : mesh_2d T.

(** [mesh.coord(node, k)]. *)
Definition coord (n k : nat) : T :=
  if decide (k = 0) then (node mesh n).1 else (node mesh n).2.

(** [mesh.boundary(b)] read as a matrix: [rows()], [cols(el)] and the node
    [(el, i)]. *)
Variable boundary_rows : nat -> nat.
Variable boundary_cols : nat -> nat -> nat.
Variable boundary_node : nat -> nat -> nat -> nat.

(** The value of [integrate_boundary_gradient(be, i, coords,
    jacobi_matrices, func)] for the element [el] of the boundary [b], after
    the two approximations that precede the call. *)
Variable integrate_boundary_gradient : nat -> nat -> nat -> (T -> T -> T) -> T.

(** [boundary_condition_calc]. [K_bound col] lists the rows and the values
    that [InnerIterator(K_bound, col)] yields. *)
Definition boundary_condition_calc (temperature_nodes : list (list nat))
    (bounds_cond : list (boundary_condition T)) (K_bound : nat -> list (nat * T))
    (f : list T) : list T :=
  let f :=
    foldl (fun f b =>
      match bounds_cond !! b with
      | Some bc =>
          let f :=
            if decide (type_x bc = PRESSURE)
            then foldl (fun f el =>
                   foldl (fun f i =>
                            <[2 * boundary_node b el i :=
                                add (f !!! (2 * boundary_node b el i))
                                    (integrate_boundary_gradient b el i (func_x bc))]> f)
                         f (seq 0 (boundary_cols b el)))
                   f (seq 0 (boundary_rows b))
            else f in
          if decide (type_y bc = PRESSURE)
          then foldl (fun f el =>
                 foldl (fun f i =>
                          <[2 * boundary_node b el i + 1 :=
                              add (f !!! (2 * boundary_node b el i + 1))
                                  (integrate_boundary_gradient b el i (func_y bc))]> f)
                       f (seq 0 (boundary_cols b el)))
                 f (seq 0 (boundary_rows b))
          else f
      | None => f
      end) f (seq 0 (length bounds_cond)) in
  let f :=
    foldl (fun f b =>
      match bounds_cond !! b with
      | Some bc =>
          let f :=
            if decide (type_x bc = TRANSLATION)
            then foldl (fun f node =>
                   let temp := func_x bc (coord node 0) (coord node 1) in
                   foldl (fun f it => <[it.1 := sub (f !!! it.1) (mul temp it.2)]> f)
                         f (K_bound (2 * node)))
                   f (temperature_nodes !!! b)
            else f in
          if decide (type_y bc = TRANSLATION)
          then foldl (fun f node =>
                 let temp := func_y bc (coord node 0) (coord node 1) in
                 foldl (fun f it => <[it.1 := sub (f !!! it.1) (mul temp it.2)]> f)
                       f (K_bound (2 * node + 1)))
                 f (temperature_nodes !!! b)
          else f
      | None => f
      end) f (seq 0 (length temperature_nodes)) in
  foldl (fun f b =>
    match bounds_cond !! b with
    | Some bc =>
        let f :=
          if decide (type_x bc = TRANSLATION)
          then foldl (fun f node =>
                        <[2 * node := func_x bc (coord node 0) (coord node 1)]> f)
                     f (temperature_nodes !!! b)
          else f in
        if decide (type_y bc = TRANSLATION)
        then foldl (fun f node =>
                      <[2 * node + 1 := func_y bc (coord node 0) (coord node 1)]> f)
                   f (temperature_nodes !!! b)
        else f
    | None => f
    end) f (seq 0 (length temperature_nodes)).

End right_part.
End statics_with_nonloc.

(** ** [heat::solution] *)

Module heat.
Import mesh.

Section defs.
Context {T : Type} `{!Scalar T}.

(** The two members of [heat::solution]. *)
Record solution := {
  _mesh_proxy : mesh_proxy T;
  _temperature : list T
}.

(** The constructor [solution(mesh_proxy, temperature)]: the vector is
    resized to the number of nodes and filled cell after cell; reading
    [temperature[i]] past the end of [temperature] is undefined. *)
Definition make_solution (mesh_proxy : mesh_proxy T) (temperature : list T)
    : outcome solution :=
  let nodes_count := nodes_count_all (mesh mesh_proxy) in
  temperature' ← foldl (fun _temperature i =>
                          _temperature ← _temperature;
                          match temperature !! i with
                          | Some value => returned (<[i := value]> _temperature)
                          | None => undefined
                          end)
                       (returned (vector_resize zero nodes_count []))
                       (seq 0 nodes_count);
  returned {| _mesh_proxy := mesh_proxy; _temperature := temperature' |}.

Definition get_temperature (s : solution) : list T := _temperature s.

End defs.
Arguments solution T : clear implicits.
End heat.

(** ** Concrete inputs *)

(** Small meshes and problems in binary64, used to run the definitions. *)
Module inputs.
Import finite_element.

(** The linear segment element on [-1, 1] with the one-node Gauss rule. *)
Definition linear_gauss1 : element_1d_integrate float :=
  {| nodes_count_1d := 2;
     weights_1d := [2%float];
     NInQuad_1d := [0.5%float; 0.5%float];
     NxiInQuad_1d := [(-0.5)%float; 0.5%float] |}.

(** The same element with the three-node rule at -1, 0, 1 of weights
    1/2, 1, 1/2. *)
Definition linear_three_nodes : element_1d_integrate float :=
  {| nodes_count_1d := 2;
     weights_1d := [0.5%float; 1%float; 0.5%float];
     NInQuad_1d := [1%float; 0.5%float; 0%float; 0%float; 0.5%float; 1%float];
     NxiInQuad_1d := [(-0.5)%float; (-0.5)%float; (-0.5)%float;
                      0.5%float; 0.5%float; 0.5%float] |}.

(** The segment [0, 1] cut into two elements of the given kind: three
    nodes, the Jacobian 1/4 of the map from [-1, 1] onto an element. *)
Definition segment (el : element_1d_integrate float)
    : finite_element_solver_base_1d.mesh_1d float :=
  {| finite_element_solver_base_1d.element := el;
     finite_element_solver_base_1d.elements_count := 2;
     finite_element_solver_base_1d.nodes_count_all := 3;
     finite_element_solver_base_1d.jacobian := 0.25%float;
     finite_element_solver_base_1d.node_number := fun e i => e + i;
     finite_element_solver_base_1d.node_elements := fun node =>
       match node with
       | 0 => [Some (0, 0); None]
       | 1 => [Some (0, 1); Some (1, 0)]
       | _ => [Some (1, 1); None]
       end;
     finite_element_solver_base_1d.left_neighbour := fun e => e;
     finite_element_solver_base_1d.right_neighbour := fun e => e + 1;
     finite_element_solver_base_1d.quad_coord := fun e q =>
       match e with 0 => 0.25%float | _ => 0.75%float end |}.

Definition unit_parameters : equation_parameters float :=
  {| lambda := 1%float; rho := 1%float; c := 1%float; p1 := 1%float; r := 0%float |}.

(** A stand-in for the linear solver: the zero vector of the size of the
    system. *)
Definition zero_solver (K : Eigen.SparseMatrix float) (f : list float) : list float :=
  replicate (Eigen.cols K) 0%float.

(** A bilinear element table; the tests below never read it. *)
Definition bilinear : element_2d_integrate float :=
  {| nodes_count_2d := 4;
     weights_2d := [4%float];
     NInQuad_2d := [0.25%float; 0.25%float; 0.25%float; 0.25%float];
     NxiInQuad_2d := [(-0.25)%float; 0.25%float; 0.25%float; (-0.25)%float];
     NetaInQuad_2d := [(-0.25)%float; (-0.25)%float; 0.25%float; 0.25%float] |}.

(** The unit square as one bilinear element with the nodes 0 (0,0),
    1 (1,0), 2 (1,1), 3 (0,1), and two boundary groups of one linear
    element each: the bottom side (nodes 0, 1) and the right side
    (nodes 1, 2).  The node 1 lies on both. *)
Definition square : mesh.mesh_2d float :=
  {| mesh.nodes_count_all := 4;
     mesh.elements_count_2d := 1;
     mesh.element_2d := fun _ => bilinear;
     mesh.nodes_count := fun _ => 4;
     mesh.node_number := fun _ i => i;
     mesh.node := fun n =>
       match n with
       | 0 => (0%float, 0%float)
       | 1 => (1%float, 0%float)
       | 2 => (1%float, 1%float)
       | _ => (0%float, 1%float)
       end;
     mesh.boundary_groups_count := 2;
     mesh.elements_count := fun _ => 1;
     mesh.nodes_count_1d := fun _ _ => 2;
     mesh.node_number_1d := fun b _ i => b + i |}.

Definition square_proxy : mesh.mesh_proxy float :=
  {| mesh.mesh := square;
     mesh.first_node := 0;
     mesh.last_node := 4;
     mesh.nodes_elements_map := fun _ => [0];
     mesh.neighbors := fun _ => [0] |}.

(** A temperature of 0 on the bottom side and of 5 on the right side. *)
Definition cold_bottom_hot_right : list (boundary_condition float) :=
  [ {| type := fun _ => FIRST_KIND; func := fun _ _ => 0%float |};
    {| type := fun _ => FIRST_KIND; func := fun _ _ => 5%float |} ].

End inputs.

(** ** What the specification asks of single operations *)

Module specification.
Import finite_element.

Section defs.
Context {T : Type} `{!Scalar T}.

(** Section 4.3, heat capacity: the local rule is the quadrature of
    [qN_i * qN_j] over all the quadrature nodes of the element, times the
    Jacobian. *)
Definition heat_capacity_rule (mesh : finite_element_solver_base_1d.mesh_1d T)
    (i j : nat) : T :=
  let el := finite_element_solver_base_1d.element mesh in
  mul (finite_element_solver_base_1d.sum_to (qnodes_count el)
         (fun q => mul (mul (weight el q) (qN el i q)) (qN el j q)))
      (finite_element_solver_base_1d.jacobian mesh).

(** Section 4.3, Neumann compatibility: the problem passes when the
    norm of the sum of the boundary fluxes is below 1e-5, that is when
    the sum lies strictly between -1e-5 and 1e-5. *)
Definition net_flux_vanishes (g0 g1 : T) : bool :=
  ltb (add g0 g1) lit_1e_5 && ltb (sub zero lit_1e_5) (add g0 g1).

End defs.

(** Section 6, the element block of an SU2 file: the header
    [NDIME= 2 NELEM= n], then for each element its VTK code, its nodes and
    its running number. *)
Definition su2_element (e : nat * list nat * nat) : list mesh_container_2d.token :=
  mesh_container_2d.number e.1.1
    :: (mesh_container_2d.number <$> e.1.2) ++ [mesh_container_2d.number e.2].

Definition su2_elements (elements : list (nat * list nat * nat))
    : list mesh_container_2d.token :=
  [mesh_container_2d.word "NDIME="; mesh_container_2d.number 2;
   mesh_container_2d.word "NELEM="; mesh_container_2d.number (length elements)]
  ++ concat (su2_element <$> elements).

(** An element of the file is well formed when its code is one of the
    accepted ones and it lists as many nodes as the code asks for. *)
Definition well_formed_element (e : nat * list nat * nat) : Prop :=
  exists K, mesh_container_2d.read_pack e.1.1 = Some K /\ length e.1.2 = length K.

(** The line of an element in the CELLS block that repeats the file: the
    node count and then the nodes in the order of the file. *)
Definition cells_line (e : nat * list nat * nat) : list nat :=
  length e.1.2 :: e.1.2.

End specification.

(** * Properties *)

Import finite_element.

(** ** The stencil rules of the indexer *)

Section stencil.
Context {T : Type} `{!Scalar T}.
Variables (DoF node_shift : nat) (Stage : index_stage) (row col : nat).




End stencil.



(** ** The mesh proxy of the two-dimensional solver *)

(** C10: every solver that was constructed, whatever [set_mesh] calls it went
    through, holds a mesh proxy; a [set_mesh] with a null proxy throws
    [invalid_argument] and leaves the object as it was, and the constructor
    throws on a null proxy. *)
Theorem C10_constructed_solver_holds_a_proxy :
  forall (T : Type) (this : finite_element_solver_base.t (T := T)),
    finite_element_solver_base.constructed this ->
    is_Some (finite_element_solver_base._mesh_proxy this)
    /\ finite_element_solver_base.set_mesh None this = (this, inl invalid_argument)
    /\ finite_element_solver_base.construct (T := T) None = inl invalid_argument
    /\ forall mesh_proxy,
         is_Some (finite_element_solver_base._mesh_proxy
                    (finite_element_solver_base.set_mesh mesh_proxy this).1).
Proof.
  intros T this Hthis.
  assert (Hsome : is_Some (finite_element_solver_base._mesh_proxy this)).
  { induction Hthis as [mesh this Hnew | mesh this Hthis IH].
    - destruct mesh as [p|]; simpl in Hnew; [|discriminate].
      injection Hnew as <-. simpl. by eexists.
    - destruct mesh as [p|]; simpl; [by eexists | exact IH]. }
  split; [exact Hsome|]. split; [reflexivity|]. split; [reflexivity|].
  intros [p|]; simpl; [by eexists | exact Hsome].
Qed.

Lemma C10_constructed_solver_holds_a_proxy_witness :
  let this := {| finite_element_solver_base._mesh_proxy := Some inputs.square_proxy |} in
  finite_element_solver_base.constructed this
  /\ is_Some (finite_element_solver_base._mesh_proxy this).
Proof.
  intros this.
  assert (H : finite_element_solver_base.constructed this).
  { by apply (finite_element_solver_base.constructed_new (Some inputs.square_proxy)). }
  split; [exact H|].
  exact (proj1 (C10_constructed_solver_holds_a_proxy float this H)).
Defined.

(** ** The compatibility test of the pure Neumann problem *)

(** [stationary] throws exactly when its test at the head fires, whatever
    the scalar type. *)
Lemma stationary_throws_iff {T : Type} `{!Scalar T}
    (mesh : finite_element_solver_base_1d.mesh_1d T) fresh_index fresh_value solve
    parameters bound_cond right_part influence_function e :
  finite_element_solver_base_1d.stationary mesh fresh_index fresh_value solve
    parameters bound_cond right_part influence_function = thrown e
  <-> e = domain_error
      /\ finite_element_solver_base_1d.is_neumann_task bound_cond = true
      /\ gtb (add bound_cond.1.2 bound_cond.2.2) lit_1e_5 = true.
Proof.
  unfold finite_element_solver_base_1d.stationary,
         finite_element_solver_base_1d.unsolvable.
  destruct (finite_element_solver_base_1d.stationary_system mesh fresh_index
              fresh_value parameters bound_cond right_part influence_function)
    as [K f].
  destruct (finite_element_solver_base_1d.is_neumann_task bound_cond);
    destruct (gtb _ _); cbn [andb]; split;
    first [ by intros [= <-] | by intros (-> & _ & _) | done
          | by intros (_ & ? & ?) ].
Qed.

(** C2, at the input where the code departs from it: both ends of the
    segment carry a flux of -1, so the problem is pure Neumann and the fluxes
    sum to -2, which the specification's test does not let pass; [stationary]
    compares the signed sum with 1e-5, does not throw and returns a
    temperature. *)
Theorem C2_negative_net_flux_is_not_rejected :
  forall (mesh : finite_element_solver_base_1d.mesh_1d float) fresh_index fresh_value
         solve parameters right_part influence_function,
    let bound_cond := ((SECOND_KIND, (-1)%float), (SECOND_KIND, (-1)%float)) in
    finite_element_solver_base_1d.is_neumann_task bound_cond = true
    /\ specification.net_flux_vanishes (-1)%float (-1)%float = false
    /\ exists temperature,
         finite_element_solver_base_1d.stationary mesh fresh_index fresh_value solve
           parameters bound_cond right_part influence_function = returned temperature.
Proof.
  intros mesh fresh_index fresh_value solve parameters right_part influence_function
         bound_cond.
  split; [reflexivity|]. split; [reflexivity|].
  unfold finite_element_solver_base_1d.stationary.
  replace (finite_element_solver_base_1d.unsolvable bound_cond) with false
    by (vm_compute; reflexivity).
  destruct (finite_element_solver_base_1d.stationary_system mesh fresh_index
              fresh_value parameters bound_cond right_part influence_function)
    as [K f].
  by eexists.
Qed.

(** ** Rows of the first kind in the one-dimensional matrix *)

(** C3, at the input where the code departs from it: the segment of two
    linear elements with a prescribed temperature at both ends.  In the matrix
    that [stationary] assembles, the row of the node 0 holds the stiffness
    integrals 2 and -2 in the columns 0 and 1 (no unit diagonal, and a
    coupling to the node 1), and the row of the node 2 holds 2 on its
    diagonal. *)
Theorem C3_first_kind_rows_of_the_segment_are_not_identity :
  forall fresh_index fresh_value right_part influence_function,
    let bound_cond := ((FIRST_KIND, 0%float), (FIRST_KIND, 1%float)) in
    let K_inner :=
      (finite_element_solver_base_1d.stationary_system
         (inputs.segment inputs.linear_gauss1) fresh_index fresh_value
         inputs.unit_parameters bound_cond right_part influence_function).1 in
    Eigen.row_indices K_inner 0 = [0; 1]
    /\ Eigen.row_values K_inner 0 = [2%float; (-2)%float]
    /\ Eigen.row_indices K_inner 2 = [2]
    /\ Eigen.row_values K_inner 2 = [2%float].
Proof.
  intros fresh_index fresh_value right_part influence_function bound_cond K_inner.
  subst K_inner bound_cond. vm_compute. done.
Qed.

(** ** The heat capacity rule *)

(** C4, at the input where the code departs from it: a linear element (two
    nodes) with a rule of three quadrature nodes.  [integrate_basic_pair]
    stops after as many quadrature nodes as the element has nodes and yields
    1/16 for the pair (1, 1), where the quadrature over the three nodes is
    3/16. *)
Theorem C4_heat_capacity_rule_misses_quadrature_nodes :
  let mesh := inputs.segment inputs.linear_three_nodes in
  finite_element.nodes_count (finite_element_solver_base_1d.element mesh) = 2
  /\ finite_element.qnodes_count (finite_element_solver_base_1d.element mesh) = 3
  /\ finite_element_solver_base_1d.integrate_basic_pair mesh 0 1 1 = 0.0625%float
  /\ specification.heat_capacity_rule mesh 1 1 = 0.1875%float.
Proof. vm_compute. done. Qed.

(** ** The vector of prescribed values *)

(** C5, at the input where the code departs from it: the unit square with a
    temperature of 0 on the bottom side (group 0) and of 5 on the right side
    (group 1).  The corner node 1 lies on both groups, the first group
    prescribes 0 there, and [x] holds 5: the value of the second group. *)
Theorem C5_zero_of_the_first_group_is_overwritten :
  let mesh := mesh.mesh inputs.square_proxy in
  mesh.node_number_1d mesh 0 0 1 = 1
  /\ mesh.node_number_1d mesh 1 0 0 = 1
  /\ (forall bc, inputs.cold_bottom_hot_right !! 0 = Some bc ->
        type bc 0 = FIRST_KIND /\ func bc 0 (mesh.node mesh 1) = 0%float)
  /\ finite_element_solver_base.first_kind_values inputs.square_proxy 1
       inputs.cold_bottom_hot_right (Eigen.make 4 4)
     = [0%float; 5%float; 5%float; 0%float].
Proof.
  split; [done|]. split; [done|]. split.
  - intros bc [= <-]. done.
  - vm_compute. done.
Qed.

(** ** The size of the one-dimensional system and of its solution *)

(** A property that every turn of a loop keeps holds after the loop. *)
Lemma foldl_invariant {A B : Type} (P : A -> Prop) (f : A -> B -> A) (l : list B) (a : A) :
  P a -> (forall a b, P a -> P (f a b)) -> P (foldl f a l).
Proof.
  intros Ha Hf. revert a Ha. induction l as [|b l IH]; intros a Ha; simpl; [done|].
  apply IH, Hf, Ha.
Qed.

Section dimensions.
Context {T : Type} `{!Scalar T}.
Variable mesh : finite_element_solver_base_1d.mesh_1d T.
Variables (fresh_index : nat -> nat) (fresh_value : nat -> T).

(** The number of rows and of columns of a matrix. *)
Definition dims (K : Eigen.SparseMatrix T) : nat * nat := (Eigen.rows K, Eigen.cols K).

Lemma dims_coeffRef_update f K row col :
  dims (Eigen.coeffRef_update f K row col) = dims K.
Proof. unfold Eigen.coeffRef_update. by destruct (list_find _ _) as [[d k]|]. Qed.

Lemma dims_create_matrix_portrait K neumann_task boundary_first_kind nonlocal_task :
  dims (finite_element_solver_base_1d.create_matrix_portrait mesh fresh_index
          fresh_value K neumann_task boundary_first_kind nonlocal_task) = dims K.
Proof.
  unfold finite_element_solver_base_1d.create_matrix_portrait.
  apply foldl_invariant; [|intros K' i HK'].
  - assert (Hcounts : dims (finite_element_solver_base_1d.portrait_counts mesh K
                              boundary_first_kind nonlocal_task) = dims K).
    { unfold finite_element_solver_base_1d.portrait_counts.
      apply foldl_invariant; [done|]. intros K1 e HK1.
      apply foldl_invariant; [done|]. intros K2 i HK2.
      by destruct (_ || _). }
    destruct neumann_task.
    + apply foldl_invariant; [|by intros K1 row HK1].
      transitivity (dims (foldl
        (fun K0 row => Eigen.set_outer K0
           (<[S row := S (Eigen.outerIndexPtr K0 !!! S row)]> (Eigen.outerIndexPtr K0)))
        (finite_element_solver_base_1d.portrait_counts mesh K boundary_first_kind
           nonlocal_task)
        (seq 0 (Eigen.rows (finite_element_solver_base_1d.portrait_counts mesh K
                              boundary_first_kind nonlocal_task))))); [done|].
      apply foldl_invariant; [done | by intros K1 row HK1].
    + exact Hcounts.
  - apply foldl_invariant; [done|]. intros K1 d HK1. by destruct (bool_decide _).
Qed.

Lemma dims_calc_matrix K K_bound neumann_task boundary_first_kind
    integrate_rule_loc integrate_rule_nonloc nonlocal_task influence_fun :
  dims (finite_element_solver_base_1d.calc_matrix mesh K K_bound neumann_task
          boundary_first_kind integrate_rule_loc integrate_rule_nonloc nonlocal_task
          influence_fun) = dims K.
Proof.
  unfold finite_element_solver_base_1d.calc_matrix.
  assert (Hlocal : forall K0, dims K0 = dims K ->
    dims (finite_element_solver_base_1d.mesh_run_local mesh
      (fun K e i j =>
         if bool_decide (finite_element_solver_base_1d.node_number mesh e i
                         <= finite_element_solver_base_1d.node_number mesh e j)
         then Eigen.coeffRef_update (fun v => add v (integrate_rule_loc e i j)) K
                (finite_element_solver_base_1d.node_number mesh e i)
                (finite_element_solver_base_1d.node_number mesh e j)
         else K) K0) = dims K).
  { intros K0 HK0. unfold finite_element_solver_base_1d.mesh_run_local.
    apply foldl_invariant; [done|]. intros K1 node HK1.
    apply foldl_invariant; [done|]. intros K2 [[e i]|] HK2; [|done].
    apply foldl_invariant; [done|]. intros K3 j HK3.
    destruct (bool_decide _); [|done]. by rewrite dims_coeffRef_update. }
  assert (Hneumann : dims (if neumann_task then
      foldl (fun K node =>
        foldl (fun K ei =>
          match ei with
          | Some (e, i) =>
              Eigen.coeffRef_update
                (fun val => add val (finite_element_solver_base_1d.integrate_basic mesh e i))
                K node (finite_element_solver_base_1d.nodes_count_all mesh)
          | None => K
          end)
          (Eigen.coeffRef_update (fun val => val) K node
             (finite_element_solver_base_1d.nodes_count_all mesh))
          (finite_element_solver_base_1d.node_elements mesh node))
        K (seq 0 (finite_element_solver_base_1d.nodes_count_all mesh))
      else K) = dims K).
  { destruct neumann_task; [|done].
    apply foldl_invariant; [done|]. intros K1 node HK1.
    apply foldl_invariant; [by rewrite dims_coeffRef_update|].
    intros K2 [[e i]|] HK2; [|done]. by rewrite dims_coeffRef_update. }
  destruct nonlocal_task; [|by apply Hlocal].
  unfold finite_element_solver_base_1d.mesh_run_nonlocal.
  apply foldl_invariant; [by apply Hlocal|]. intros K1 node HK1.
  apply foldl_invariant; [done|]. intros K2 [[e i]|] HK2; [|done].
  apply foldl_invariant; [done|]. intros K3 eNL HK3.
  apply foldl_invariant; [done|]. intros K4 j HK4.
  destruct (bool_decide _); [|done]. by rewrite dims_coeffRef_update.
Qed.

Lemma length_integrate_right_part f right_part :
  length (finite_element_solver_base_1d.integrate_right_part mesh f right_part)
  = length f.
Proof.
  unfold finite_element_solver_base_1d.integrate_right_part.
  apply foldl_invariant; [done|]. intros f1 node Hf1.
  apply foldl_invariant; [done|]. intros f2 [[e i]|] Hf2; [|done].
  by rewrite length_insert.
Qed.

Lemma length_boundary_condition_second_kind f bound_cond :
  length (finite_element_solver_base_1d.boundary_condition_second_kind mesh f bound_cond)
  = length f.
Proof.
  unfold finite_element_solver_base_1d.boundary_condition_second_kind.
  apply foldl_invariant; [done|]. intros f1 b Hf1.
  destruct (decide _); [|done]. by rewrite length_insert.
Qed.

Lemma length_boundary_condition_first_kind f bound_cond K_bound :
  length (finite_element_solver_base_1d.boundary_condition_first_kind mesh f bound_cond
            K_bound) = length f.
Proof.
  unfold finite_element_solver_base_1d.boundary_condition_first_kind.
  apply foldl_invariant; [done|]. intros f1 b Hf1.
  destruct (decide _); [|done]. rewrite length_insert.
  apply foldl_invariant; [done|]. intros f2 [i val] Hf2. by rewrite length_insert.
Qed.

End dimensions.

(** C9: with a linear solver that returns a vector of the size of the system,
    [stationary] either throws on the compatibility test or returns exactly
    [nodes_count] temperatures.  The system it solves has [nodes_count]
    unknowns, and one more in the pure Neumann case; the extra unknown is cut
    off the returned vector. *)
Theorem C9_stationary_returns_nodes_count_values :
  forall (T : Type) (S : Scalar T) (mesh : finite_element_solver_base_1d.mesh_1d T)
         fresh_index fresh_value solve parameters bound_cond right_part
         influence_function,
    (forall K f, length (solve K f) = Eigen.cols K) ->
    let nodes_count := finite_element_solver_base_1d.nodes_count_all mesh in
    let neumann_task := finite_element_solver_base_1d.is_neumann_task bound_cond in
    let system :=
      finite_element_solver_base_1d.stationary_system mesh fresh_index fresh_value
        parameters bound_cond right_part influence_function in
    let result :=
      finite_element_solver_base_1d.stationary mesh fresh_index fresh_value solve
        parameters bound_cond right_part influence_function in
    Eigen.rows system.1 = nodes_count + (if neumann_task then 1 else 0)
    /\ Eigen.cols system.1 = nodes_count + (if neumann_task then 1 else 0)
    /\ length system.2 = nodes_count + (if neumann_task then 1 else 0)
    /\ (result = thrown domain_error
        \/ exists temperature,
             result = returned temperature
             /\ temperature = take nodes_count (solve system.1 system.2)
             /\ length temperature = nodes_count).
Proof.
  intros T S mesh fresh_index fresh_value solve parameters bound_cond right_part
         influence_function Hsolve nodes_count neumann_task system result.
  assert (Hdims : dims system.1 = (nodes_count + (if neumann_task then 1 else 0),
                                   nodes_count + (if neumann_task then 1 else 0))).
  { subst system. unfold finite_element_solver_base_1d.stationary_system. cbn [fst].
    unfold finite_element_solver_base_1d.create_matrix.
    rewrite dims_calc_matrix, dims_create_matrix_portrait. done. }
  pose proof (f_equal fst Hdims) as Hrows. pose proof (f_equal snd Hdims) as Hcols.
  cbn [fst snd dims] in Hrows, Hcols. clear Hdims.
  assert (Hf : length system.2 = nodes_count + (if neumann_task then 1 else 0)).
  { subst system. unfold finite_element_solver_base_1d.stationary_system. cbn [snd].
    rewrite length_boundary_condition_first_kind,
      length_boundary_condition_second_kind, length_integrate_right_part,
      length_replicate. done. }
  split; [done|]. split; [done|]. split; [done|].
  subst result. unfold finite_element_solver_base_1d.stationary.
  destruct (finite_element_solver_base_1d.unsolvable bound_cond); [by left|right].
  fold system. clearbody system. destruct system as [K f]. cbn [fst snd] in *.
  eexists. split; [done|]. split; [done|].
  rewrite length_take, Hsolve, Hcols. lia.
Qed.

Lemma C9_stationary_returns_nodes_count_values_witness :
  (forall K f, length (inputs.zero_solver K f) = Eigen.cols K)
  /\ exists temperature,
       finite_element_solver_base_1d.stationary (inputs.segment inputs.linear_gauss1)
         (fun _ => 0) (fun _ => 0%float) inputs.zero_solver inputs.unit_parameters
         ((SECOND_KIND, (-1)%float), (SECOND_KIND, 1%float))
         (fun _ => 0%float) (fun _ _ => 0%float) = returned temperature
       /\ length temperature = 3.
Proof.
  assert (Hsolve : forall K f, length (inputs.zero_solver K f) = Eigen.cols K).
  { intros K f. apply length_replicate. }
  split; [exact Hsolve|].
  destruct (C9_stationary_returns_nodes_count_values float double
              (inputs.segment inputs.linear_gauss1) (fun _ => 0) (fun _ => 0%float)
              inputs.zero_solver inputs.unit_parameters
              ((SECOND_KIND, (-1)%float), (SECOND_KIND, 1%float))
              (fun _ => 0%float) (fun _ _ => 0%float) Hsolve)
    as (_ & _ & _ & [Hthrown | (temperature & Hreturned & _ & Hlength)]).
  - vm_compute in Hthrown. discriminate Hthrown.
  - exists temperature. split; [exact Hreturned | exact Hlength].
Defined.

(** ** Reading SU2 elements and writing them back as VTK cells *)

Section round_trip.
Import mesh_container_2d.

(** The slots of an element after the tokens [nodes] went to the slots
    [K], one after the other. *)
Definition scatter_from (element : list nat) (K nodes : list nat) : list nat :=
  foldl (fun element kv => <[kv.1 := kv.2]> element) element (zip K nodes).

Definition scatter (K nodes : list nat) : list nat :=
  scatter_from (replicate (length K) 0) K nodes.

Lemma read_element_from K : forall element nodes rest,
  length nodes = length K ->
  foldl (fun '(element, s) k =>
           let '(s, v) := read_number s (element !!! k) in
           (<[k := v]> element, s))
        (element, {| tokens := (number <$> nodes) ++ rest; failed := false |}) K
  = (scatter_from element K nodes, {| tokens := rest; failed := false |}).
Proof.
  induction K as [|k K IH]; intros element [|v nodes] rest Hlen;
    simplify_eq/=; [done|].
  by rewrite IH.
Qed.

Lemma read_element_scatter K nodes rest :
  length nodes = length K ->
  read_element K {| tokens := (number <$> nodes) ++ rest; failed := false |}
  = (scatter K nodes, {| tokens := rest; failed := false |}).
Proof. intros Hlen. unfold read_element. by rewrite read_element_from. Qed.

Lemma length_scatter_from K : forall element nodes,
  length (scatter_from element K nodes) = length element.
Proof.
  induction K as [|k K IH]; intros element [|v nodes]; simpl; try done.
  unfold scatter_from in *; simpl. by rewrite IH, length_insert.
Qed.

Lemma scatter_from_other K : forall element nodes k,
  k ∉ K -> scatter_from element K nodes !!! k = element !!! k.
Proof.
  induction K as [|k' K IH]; intros element [|v nodes] k Hk; simpl; try done.
  apply not_elem_of_cons in Hk as [Hne Hk].
  unfold scatter_from in *; simpl. rewrite IH by done.
  by rewrite list_lookup_total_insert_ne.
Qed.

(** Reading the slots [K] back in the same order undoes the scattering:
    the gather by [K] is the inverse of the scatter by [K]. *)
Lemma write_element_scatter_from K : forall element nodes,
  NoDup K -> Forall (fun k => k < length element) K -> length nodes = length K ->
  write_element (scatter_from element K nodes) K = nodes.
Proof.
  unfold write_element.
  induction K as [|k K IH]; intros element [|v nodes] Hnodup Hin Hlen;
    simplify_eq/=; [done|].
  apply NoDup_cons in Hnodup as [Hk Hnodup]. apply Forall_cons in Hin as [Hlt Hin].
  unfold scatter_from in *; simpl. f_equal.
  - fold (scatter_from (<[k := v]> element) K nodes).
    rewrite scatter_from_other by done.
    by rewrite list_lookup_total_insert_eq.
  - apply IH; [done| |done]. by rewrite length_insert.
Qed.

(** Each pack of the reader lists every slot of the element once, and the
    writer uses the same pack for the tag the code is mapped to. *)
Lemma read_pack_permutes type K :
  read_pack type = Some K ->
  NoDup K /\ Forall (fun k => k < length K) K
  /\ exists local, model_to_local_2d type = Some local /\ write_pack local = Some K.
Proof.
  unfold read_pack, model_to_local_2d.
  repeat case_decide; intros [= <-];
    (split; [by apply (bool_decide_unpack _); vm_compute
            |split; [by apply (bool_decide_unpack _); vm_compute | by eexists]]).
Qed.

End round_trip.

Section su2_to_vtk.
Import mesh_container_2d specification.

(** What the reader keeps of an element of the file. *)
Definition stored_element (e : nat * list nat * nat) : list nat :=
  match read_pack e.1.1 with
  | Some K => scatter K e.1.2
  | None => []
  end.

Definition stored_type (e : nat * list nat * nat) : element_2d_t :=
  default TRIANGLE (model_to_local_2d e.1.1).

Lemma read_elements_2d_loop : forall elements done_elements done_types rest,
  Forall well_formed_element elements ->
  length done_elements = length done_types ->
  foldl read_elements_2d_step
    (returned (done_elements ++ replicate (length elements) [],
               done_types ++ replicate (length elements) TRIANGLE,
               {| tokens := concat (su2_element <$> elements) ++ rest;
                  failed := false |}))
    (seq (length done_elements) (length elements))
  = returned (done_elements ++ (stored_element <$> elements),
              done_types ++ (stored_type <$> elements),
              {| tokens := rest; failed := false |}).
Proof.
  induction elements as [|e elements IH]; intros done_elements done_types rest Hwf Hlen.
  { simpl. by rewrite !app_nil_r. }
  apply Forall_cons in Hwf as [(K & HK & Hnodes) Hwf].
  destruct (read_pack_permutes _ _ HK) as (_ & _ & local & Hlocal & _).
  destruct e as [[type nodes] id]. cbn [fst snd] in *.
  cbn [length seq foldl fmap list_fmap concat].
  unfold read_elements_2d_step at 2. cbn [mbind outcome_bind].
  unfold su2_element at 1. cbn [fst snd app read_number tokens failed].
  rewrite Hlocal, HK. rewrite <- !app_assoc.
  rewrite read_element_scatter by done.
  cbn [app read_string tokens failed].
  rewrite !insert_app_r_alt, Hlen, !Nat.sub_diag by lia.
  cbn [replicate insert list_insert].
  rewrite !(cons_middle _ done_elements), !(cons_middle _ done_types), !app_assoc.
  replace (S (length done_types)) with (length (done_elements ++ [scatter K nodes]))
    by (rewrite length_app; simpl; lia).
  rewrite IH; [|done|by rewrite !length_app, Hlen].
  unfold stored_element, stored_type. cbn [fst snd]. rewrite HK, Hlocal.
  by rewrite <- !app_assoc.
Qed.

Lemma save_cells_loop : forall elements lines,
  Forall well_formed_element elements ->
  foldl (fun lines '(element, type) =>
           lines ← lines;
           match write_pack type with
           | Some K => returned (lines ++ [length element :: write_element element K])
           | None => thrown domain_error
           end)
        (returned lines)
        (zip (stored_element <$> elements) (stored_type <$> elements))
  = returned (lines ++ (cells_line <$> elements)).
Proof.
  induction elements as [|e elements IH]; intros lines Hwf.
  { simpl. by rewrite app_nil_r. }
  apply Forall_cons in Hwf as [(K & HK & Hnodes) Hwf].
  destruct (read_pack_permutes _ _ HK) as (Hnodup & Hin & local & Hlocal & Hwrite).
  cbn [fmap list_fmap zip zip_with foldl mbind outcome_bind].
  unfold stored_element at 1 2, stored_type at 1. rewrite HK, Hlocal.
  cbn [default from_option id]. rewrite Hwrite. unfold scatter.
  rewrite length_scatter_from, length_replicate.
  rewrite write_element_scatter_from; [|done|by rewrite length_replicate|done].
  rewrite IH by done. unfold cells_line at 2. rewrite Hnodes.
  by rewrite <- app_assoc.
Qed.

End su2_to_vtk.

(** C8: the elements of a well-formed SU2 element block are read without
    error, and the CELLS block written from what was read repeats for every
    element the node list of the file: the writer reads the slots in the
    order in which the reader filled them, so the permutation of the output
    undoes that of the input.  For the quadratic serendipity element both
    switches use the pack 0,2,4,6,1,3,5,7: the tokens of the file go to these
    slots in turn, and the same slots are written out in turn. *)
Theorem C8_su2_elements_round_trip_through_vtk_cells :
  forall (elements : list (nat * list nat * nat)) (rest : list mesh_container_2d.token),
    Forall specification.well_formed_element elements ->
    (exists elements_2d elements_types_2d,
       mesh_container_2d.read_elements_2d
         {| mesh_container_2d.tokens := specification.su2_elements elements ++ rest;
            mesh_container_2d.failed := false |}
       = returned (elements_2d, elements_types_2d,
                   {| mesh_container_2d.tokens := rest;
                      mesh_container_2d.failed := false |})
       /\ mesh_container_2d.save_cells elements_2d elements_types_2d
          = returned (specification.cells_line <$> elements))
    /\ mesh_container_2d.read_pack mesh_container_2d.vtk_QUADRATIC_SERENDIPITY
       = Some [0; 2; 4; 6; 1; 3; 5; 7]
    /\ mesh_container_2d.write_pack mesh_container_2d.QUADRATIC_SERENDIPITY
       = Some [0; 2; 4; 6; 1; 3; 5; 7]
    /\ forall n0 n1 n2 n3 n4 n5 n6 n7 : nat,
         let file := [n0; n1; n2; n3; n4; n5; n6; n7] in
         let slots := [n0; n4; n1; n5; n2; n6; n3; n7] in
         (mesh_container_2d.read_element [0; 2; 4; 6; 1; 3; 5; 7]
            {| mesh_container_2d.tokens := mesh_container_2d.number <$> file;
               mesh_container_2d.failed := false |}).1 = slots
         /\ mesh_container_2d.write_element slots [0; 2; 4; 6; 1; 3; 5; 7] = file.
Proof.
  intros elements rest Hwf. split; [|split; [done|split; [done|]]].
  - exists (stored_element <$> elements), (stored_type <$> elements). split.
    + unfold mesh_container_2d.read_elements_2d, specification.su2_elements.
      cbn [app mesh_container_2d.read_string mesh_container_2d.read_number
           mesh_container_2d.tokens mesh_container_2d.failed].
      pose proof (read_elements_2d_loop elements [] [] rest Hwf eq_refl) as Hloop.
      cbn [app length] in Hloop. exact Hloop.
    + unfold mesh_container_2d.save_cells.
      exact (save_cells_loop elements [] Hwf).
  - intros n0 n1 n2 n3 n4 n5 n6 n7 file slots. by split.
Qed.

Lemma C8_su2_elements_round_trip_through_vtk_cells_witness :
  let elements := [(23, [10; 11; 12; 13; 14; 15; 16; 17], 0); (5, [11; 12; 18], 1)] in
  Forall specification.well_formed_element elements
  /\ exists elements_2d elements_types_2d,
       mesh_container_2d.read_elements_2d
         {| mesh_container_2d.tokens :=
              specification.su2_elements elements
              ++ [mesh_container_2d.word "NPOIN="; mesh_container_2d.number 19];
            mesh_container_2d.failed := false |}
       = returned (elements_2d, elements_types_2d,
                   {| mesh_container_2d.tokens :=
                        [mesh_container_2d.word "NPOIN="; mesh_container_2d.number 19];
                      mesh_container_2d.failed := false |})
       /\ mesh_container_2d.save_cells elements_2d elements_types_2d
          = returned [[8; 10; 11; 12; 13; 14; 15; 16; 17]; [3; 11; 12; 18]].
Proof.
  intros elements.
  assert (Hwf : Forall specification.well_formed_element elements).
  { repeat constructor; eexists; (split; [reflexivity | reflexivity]). }
  split; [exact Hwf|].
  exact (proj1 (C8_su2_elements_round_trip_through_vtk_cells elements
                  [mesh_container_2d.word "NPOIN="; mesh_container_2d.number 19] Hwf)).
Defined.

(** ** Geometry in all quadrature nodes *)

(** The shift vectors under which the loops stay inside the result and the
    blocks of the elements do not overlap: the first shift is not negative,
    and the block of the element [e] ends where the next one starts, or
    before. *)
Definition blocks_in_order (n : nat) (qnodes : nat -> nat) (shifts : list Z) : Prop :=
  (0 <= shifts !!! 0%nat)%Z
  /\ forall e, e < n -> (shifts !!! e + Z.of_nat (qnodes e) <= shifts !!! S e)%Z.

Lemma blocks_in_order_mono n qnodes shifts e e' :
  blocks_in_order n qnodes shifts -> e <= e' -> e' <= n ->
  (shifts !!! e <= shifts !!! e')%Z.
Proof.
  intros [_ Hord] Hle He'. induction Hle as [|e' Hle IH]; [done|].
  specialize (Hord e' ltac:(lia)). lia.
Qed.

Lemma blocks_in_order_nonneg n qnodes shifts e :
  blocks_in_order n qnodes shifts -> e <= n -> (0 <= shifts !!! e)%Z.
Proof.
  intros Hord He.
  pose proof (blocks_in_order_mono n qnodes shifts 0 e Hord ltac:(lia) He).
  destruct Hord as [Hzero _]. lia.
Qed.

(** The places of the blocks in the result, as indices of its cells. *)
Lemma blocks_in_order_offsets n qnodes shifts :
  blocks_in_order n qnodes shifts ->
  forall e, e < n ->
    Z.to_nat (shifts !!! e) + qnodes e <= Z.to_nat (shifts !!! S e).
Proof.
  intros Hord e He.
  pose proof (blocks_in_order_nonneg n qnodes shifts e Hord ltac:(lia)).
  pose proof (proj2 Hord e He). lia.
Qed.

Lemma back_lookup_total (shifts : list nat) n :
  length shifts = n + 1 -> back shifts = shifts !!! n.
Proof.
  intros Hlen. unfold back.
  destruct (last shifts) as [x|] eqn:Hlast.
  - apply last_Some in Hlast as [front ->].
    rewrite length_app in Hlen. simpl in Hlen.
    rewrite list_lookup_total_alt, list_lookup_middle by lia. done.
  - apply last_None in Hlast as ->. simpl in Hlen. lia.
Qed.

Lemma back_I_lookup_total (shifts : list Z) n :
  length shifts = n + 1 -> back_I shifts = shifts !!! n.
Proof.
  intros Hlen. unfold back_I.
  destruct (last shifts) as [x|] eqn:Hlast.
  - apply last_Some in Hlast as [front ->].
    rewrite length_app in Hlen. simpl in Hlen.
    rewrite list_lookup_total_alt, list_lookup_middle by lia. done.
  - apply last_None in Hlast as ->. simpl in Hlen. lia.
Qed.

(** The shifts that [quadrature_shifts_2d] builds start at zero and step by
    the size of each block: they are of this kind. *)
Lemma quadrature_shifts_2d_spec n shift :
  length (utils.quadrature_shifts_2d n shift) = n + 1
  /\ utils.quadrature_shifts_2d n shift !!! 0 = 0%Z
  /\ forall e, e < n ->
       utils.quadrature_shifts_2d n shift !!! S e
       = (utils.quadrature_shifts_2d n shift !!! e + Z.of_nat (shift e))%Z.
Proof.
  unfold utils.quadrature_shifts_2d.
  assert (Hgen : forall k init, k <= n -> length init = n + 1 ->
    let result :=
      foldl (fun quad_shifts e =>
               <[S e := (quad_shifts !!! e + Z.of_nat (shift e))%Z]> quad_shifts)
            init (seq 0 k) in
    length result = n + 1
    /\ (forall e, e < k -> result !!! S e = (result !!! e + Z.of_nat (shift e))%Z)
    /\ result !!! 0 = init !!! 0).
  { induction k as [|k IH]; intros init Hk Hinit.
    { simpl. split; [done|]. split; [intros; lia | done]. }
    rewrite seq_S, foldl_app. simpl.
    destruct (IH init ltac:(lia) Hinit) as (Hlen & Hprev & Hzero).
    split; [by rewrite length_insert|]. split.
    - intros e He. destruct (decide (e = k)) as [->|Hne].
      + rewrite list_lookup_total_insert_eq by lia.
        by rewrite list_lookup_total_insert_ne by lia.
      + rewrite !list_lookup_total_insert_ne by lia. apply Hprev. lia.
    - by rewrite list_lookup_total_insert_ne by lia. }
  destruct (Hgen n (replicate (n + 1) 0%Z) ltac:(lia) ltac:(by rewrite length_replicate))
    as (Hlen & Hstep & Hzero).
  split; [done|]. split; [|done].
  rewrite Hzero. by rewrite lookup_total_replicate_2 by lia.
Qed.

Lemma quadrature_shifts_2d_in_order n qnodes :
  blocks_in_order n qnodes (utils.elements_quadrature_shifts_2d n qnodes).
Proof.
  unfold utils.elements_quadrature_shifts_2d.
  destruct (quadrature_shifts_2d_spec n qnodes) as (_ & Hzero & Hstep).
  split; [by rewrite Hzero|]. intros e He. rewrite Hstep; done.
Qed.

(** The two levels of loops over the elements and their quadrature nodes,
    with the work done on one slot left open; [offset e] is the cell where
    the block of the element [e] starts. *)
Section blocks.
Context {A : Type}.
Variables (n : nat) (qnodes : nat -> nat) (offset : nat -> nat).
Variable slot_step : nat -> nat -> outcome (list A) -> outcome (list A).
Variable slot_value : nat -> nat -> A -> A.

Hypothesis slot_step_spec : forall e q data a,
  e < n ->
  data !! (offset e + q) = Some a ->
  slot_step e q (returned data)
  = returned (<[offset e + q := slot_value e q a]> data).

Definition element_loop (e : nat) (data : outcome (list A)) (m : nat) : outcome (list A) :=
  foldl (fun data q => slot_step e q data) data (seq 0 m).

Definition mesh_loop (data : outcome (list A)) (k : nat) : outcome (list A) :=
  foldl (fun data e => element_loop e data (qnodes e)) data (seq 0 k).

Lemma element_loop_spec e m : forall data,
  e < n ->
  offset e + m <= length data ->
  exists data',
    element_loop e (returned data) m = returned data'
    /\ length data' = length data
    /\ (forall q, q < m ->
          data' !! (offset e + q) = slot_value e q <$> data !! (offset e + q))
    /\ (forall p, p < offset e \/ offset e + m <= p -> data' !! p = data !! p).
Proof.
  unfold element_loop. induction m as [|m IH]; intros data He Hm.
  { exists data. split; [done|]. split; [done|]. split; [intros; lia | done]. }
  destruct (IH data He ltac:(lia)) as (data1 & Hrun & Hlen & Hset & Hkeep).
  rewrite seq_S, foldl_app, Hrun. simpl.
  destruct (lookup_lt_is_Some_2 data (offset e + m) ltac:(lia)) as [a Ha].
  rewrite (slot_step_spec e m data1 a He) by (rewrite Hkeep; [done | lia]).
  eexists. split; [done|]. split; [by rewrite length_insert|]. split.
  - intros q Hq. destruct (decide (q = m)) as [->|Hne].
    + rewrite list_lookup_insert_eq by lia. by rewrite Ha.
    + rewrite list_lookup_insert_ne by lia. apply Hset. lia.
  - intros p Hp. rewrite list_lookup_insert_ne by lia. apply Hkeep. lia.
Qed.

Hypothesis offsets_in_order : forall e, e < n -> offset e + qnodes e <= offset (S e).

Lemma offsets_mono e e' : e <= e' -> e' <= n -> offset e <= offset e'.
Proof.
  intros Hle He'. induction Hle as [|e' Hle IH]; [done|].
  pose proof (offsets_in_order e' ltac:(lia)). lia.
Qed.

Lemma mesh_loop_spec (cleared : A) k :
  k <= n ->
  exists data,
    mesh_loop (returned (replicate (offset n) cleared)) k = returned data
    /\ length data = offset n
    /\ (forall e q, e < k -> q < qnodes e ->
          data !! (offset e + q) = Some (slot_value e q cleared))
    /\ (forall p, offset k <= p -> p < offset n -> data !! p = Some cleared).
Proof.
  unfold mesh_loop. induction k as [|k IH]; intros Hk.
  { eexists. split; [done|]. split; [by rewrite length_replicate|].
    split; [intros; lia|]. intros p _ Hp. by apply lookup_replicate_2. }
  destruct (IH ltac:(lia)) as (data & Hrun & Hlen & Hset & Hclear).
  rewrite seq_S, foldl_app, Hrun. simpl.
  pose proof (offsets_in_order k ltac:(lia)) as Hblock.
  pose proof (offsets_mono (S k) n ltac:(lia) ltac:(lia)) as Hend.
  destruct (element_loop_spec k (qnodes k) data ltac:(lia) ltac:(lia))
    as (data' & Hrun' & Hlen' & Hset' & Hkeep').
  exists data'. split; [done|]. split; [lia|]. split.
  - intros e q He Hq. destruct (decide (e = k)) as [->|Hne].
    + rewrite Hset' by done. rewrite Hclear by lia. done.
    + pose proof (offsets_in_order e ltac:(lia)) as Hblock_e.
      pose proof (offsets_mono (S e) k ltac:(lia) ltac:(lia)).
      rewrite Hkeep' by lia. apply Hset; [lia | done].
  - intros p Hp Hp'. rewrite Hkeep' by lia. apply Hclear; lia.
Qed.

(** Whatever the shifts, the loops raise no exception: they return or
    write outside the vector. *)
Hypothesis slot_step_no_throw : forall e q data exn,
  (forall exn', data <> thrown exn') -> slot_step e q data <> thrown exn.

Lemma mesh_loop_no_throw data k exn :
  (forall exn', data <> thrown exn') -> mesh_loop data k <> thrown exn.
Proof.
  intros Hdata. revert exn. unfold mesh_loop.
  apply (foldl_invariant (fun d => forall exn, d <> thrown exn)); [done|].
  intros d e Hd. unfold element_loop.
  apply (foldl_invariant (fun d => forall exn, d <> thrown exn)); [done|].
  intros d' q Hd' exn. by apply slot_step_no_throw.
Qed.

End blocks.

Lemma update_at_returned {A} (k : nat) (f : A -> A) (data : list A) (a : A) :
  data !! k = Some a -> returned data ≫= update_at k f = returned (<[k := f a]> data).
Proof. intros Ha. cbn [mbind outcome_bind]. unfold update_at. by rewrite Ha. Qed.

Lemma update_at_no_throw {A} (k : nat) (f : A -> A) (data : outcome (list A)) exn :
  (forall exn', data <> thrown exn') -> data ≫= update_at k f <> thrown exn.
Proof.
  intros Hdata. destruct data as [d|exn'|]; cbn [mbind outcome_bind]; [|by destruct (Hdata exn')|done].
  unfold update_at. by destruct (d !! k).
Qed.

(** A write at a shift that is not negative is a write at the cell of that
    number. *)
Lemma update_at_I_nonneg {A} (shift : Z) (q : nat) (f : A -> A) (data : list A) :
  (0 <= shift)%Z ->
  update_at_I (shift + Z.of_nat q)%Z f data = update_at (Z.to_nat shift + q) f data.
Proof.
  intros Hshift. unfold update_at_I. rewrite decide_False by lia.
  by replace (Z.to_nat (shift + Z.of_nat q)) with (Z.to_nat shift + q) by lia.
Qed.

Lemma update_at_I_no_throw {A} (k : Z) (f : A -> A) (data : outcome (list A)) exn :
  (forall exn', data <> thrown exn') -> data ≫= update_at_I k f <> thrown exn.
Proof.
  intros Hdata. destruct data as [d|exn'|]; cbn [mbind outcome_bind]; [|by destruct (Hdata exn')|done].
  unfold update_at_I. case_decide; [done|]. unfold update_at. by destruct (d !! _).
Qed.

(** The contributions of the nodes of an element pile up in one slot. *)
Lemma update_at_repeated {A} (k : nat) (contribution : nat -> A -> A) (nodes : list nat) :
  forall (data : list A) (a : A),
    data !! k = Some a ->
    foldl (fun data i => data ≫= update_at k (contribution i)) (returned data) nodes
    = returned (<[k := foldl (fun a i => contribution i a) a nodes]> data).
Proof.
  induction nodes as [|i nodes IH]; intros data a Ha; cbn [foldl].
  { by rewrite list_insert_id. }
  pose proof (lookup_lt_Some _ _ _ Ha) as Hk.
  rewrite (update_at_returned k _ data a Ha).
  rewrite (IH _ (contribution i a)) by (by rewrite list_lookup_insert_eq).
  by rewrite list_insert_insert_eq.
Qed.

Lemma update_at_I_repeated {A} (shift : Z) (q : nat) (contribution : nat -> A -> A)
    (nodes : list nat) (data : list A) (a : A) :
  (0 <= shift)%Z ->
  data !! (Z.to_nat shift + q) = Some a ->
  foldl (fun data i => data ≫= update_at_I (shift + Z.of_nat q)%Z (contribution i))
        (returned data) nodes
  = returned (<[Z.to_nat shift + q := foldl (fun a i => contribution i a) a nodes]> data).
Proof.
  intros Hshift Ha. rewrite <- (update_at_repeated _ contribution nodes data a Ha).
  generalize (returned data). clear Ha.
  induction nodes as [|i nodes IH]; intros d; cbn [foldl]; [done|].
  rewrite IH. f_equal. destruct d as [d| |]; [|done..].
  cbn [mbind outcome_bind]. by apply update_at_I_nonneg.
Qed.

Lemma update_at_I_repeated_no_throw {A} (k : Z) (contribution : nat -> A -> A)
    (nodes : list nat) (data : outcome (list A)) exn :
  (forall exn', data <> thrown exn') ->
  foldl (fun data i => data ≫= update_at_I k (contribution i)) data nodes <> thrown exn.
Proof.
  intros Hdata. revert exn.
  apply (foldl_invariant (fun d => forall exn, d <> thrown exn)); [done|].
  intros d i Hd exn. by apply update_at_I_no_throw.
Qed.

(** The allocation of the result: a negative count throws, any other gives
    that many cleared cells. *)
Lemma vector_of_size_thrown {A} (cleared : A) (n : Z) exn :
  vector_of_size cleared n = thrown exn <-> exn = length_error /\ (n < 0)%Z.
Proof.
  unfold vector_of_size. case_decide.
  - split; [by intros [= <-] | by intros [-> _]].
  - split; [done | intros [_ ?]; lia].
Qed.

Lemma vector_of_size_returned {A} (cleared : A) (n : Z) :
  (0 <= n)%Z -> vector_of_size cleared n = returned (replicate (Z.to_nat n) cleared).
Proof. intros Hn. unfold vector_of_size. by rewrite decide_False by lia. Qed.

(** What the entry at the offset [q] of the block of the element [el] holds
    after [accumulate_in_quad_nodes]: the contributions of the nodes of the
    element, from the first to the last, on top of the cleared entry. *)
Definition accumulated {T : Type} `{!Scalar T} {A : Type} (mesh : mesh.mesh_2d T)
    (cleared : A) (contribution : nat -> nat -> nat -> A -> A) (el q : nat) : A :=
  foldl (fun a i => contribution el q i a) cleared
        (seq 0 (nodes_count (mesh.element_2d mesh el))).

(** C7, as the code has it: both families of precomputations throw
    [logic_error] exactly when the size of the shift vector differs from the
    number of elements plus one; when the sizes agree, the allocation of the
    result throws [length_error] exactly when the last shift is negative; and
    they throw nothing else.  When the sizes agree, the first shift is not
    negative and the block of every element ends no later than the next
    shift, as for the shifts that [quadrature_shifts_2d] builds, they return a
    vector whose length is the last shift and in which the entry of the
    quadrature node [q] of the element [e] stands at [shifts[e] + q]. *)
Theorem C7_geometry_in_all_quadrature_nodes :
  (forall (A : Type) (cleared : A) (n : nat) (qnodes : nat -> nat) (shifts : list Z)
          (functor : nat -> nat -> A),
     let result := utils.approx_in_all_quad_nodes n qnodes cleared shifts functor in
     (forall exn,
        result = thrown exn
        <-> (exn = logic_error /\ length shifts <> n + 1)
            \/ (exn = length_error /\ length shifts = n + 1 /\ (back_I shifts < 0)%Z))
     /\ (length shifts = n + 1 -> blocks_in_order n qnodes shifts ->
         exists data,
           result = returned data
           /\ Z.of_nat (length data) = back_I shifts
           /\ forall e q, e < n -> q < qnodes e ->
                data !! (Z.to_nat (shifts !!! e) + q) = Some (functor e q)))
  /\ (forall (T : Type) (S : Scalar T) (A : Type) (mesh : mesh.mesh_2d T) (cleared : A)
             (contribution : nat -> nat -> nat -> A -> A) (shifts : list Z),
        let n := mesh.elements_count_2d mesh in
        let qnodes e := qnodes_count (mesh.element_2d mesh e) in
        let result :=
          finite_element_routine.accumulate_in_quad_nodes mesh cleared contribution shifts in
        (forall exn,
           result = thrown exn
           <-> (exn = logic_error /\ length shifts <> n + 1)
               \/ (exn = length_error /\ length shifts = n + 1 /\ (back_I shifts < 0)%Z))
        /\ (length shifts = n + 1 -> blocks_in_order n qnodes shifts ->
            exists data,
              result = returned data
              /\ Z.of_nat (length data) = back_I shifts
              /\ forall e q, e < n -> q < qnodes e ->
                   data !! (Z.to_nat (shifts !!! e) + q)
                   = Some (accumulated mesh cleared contribution e q))).
Proof.
  split.
  - intros A cleared n qnodes shifts functor result. subst result.
    unfold utils.approx_in_all_quad_nodes.
    set (step := fun (e q : nat) (data : outcome (list A)) =>
           data ≫= update_at_I (shifts !!! e + Z.of_nat q)%Z (fun _ => functor e q)).
    change (foldl _ ?d (seq 0 n)) with (mesh_loop qnodes step d n).
    destruct (decide (n + 1 ≠ length shifts)) as [Hne|Heq].
    { split; [|intros; lia]. intros exn. split.
      - intros [= <-]. left. split; [done|lia].
      - intros [[-> _]|(_ & ? & _)]; [done|lia]. }
    apply dec_stable in Heq. split.
    + intros exn. destruct (decide (back_I shifts < 0)%Z) as [Hneg|Hpos].
      * unfold vector_of_size. rewrite decide_True by done. cbn [mbind outcome_bind].
        split.
        -- intros [= <-]. right. split; [done|]. split; [lia|done].
        -- intros [[_ ?]|[-> _]]; [lia|done].
      * rewrite vector_of_size_returned by lia. cbn [mbind outcome_bind].
        split; [|intros [[_ ?]|(_ & _ & ?)]; lia].
        intros Hthrown. exfalso. revert Hthrown. apply mesh_loop_no_throw; [|done].
        intros e q data exn'. apply update_at_I_no_throw.
    + intros Hlen Hord. rewrite (back_I_lookup_total shifts n Hlen).
      pose proof (blocks_in_order_nonneg n qnodes shifts n Hord (le_n n)) as Hlast.
      rewrite vector_of_size_returned by done. cbn [mbind outcome_bind].
      destruct (mesh_loop_spec n qnodes (fun e => Z.to_nat (shifts !!! e)) step
                  (fun e q _ => functor e q)) with (cleared := cleared) (k := n)
        as (data & Hrun & Hlength & Hset & _).
      * intros e q data a He Ha. unfold step. cbn [mbind outcome_bind].
        rewrite update_at_I_nonneg
          by (apply (blocks_in_order_nonneg n qnodes); [done|lia]).
        unfold update_at. by rewrite Ha.
      * by apply blocks_in_order_offsets.
      * done.
      * exists data. split; [exact Hrun|]. split; [lia|done].
  - intros T S A mesh cleared contribution shifts n qnodes result. subst result.
    unfold finite_element_routine.accumulate_in_quad_nodes. fold n.
    set (step := fun (e q : nat) (data : outcome (list A)) =>
           foldl (fun data i =>
                    data ≫= update_at_I (shifts !!! e + Z.of_nat q)%Z (contribution e q i))
                 data (seq 0 (nodes_count (mesh.element_2d mesh e)))).
    change (foldl _ ?d (seq 0 n)) with (mesh_loop qnodes step d n).
    destruct (decide (n + 1 ≠ length shifts)) as [Hne|Heq].
    { split; [|intros; lia]. intros exn. split.
      - intros [= <-]. left. split; [done|lia].
      - intros [[-> _]|(_ & ? & _)]; [done|lia]. }
    apply dec_stable in Heq. split.
    + intros exn. destruct (decide (back_I shifts < 0)%Z) as [Hneg|Hpos].
      * unfold vector_of_size. rewrite decide_True by done. cbn [mbind outcome_bind].
        split.
        -- intros [= <-]. right. split; [done|]. split; [lia|done].
        -- intros [[_ ?]|[-> _]]; [lia|done].
      * rewrite vector_of_size_returned by lia. cbn [mbind outcome_bind].
        split; [|intros [[_ ?]|(_ & _ & ?)]; lia].
        intros Hthrown. exfalso. revert Hthrown. apply mesh_loop_no_throw; [|done].
        intros e q data exn'. apply update_at_I_repeated_no_throw.
    + intros Hlen Hord. rewrite (back_I_lookup_total shifts n Hlen).
      pose proof (blocks_in_order_nonneg n qnodes shifts n Hord (le_n n)) as Hlast.
      rewrite vector_of_size_returned by done. cbn [mbind outcome_bind].
      destruct (mesh_loop_spec n qnodes (fun e => Z.to_nat (shifts !!! e)) step
                  (fun e q a => foldl (fun a i => contribution e q i a) a
                                  (seq 0 (nodes_count (mesh.element_2d mesh e)))))
        with (cleared := cleared) (k := n)
        as (data & Hrun & Hlength & Hset & _).
      * intros e q data a He Ha. unfold step.
        apply update_at_I_repeated; [|done].
        apply (blocks_in_order_nonneg n qnodes); [done|lia].
      * by apply blocks_in_order_offsets.
      * done.
      * exists data. split; [exact Hrun|]. split; [lia|done].
Qed.

Lemma C7_geometry_in_all_quadrature_nodes_witness :
  let shifts := utils.elements_quadrature_shifts_2d 2 S in
  shifts = [0; 1; 3]%Z
  /\ blocks_in_order 2 S shifts
  /\ exists data,
       utils.approx_in_all_quad_nodes 2 S 0 shifts (fun e q => 10 * e + q) = returned data
       /\ Z.of_nat (length data) = back_I shifts
       /\ forall e q, e < 2 -> q < S e ->
            data !! (Z.to_nat (shifts !!! e) + q) = Some (10 * e + q).
Proof.
  intros shifts.
  assert (Hord : blocks_in_order 2 S shifts) by apply quadrature_shifts_2d_in_order.
  split; [reflexivity|]. split; [exact Hord|].
  exact (proj2 (proj1 C7_geometry_in_all_quadrature_nodes nat 0 2 S shifts
                  (fun e q => 10 * e + q)) eq_refl Hord).
Defined.

(** C7 as stated fails where the sizes agree and the shifts are not those of
    the mesh.  With two elements of one quadrature node each and the shifts
    0, 0, 1 the call returns a vector of length 1 in which the entry of the
    element 1 has replaced that of the element 0; with one element and the
    shifts 1, 0 the result is empty and the entry is written outside of it;
    and with one element and the shifts 0, -1 the sizes agree and the call
    throws all the same, from the allocation of the result. *)
Lemma C7_agreeing_sizes_do_not_place_every_entry :
  let functor (e q : nat) := 10 + e in
  (length [0; 0; 1]%Z = 2 + 1
   /\ utils.approx_in_all_quad_nodes 2 (fun _ => 1) 0 [0; 0; 1]%Z functor = returned [11]
   /\ [11] !! (Z.to_nat ([0; 0; 1]%Z !!! 0) + 0) <> Some (functor 0 0))
  /\ (length [1; 0]%Z = 1 + 1
      /\ utils.approx_in_all_quad_nodes 1 (fun _ => 1) 0 [1; 0]%Z functor = undefined)
  /\ (length [0; -1]%Z = 1 + 1
      /\ utils.approx_in_all_quad_nodes 1 (fun _ => 1) 0 [0; -1]%Z functor
         = thrown length_error).
Proof. intros functor. repeat split; try reflexivity. by intros [=]. Qed.


(** ** The portrait of [K_inner]: upper triangle and sorted rows *)

(** *** Columns noted once, in the order of their first visit *)

(** What [stage] does to the list of the columns of a row when the column
    [col] comes up: nothing when it is there already. *)
Definition note (noted : list nat) (col : nat) : list nat :=
  if bool_decide (col ∈ noted) then noted else noted ++ [col].

Lemma length_note_le noted col : length noted <= length (note noted col).
Proof. unfold note. case_bool_decide; [done|]. rewrite length_app. lia. Qed.

Lemma length_foldl_note_le cols : forall noted,
  length noted <= length (foldl note noted cols).
Proof.
  induction cols as [|col cols IH]; intros noted; simpl; [done|].
  etrans; [apply (length_note_le noted col) | apply IH].
Qed.

Lemma elem_of_note noted col x : x ∈ note noted col <-> x ∈ noted \/ x = col.
Proof.
  unfold note. case_bool_decide as Hin.
  - split; [by left | intros [?| ->]; done].
  - rewrite elem_of_app, list_elem_of_singleton. done.
Qed.

Lemma elem_of_foldl_note cols : forall noted x,
  x ∈ foldl note noted cols <-> x ∈ noted \/ x ∈ cols.
Proof.
  induction cols as [|col cols IH]; intros noted x; simpl.
  - rewrite elem_of_nil. tauto.
  - rewrite IH, elem_of_note, elem_of_cons. tauto.
Qed.

Lemma note_prefix noted col k :
  k < length noted -> note noted col !! k = noted !! k.
Proof.
  intros Hk. unfold note. case_bool_decide; [done|]. by rewrite lookup_app_l.
Qed.

(** *** Loops as folds over the pairs they visit *)

Lemma foldl_bind {A B C : Type} (f : A -> C -> A) (g : B -> list C) (l : list B) :
  forall a, foldl f a (l ≫= g) = foldl (fun a x => foldl f a (g x)) a l.
Proof.
  induction l as [|x l IH]; intros a; [done|].
  rewrite bind_cons, foldl_app. apply IH.
Qed.

Lemma foldl_fmap {A B C : Type} (f : A -> C -> A) (g : B -> C) (l : list B) :
  forall a, foldl f a (g <$> l) = foldl (fun a x => f a (g x)) a l.
Proof. induction l as [|x l IH]; intros a; [done|]. apply IH. Qed.

Lemma foldl_ext_in {A B : Type} (f g : A -> B -> A) (l : list B) :
  (forall a x, x ∈ l -> f a x = g a x) -> forall a, foldl f a l = foldl g a l.
Proof.
  induction l as [|x l IH]; intros Hfg a; [done|]. simpl.
  rewrite Hfg by apply list_elem_of_here.
  apply IH. intros a' y Hy. apply Hfg. by apply list_elem_of_further.
Qed.

(** A projection that commutes with every turn commutes with the loop. *)
Lemma foldl_project {A A' B : Type} (proj : A -> A') (f : A -> B -> A)
    (g : A' -> B -> A') (l : list B) :
  (forall a x, proj (f a x) = g (proj a) x) ->
  forall a, proj (foldl f a l) = foldl g (proj a) l.
Proof.
  intros Hfg. induction l as [|x l IH]; intros a; [done|]. simpl.
  by rewrite IH, Hfg.
Qed.

Lemma mod_add_mul (DoF block comp : nat) :
  comp < DoF -> (DoF * block + comp) mod DoF = comp.
Proof.
  intros Hcomp. rewrite Nat.add_comm, Nat.mul_comm.
  rewrite Nat.Div0.mod_add. by apply Nat.mod_small.
Qed.

(** *** The inner half of the indexer *)

Section portrait.
Context {T : Type} `{!Scalar T}.
Variable proxy : mesh.mesh_proxy T.
Variable DoF : nat.
Variable inner_nodes : list bool.
Variable Theory : theory.

(** The block columns that [mesh_index] visits for the row block [node], in
    the order of its loops. *)
Definition block_cols (node : nat) : list nat :=
  eL ← mesh.nodes_elements_map proxy node;
  match Theory with
  | LOCAL =>
      mesh.node_number (mesh.mesh proxy) eL
        <$> seq 0 (mesh.nodes_count (mesh.mesh proxy) eL)
  | NONLOCAL =>
      eNL ← mesh.neighbors proxy eL;
      mesh.node_number (mesh.mesh proxy) eNL
        <$> seq 0 (mesh.nodes_count (mesh.mesh proxy) eNL)
  end.

(** The pairs (row, col) of degrees of freedom visited for [node]. *)
Definition pairs (node : nat) : list (nat * nat) :=
  block_col ← block_cols node;
  comp_row ← seq 0 DoF;
  comp_col ← seq 0 DoF;
  [(DoF * node + comp_row, DoF * block_col + comp_col)].

(** The pairs visited by a pass over the nodes [nodes]. *)
Definition visited (nodes : list nat) : list (nat * nat) := nodes ≫= pairs.

Lemma index_pairs Stage ind block_row block_col :
  indexator.index DoF inner_nodes (mesh.first_node proxy) Stage ind block_row block_col
  = foldl (fun ind rc =>
             indexator.index_pair DoF inner_nodes (mesh.first_node proxy) Stage ind rc.1 rc.2)
          ind
          (comp_row ← seq 0 DoF;
           comp_col ← seq 0 DoF;
           [(DoF * block_row + comp_row, DoF * block_col + comp_col)]).
Proof.
  unfold indexator.index. rewrite foldl_bind.
  apply foldl_ext_in. intros a comp_row _. by rewrite foldl_bind.
Qed.

Lemma mesh_index_node_pairs Stage ind node :
  finite_element_solver_base.mesh_index_node proxy DoF Stage Theory inner_nodes ind node
  = foldl (fun ind rc =>
             indexator.index_pair DoF inner_nodes (mesh.first_node proxy) Stage ind rc.1 rc.2)
          (indexator.fill DoF (mesh.first_node proxy) ind node) (pairs node).
Proof.
  unfold finite_element_solver_base.mesh_index_node, pairs, block_cols.
  rewrite !foldl_bind. apply foldl_ext_in. intros a eL _.
  destruct Theory.
  - rewrite foldl_fmap. apply foldl_ext_in. intros a' jL _. apply index_pairs.
  - rewrite foldl_bind. apply foldl_ext_in. intros a' eNL _.
    rewrite foldl_fmap. apply foldl_ext_in. intros a'' jNL _. apply index_pairs.
Qed.

(** The pairs that [index] sends to [K_inner]. *)
Definition to_inner (rc : nat * nat) : bool :=
  if (inner_nodes !!! rc.1) && (inner_nodes !!! rc.2)
  then bool_decide (rc.1 <= rc.2)
  else bool_decide (rc.1 = rc.2).

Lemma to_inner_le rc : to_inner rc = true -> rc.1 <= rc.2.
Proof.
  unfold to_inner. destruct (_ && _); intros H%bool_decide_eq_true; lia.
Qed.

(** The members of the indexer that serve [K_inner]: the matrix, the
    bitsets [_inner] and the cursors [_inner_index]. *)
Definition half : Type := Eigen.SparseMatrix T * list (list bool) * list nat.

Definition inner_half (ind : indexator.t) : half :=
  (indexator._K_inner ind, indexator._inner ind, indexator._inner_index ind).

Definition half_fill (node : nat) (h : half) (i : nat) : half :=
  (h.1.1,
   <[i := indexator.fill_from (DoF * node) (h.1.2 !!! i)]> h.1.2,
   <[i := Eigen.outerIndexPtr h.1.1 !!! (DoF * (node - mesh.first_node proxy) + i)]> h.2).

Definition half_step (Stage : index_stage) (h : half) (rc : nat * nat) : half :=
  if to_inner rc
  then indexator.stage DoF (mesh.first_node proxy) Stage h.1.1 h.1.2 h.2 rc.1 rc.2
  else h.

(** One node of a pass, then all of them, seen from [K_inner]. *)
Definition half_node (Stage : index_stage) (h : half) (node : nat) : half :=
  foldl (half_step Stage) (foldl (half_fill node) h (seq 0 DoF)) (pairs node).

Lemma inner_half_index_pair Stage ind row col :
  inner_half (indexator.index_pair DoF inner_nodes (mesh.first_node proxy) Stage ind row col)
  = half_step Stage (inner_half ind) (row, col).
Proof.
  unfold indexator.index_pair, half_step, to_inner. cbn [fst snd].
  unfold indexator.stage_inner, indexator.stage_bound, inner_half.
  destruct (_ && _); [case_bool_decide|case_bool_decide]; cbn [negb fst snd];
    repeat match goal with
           | |- context [indexator.stage ?D ?s ?St ?K ?b ?c ?r ?cl] =>
               destruct (indexator.stage D s St K b c r cl) as [[??]?]
           | |- context [if ?b then _ else _] => destruct b
           end; done.
Qed.

Lemma inner_half_mesh_index_node Stage ind node :
  inner_half (finite_element_solver_base.mesh_index_node proxy DoF Stage Theory
                inner_nodes ind node)
  = half_node Stage (inner_half ind) node.
Proof.
  rewrite mesh_index_node_pairs. unfold half_node.
  rewrite (foldl_project inner_half _ (half_step Stage)).
  - f_equal. unfold indexator.fill. by apply foldl_project.
  - intros a [row col]. apply inner_half_index_pair.
Qed.

Lemma mesh_index_inner Stage K_inner K_bound :
  (finite_element_solver_base.mesh_index proxy DoF Stage Theory K_inner K_bound
     inner_nodes).1
  = (foldl (half_node Stage)
           (K_inner, replicate DoF (replicate (length inner_nodes) false),
            replicate DoF 0)
           (seq (mesh.first_node proxy)
                (mesh.last_node proxy - mesh.first_node proxy))).1.1.
Proof.
  unfold finite_element_solver_base.mesh_index. cbn [fst].
  change (indexator._K_inner ?ind) with (inner_half ind).1.1.
  by rewrite (foldl_project inner_half _ (half_node Stage) _
                (fun a x => inner_half_mesh_index_node Stage a x)).
Qed.

(** *** The columns of a row after a part of a pass *)

(** The columns of the pairs of [P] that are sent to [K_inner] in the row
    [row], and the list that [stage] makes of them. *)
Definition cols_for (row : nat) (P : list (nat * nat)) : list nat :=
  snd <$> filter (fun rc => rc.1 = row /\ to_inner rc = true) P.

Definition row_cols (P : list (nat * nat)) (row : nat) : list nat :=
  foldl note [] (cols_for row P).

Lemma row_cols_snoc P rc row :
  row_cols (P ++ [rc]) row
  = if bool_decide (rc.1 = row) && to_inner rc
    then note (row_cols P row) rc.2 else row_cols P row.
Proof.
  unfold row_cols, cols_for. rewrite filter_app, fmap_app, foldl_app.
  rewrite filter_cons, filter_nil.
  destruct (decide (rc.1 = row /\ to_inner rc = true)) as [[Hrow Hto]|Hno].
  - by rewrite (bool_decide_eq_true_2 _ Hrow), Hto.
  - replace (bool_decide (rc.1 = row) && to_inner rc) with false; [done|].
    symmetry. apply not_true_is_false.
    intros [Hrow%bool_decide_eq_true Hto]%andb_true_iff. by apply Hno.
Qed.

Lemma row_cols_app_length P Q row :
  length (row_cols P row) <= length (row_cols (P ++ Q) row).
Proof.
  unfold row_cols, cols_for. rewrite filter_app, fmap_app, foldl_app.
  apply length_foldl_note_le.
Qed.

Lemma row_cols_other P row :
  (forall rc, rc ∈ P -> rc.1 <> row) -> row_cols P row = [].
Proof.
  intros Hother. unfold row_cols, cols_for.
  replace (filter _ P) with (@nil (nat * nat)); [done|].
  symmetry. apply elem_of_nil_inv. intros rc [[Hrow _] Hin]%list_elem_of_filter.
  by apply (Hother rc).
Qed.

Lemma row_cols_upper P row col : col ∈ row_cols P row -> row <= col.
Proof.
  unfold row_cols. rewrite elem_of_foldl_note, elem_of_nil.
  intros [[]|Hin]. unfold cols_for in Hin.
  apply list_elem_of_fmap in Hin as (rc & -> & [[<- Hto] _]%list_elem_of_filter).
  by apply to_inner_le.
Qed.

Lemma elem_of_pairs node rc :
  rc ∈ pairs node <->
  exists block_col comp_row comp_col,
    block_col ∈ block_cols node /\ comp_row < DoF /\ comp_col < DoF
    /\ rc = (DoF * node + comp_row, DoF * block_col + comp_col).
Proof.
  unfold pairs. rewrite list_elem_of_bind. split.
  - intros (bc & (cr & (cc & Hrc%list_elem_of_singleton & Hcc%elem_of_seq)%list_elem_of_bind
                   & Hcr%elem_of_seq)%list_elem_of_bind & Hbc).
    exists bc, cr, cc. repeat split; [done|lia|lia|done].
  - intros (bc & cr & cc & Hbc & Hcr & Hcc & ->). exists bc. split; [|done].
    apply list_elem_of_bind. exists cr. split; [|apply elem_of_seq; lia].
    apply list_elem_of_bind. exists cc. split; [|apply elem_of_seq; lia].
    by apply list_elem_of_singleton.
Qed.

Lemma elem_of_visited nodes rc :
  rc ∈ visited nodes <-> exists node, rc ∈ pairs node /\ node ∈ nodes.
Proof. unfold visited. apply list_elem_of_bind. Qed.

Lemma visited_snoc nodes node : visited (nodes ++ [node]) = visited nodes ++ pairs node.
Proof. unfold visited. rewrite bind_app, bind_cons. simpl. by rewrite app_nil_r. Qed.

(** *** What [fill] leaves in the inner half *)

Lemma length_fill_from k v : length (indexator.fill_from k v) = length v.
Proof.
  unfold indexator.fill_from.
  rewrite length_app, length_take, length_replicate. lia.
Qed.

Lemma fill_from_cleared k v p :
  k <= p -> p < length v -> indexator.fill_from k v !!! p = false.
Proof.
  intros Hk Hp. unfold indexator.fill_from.
  rewrite list_lookup_total_alt, lookup_app_r by (rewrite length_take; lia).
  rewrite length_take, lookup_replicate_2; [done|lia].
Qed.

Lemma half_fill_spec node K seen cursor :
  length seen = DoF -> length cursor = DoF ->
  exists seen' cursor',
    foldl (half_fill node) (K, seen, cursor) (seq 0 DoF) = (K, seen', cursor')
    /\ length seen' = DoF /\ length cursor' = DoF
    /\ (forall i, i < DoF ->
          seen' !!! i = indexator.fill_from (DoF * node) (seen !!! i)
          /\ cursor' !!! i
             = Eigen.outerIndexPtr K !!! (DoF * (node - mesh.first_node proxy) + i)).
Proof.
  intros Hseen Hcursor.
  assert (Hgen : forall k, k <= DoF ->
    exists seen' cursor',
      foldl (half_fill node) (K, seen, cursor) (seq 0 k) = (K, seen', cursor')
      /\ length seen' = DoF /\ length cursor' = DoF
      /\ (forall i, k <= i -> seen' !!! i = seen !!! i)
      /\ (forall i, i < k ->
            seen' !!! i = indexator.fill_from (DoF * node) (seen !!! i)
            /\ cursor' !!! i
               = Eigen.outerIndexPtr K !!! (DoF * (node - mesh.first_node proxy) + i))).
  { induction k as [|k IH]; intros Hk.
    { exists seen, cursor. split; [done|]. split; [done|]. split; [done|].
      split; [done|]. intros i Hi. exfalso. lia. }
    destruct (IH ltac:(lia)) as (seen1 & cursor1 & Hrun & Hlen1 & Hlen2 & Hrest & Hdone).
    rewrite seq_S, foldl_app, Hrun. unfold half_fill. simpl.
    eexists _, _. split; [done|].
    split; [by rewrite length_insert|]. split; [by rewrite length_insert|]. split.
    - intros i Hi. rewrite list_lookup_total_insert_ne by lia. apply Hrest. lia.
    - intros i Hi. destruct (decide (i = k)) as [->|Hne].
      + rewrite !list_lookup_total_insert_eq by lia. by rewrite Hrest.
      + rewrite !list_lookup_total_insert_ne by lia. apply Hdone. lia. }
  destruct (Hgen DoF (le_n _)) as (seen' & cursor' & Hrun & Hlen1 & Hlen2 & _ & Hdone).
  by exists seen', cursor'.
Qed.

(** *** The meshes the passes are run on *)

Hypothesis DoF_positive : 0 < DoF.
Hypothesis inner_nodes_size :
  length inner_nodes = DoF * mesh.nodes_count_all (mesh.mesh proxy).
Hypothesis block_cols_valid : forall node block_col,
  mesh.first_node proxy <= node -> node < mesh.last_node proxy ->
  block_col ∈ block_cols node ->
  block_col < mesh.nodes_count_all (mesh.mesh proxy).

(** The number of rows of the matrices of this rank, and the row of the
    matrix that holds the degree of freedom [row]. *)
Definition rows : nat := DoF * (mesh.last_node proxy - mesh.first_node proxy).
Definition local (row : nat) : nat := row - DoF * mesh.first_node proxy.

Lemma local_row node i :
  mesh.first_node proxy <= node ->
  local (DoF * node + i) = DoF * (node - mesh.first_node proxy) + i.
Proof. intros Hnode. unfold local. rewrite Nat.mul_sub_distr_l. nia. Qed.

Lemma local_row_lt node i :
  mesh.first_node proxy <= node -> node < mesh.last_node proxy -> i < DoF ->
  local (DoF * node + i) < rows.
Proof. intros H1 H2 Hi. rewrite local_row by done. unfold rows. nia. Qed.

Lemma local_inj node i node' i' :
  mesh.first_node proxy <= node -> mesh.first_node proxy <= node' ->
  local (DoF * node + i) = local (DoF * node' + i') ->
  DoF * node + i = DoF * node' + i'.
Proof. intros H1 H2. unfold local. nia. Qed.

Lemma pairs_shape node rc :
  mesh.first_node proxy <= node -> node < mesh.last_node proxy ->
  rc ∈ pairs node ->
  exists i, i < DoF /\ rc.1 = DoF * node + i /\ rc.2 < length inner_nodes.
Proof.
  intros H1 H2 (bc & cr & cc & Hbc & Hcr & Hcc & ->)%elem_of_pairs.
  exists cr. split; [done|]. split; [done|]. cbn [snd].
  rewrite inner_nodes_size.
  pose proof (block_cols_valid node bc H1 H2 Hbc). nia.
Qed.

(** The rows of the other nodes are not among the pairs of a node. *)
Lemma pairs_rows node node' i rc :
  rc ∈ pairs node' -> i < DoF -> node <> node' -> rc.1 <> DoF * node + i.
Proof.
  intros (bc & cr & cc & _ & Hcr & _ & ->)%elem_of_pairs Hi Hne. cbn [fst]. nia.
Qed.

(** *** The bitsets *)

Definition sized (seen : list (list bool)) : Prop :=
  length seen = DoF /\ forall i, i < DoF -> length (seen !!! i) = length inner_nodes.

(** While the node [node] is worked on and the pairs [P] are done, the bit
    [col] of the component [i] tells whether [col] is among the columns of
    the row, for the columns from [DoF * node] on. *)
Definition seen_inv (P : list (nat * nat)) (node : nat) (seen : list (list bool)) : Prop :=
  sized seen
  /\ forall i col, i < DoF -> DoF * node <= col -> col < length inner_nodes ->
       ((seen !!! i) !!! col = true <-> col ∈ row_cols P (DoF * node + i)).

Lemma seen_inv_fill P node seen seen' :
  sized seen ->
  length seen' = DoF ->
  (forall i, i < DoF -> seen' !!! i = indexator.fill_from (DoF * node) (seen !!! i)) ->
  (forall rc i, rc ∈ P -> i < DoF -> rc.1 <> DoF * node + i) ->
  seen_inv P node seen'.
Proof.
  intros [Hlen Hsizes] Hlen' Hfill Hrows. split; [split; [done|]|].
  - intros i Hi. rewrite Hfill by done. rewrite length_fill_from. by apply Hsizes.
  - intros i col Hi Hlow Hcol. rewrite Hfill by done.
    rewrite fill_from_cleared by (rewrite ?Hsizes; done).
    rewrite row_cols_other by (intros rc Hrc; by apply Hrows).
    rewrite elem_of_nil. split; [done | tauto].
Qed.

Lemma row_cols_snoc_other P rc row :
  to_inner rc = false \/ rc.1 <> row -> row_cols (P ++ [rc]) row = row_cols P row.
Proof.
  intros Hother. rewrite row_cols_snoc.
  destruct Hother as [-> | Hne]; [by rewrite andb_false_r|].
  by rewrite (bool_decide_eq_false_2 _ Hne).
Qed.

Lemma row_cols_snoc_same P rc :
  to_inner rc = true -> row_cols (P ++ [rc]) rc.1 = note (row_cols P rc.1) rc.2.
Proof.
  intros Hto. rewrite row_cols_snoc, Hto. by rewrite bool_decide_eq_true_2.
Qed.

Lemma seen_inv_skip P node seen rc :
  to_inner rc = false -> seen_inv P node seen -> seen_inv (P ++ [rc]) node seen.
Proof.
  intros Hto [Hsized Hbits]. split; [done|]. intros i col Hi Hlow Hcol.
  rewrite row_cols_snoc_other by by left. by apply Hbits.
Qed.

Lemma seen_inv_step P node seen i col :
  i < DoF -> DoF * node <= col -> col < length inner_nodes ->
  to_inner (DoF * node + i, col) = true ->
  seen_inv P node seen ->
  seen_inv (P ++ [(DoF * node + i, col)]) node
    (if ((seen !!! i) !!! col : bool)
     then seen else <[i := <[col := true]> (seen !!! i)]> seen).
Proof.
  intros Hi Hlow Hcol Hto [[Hlen Hsizes] Hbits].
  pose proof (Hbits i col Hi Hlow Hcol) as Hbit.
  assert (Hrows : forall i', i' < DoF -> i' <> i ->
            row_cols (P ++ [(DoF * node + i, col)]) (DoF * node + i')
            = row_cols P (DoF * node + i')).
  { intros i' Hi' Hne. apply row_cols_snoc_other. right. cbn [fst]. lia. }
  pose proof (row_cols_snoc_same P (DoF * node + i, col) Hto) as Hrow.
  cbn [fst snd] in Hrow.
  destruct ((seen !!! i) !!! col : bool) eqn:Hseen.
  - split; [done|]. intros i' col' Hi' Hlow' Hcol'.
    destruct (decide (i' = i)) as [->|Hne].
    + rewrite Hrow. unfold note.
      rewrite bool_decide_eq_true_2 by (by apply Hbit). by apply Hbits.
    + rewrite Hrows by done. by apply Hbits.
  - assert (Hnew : col ∉ row_cols P (DoF * node + i)).
    { intros Hin%Hbit. done. }
    split; [split|].
    + by rewrite length_insert.
    + intros i' Hi'. destruct (decide (i' = i)) as [->|Hne].
      * rewrite list_lookup_total_insert_eq by lia. rewrite length_insert. by apply Hsizes.
      * rewrite list_lookup_total_insert_ne by done. by apply Hsizes.
    + intros i' col' Hi' Hlow' Hcol'. destruct (decide (i' = i)) as [->|Hne].
      * rewrite list_lookup_total_insert_eq by lia. rewrite Hrow, elem_of_note.
        destruct (decide (col' = col)) as [->|Hne'].
        -- rewrite list_lookup_total_insert_eq by (rewrite Hsizes; done).
           split; [by right | done].
        -- rewrite list_lookup_total_insert_ne by done. rewrite Hbits by done.
           split; [by left | by intros [?|?]].
      * rewrite list_lookup_total_insert_ne by done. rewrite Hrows by done.
        by apply Hbits.
Qed.

(** What [stage] does on a row of the node [node]. *)
Lemma stage_unfold Stage K seen cursor node i col :
  i < DoF ->
  indexator.stage DoF (mesh.first_node proxy) Stage K seen cursor (DoF * node + i) col
  = if ((seen !!! i) !!! col : bool) then (K, seen, cursor)
    else
      (match Stage with
       | SHIFTS =>
           Eigen.set_outer K
             (<[local (DoF * node + i) + 1
                  := S (Eigen.outerIndexPtr K !!! (local (DoF * node + i) + 1))]>
                (Eigen.outerIndexPtr K))
       | NONZERO =>
           Eigen.set_inner
             (Eigen.set_values K (<[cursor !!! i := zero]> (Eigen.valuePtr K)))
             (<[cursor !!! i := col]> (Eigen.innerIndexPtr K))
       end,
       <[i := <[col := true]> (seen !!! i)]> seen,
       match Stage with
       | SHIFTS => cursor
       | NONZERO => <[i := S (cursor !!! i)]> cursor
       end).
Proof.
  intros Hi. unfold indexator.stage. rewrite mod_add_mul by done.
  by destruct ((seen !!! i) !!! col : bool).
Qed.

(** A loop whose state is tied to the part of a list it has consumed. *)
Lemma foldl_trace {S B : Type} (Inv : list B -> S -> Prop) (f : S -> B -> S)
    (base all : list B) :
  (forall done s x,
     done ++ [x] `prefix_of` all ->
     Inv (base ++ done) s -> Inv (base ++ done ++ [x]) (f s x)) ->
  forall s, Inv base s -> Inv (base ++ all) (foldl f s all).
Proof.
  intros Hstep.
  assert (Hgen : forall l done s,
            done ++ l = all -> Inv (base ++ done) s -> Inv (base ++ all) (foldl f s l)).
  { induction l as [|x l IH]; intros done s Hall Hdone.
    { rewrite app_nil_r in Hall. by subst done. }
    simpl. apply (IH (done ++ [x])).
    - by rewrite <- app_assoc.
    - apply Hstep; [|done]. exists l. by rewrite <- app_assoc. }
  intros s Hs. apply (Hgen all []); [done|]. by rewrite app_nil_r.
Qed.

(** *** Pass S: the counters *)

(** After the pairs [P] the counter of each row is the number of its
    columns so far; the counter of the row [r] is kept one cell further. *)
Definition count_inv (P : list (nat * nat)) (K : Eigen.SparseMatrix T) : Prop :=
  length (Eigen.outerIndexPtr K) = S rows
  /\ Eigen.outerIndexPtr K !!! 0 = 0
  /\ forall r, r < rows ->
       Eigen.outerIndexPtr K !!! S r
       = length (row_cols P (DoF * mesh.first_node proxy + r)).

Definition shifts_inv (node : nat) (P : list (nat * nat)) (h : half) : Prop :=
  seen_inv P node h.1.2 /\ count_inv P h.1.1.

Lemma global_local node i :
  mesh.first_node proxy <= node ->
  DoF * mesh.first_node proxy + local (DoF * node + i) = DoF * node + i.
Proof. intros Hnode. unfold local. nia. Qed.

Lemma shifts_step node P h rc :
  mesh.first_node proxy <= node -> node < mesh.last_node proxy ->
  rc ∈ pairs node ->
  shifts_inv node P h -> shifts_inv node (P ++ [rc]) (half_step SHIFTS h rc).
Proof.
  intros Hfirst Hlast Hrc [Hseen Hcount].
  destruct (pairs_shape node rc Hfirst Hlast Hrc) as (i & Hi & Hrow & Hcol).
  destruct h as [[K seen] cursor], rc as [row col]. cbn [fst snd] in *. subst row.
  unfold half_step. destruct (to_inner (DoF * node + i, col)) eqn:Hto; cbn [fst snd].
  2:{ split; [by apply seen_inv_skip|]. destruct Hcount as (Hlen & Hzero & Hrows).
      split; [done|]. split; [done|]. intros r Hr.
      rewrite row_cols_snoc_other by by left. by apply Hrows. }
  pose proof (to_inner_le _ Hto) as Hle. cbn [fst snd] in Hle.
  pose proof (seen_inv_step P node seen i col Hi ltac:(lia) Hcol Hto Hseen) as Hseen'.
  rewrite stage_unfold by done.
  pose proof (proj2 Hseen i col Hi ltac:(lia) Hcol) as Hbit.
  pose proof (row_cols_snoc_same P (DoF * node + i, col) Hto) as Hsame.
  cbn [fst snd] in Hsame.
  destruct Hcount as (Hlen & Hzero & Hrows).
  pose proof (local_row_lt node i Hfirst Hlast Hi) as Hlocal.
  pose proof (global_local node i Hfirst) as Hglobal.
  destruct ((seen !!! i) !!! col : bool) eqn:Hset; cbn [fst snd];
    (split; [exact Hseen'|]).
  - split; [done|]. split; [done|]. intros r Hr.
    destruct (decide (r = local (DoF * node + i))) as [->|Hne].
    + rewrite Hglobal, Hsame. unfold note.
      rewrite bool_decide_eq_true_2 by (by apply Hbit).
      rewrite <- Hglobal at 2. by apply Hrows.
    + rewrite row_cols_snoc_other by (right; cbn [fst]; lia). by apply Hrows.
  - assert (Hnew : col ∉ row_cols P (DoF * node + i)).
    { intros Hin%Hbit. done. }
    unfold count_inv. cbn [fst snd Eigen.set_outer Eigen.outerIndexPtr].
    split; [by rewrite length_insert|]. split.
    { rewrite list_lookup_total_insert_ne by lia. done. }
    intros r Hr. destruct (decide (r = local (DoF * node + i))) as [->|Hne].
    + rewrite Nat.add_1_r, list_lookup_total_insert_eq by lia.
      rewrite Hglobal, Hsame. unfold note.
      rewrite bool_decide_eq_false_2 by done.
      rewrite length_app. simpl. rewrite Hrows by done. rewrite Hglobal. lia.
    + rewrite list_lookup_total_insert_ne by lia.
      rewrite row_cols_snoc_other by (right; cbn [fst]; lia). by apply Hrows.
Qed.

Lemma half_step_shifts_cursor h rc : (half_step SHIFTS h rc).2 = h.2.
Proof.
  unfold half_step, indexator.stage. destruct (to_inner rc); [|done].
  by destruct (negb _).
Qed.

Lemma sized_initial : sized (replicate DoF (replicate (length inner_nodes) false)).
Proof.
  split; [by rewrite length_replicate|]. intros i Hi.
  rewrite lookup_total_replicate_2 by done. by rewrite length_replicate.
Qed.

(** The pairs visited before the node [first_node + k] belong to other
    rows. *)
Lemma visited_rows k rc i :
  rc ∈ visited (seq (mesh.first_node proxy) k) -> i < DoF ->
  rc.1 <> DoF * (mesh.first_node proxy + k) + i.
Proof.
  intros (node & Hrc & Hnode%elem_of_seq)%elem_of_visited Hi.
  apply (pairs_rows _ node i rc Hrc Hi). lia.
Qed.

Lemma visited_prefix k n :
  k <= n ->
  visited (seq (mesh.first_node proxy) k) `prefix_of` visited (seq (mesh.first_node proxy) n).
Proof.
  intros Hk. replace n with (k + (n - k)) by lia.
  rewrite seq_app. unfold visited. rewrite bind_app. by apply prefix_app_r.
Qed.

Lemma shifts_pass cols k :
  k <= mesh.last_node proxy - mesh.first_node proxy ->
  let h :=
    foldl (half_node SHIFTS)
          (Eigen.make rows cols, replicate DoF (replicate (length inner_nodes) false),
           replicate DoF 0)
          (seq (mesh.first_node proxy) k) in
  sized h.1.2 /\ length h.2 = DoF
  /\ count_inv (visited (seq (mesh.first_node proxy) k)) h.1.1.
Proof.
  induction k as [|k IH]; intros Hk h.
  { subst h. cbn [seq foldl fst snd]. split; [apply sized_initial|].
    split; [by rewrite length_replicate|].
    unfold count_inv, Eigen.make. cbn [Eigen.outerIndexPtr].
    split; [by rewrite length_replicate|].
    split; [by rewrite lookup_total_replicate_2 by lia|].
    intros r Hr. by rewrite lookup_total_replicate_2 by lia. }
  subst h. rewrite seq_S, foldl_app, visited_snoc. cbn [foldl].
  destruct (IH ltac:(lia)) as (Hsized & Hcursor & Hcount).
  set (node := mesh.first_node proxy + k) in *.
  set (P := visited (seq (mesh.first_node proxy) k)) in *.
  destruct (foldl (half_node SHIFTS) _ (seq (mesh.first_node proxy) k))
    as [[K seen] cursor]. cbn [fst snd] in *.
  unfold half_node.
  destruct (half_fill_spec node K seen cursor (proj1 Hsized) Hcursor)
    as (seen' & cursor' & -> & Hlen1 & Hlen2 & Hfill).
  assert (Hstart : shifts_inv node P (K, seen', cursor')).
  { split; [|done]. apply (seen_inv_fill P node seen seen' Hsized Hlen1).
    - intros i Hi. by apply Hfill.
    - intros rc i Hrc Hi. by apply visited_rows. }
  destruct (foldl_trace
    (fun P' h' => shifts_inv node P' h' /\ h'.2 = cursor')
    (half_step SHIFTS) P (pairs node)) with (s := (K, seen', cursor'))
    as [[Hseen Hcount'] Hcur].
  - intros done h' rc Hprefix [Hinv Hcur]. rewrite app_assoc. split.
    + apply shifts_step; [subst node; lia | subst node; lia | | done].
      destruct Hprefix as [Q ->]. rewrite !elem_of_app, list_elem_of_singleton. auto.
    + by rewrite half_step_shifts_cursor.
  - done.
  - split; [exact (proj1 Hseen)|]. split; [by rewrite Hcur|]. done.
Qed.

(** *** Pass N: the columns *)

Section pass_N.

(** The outer index array during pass N and the pairs the whole pass
    visits: the row [r] owns as many cells as it has columns in the end. *)
Variable O : list nat.
Variable all : list (nat * nat).
Hypothesis O_length : length O = S rows.
Hypothesis O_step : forall r, r < rows ->
  O !!! S r = O !!! r + length (row_cols all (DoF * mesh.first_node proxy + r)).

Lemma O_mono r r' : r <= r' -> r' <= rows -> O !!! r <= O !!! r'.
Proof.
  intros Hle Hr'. induction Hle as [|r' Hle IH]; [done|].
  rewrite O_step by lia. specialize (IH ltac:(lia)). lia.
Qed.

(** After the pairs [P] the cells of each row hold, from its first cell on,
    the columns of the row so far. *)
Definition write_inv (P : list (nat * nat)) (K : Eigen.SparseMatrix T) : Prop :=
  Eigen.outerIndexPtr K = O
  /\ length (Eigen.innerIndexPtr K) = O !!! rows
  /\ forall r k, r < rows ->
       k < length (row_cols P (DoF * mesh.first_node proxy + r)) ->
       Eigen.innerIndexPtr K !! (O !!! r + k)
       = row_cols P (DoF * mesh.first_node proxy + r) !! k.

Definition cursor_inv (P : list (nat * nat)) (node : nat) (cursor : list nat) : Prop :=
  length cursor = DoF
  /\ forall i, i < DoF ->
       cursor !!! i
       = O !!! local (DoF * node + i) + length (row_cols P (DoF * node + i)).

Definition nonzero_inv (node : nat) (P : list (nat * nat)) (h : half) : Prop :=
  seen_inv P node h.1.2 /\ cursor_inv P node h.2 /\ write_inv P h.1.1.

Lemma row_cols_bound P r :
  P `prefix_of` all ->
  length (row_cols P r) <= length (row_cols all r).
Proof. intros [Q ->]. apply row_cols_app_length. Qed.

Lemma nonzero_step node P h rc :
  mesh.first_node proxy <= node -> node < mesh.last_node proxy ->
  rc ∈ pairs node -> P ++ [rc] `prefix_of` all ->
  nonzero_inv node P h -> nonzero_inv node (P ++ [rc]) (half_step NONZERO h rc).
Proof.
  intros Hfirst Hlast Hrc Hprefix (Hseen & Hcursor & Hwrite).
  destruct (pairs_shape node rc Hfirst Hlast Hrc) as (i & Hi & Hrow & Hcol).
  destruct h as [[K seen] cursor], rc as [row col]. cbn [fst snd] in *. subst row.
  unfold half_step. destruct (to_inner (DoF * node + i, col)) eqn:Hto; cbn [fst snd].
  2:{ split; [by apply seen_inv_skip|]. split.
      - destruct Hcursor as [Hlen Hcur]. split; [done|]. intros i' Hi'.
        rewrite row_cols_snoc_other by by left. by apply Hcur.
      - destruct Hwrite as (Houter & Hlen & Hcells).
        split; [done|]. split; [done|]. intros r k Hr.
        rewrite row_cols_snoc_other by by left. by apply Hcells. }
  pose proof (to_inner_le _ Hto) as Hle. cbn [fst snd] in Hle.
  pose proof (seen_inv_step P node seen i col Hi ltac:(lia) Hcol Hto Hseen) as Hseen'.
  rewrite stage_unfold by done.
  pose proof (proj2 Hseen i col Hi ltac:(lia) Hcol) as Hbit.
  pose proof (row_cols_snoc_same P (DoF * node + i, col) Hto) as Hsame.
  cbn [fst snd] in Hsame.
  destruct Hcursor as [Hcursor_len Hcur]. destruct Hwrite as (Houter & Hlen & Hcells).
  pose proof (local_row_lt node i Hfirst Hlast Hi) as Hlocal.
  pose proof (global_local node i Hfirst) as Hglobal.
  set (l := local (DoF * node + i)) in *.
  destruct ((seen !!! i) !!! col : bool) eqn:Hset; cbn [fst snd];
    (split; [exact Hseen'|]); cbn [fst snd].
  - assert (Hkeep : forall row, row_cols (P ++ [(DoF * node + i, col)]) row = row_cols P row).
    { intros row. destruct (decide (row = DoF * node + i)) as [->|Hne].
      - rewrite Hsame. unfold note. by rewrite bool_decide_eq_true_2 by (by apply Hbit).
      - apply row_cols_snoc_other. right. done. }
    split.
    + split; [done|]. intros i' Hi'. rewrite Hkeep. by apply Hcur.
    + split; [done|]. split; [done|]. intros r k Hr. rewrite Hkeep. by apply Hcells.
  - assert (Hnew : col ∉ row_cols P (DoF * node + i)).
    { intros Hin%Hbit. done. }
    assert (Hgrown : row_cols (P ++ [(DoF * node + i, col)]) (DoF * node + i)
                     = row_cols P (DoF * node + i) ++ [col]).
    { rewrite Hsame. unfold note. by rewrite bool_decide_eq_false_2. }
    pose proof (row_cols_bound _ (DoF * node + i) Hprefix) as Hbound.
    rewrite Hgrown, length_app in Hbound. simpl in Hbound.
    pose proof (O_step l Hlocal) as Hnext. rewrite Hglobal in Hnext.
    pose proof (O_mono (S l) rows ltac:(lia) ltac:(lia)) as Hend.
    rewrite (Hcur i Hi). fold l.
    set (L := row_cols P (DoF * node + i)) in *.
    split.
    + split; [by rewrite length_insert|]. intros i' Hi'.
      destruct (decide (i' = i)) as [->|Hne].
      * rewrite list_lookup_total_insert_eq by lia. fold l.
        rewrite Hgrown, length_app. simpl. lia.
      * rewrite list_lookup_total_insert_ne by done.
        rewrite row_cols_snoc_other by (right; cbn [fst]; lia). by apply Hcur.
    + unfold write_inv. cbn [Eigen.set_inner Eigen.set_values Eigen.outerIndexPtr
                             Eigen.innerIndexPtr].
      split; [done|]. split; [by rewrite length_insert|]. intros r k Hr Hk.
      destruct (decide (r = l)) as [->|Hne].
      * rewrite Hglobal in Hk |- *. rewrite Hgrown in Hk |- *.
        rewrite length_app in Hk. simpl in Hk.
        destruct (decide (k = length L)) as [->|Hne'].
        -- rewrite list_lookup_insert_eq by lia.
           by rewrite lookup_app_r, Nat.sub_diag by lia.
        -- rewrite list_lookup_insert_ne by lia.
           rewrite lookup_app_l by lia.
           pose proof (Hcells l k Hr) as Hcell. rewrite Hglobal in Hcell.
           apply Hcell. fold L. lia.
      * rewrite row_cols_snoc_other in Hk |- * by (right; cbn [fst]; lia).
        assert (Hother : k < length (row_cols all (DoF * mesh.first_node proxy + r))).
        { eapply Nat.lt_le_trans; [exact Hk|]. apply row_cols_bound.
          by eapply prefix_app_l. }
        pose proof (O_step r Hr) as Hnext_r.
        rewrite list_lookup_insert_ne; [by apply Hcells|].
        destruct (decide (r < l)) as [Hlt|Hgt].
        -- pose proof (O_mono (S r) l ltac:(lia) ltac:(lia)). lia.
        -- pose proof (O_mono (S l) r ltac:(lia) ltac:(lia)). lia.
Qed.

Hypothesis all_visited :
  all = visited (seq (mesh.first_node proxy)
                     (mesh.last_node proxy - mesh.first_node proxy)).

Lemma nonzero_pass K0 k :
  Eigen.outerIndexPtr K0 = O ->
  length (Eigen.innerIndexPtr K0) = O !!! rows ->
  k <= mesh.last_node proxy - mesh.first_node proxy ->
  let h :=
    foldl (half_node NONZERO)
          (K0, replicate DoF (replicate (length inner_nodes) false), replicate DoF 0)
          (seq (mesh.first_node proxy) k) in
  sized h.1.2 /\ length h.2 = DoF
  /\ write_inv (visited (seq (mesh.first_node proxy) k)) h.1.1.
Proof.
  intros Houter Hinner. induction k as [|k IH]; intros Hk h.
  { subst h. cbn [seq foldl fst snd]. split; [apply sized_initial|].
    split; [by rewrite length_replicate|].
    split; [done|]. split; [done|]. intros r j Hr Hj. simpl in Hj. lia. }
  subst h. rewrite seq_S, foldl_app, visited_snoc. cbn [foldl].
  destruct (IH ltac:(lia)) as (Hsized & Hcursor & Hwrite).
  pose proof (visited_prefix (S k) _ Hk) as Hprefix.
  rewrite seq_S, visited_snoc, <- all_visited in Hprefix.
  set (node := mesh.first_node proxy + k) in *.
  set (P := visited (seq (mesh.first_node proxy) k)) in *.
  destruct (foldl (half_node NONZERO) _ (seq (mesh.first_node proxy) k))
    as [[K seen] cursor]. cbn [fst snd] in *.
  unfold half_node.
  destruct (half_fill_spec node K seen cursor (proj1 Hsized) Hcursor)
    as (seen' & cursor' & -> & Hlen1 & Hlen2 & Hfill).
  assert (Hrows : forall rc i, rc ∈ P -> i < DoF -> rc.1 <> DoF * node + i).
  { intros rc i Hrc Hi. by apply visited_rows. }
  assert (Hstart : nonzero_inv node P (K, seen', cursor')).
  { split; [|split; [|done]].
    - apply (seen_inv_fill P node seen seen' Hsized Hlen1); [|done].
      intros i Hi. by apply Hfill.
    - split; [done|]. intros i Hi. cbn [fst snd].
      rewrite (proj2 (Hfill i Hi)), (proj1 Hwrite).
      rewrite row_cols_other by (intros rc Hrc; by apply Hrows).
      rewrite local_row by (subst node; lia). simpl. lia. }
  destruct (foldl_trace (nonzero_inv node) (half_step NONZERO) P (pairs node))
    with (s := (K, seen', cursor')) as (Hseen & Hcursor' & Hwrite').
  - intros done h' rc Hdone Hinv. rewrite app_assoc.
    apply nonzero_step; [subst node; lia | subst node; lia | | | done].
    + destruct Hdone as [Q ->]. rewrite !elem_of_app, list_elem_of_singleton. auto.
    + rewrite <- app_assoc. etrans; [|exact Hprefix]. by apply prefix_app.
  - done.
  - split; [exact (proj1 Hseen)|]. split; [exact (proj1 Hcursor')|]. done.
Qed.

End pass_N.

(** *** Sizing the arrays and sorting the rows *)

Lemma rows_half_step Stage h rc :
  Eigen.rows (half_step Stage h rc).1.1 = Eigen.rows h.1.1.
Proof.
  unfold half_step, indexator.stage. destruct (to_inner rc); [|done].
  destruct (negb _); [|done]. by destruct Stage.
Qed.

Lemma rows_half_node Stage h node :
  Eigen.rows (half_node Stage h node).1.1 = Eigen.rows h.1.1.
Proof.
  unfold half_node.
  apply (foldl_invariant (fun h' => Eigen.rows h'.1.1 = Eigen.rows h.1.1)).
  - by apply (foldl_invariant (fun h' => Eigen.rows h'.1.1 = Eigen.rows h.1.1)).
  - intros h' rc Hh'. by rewrite rows_half_step.
Qed.

Lemma rows_half_pass Stage h nodes :
  Eigen.rows (foldl (half_node Stage) h nodes).1.1 = Eigen.rows h.1.1.
Proof.
  apply (foldl_invariant (fun h' => Eigen.rows h'.1.1 = Eigen.rows h.1.1)); [done|].
  intros h' node Hh'. by rewrite rows_half_node.
Qed.

Lemma length_resize {A} (fresh : nat -> A) n (l : list A) :
  length (Eigen.resize fresh n l) = n.
Proof.
  unfold Eigen.resize. rewrite length_app, length_take, length_fmap, length_seq. lia.
Qed.

Lemma prepare_memory_spec fresh_index fresh_value (K : Eigen.SparseMatrix T) n :
  Eigen.rows K = n -> length (Eigen.outerIndexPtr K) = S n ->
  let K' := finite_element_solver_base.prepare_memory fresh_index fresh_value K in
  Eigen.rows K' = n
  /\ length (Eigen.outerIndexPtr K') = S n
  /\ Eigen.outerIndexPtr K' !!! 0 = Eigen.outerIndexPtr K !!! 0
  /\ (forall r, r < n ->
        Eigen.outerIndexPtr K' !!! S r
        = Eigen.outerIndexPtr K' !!! r + Eigen.outerIndexPtr K !!! S r)
  /\ length (Eigen.innerIndexPtr K') = Eigen.outerIndexPtr K' !!! n.
Proof.
  intros Hrows Hlen K'. subst K'. unfold finite_element_solver_base.prepare_memory.
  cbn [Eigen.rows Eigen.outerIndexPtr Eigen.innerIndexPtr]. rewrite Hrows.
  set (outer0 := Eigen.outerIndexPtr K) in *.
  assert (Hgen : forall k, k <= n ->
    let o := foldl (fun o i => <[S i := o !!! S i + o !!! i]> o) outer0 (seq 0 k) in
    length o = S n /\ o !!! 0 = outer0 !!! 0
    /\ (forall r, r < k -> o !!! S r = o !!! r + outer0 !!! S r)
    /\ (forall j, k < j -> o !!! j = outer0 !!! j)).
  { induction k as [|k IH]; intros Hk.
    { simpl. split; [done|]. split; [done|]. split; [|done]. intros r Hr. exfalso. lia. }
    destruct (IH ltac:(lia)) as (Hl & Hz & Hdone & Hrest).
    rewrite seq_S, foldl_app. cbn [foldl plus].
    split; [by rewrite length_insert|]. split.
    { by rewrite list_lookup_total_insert_ne by lia. } split.
    - intros r Hr. destruct (decide (r = k)) as [->|Hne].
      + rewrite list_lookup_total_insert_eq by lia.
        rewrite list_lookup_total_insert_ne by lia. rewrite (Hrest (S k)) by lia. lia.
      + rewrite !list_lookup_total_insert_ne by lia. apply Hdone. lia.
    - intros j Hj. rewrite list_lookup_total_insert_ne by lia. apply Hrest. lia. }
  destruct (Hgen n (le_n _)) as (Hl & Hz & Hdone & _).
  split; [done|]. split; [done|]. split; [done|]. split; [done|].
  apply length_resize.
Qed.

(** The cells from [a] up to, excluding, [b]. *)
Definition cells (a b : nat) (v : list nat) : list nat := take (b - a) (drop a v).

Lemma lookup_cells a b v k :
  cells a b v !! k = if decide (k < b - a) then v !! (a + k) else None.
Proof.
  unfold cells. case_decide.
  - by rewrite lookup_take_lt, lookup_drop.
  - by rewrite lookup_take_ge by lia.
Qed.

Lemma length_merge_sort (l : list nat) : length (merge_sort le l) = length l.
Proof. apply Permutation_length, merge_sort_Permutation. Qed.

Lemma length_sort_range a b v :
  a <= b -> b <= length v ->
  length (finite_element_solver_base.sort_range a b v) = length v.
Proof.
  intros Hab Hb. unfold finite_element_solver_base.sort_range.
  rewrite !length_app, length_merge_sort, !length_take, !length_drop. lia.
Qed.

Lemma lookup_sort_range_outside a b v p :
  a <= b -> b <= length v -> p < a \/ b <= p ->
  finite_element_solver_base.sort_range a b v !! p = v !! p.
Proof.
  intros Hab Hb Hp. unfold finite_element_solver_base.sort_range.
  destruct Hp as [Hp|Hp].
  - rewrite lookup_app_l by (rewrite length_take; lia). by rewrite lookup_take_lt.
  - rewrite lookup_app_r by (rewrite length_take; lia).
    rewrite lookup_app_r
      by (rewrite length_merge_sort, !length_take, length_drop; lia).
    rewrite length_merge_sort, !length_take, length_drop, lookup_drop.
    f_equal. lia.
Qed.

Lemma cells_sort_range_same a b v :
  a <= b -> b <= length v ->
  cells a b (finite_element_solver_base.sort_range a b v) = merge_sort le (cells a b v).
Proof.
  intros Hab Hb. unfold cells at 1, finite_element_solver_base.sort_range.
  rewrite drop_app_length' by (rewrite length_take; lia).
  rewrite take_app_length'; [done|].
  unfold cells. rewrite length_merge_sort, length_take, length_drop. lia.
Qed.

Lemma cells_sort_range_other a b a' b' v :
  a <= b -> b <= length v -> b' <= a \/ b <= a' ->
  cells a' b' (finite_element_solver_base.sort_range a b v) = cells a' b' v.
Proof.
  intros Hab Hb Hother. apply list_eq. intros k. rewrite !lookup_cells.
  case_decide; [|done]. apply lookup_sort_range_outside; [done|done|lia].
Qed.

Lemma sort_indices_spec (K : Eigen.SparseMatrix T) n :
  Eigen.rows K = n ->
  (forall r r', r <= r' -> r' <= n ->
     Eigen.outerIndexPtr K !!! r <= Eigen.outerIndexPtr K !!! r') ->
  Eigen.outerIndexPtr K !!! n <= length (Eigen.innerIndexPtr K) ->
  let K' := finite_element_solver_base.sort_indices K in
  Eigen.rows K' = n
  /\ forall r, r < n -> Eigen.row_indices K' r = merge_sort le (Eigen.row_indices K r).
Proof.
  intros Hrows Hmono Hlen K'. subst K'. unfold finite_element_solver_base.sort_indices.
  rewrite Hrows. set (O := Eigen.outerIndexPtr K) in *.
  assert (Hgen : forall k, k <= n ->
    let Kk :=
      foldl (fun K i =>
               Eigen.set_inner K
                 (finite_element_solver_base.sort_range
                    (Eigen.outerIndexPtr K !!! i) (Eigen.outerIndexPtr K !!! S i)
                    (Eigen.innerIndexPtr K)))
            K (seq 0 k) in
    Eigen.rows Kk = n /\ Eigen.outerIndexPtr Kk = O
    /\ length (Eigen.innerIndexPtr Kk) = length (Eigen.innerIndexPtr K)
    /\ (forall r, r < k ->
          cells (O !!! r) (O !!! S r) (Eigen.innerIndexPtr Kk)
          = merge_sort le (cells (O !!! r) (O !!! S r) (Eigen.innerIndexPtr K)))
    /\ (forall r, k <= r -> r < n ->
          cells (O !!! r) (O !!! S r) (Eigen.innerIndexPtr Kk)
          = cells (O !!! r) (O !!! S r) (Eigen.innerIndexPtr K))).
  { induction k as [|k IH]; intros Hk.
    { simpl. split; [done|]. split; [done|]. split; [done|]. split; [|done].
      intros r Hr. exfalso. lia. }
    destruct (IH ltac:(lia)) as (Hr & Ho & Hl & Hdone & Hrest).
    rewrite seq_S, foldl_app. cbn [foldl plus].
    set (Kk := foldl _ K (seq 0 k)) in *.
    cbn [Eigen.set_inner Eigen.rows Eigen.outerIndexPtr Eigen.innerIndexPtr].
    rewrite Ho.
    pose proof (Hmono k (S k) ltac:(lia) ltac:(lia)) as Hab.
    pose proof (Hmono (S k) n ltac:(lia) ltac:(lia)) as Hbn.
    split; [done|]. split; [done|].
    split; [rewrite length_sort_range; [done|done|lia]|]. split.
    - intros r Hr'. destruct (decide (r = k)) as [->|Hne].
      + rewrite cells_sort_range_same by lia. by rewrite Hrest by lia.
      + pose proof (Hmono (S r) k ltac:(lia) ltac:(lia)).
        rewrite cells_sort_range_other by lia. apply Hdone. lia.
    - intros r Hr1 Hr2. pose proof (Hmono (S k) r ltac:(lia) ltac:(lia)).
      rewrite cells_sort_range_other by lia. apply Hrest; lia. }
  destruct (Hgen n (le_n _)) as (Hr & Ho & _ & Hdone & _).
  split; [done|]. intros r Hr'. unfold Eigen.row_indices. rewrite Ho.
  by apply Hdone.
Qed.

(** *** The rows of [K_inner] after the portrait is built *)

Lemma create_matrix_portrait_rows fresh_index fresh_value :
  let K_inner :=
    (finite_element_solver_base.create_matrix_portrait proxy DoF fresh_index
       fresh_value Theory inner_nodes).1 in
  let all :=
    visited (seq (mesh.first_node proxy)
                 (mesh.last_node proxy - mesh.first_node proxy)) in
  Eigen.rows K_inner = rows
  /\ forall r, r < rows ->
       Eigen.row_indices K_inner r
       = merge_sort le (row_cols all (DoF * mesh.first_node proxy + r)).
Proof.
  intros K_inner all. subst K_inner.
  unfold finite_element_solver_base.create_matrix_portrait. fold rows.
  set (cols := DoF * mesh.nodes_count_all (mesh.mesh proxy)).
  pose proof (mesh_index_inner SHIFTS (Eigen.make rows cols) (Eigen.make rows cols))
    as HS.
  destruct (finite_element_solver_base.mesh_index proxy DoF SHIFTS Theory
              (Eigen.make rows cols) (Eigen.make rows cols) inner_nodes)
    as [K1 Kb1]. cbn [fst] in HS.
  destruct (shifts_pass cols _ (le_n _)) as (_ & _ & Hcount). rewrite <- HS in Hcount.
  pose proof (rows_half_pass SHIFTS
    (Eigen.make rows cols, replicate DoF (replicate (length inner_nodes) false),
     replicate DoF 0)
    (seq (mesh.first_node proxy) (mesh.last_node proxy - mesh.first_node proxy)))
    as Hrows1.
  rewrite <- HS in Hrows1. cbn [fst Eigen.make Eigen.rows] in Hrows1.
  destruct Hcount as (Hlen1 & Hzero1 & Hcounts).
  destruct (prepare_memory_spec fresh_index fresh_value K1 rows Hrows1 Hlen1)
    as (Hrows2 & Hlen2 & Hzero2 & Hsteps & Hinner2).
  set (K2 := finite_element_solver_base.prepare_memory fresh_index fresh_value K1) in *.
  set (O := Eigen.outerIndexPtr K2) in *.
  assert (O_step : forall r, r < rows ->
            O !!! S r = O !!! r + length (row_cols all (DoF * mesh.first_node proxy + r))).
  { intros r Hr. rewrite Hsteps by done. by rewrite Hcounts. }
  pose proof (mesh_index_inner NONZERO K2
                (finite_element_solver_base.prepare_memory fresh_index fresh_value Kb1))
    as HN.
  destruct (finite_element_solver_base.mesh_index proxy DoF NONZERO Theory K2 _ inner_nodes)
    as [K3 Kb3]. cbn [fst] in HN |- *.
  destruct (nonzero_pass O all Hlen2 O_step eq_refl K2 _ eq_refl Hinner2 (le_n _))
    as (_ & _ & Hwrite).
  rewrite <- HN in Hwrite. destruct Hwrite as (Houter3 & Hlen3 & Hcells).
  pose proof (rows_half_pass NONZERO
    (K2, replicate DoF (replicate (length inner_nodes) false), replicate DoF 0)
    (seq (mesh.first_node proxy) (mesh.last_node proxy - mesh.first_node proxy)))
    as Hrows3.
  rewrite <- HN in Hrows3. cbn [fst] in Hrows3. rewrite Hrows2 in Hrows3.
  destruct (sort_indices_spec K3 rows Hrows3) as [Hrows4 Hsorted].
  { rewrite Houter3. intros r r' Hle Hr'. by apply (O_mono O all Hlen2 O_step). }
  { rewrite Houter3, Hlen3. done. }
  split; [done|]. intros r Hr. rewrite Hsorted by done. f_equal.
  unfold Eigen.row_indices. rewrite Houter3. fold (cells (O !!! r) (O !!! S r)
                                                     (Eigen.innerIndexPtr K3)).
  apply list_eq. intros k. rewrite lookup_cells, O_step by done.
  unfold all in *. case_decide as Hk.
  - apply Hcells; [done|lia].
  - symmetry. apply lookup_ge_None. lia.
Qed.

End portrait.

Lemma elem_of_insert_inv {A} (l : list A) (k : nat) (x y : A) :
  y ∈ <[k := x]> l -> y = x \/ y ∈ l.
Proof.
  intros (p & Hp)%list_elem_of_lookup.
  apply list_lookup_insert_Some in Hp as [(_ & -> & _) | (_ & Hp)]; [by left|].
  right. by eapply list_elem_of_lookup_2.
Qed.

(** The filling pass of the elasticity assembly adds to [triplets] only
    entries of the lower triangle. *)
Lemma filler_loc_lower {T : Type} `{!Scalar T} (mesh : mesh.mesh_2d T) inner_nodes
    (s : statics_with_nonloc.filling) i j el projection form integral t :
  t ∈ statics_with_nonloc.triplets
        (statics_with_nonloc.filler_loc mesh inner_nodes s i j el projection form integral) ->
  t ∈ statics_with_nonloc.triplets s \/ t.1.2 <= t.1.1.
Proof.
  unfold statics_with_nonloc.filler_loc.
  case_bool_decide as Hle; [|by left].
  destruct (_ && _); cbn [statics_with_nonloc.triplets].
  - intros [-> | Hin]%elem_of_insert_inv; [by right | by left].
  - destruct (negb _); by left.
Qed.

(** C6, as the code has it: in the assembly that goes through the indexer
    (the two passes of [mesh_index], [prepare_memory] in between and
    [sort_indices] at the end), on a mesh whose elements name existing nodes,
    every row of [K_inner] holds only columns at or after the row and holds
    them in ascending order.  The triplet based elasticity assembly of
    [static_analysis.cpp] is not of this kind: what its filling pass adds to
    the triplets of the matrix lies in the lower triangle. *)
Theorem C6_indexed_K_inner_is_upper_triangular_and_sorted :
  forall (T : Type) (S : Scalar T) (proxy : mesh.mesh_proxy T) (DoF : nat)
         (fresh_index : nat -> nat) (fresh_value : nat -> T) (Theory : theory)
         (inner_nodes : list bool),
    0 < DoF ->
    length inner_nodes = DoF * mesh.nodes_count_all (mesh.mesh proxy) ->
    (forall node block_col,
       mesh.first_node proxy <= node -> node < mesh.last_node proxy ->
       block_col ∈ block_cols proxy Theory node ->
       block_col < mesh.nodes_count_all (mesh.mesh proxy)) ->
    let K_inner :=
      (finite_element_solver_base.create_matrix_portrait proxy DoF fresh_index
         fresh_value Theory inner_nodes).1 in
    Eigen.rows K_inner = DoF * (mesh.last_node proxy - mesh.first_node proxy)
    /\ (forall row, row < Eigen.rows K_inner ->
          Sorted le (Eigen.row_indices K_inner row)
          /\ Forall (fun col => DoF * mesh.first_node proxy + row <= col)
                    (Eigen.row_indices K_inner row))
    /\ (forall (mesh : mesh.mesh_2d T) nodes (s : statics_with_nonloc.filling)
               i j el projection form integral t,
          t ∈ statics_with_nonloc.triplets
                (statics_with_nonloc.filler_loc mesh nodes s i j el projection form
                   integral) ->
          t ∈ statics_with_nonloc.triplets s \/ t.1.2 <= t.1.1).
Proof.
  intros T S proxy DoF fresh_index fresh_value Theory inner_nodes HDoF Hsize Hvalid
         K_inner.
  destruct (create_matrix_portrait_rows proxy DoF inner_nodes Theory HDoF Hsize Hvalid
              fresh_index fresh_value) as [Hrows Hcells].
  fold K_inner in Hrows, Hcells. split; [exact Hrows|]. split.
  - intros row Hrow. rewrite Hrows in Hrow. rewrite (Hcells row Hrow). split.
    + apply Sorted_merge_sort. apply _.
    + rewrite merge_sort_Permutation. apply Forall_forall.
      intros col Hcol. by apply (row_cols_upper inner_nodes _ _ _ Hcol).
  - intros mesh nodes s i j el projection form integral t.
    apply filler_loc_lower.
Qed.

Lemma C6_indexed_K_inner_is_upper_triangular_and_sorted_witness :
  let inner_nodes := [false; true; true; false] in
  let K_inner :=
    (finite_element_solver_base.create_matrix_portrait inputs.square_proxy 1
       (fun _ => 0) (fun _ => 0%float) LOCAL inner_nodes).1 in
  Eigen.outerIndexPtr K_inner = [0; 1; 3; 4; 5]
  /\ Eigen.innerIndexPtr K_inner = [0; 1; 2; 2; 3]
  /\ forall row, row < Eigen.rows K_inner ->
       Sorted le (Eigen.row_indices K_inner row)
       /\ Forall (fun col => 1 * 0 + row <= col) (Eigen.row_indices K_inner row).
Proof.
  intros inner_nodes K_inner. split; [reflexivity|]. split; [reflexivity|].
  refine (proj1 (proj2 (C6_indexed_K_inner_is_upper_triangular_and_sorted
            float double inputs.square_proxy 1 (fun _ => 0) (fun _ => 0%float) LOCAL
            inner_nodes _ _ _))).
  - simpl. lia.
  - reflexivity.
  - intros node block_col _ _ Hin. vm_compute in Hin.
    repeat (apply elem_of_cons in Hin as [->|Hin]; [simpl; lia|]).
    by apply elem_of_nil in Hin.
Defined.

(** C6 as stated fails on the elasticity path.  On the unit square with all
    its degrees of freedom inner, the triplets that [triplets_fill] hands to
    the matrix hold, in their second cell, the entry of the row 1 and the
    column 0: a column before the row. *)
Lemma C6_elasticity_triplets_lie_below_the_diagonal :
  let K :=
    (statics_with_nonloc.triplets_fill inputs.square (replicate 8 true)
       (fun _ _ _ _ _ => 1%float)).1 in
  exists row col value, K !! 1 = Some (row, col, value) /\ col < row.
Proof. intros K. exists 1, 0, 1%float. split; [reflexivity | lia]. Qed.

(** * The tables of the elements *)

(** ** Vectors written cell by cell *)

Lemma length_foldl_insert {A} (pos : nat -> nat) (val : nat -> A) (ks : list nat) :
  forall l, length (foldl (fun l k => <[pos k := val k]> l) l ks) = length l.
Proof.
  induction ks as [|k ks IH]; intros l; [done|]. simpl. by rewrite IH, length_insert.
Qed.

Lemma lookup_foldl_insert_tabulate {A} (val : nat -> A) (m : nat) : forall (l : list A) k,
  m <= length l ->
  foldl (fun l k => <[k := val k]> l) l (seq 0 m) !! k
  = if decide (k < m) then Some (val k) else l !! k.
Proof.
  induction m as [|m IH]; intros l k Hm.
  { cbn [seq foldl]. destruct (decide (k < 0)); [lia|done]. }
  rewrite seq_S, foldl_app. simpl.
  destruct (decide (k = m)) as [->|Hne].
  - rewrite list_lookup_insert_eq by (rewrite length_foldl_insert; lia).
    case_decide; [done|lia].
  - rewrite list_lookup_insert_ne by done. rewrite IH by lia.
    repeat case_decide; try done; lia.
Qed.

(** Two nested counting loops are one loop over the pairs, numbered row by
    row. *)
Lemma foldl_seq_nested {S} (f : S -> nat -> nat -> S) (n m : nat) : forall s,
  foldl (fun s i => foldl (fun s q => f s i q) s (seq 0 m)) s (seq 0 n)
  = foldl (fun s k => f s (k / m) (k mod m)) s (seq 0 (n * m)).
Proof.
  induction n as [|n IH]; intros s; [done|].
  rewrite seq_S, foldl_app, IH. simpl.
  replace (m + n * m) with (n * m + m) by lia.
  rewrite seq_app, foldl_app. simpl.
  replace (seq (n * m) m) with (Nat.add (n * m) <$> seq 0 m)
    by (rewrite fmap_add_seq; f_equal; lia).
  rewrite foldl_fmap.
  apply foldl_ext_in. intros a q Hq%elem_of_seq.
  assert (0 < m) by lia.
  assert (Hdiv : (n * m + q) / m = n).
  { rewrite Nat.add_comm, Nat.div_add by lia. rewrite Nat.div_small; lia. }
  assert (Hmod : (n * m + q) mod m = q).
  { rewrite Nat.add_comm, Nat.Div0.mod_add. apply Nat.mod_small. lia. }
  by rewrite Hdiv, Hmod.
Qed.

Lemma length_vector_resize {A} (cleared : A) n v : length (vector_resize cleared n v) = n.
Proof. unfold vector_resize. rewrite length_app, length_take, length_replicate. lia. Qed.


Lemma div_mod_unique_add (Q i q : nat) : q < Q -> (i * Q + q) / Q = i /\ (i * Q + q) mod Q = q.
Proof.
  intros Hq. split.
  - rewrite Nat.add_comm, Nat.div_add by lia. rewrite Nat.div_small; lia.
  - rewrite Nat.add_comm, Nat.Div0.mod_add. apply Nat.mod_small. lia.
Qed.

(** A table written row by row holds at [i * Q + q] what the turn [(i, q)]
    of the loops stored. *)
Lemma lookup_table {A} (val : nat -> nat -> A) (n Q : nat) (l : list A) (i q : nat) :
  length l = Q * n -> i < n -> q < Q ->
  foldl (fun l i => foldl (fun l q => <[i * Q + q := val i q]> l) l (seq 0 Q)) l (seq 0 n)
    !! (i * Q + q) = Some (val i q).
Proof.
  intros Hlen Hi Hq.
  rewrite (foldl_seq_nested (fun l i q => <[i * Q + q := val i q]> l)).
  rewrite (foldl_ext_in _ (fun l k => <[k := val (k / Q) (k mod Q)]> l)).
  2:{ intros a k _. f_equal. pose proof (Nat.div_mod_eq k Q). lia. }
  rewrite lookup_foldl_insert_tabulate by lia.
  destruct (div_mod_unique_add Q i q Hq) as [-> ->].
  case_decide; [done|nia].
Qed.

(** ** The quadrature tables of the elements *)

Section set_1d.
Context {T : Type} `{!Scalar T}.
Variables (shape : element_1d T) (this : element_1d_integrate T) (quad : quadrature_base T).



Lemma set_1d_nodes_spec :
  length (set_1d_nodes shape this quad).2 = quad_nodes_count quad
  /\ forall q, q < quad_nodes_count quad ->
       (set_1d_nodes shape this quad).1 !! q
       = Some (add (boundary_1d shape side_1d.LEFT)
                   (mul (sub (quad_node quad q) (quad_boundary quad side_1d.LEFT))
                        (set_1d_jacobian shape quad)))
       /\ (set_1d_nodes shape this quad).2 !! q
          = Some (mul (quad_weight quad q) (set_1d_jacobian shape quad)).
Proof.
  unfold set_1d_nodes. rewrite length_vector_resize.
  rewrite (foldl_project snd _
             (fun l q => <[q := mul (quad_weight quad q) (set_1d_jacobian shape quad)]> l))
    by done.
  rewrite (foldl_project fst _
             (fun l q => <[q := add (boundary_1d shape side_1d.LEFT)
                   (mul (sub (quad_node quad q) (quad_boundary quad side_1d.LEFT))
                        (set_1d_jacobian shape quad))]> l)) by done.
  cbn [fst snd]. split.
  - by rewrite length_foldl_insert, length_vector_resize.
  - intros q Hq.
    rewrite !lookup_foldl_insert_tabulate
      by (rewrite ?length_replicate, ?length_vector_resize; done).
    by case_decide.
Qed.


End set_1d.

(** X1: [element_1d_integrate::set(quad)] leaves an element with as many
    quadrature nodes as [quad] has, whatever the tables held before.  The
    weight of the node [q] is that of [quad] times the Jacobian of the map
    between the two segments, and the tables hold, for every shape function
    [i] and every node [q], the function and its derivative at the node of
    [quad] mapped onto the segment of the element. *)
Theorem X1_set_1d_tabulates_the_shape_functions :
  forall (T : Type) (S : Scalar T) (shape : element_1d T) (this : element_1d_integrate T)
         (quad : quadrature_base T),
    let el := set_1d shape this quad in
    let jacobian :=
      div (sub (boundary_1d shape side_1d.RIGHT) (boundary_1d shape side_1d.LEFT))
          (sub (quad_boundary quad side_1d.RIGHT) (quad_boundary quad side_1d.LEFT)) in
    let xi q :=
      add (boundary_1d shape side_1d.LEFT)
          (mul (sub (quad_node quad q) (quad_boundary quad side_1d.LEFT)) jacobian) in
    nodes_count el = element_1d_nodes_count shape
    /\ qnodes_count el = quad_nodes_count quad
    /\ (forall q, q < quad_nodes_count quad ->
          weight el q = mul (quad_weight quad q) jacobian)
    /\ (forall i q, i < element_1d_nodes_count shape -> q < quad_nodes_count quad ->
          qN el i q = N_1d shape i (xi q) /\ qNxi el i q = Nxi_1d shape i (xi q)).
Proof.
  intros T S shape this quad el jacobian xi.
  destruct (set_1d_nodes_spec shape this quad) as [Hlen Hnodes].
  subst el. unfold set_1d.
  cbn [nodes_count qnodes_count weight qN qNxi integrate_1d nodes_count_1d weights_1d
       NInQuad_1d NxiInQuad_1d].
  rewrite Hlen. split; [done|]. split; [done|]. split.
  - intros q Hq. destruct (Hnodes q Hq) as [_ Hw].
    by rewrite list_lookup_total_alt, Hw.
  - intros i q Hi Hq. destruct (Hnodes q Hq) as [Hxi _].
    unfold set_1d_tables.
    rewrite (foldl_project fst _
      (fun l i => foldl (fun l q =>
         <[i * quad_nodes_count quad + q
           := N_1d shape i ((set_1d_nodes shape this quad).1 !!! q)]> l) l
         (seq 0 (quad_nodes_count quad)))).
    2:{ intros a x. by apply foldl_project. }
    rewrite (foldl_project snd _
      (fun l i => foldl (fun l q =>
         <[i * quad_nodes_count quad + q
           := Nxi_1d shape i ((set_1d_nodes shape this quad).1 !!! q)]> l) l
         (seq 0 (quad_nodes_count quad)))).
    2:{ intros a x. by apply foldl_project. }
    cbn [fst snd].
    rewrite !list_lookup_total_alt.
    rewrite (lookup_table (fun i q => N_1d shape i ((set_1d_nodes shape this quad).1 !!! q)))
      by (rewrite ?length_vector_resize; done).
    rewrite (lookup_table (fun i q => Nxi_1d shape i ((set_1d_nodes shape this quad).1 !!! q)))
      by (rewrite ?length_vector_resize; done).
    cbn [default from_option id]. rewrite !list_lookup_total_alt, Hxi. done.
Qed.

(** A loop that writes every cell of a vector leaves what it wrote. *)
Lemma foldl_insert_all {A} (val : nat -> A) (l : list A) :
  foldl (fun l k => <[k := val k]> l) l (seq 0 (length l)) = val <$> seq 0 (length l).
Proof.
  apply list_eq. intros k. rewrite lookup_foldl_insert_tabulate by done.
  rewrite list_lookup_fmap. case_decide as Hk.
  - by rewrite lookup_seq_lt.
  - rewrite lookup_seq_ge by lia. apply lookup_ge_None. lia.
Qed.

(** The same for the tables of the two-dimensional elements, written by
    three nested loops. *)
Lemma lookup_table_pairs {A} (val : nat -> nat -> nat -> A) (n QXi QEta : nat)
    (l : list A) (i j k : nat) :
  length l = QXi * QEta * n -> i < n -> j < QXi -> k < QEta ->
  foldl (fun l i =>
    foldl (fun l j =>
      foldl (fun l k => <[i * (QXi * QEta) + j * QEta + k := val i j k]> l) l (seq 0 QEta))
      l (seq 0 QXi))
    l (seq 0 n)
  !! (i * (QXi * QEta) + (j * QEta + k)) = Some (val i j k).
Proof.
  intros Hlen Hi Hj Hk.
  rewrite (foldl_ext_in _ (fun l i =>
             foldl (fun l q => <[i * (QXi * QEta) + q := val i (q / QEta) (q mod QEta)]> l)
                   l (seq 0 (QXi * QEta)))).
  2:{ intros a i' _.
      rewrite (foldl_seq_nested
                 (fun l j k => <[i' * (QXi * QEta) + j * QEta + k := val i' j k]> l)).
      apply foldl_ext_in. intros a' q _. f_equal.
      pose proof (Nat.div_mod_eq q QEta). lia. }
  rewrite (lookup_table (fun i q => val i (q / QEta) (q mod QEta))) by (done || nia).
  by destruct (div_mod_unique_add QEta j k Hk) as [-> ->].
Qed.

Section set_2d.
Context {T : Type} `{!Scalar T}.
Variables (shape : element_2d T) (this : element_2d_integrate T).
Variables (quadXi quadEta : quadrature_base T).

(** What the first loop nest of [element_2d_integrate::set] computes for
    the node [i] of [quadXi] and the node [j] of [quadEta]. *)
Definition set_2d_xi (i : nat) : T :=
  add (boundary_2d shape side_2d.LEFT zero)
      (mul (sub (quad_node quadXi i) (quad_boundary quadXi side_1d.LEFT))
           (set_2d_jacobianXi shape quadXi)).

Definition set_2d_jacobianEta (i : nat) : T :=
  div (sub (boundary_2d shape side_2d.UP (set_2d_xi i))
           (boundary_2d shape side_2d.DOWN (set_2d_xi i)))
      (sub (quad_boundary quadEta side_1d.RIGHT) (quad_boundary quadEta side_1d.LEFT)).

Definition set_2d_eta (i j : nat) : T :=
  add (boundary_2d shape side_2d.DOWN (set_2d_xi i))
      (mul (sub (quad_node quadEta j) (quad_boundary quadEta side_1d.LEFT))
           (set_2d_jacobianEta i)).

Definition set_2d_weight (i j : nat) : T :=
  mul (mul (mul (quad_weight quadXi i) (set_2d_jacobianXi shape quadXi))
           (quad_weight quadEta j))
      (set_2d_jacobianEta i).

Lemma set_2d_row_inner (s : set_2d_nodes T) (i m : nat) :
  foldl (fun s j =>
           {| jacobianEta := jacobianEta s; xi := xi s;
              eta := <[j := add (boundary_2d shape side_2d.DOWN (xi s !!! i))
                                (mul (sub (quad_node quadEta j)
                                          (quad_boundary quadEta side_1d.LEFT))
                                     (jacobianEta s !!! i))]> (eta s);
              weights :=
                <[i * quad_nodes_count quadEta + j :=
                    mul (mul (mul (quad_weight quadXi i) (set_2d_jacobianXi shape quadXi))
                             (quad_weight quadEta j))
                        (jacobianEta s !!! i)]> (weights s) |})
        s (seq 0 m)
  = {| jacobianEta := jacobianEta s; xi := xi s;
       eta :=
         foldl (fun l j =>
                  <[j := add (boundary_2d shape side_2d.DOWN (xi s !!! i))
                             (mul (sub (quad_node quadEta j)
                                       (quad_boundary quadEta side_1d.LEFT))
                                  (jacobianEta s !!! i))]> l)
               (eta s) (seq 0 m);
       weights :=
         foldl (fun l j =>
                  <[i * quad_nodes_count quadEta + j :=
                      mul (mul (mul (quad_weight quadXi i) (set_2d_jacobianXi shape quadXi))
                               (quad_weight quadEta j))
                          (jacobianEta s !!! i)]> l)
               (weights s) (seq 0 m) |}.
Proof.
  induction m as [|m IH]; [by destruct s|].
  rewrite !seq_S, !foldl_app, IH. done.
Qed.

Lemma set_2d_row_spec (s : set_2d_nodes T) (i : nat) :
  i < length (xi s) -> i < length (jacobianEta s) ->
  length (eta s) = quad_nodes_count quadEta ->
  set_2d_row shape quadXi quadEta s i
  = {| jacobianEta := <[i := set_2d_jacobianEta i]> (jacobianEta s);
       xi := <[i := set_2d_xi i]> (xi s);
       eta := set_2d_eta i <$> seq 0 (quad_nodes_count quadEta);
       weights :=
         foldl (fun l j => <[i * quad_nodes_count quadEta + j := set_2d_weight i j]> l)
               (weights s) (seq 0 (quad_nodes_count quadEta)) |}.
Proof.
  intros Hxi HjEta Heta. unfold set_2d_row.
  rewrite set_2d_row_inner. cbn [xi jacobianEta eta weights].
  rewrite !list_lookup_total_insert_eq by done.
  fold (set_2d_xi i). fold (set_2d_jacobianEta i).
  f_equal. rewrite <- Heta. apply (foldl_insert_all (set_2d_eta i)).
Qed.

Lemma set_2d_quadrature_spec :
  let nodes := set_2d_quadrature shape this quadXi quadEta in
  length (weights nodes) = quad_nodes_count quadXi * quad_nodes_count quadEta
  /\ (forall i, i < quad_nodes_count quadXi -> xi nodes !! i = Some (set_2d_xi i))
  /\ (forall j, j < quad_nodes_count quadEta -> 0 < quad_nodes_count quadXi ->
        eta nodes !! j = Some (set_2d_eta (quad_nodes_count quadXi - 1) j))
  /\ (forall i j, i < quad_nodes_count quadXi -> j < quad_nodes_count quadEta ->
        weights nodes !! (i * quad_nodes_count quadEta + j) = Some (set_2d_weight i j)).
Proof.
  intros nodes. subst nodes. unfold set_2d_quadrature.
  set (QXi := quad_nodes_count quadXi). set (QEta := quad_nodes_count quadEta).
  assert (Hgen : forall k, k <= QXi ->
    foldl (set_2d_row shape quadXi quadEta)
      {| jacobianEta := replicate QXi zero; xi := replicate QXi zero;
         eta := replicate QEta zero;
         weights := vector_resize zero (QXi * QEta) (weights_2d this) |} (seq 0 k)
    = {| jacobianEta :=
           foldl (fun l i => <[i := set_2d_jacobianEta i]> l) (replicate QXi zero) (seq 0 k);
         xi := foldl (fun l i => <[i := set_2d_xi i]> l) (replicate QXi zero) (seq 0 k);
         eta := match k with
                | 0 => replicate QEta zero
                | S k' => set_2d_eta k' <$> seq 0 QEta
                end;
         weights :=
           foldl (fun l i =>
                    foldl (fun l j => <[i * QEta + j := set_2d_weight i j]> l) l (seq 0 QEta))
                 (vector_resize zero (QXi * QEta) (weights_2d this)) (seq 0 k) |}).
  { induction k as [|k IH]; intros Hk; [done|].
    rewrite !seq_S, !foldl_app, IH by lia. cbn [foldl plus].
    rewrite set_2d_row_spec; cbn [xi jacobianEta eta weights].
    - done.
    - rewrite length_foldl_insert, length_replicate. lia.
    - rewrite length_foldl_insert, length_replicate. lia.
    - destruct k; [by rewrite length_replicate | by rewrite length_fmap, length_seq]. }
  rewrite (Hgen QXi (le_n _)). cbn [xi jacobianEta eta weights].
  split; [|split; [|split]].
  - rewrite (foldl_seq_nested (fun l i j => <[i * QEta + j := set_2d_weight i j]> l)).
    by rewrite length_foldl_insert, length_vector_resize.
  - intros i Hi. rewrite lookup_foldl_insert_tabulate by (by rewrite length_replicate).
    by case_decide.
  - intros j Hj HQ. destruct QXi as [|k'] eqn:HQXi; [lia|].
    rewrite list_lookup_fmap, lookup_seq_lt by done. simpl.
    by rewrite Nat.sub_0_r.
  - intros i j Hi Hj. apply lookup_table; [|done|done].
    rewrite length_vector_resize. lia.
Qed.

End set_2d.

(** X2: [element_2d_integrate::set(quadXi, quadEta)] leaves an element with
    the product of the two node counts as its number of quadrature nodes,
    numbered [j * quadEta.nodes_count() + k].  The weights are those of the
    pair of nodes times the two Jacobians.  The tables hold the shape
    functions and their two derivatives at [(xi[j], eta[k])], where [eta] is
    the vector as the last turn of the loop over the nodes of [quadXi] left
    it: the ordinates computed on the last abscissa serve every column. *)
Theorem X2_set_2d_tabulates_the_shape_functions :
  forall (T : Type) (S : Scalar T) (shape : element_2d T) (this : element_2d_integrate T)
         (quadXi quadEta : quadrature_base T),
    let el := set_2d shape this quadXi quadEta in
    let QXi := quad_nodes_count quadXi in
    let QEta := quad_nodes_count quadEta in
    let jacobianXi :=
      div (sub (boundary_2d shape side_2d.RIGHT zero) (boundary_2d shape side_2d.LEFT zero))
          (sub (quad_boundary quadXi side_1d.RIGHT) (quad_boundary quadXi side_1d.LEFT)) in
    let xi i :=
      add (boundary_2d shape side_2d.LEFT zero)
          (mul (sub (quad_node quadXi i) (quad_boundary quadXi side_1d.LEFT)) jacobianXi) in
    let jacobianEta i :=
      div (sub (boundary_2d shape side_2d.UP (xi i)) (boundary_2d shape side_2d.DOWN (xi i)))
          (sub (quad_boundary quadEta side_1d.RIGHT) (quad_boundary quadEta side_1d.LEFT)) in
    let eta i j :=
      add (boundary_2d shape side_2d.DOWN (xi i))
          (mul (sub (quad_node quadEta j) (quad_boundary quadEta side_1d.LEFT))
               (jacobianEta i)) in
    nodes_count el = element_2d_nodes_count shape
    /\ qnodes_count el = QXi * QEta
    /\ (forall i j, i < QXi -> j < QEta ->
          weight el (i * QEta + j)
          = mul (mul (mul (quad_weight quadXi i) jacobianXi) (quad_weight quadEta j))
                (jacobianEta i))
    /\ (forall i j k, i < element_2d_nodes_count shape -> j < QXi -> k < QEta ->
          qN el i (j * QEta + k) = N_2d shape i (xi j) (eta (QXi - 1) k)
          /\ qNxi el i (j * QEta + k) = Nxi_2d shape i (xi j) (eta (QXi - 1) k)
          /\ qNeta el i (j * QEta + k) = Neta_2d shape i (xi j) (eta (QXi - 1) k)).
Proof.
  intros T S shape this quadXi quadEta el QXi QEta jacobianXi xi jacobianEta eta.
  destruct (set_2d_quadrature_spec shape this quadXi quadEta)
    as (Hlen & Hxi & Heta & Hweights).
  subst el. unfold set_2d, qNeta.
  cbn [nodes_count qnodes_count weight qN qNxi integrate_2d nodes_count_2d weights_2d
       NInQuad_2d NxiInQuad_2d NetaInQuad_2d].
  rewrite Hlen. fold QXi QEta in Hxi, Heta, Hweights |- *.
  split; [done|]. split; [done|]. split.
  - intros i j Hi Hj. by rewrite list_lookup_total_alt, (Hweights i j Hi Hj).
  - intros i j k Hi Hj Hk.
    set (nodes := set_2d_quadrature shape this quadXi quadEta) in *.
    unfold set_2d_tables. fold QXi QEta.
    set (F := fun (proj : T -> T -> T) (l : list T) (i : nat) =>
           foldl (fun l j =>
             foldl (fun l k =>
                      <[i * (QXi * QEta) + j * QEta + k
                        := proj (finite_element.xi nodes !!! j)
                                (finite_element.eta nodes !!! k)]> l)
                   l (seq 0 QEta)) l (seq 0 QXi)).
    rewrite (foldl_project (fun s => s.1.1) _ (fun l i => F (N_2d shape i) l i)).
    2:{ intros a x. apply (foldl_project (fun s : list T * list T * list T => s.1.1)). intros a' y.
        by apply (foldl_project (fun s : list T * list T * list T => s.1.1)). }
    rewrite (foldl_project (fun s => s.1.2) _ (fun l i => F (Nxi_2d shape i) l i)).
    2:{ intros a x. apply (foldl_project (fun s : list T * list T * list T => s.1.2)). intros a' y.
        by apply (foldl_project (fun s : list T * list T * list T => s.1.2)). }
    rewrite (foldl_project (fun s => s.2) _ (fun l i => F (Neta_2d shape i) l i)).
    2:{ intros a x. apply (foldl_project (fun s : list T * list T * list T => s.2)). intros a' y.
        by apply (foldl_project (fun s : list T * list T * list T => s.2)). }
    cbn [fst snd]. subst F. cbn beta.
    rewrite !list_lookup_total_alt.
    rewrite (lookup_table_pairs
               (fun i j k => N_2d shape i (finite_element.xi nodes !!! j)
                                  (finite_element.eta nodes !!! k)))
      by (rewrite ?length_vector_resize; done).
    rewrite (lookup_table_pairs
               (fun i j k => Nxi_2d shape i (finite_element.xi nodes !!! j)
                                  (finite_element.eta nodes !!! k)))
      by (rewrite ?length_vector_resize; done).
    rewrite (lookup_table_pairs
               (fun i j k => Neta_2d shape i (finite_element.xi nodes !!! j)
                                  (finite_element.eta nodes !!! k)))
      by (rewrite ?length_vector_resize; done).
    cbn [default from_option id].
    rewrite !list_lookup_total_alt, (Hxi j Hj), (Heta k Hk) by lia. done.
Qed.

(** * The containers of the mesh *)

(** ** The maps between nodes and elements *)

(** The number of times [node] is listed in [ns]. *)
Definition listed (node : nat) (ns : list nat) : nat :=
  length (filter (fun n => n = node) ns).

Lemma listed_pos node ns : 0 < listed node ns <-> node ∈ ns.
Proof.
  unfold listed. induction ns as [|n ns IH].
  - rewrite elem_of_nil. simpl. lia.
  - rewrite filter_cons, elem_of_cons. case_decide as Hn; simpl; [|rewrite IH].
    + split; [by left | lia].
    + split; [by right | by intros [?|?]].
Qed.

Lemma lookup_total_replicate_nil {A} (n k : nat) : replicate n (@nil A) !!! k = [].
Proof.
  rewrite list_lookup_total_alt. destruct (replicate n [] !! k) as [l|] eqn:Hl; [|done].
  by apply lookup_replicate in Hl as [-> _].
Qed.

Lemma node_elements_2d_element (e : nat) (ns : list nat) : forall node_elements,
  Forall (fun node => node < length node_elements) ns ->
  exists node_elements',
    foldl (fun node_elements node =>
             node_elements ≫= update_at node (fun elements => elements ++ [e]))
          (returned node_elements) ns
    = returned node_elements'
    /\ length node_elements' = length node_elements
    /\ forall node,
         node_elements' !!! node = node_elements !!! node ++ replicate (listed node ns) e.
Proof.
  induction ns as [|n ns IH]; intros node_elements Hns.
  { exists node_elements. split; [done|]. split; [done|]. intros node.
    by rewrite app_nil_r. }
  apply Forall_cons in Hns as [Hn Hns]. cbn [foldl].
  destruct (lookup_lt_is_Some_2 node_elements n Hn) as [es Hes].
  rewrite (update_at_returned n _ node_elements es Hes).
  destruct (IH (<[n := es ++ [e]]> node_elements)) as (ne' & Hrun & Hlen & Hget).
  { by rewrite length_insert. }
  exists ne'. split; [done|]. split; [by rewrite Hlen, length_insert|].
  intros node. rewrite Hget. unfold listed. rewrite filter_cons.
  destruct (decide (n = node)) as [->|Hne].
  - rewrite list_lookup_total_insert_eq by done.
    rewrite (list_lookup_total_correct _ _ _ Hes). by rewrite <- app_assoc.
  - by rewrite list_lookup_total_insert_ne.
Qed.

(** X3: on a mesh whose elements name nodes below [nodes_count()],
    [node_elements_2d] returns one list per node, and the list of a node
    holds exactly the elements that name the node, in ascending order. *)
Theorem X3_node_elements_2d_lists_the_elements_of_each_node :
  forall (nodes_count : nat) (nodes : list (list nat)),
    Forall (Forall (fun node => node < nodes_count)) nodes ->
    exists node_elements,
      utils.node_elements_2d nodes_count nodes = returned node_elements
      /\ length node_elements = nodes_count
      /\ forall node,
           StronglySorted le (node_elements !!! node)
           /\ forall e, e ∈ node_elements !!! node
                        <-> exists ns, nodes !! e = Some ns /\ node ∈ ns.
Proof.
  intros nodes_count nodes Hnodes. unfold utils.node_elements_2d.
  assert (Hgen : forall k, k <= length nodes ->
    exists node_elements,
      foldl (fun node_elements e =>
               foldl (fun node_elements node =>
                        node_elements ≫= update_at node (fun elements => elements ++ [e]))
                     node_elements (nodes !!! e))
            (returned (replicate nodes_count [])) (seq 0 k)
      = returned node_elements
      /\ length node_elements = nodes_count
      /\ forall node,
           node_elements !!! node
           = e ← seq 0 k; replicate (listed node (nodes !!! e)) e).
  { induction k as [|k IH]; intros Hk.
    { eexists. split; [done|]. split; [by rewrite length_replicate|].
      intros node. apply lookup_total_replicate_nil. }
    destruct (IH ltac:(lia)) as (ne & Hrun & Hlen & Hget).
    rewrite seq_S, foldl_app, Hrun. cbn [foldl plus].
    destruct (node_elements_2d_element k (nodes !!! k) ne) as (ne' & Hrun' & Hlen' & Hget').
    { rewrite Hlen. destruct (lookup_lt_is_Some_2 nodes k ltac:(lia)) as [ns Hns].
      rewrite (list_lookup_total_correct _ _ _ Hns).
      by apply (Forall_lookup_1 _ _ _ _ Hnodes Hns). }
    exists ne'. split; [done|]. split; [lia|]. intros node.
    rewrite Hget', Hget, bind_app, bind_cons. simpl. by rewrite app_nil_r. }
  destruct (Hgen (length nodes) (le_n _)) as (ne & Hrun & Hlen & Hget).
  exists ne. split; [done|]. split; [done|]. intros node. rewrite Hget. split.
  - generalize (length nodes). intros k. induction k as [|k IH]; [constructor|].
    rewrite seq_S, bind_app, bind_cons. simpl. rewrite app_nil_r.
    apply StronglySorted_app_2; [|done|].
    + intros e1 e2 (e & He1 & He%elem_of_seq)%list_elem_of_bind He2.
      apply elem_of_replicate in He1 as [-> _].
      apply elem_of_replicate in He2 as [-> _]. lia.
    + generalize (listed node (nodes !!! k)). intros c.
      induction c as [|c IHc]; simpl; [constructor|].
      constructor; [done|]. apply Forall_forall.
      by intros x [-> _]%elem_of_replicate.
  - intros e. rewrite list_elem_of_bind. split.
    + intros (e' & [-> Hpos]%elem_of_replicate & He%elem_of_seq).
      destruct (lookup_lt_is_Some_2 nodes e' ltac:(lia)) as [ns Hns].
      exists ns. split; [done|]. apply listed_pos.
      rewrite (list_lookup_total_correct _ _ _ Hns) in Hpos. lia.
    + intros (ns & Hns & Hin). exists e. split.
      * apply elem_of_replicate. split; [done|].
        rewrite (list_lookup_total_correct _ _ _ Hns).
        apply listed_pos in Hin. lia.
      * apply elem_of_seq. apply lookup_lt_Some in Hns. lia.
Qed.

Lemma X3_node_elements_2d_lists_the_elements_of_each_node_witness :
  let nodes := [[0; 1; 2]; [2; 1; 3]] in
  Forall (Forall (fun node => node < 4)) nodes
  /\ exists node_elements,
       utils.node_elements_2d 4 nodes = returned node_elements
       /\ length node_elements = 4
       /\ forall node,
            StronglySorted le (node_elements !!! node)
            /\ forall e, e ∈ node_elements !!! node
                         <-> exists ns, nodes !! e = Some ns /\ node ∈ ns.
Proof.
  intros nodes.
  assert (Hnodes : Forall (Forall (fun node => node < 4)) nodes)
    by (repeat constructor).
  split; [exact Hnodes|].
  exact (X3_node_elements_2d_lists_the_elements_of_each_node 4 nodes Hnodes).
Defined.

(** The numbering of the nodes of one element, as the inner loop of
    [global_to_local] builds it. *)
Definition local_numbering (ns : list nat) (k : nat) : gmap nat nat :=
  foldl (fun m i => <[ns !!! i := i mod 256]> m) ∅ (seq 0 k).

Lemma local_numbering_spec (ns : list nat) (k : nat) :
  k <= length ns -> length ns <= 256 ->
  (forall node i, local_numbering ns k !! node = Some i ->
     i < k /\ ns !! i = Some node /\ forall i', i < i' -> i' < k -> ns !! i' <> Some node)
  /\ (forall node i, i < k -> ns !! i = Some node -> is_Some (local_numbering ns k !! node)).
Proof.
  intros Hk Hbyte. unfold local_numbering. induction k as [|k IH].
  { split; [|intros; lia]. intros node i. simpl. by rewrite lookup_empty. }
  destruct (IH ltac:(lia)) as [Hsome Hin].
  rewrite seq_S, foldl_app. cbn [foldl plus].
  destruct (lookup_lt_is_Some_2 ns k ltac:(lia)) as [nk Hnk].
  rewrite (list_lookup_total_correct _ _ _ Hnk), Nat.mod_small by lia.
  split.
  - intros node i. destruct (decide (nk = node)) as [->|Hne].
    + rewrite lookup_insert_eq. intros [= <-]. split; [lia|]. split; [done|]. intros; lia.
    + rewrite lookup_insert_ne by done. intros (Hi & Hnode & Hlast)%Hsome.
      split; [lia|]. split; [done|]. intros i' Hi' Hi'k.
      destruct (decide (i' = k)) as [->|Hne']; [congruence|]. apply Hlast; lia.
  - intros node i Hi Hnode. destruct (decide (nk = node)) as [->|Hne].
    + rewrite lookup_insert_eq. by eexists.
    + rewrite lookup_insert_ne by done. apply (Hin node i); [|done].
      destruct (decide (i = k)) as [->|]; [congruence|lia].
Qed.

Lemma global_to_local_element (e : nat) (key value : nat -> nat) (l : list nat) :
  forall numbering : list (gmap nat nat),
    e < length numbering ->
    foldl (fun numbering i => <[e := <[key i := value i]> (numbering !!! e)]> numbering)
          numbering l
    = <[e := foldl (fun m i => <[key i := value i]> m) (numbering !!! e) l]> numbering.
Proof.
  induction l as [|i l IH]; intros numbering He; cbn [foldl].
  { by rewrite list_insert_id by (by apply list_lookup_lookup_total_lt). }
  rewrite IH by (by rewrite length_insert).
  rewrite list_lookup_total_insert_eq by done. by rewrite list_insert_insert_eq.
Qed.

(** X4: for an element of at most 256 nodes, the map that
    [global_to_local] builds sends a node to a local index at which the
    element lists that node, and it is defined on the nodes of the element
    and on no other; when no node is listed twice it sends the node at the
    local index [i] to [i]. *)
Theorem X4_global_to_local_inverts_the_node_list :
  forall (nodes : list (list nat)) (e : nat) (ns : list nat),
    nodes !! e = Some ns -> length ns <= 256 ->
    exists numbering,
      utils.global_to_local nodes !! e = Some numbering
      /\ (forall node i, numbering !! node = Some i -> ns !! i = Some node)
      /\ (forall node, node ∈ ns <-> is_Some (numbering !! node))
      /\ (NoDup ns -> forall node i, ns !! i = Some node -> numbering !! node = Some i).
Proof.
  intros nodes e ns Hns Hbyte.
  assert (Hrun : utils.global_to_local nodes !! e = Some (local_numbering ns (length ns))).
  { unfold utils.global_to_local.
    pose proof (lookup_lt_Some _ _ _ Hns) as He.
    assert (Hgen : forall k, k <= length nodes ->
      let numbering :=
        foldl (fun global_to_local_numbering e =>
                 foldl (fun numbering i =>
                          <[e := <[(nodes !!! e) !!! i := i mod 256]> (numbering !!! e)]>
                            numbering)
                       global_to_local_numbering (seq 0 (length (nodes !!! e))))
              (replicate (length nodes) ∅) (seq 0 k) in
      length numbering = length nodes
      /\ forall e' ns', nodes !! e' = Some ns' ->
           numbering !! e'
           = Some (if decide (e' < k) then local_numbering ns' (length ns') else ∅)).
    { induction k as [|k IH]; intros Hk.
      { cbn [seq foldl]. split; [by rewrite length_replicate|]. intros e' ns' Hns'.
        apply lookup_lt_Some in Hns' as He'.
        rewrite lookup_replicate_2 by done. by destruct (decide (e' < 0)); [lia|]. }
      destruct (IH ltac:(lia)) as [Hlen Hget]. cbn zeta.
      rewrite seq_S, foldl_app. cbn [foldl plus].
      rewrite global_to_local_element by lia.
      split; [by rewrite length_insert|]. intros e' ns' Hns'.
      destruct (decide (e' = k)) as [->|Hne].
      - rewrite list_lookup_insert_eq by lia.
        rewrite (list_lookup_total_correct _ _ _ (Hget k ns' Hns')).
        rewrite (list_lookup_total_correct _ _ _ Hns').
        destruct (decide (k < k)); [lia|]. by destruct (decide (k < S k)); [|lia].
      - rewrite list_lookup_insert_ne by done. rewrite (Hget e' ns' Hns').
        by repeat case_decide; try lia. }
    destruct (Hgen (length nodes) (le_n _)) as [_ Hget].
    rewrite (Hget e ns Hns). by destruct (decide (e < length nodes)); [|lia]. }
  destruct (local_numbering_spec ns (length ns) (le_n _) Hbyte) as [Hsome Hin].
  exists (local_numbering ns (length ns)). split; [done|]. split; [|split].
  - intros node i Hi. by destruct (Hsome node i Hi) as (_ & ? & _).
  - intros node. split.
    + intros (i & Hi)%list_elem_of_lookup. apply (Hin node i); [|done].
      by apply lookup_lt_Some in Hi.
    + intros [i Hi]. destruct (Hsome node i Hi) as (_ & Hnode & _).
      by eapply list_elem_of_lookup_2.
  - intros Hnodup node i Hi.
    destruct (Hin node i (lookup_lt_Some _ _ _ Hi) Hi) as [i' Hi'].
    destruct (Hsome node i' Hi') as (_ & Hnode & _).
    by rewrite (NoDup_lookup _ _ _ _ Hnodup Hi Hnode).
Qed.

Lemma X4_global_to_local_inverts_the_node_list_witness :
  let nodes := [[4; 7; 9]; [7; 4; 2; 5]] in
  let ns := [7; 4; 2; 5] in
  nodes !! 1 = Some ns /\ length ns <= 256
  /\ exists numbering,
       utils.global_to_local nodes !! 1 = Some numbering
       /\ (forall node i, numbering !! node = Some i -> ns !! i = Some node)
       /\ (forall node, node ∈ ns <-> is_Some (numbering !! node))
       /\ (NoDup ns -> forall node i, ns !! i = Some node -> numbering !! node = Some i).
Proof.
  intros nodes ns.
  assert (Hbyte : length ns <= 256) by (simpl; lia).
  split; [reflexivity|]. split; [exact Hbyte|].
  exact (X4_global_to_local_inverts_the_node_list nodes 1 ns eq_refl Hbyte).
Defined.

(** ** The derivatives of the shape functions in the quadrature nodes *)

Section derivatives.
Context {T : Type} `{!Scalar T} `{!Scalar_functions T}.
Variable nodes : list (list nat).
Variable element_2d : nat -> element_2d_integrate T.

(** The pair that [derivatives_in_quad] stores for the shape function [i]
    of the element [e] at its quadrature node [q], from the Jacobi matrix
    [J] of that node. *)
Definition derivative (e i q : nat) (J : (T * T) * (T * T)) : T * T :=
  let el := element_2d e in
  (sub (mul (qNxi el i q) J.2.2) (mul (qNeta el i q) J.2.1),
   add (mul (opp (qNxi el i q)) J.1.2) (mul (qNeta el i q) J.1.1)).

Lemma derivatives_in_quad_no_throw (qes qns : list Z) (jacobi_matrices : list ((T * T) * (T * T)))
    (d : outcome (list (T * T))) (es : list nat) exn :
  (forall exn', d <> thrown exn') ->
  foldl (fun derivatives e =>
      let el := element_2d e in
      foldl (fun derivatives i =>
        foldl (fun derivatives q =>
          match lookup_I (qes !!! e + Z.of_nat q)%Z jacobi_matrices with
          | Some J =>
              derivatives ≫=
                update_at_I
                  (qns !!! e + Z.of_nat (i * qnodes_count el) + Z.of_nat q)%Z
                  (fun _ =>
                     (sub (mul (qNxi el i q) J.2.2) (mul (qNeta el i q) J.2.1),
                      add (mul (opp (qNxi el i q)) J.1.2) (mul (qNeta el i q) J.1.1)))
          | None => undefined
          end)
          derivatives (seq 0 (qnodes_count el)))
        derivatives (seq 0 (nodes_count el)))
      d es <> thrown exn.
Proof.
  intros Hd. revert exn.
  apply (foldl_invariant (fun d => forall exn, d <> thrown exn)); [done|].
  intros d1 e Hd1. cbn zeta.
  apply (foldl_invariant (fun d => forall exn, d <> thrown exn)); [done|].
  intros d2 i Hd2.
  apply (foldl_invariant (fun d => forall exn, d <> thrown exn)); [done|].
  intros d3 q Hd3 exn. destruct (lookup_I _ _); [|done].
  by apply update_at_I_no_throw.
Qed.

End derivatives.

(** X5: [derivatives_in_quad] throws [logic_error] exactly when one of the
    two shift vectors is not of the size [elements_2d_count() + 1] or the
    last element shift is not the number of Jacobi matrices; when these
    tests pass, the allocation of the result throws [length_error] exactly
    when the last node shift is negative; and nothing else is thrown.  On the
    shifts that [elements_quadrature_shifts_2d] and
    [element_node_shits_quadrature_shifts_2d] build, with one Jacobi matrix
    per quadrature node, it returns a vector whose length is the last node
    shift and which holds at [quad_nodes_shifts[e] + i * qnodes_count + q]
    the pair computed from the matrix at [quad_element_shifts[e] + q]. *)
Theorem X5_derivatives_in_quad_on_the_shifts_of_the_mesh :
  forall (T : Type) (ST : Scalar T) (FT : Scalar_functions T) (nodes : list (list nat))
         (element_2d : nat -> element_2d_integrate T)
         (jacobi_matrices : list ((T * T) * (T * T))),
    let n := length nodes in
    (forall quad_element_shifts quad_nodes_shifts exn,
       utils.derivatives_in_quad nodes element_2d quad_element_shifts quad_nodes_shifts
         jacobi_matrices = thrown exn
       <-> (exn = logic_error
            /\ (length quad_element_shifts <> n + 1 \/ length quad_nodes_shifts <> n + 1
                \/ back_I quad_element_shifts <> Z.of_nat (length jacobi_matrices)))
           \/ (exn = length_error
               /\ length quad_element_shifts = n + 1 /\ length quad_nodes_shifts = n + 1
               /\ back_I quad_element_shifts = Z.of_nat (length jacobi_matrices)
               /\ (back_I quad_nodes_shifts < 0)%Z))
    /\ (let quad_element_shifts :=
          utils.elements_quadrature_shifts_2d n (fun e => qnodes_count (element_2d e)) in
        let quad_nodes_shifts :=
          utils.element_node_shits_quadrature_shifts_2d nodes element_2d in
        Z.of_nat (length jacobi_matrices) = back_I quad_element_shifts ->
        exists derivatives,
          utils.derivatives_in_quad nodes element_2d quad_element_shifts quad_nodes_shifts
            jacobi_matrices = returned derivatives
          /\ Z.of_nat (length derivatives) = back_I quad_nodes_shifts
          /\ forall e i q,
               e < n -> i < nodes_count (element_2d e) -> q < qnodes_count (element_2d e) ->
               exists J,
                 jacobi_matrices !! (Z.to_nat (quad_element_shifts !!! e) + q) = Some J
                 /\ derivatives
                      !! (Z.to_nat (quad_nodes_shifts !!! e)
                          + i * qnodes_count (element_2d e) + q)
                    = Some (derivative element_2d e i q J)).
Proof.
  intros T ST FT nodes element_2d jacobi_matrices n. split.
  - intros qes qns exn. unfold utils.derivatives_in_quad. fold n.
    destruct (decide (n + 1 ≠ length qes \/ n + 1 ≠ length qns)) as [Hsize|Hsize].
    { split.
      - intros [= <-]. left. split; [done|lia].
      - intros [[-> _]|(_ & ? & ? & _)]; [done|lia]. }
    destruct (decide (back_I qes ≠ Z.of_nat (length jacobi_matrices))) as [Hback|Hback].
    { split.
      - intros [= <-]. left. split; [done|tauto].
      - intros [[-> _]|(_ & _ & _ & ? & _)]; [done|lia]. }
    destruct (decide (back_I qns < 0)%Z) as [Hneg|Hpos].
    { unfold vector_of_size. rewrite decide_True by done. cbn [mbind outcome_bind].
      split.
      - intros [= <-]. right. split; [done|]. repeat split; [lia|lia|lia|done].
      - intros [[_ ?]|[-> _]]; [lia|done]. }
    rewrite vector_of_size_returned by lia. cbn [mbind outcome_bind].
    split; [|intros [[_ ?]|(_ & _ & _ & _ & ?)]; lia].
    intros Hthrown. exfalso. revert Hthrown.
    by apply derivatives_in_quad_no_throw.
  - intros qes qns Hjacobi.
    set (Q := fun e => qnodes_count (element_2d e)).
    set (N := fun e => nodes_count (element_2d e)).
    destruct (quadrature_shifts_2d_spec n Q) as (Hlen_qes & Hzero_qes & Hstep_qes).
    destruct (quadrature_shifts_2d_spec n (fun e => N e * Q e))
      as (Hlen_qns & Hzero_qns & Hstep_qns).
    fold (utils.elements_quadrature_shifts_2d n Q) in Hlen_qes, Hzero_qes, Hstep_qes.
    change (utils.quadrature_shifts_2d n (fun e => N e * Q e)) with qns
      in Hlen_qns, Hzero_qns, Hstep_qns.
    change (utils.elements_quadrature_shifts_2d n Q) with qes
      in Hlen_qes, Hzero_qes, Hstep_qes.
    assert (Hord_qes : blocks_in_order n Q qes) by apply quadrature_shifts_2d_in_order.
    assert (Hord_qns : blocks_in_order n (fun e => N e * Q e) qns).
    { split; [by rewrite Hzero_qns|]. intros e He. rewrite Hstep_qns; done. }
    set (oe := fun e => Z.to_nat (qes !!! e)).
    set (oq := fun e => Z.to_nat (qns !!! e)).
    assert (Hqes : forall e, e <= n -> (0 <= qes !!! e)%Z).
    { intros e He. by apply (blocks_in_order_nonneg n Q). }
    assert (Hqns : forall e, e <= n -> (0 <= qns !!! e)%Z).
    { intros e He. by apply (blocks_in_order_nonneg n (fun e => N e * Q e)). }
    assert (HJ : forall e q, e < n -> q < Q e ->
              is_Some (jacobi_matrices !! (oe e + q))).
    { intros e q He Hq. apply lookup_lt_is_Some_2.
      rewrite (back_I_lookup_total qes n Hlen_qes) in Hjacobi.
      pose proof (proj2 Hord_qes e He).
      pose proof (blocks_in_order_mono n Q qes (S e) n Hord_qes ltac:(lia) ltac:(lia)).
      pose proof (Hqes e ltac:(lia)). unfold oe. lia. }
    unfold utils.derivatives_in_quad. fold n.
    destruct (decide (n + 1 ≠ length qes \/ n + 1 ≠ length qns)) as [Hsize|_]; [lia|].
    destruct (decide (back_I qes ≠ Z.of_nat (length jacobi_matrices))) as [Hback|_];
      [congruence|].
    rewrite (back_I_lookup_total qns n Hlen_qns).
    rewrite vector_of_size_returned by (by apply Hqns). cbn [mbind outcome_bind].
    set (step := fun (e s : nat) (data : outcome (list (T * T))) =>
           data ≫= update_at (oq e + s)
                     (fun _ => derivative element_2d e (s / Q e) (s mod Q e)
                                 (jacobi_matrices !!! (oe e + s mod Q e)))).
    rewrite (foldl_ext_in _ (fun data e => element_loop step e data (N e * Q e))).
    2:{ intros data e He%elem_of_seq. cbn zeta. unfold element_loop.
        rewrite (foldl_ext_in (fun data q => step e q data)
                   (fun data k => step e (k / Q e * Q e + k mod Q e) data)).
        2:{ intros a k _. f_equal. pose proof (Nat.div_mod_eq k (Q e)). lia. }
        rewrite <- (foldl_seq_nested (fun data i q => step e (i * Q e + q) data)
                      (N e) (Q e)).
        apply foldl_ext_in. intros data' i Hi%elem_of_seq.
        apply foldl_ext_in. intros data'' q Hq%elem_of_seq.
        destruct (HJ e q ltac:(lia) ltac:(lia)) as [J HJ'].
        pose proof (Hqes e ltac:(lia)) as Hqes_e.
        pose proof (Hqns e ltac:(lia)) as Hqns_e.
        fold (Q e). unfold lookup_I. rewrite decide_False by lia.
        replace (Z.to_nat (qes !!! e + Z.of_nat q)) with (oe e + q) by (unfold oe; lia).
        rewrite HJ'. unfold step.
        destruct (div_mod_unique_add (Q e) i q ltac:(lia)) as [-> ->].
        rewrite (list_lookup_total_correct _ _ _ HJ').
        destruct data'' as [d| |]; [|done..]. cbn [mbind outcome_bind].
        replace (qns !!! e + Z.of_nat (i * Q e) + Z.of_nat q)%Z
          with (qns !!! e + Z.of_nat (i * Q e + q))%Z by lia.
        by rewrite update_at_I_nonneg. }
    destruct (mesh_loop_spec n (fun e => N e * Q e) oq step
                (fun e s _ => derivative element_2d e (s / Q e) (s mod Q e)
                                (jacobi_matrices !!! (oe e + s mod Q e))))
      with (cleared := (zero, zero) : T * T) (k := n)
      as (data & Hrun & Hlength & Hset & _).
    { intros e s data a He Ha. exact (update_at_returned _ _ data a Ha). }
    { by apply blocks_in_order_offsets. }
    { done. }
    exists data. split; [exact Hrun|]. split.
    { pose proof (Hqns n (le_n n)). unfold oq in Hlength. lia. }
    intros e i q He Hi Hq. destruct (HJ e q He Hq) as [J HJ']. exists J. split; [done|].
    change (qnodes_count (element_2d e)) with (Q e) in *.
    change (nodes_count (element_2d e)) with (N e) in *.
    fold (oq e). rewrite <- Nat.add_assoc, (Hset e (i * Q e + q) He) by nia.
    destruct (div_mod_unique_add (Q e) i q Hq) as [-> ->].
    by rewrite (list_lookup_total_correct _ _ _ HJ').
Qed.

Lemma X5_derivatives_in_quad_on_the_shifts_of_the_mesh_witness :
  let nodes := [[0; 1; 2; 3]] in
  let element_2d (e : nat) := inputs.bilinear in
  let jacobi_matrices := [((0.5, 0), (0, 0.5))%float] in
  let quad_element_shifts :=
    utils.elements_quadrature_shifts_2d 1 (fun e => qnodes_count (element_2d e)) in
  let quad_nodes_shifts := utils.element_node_shits_quadrature_shifts_2d nodes element_2d in
  Z.of_nat (length jacobi_matrices) = back_I quad_element_shifts
  /\ exists derivatives,
       utils.derivatives_in_quad nodes element_2d quad_element_shifts quad_nodes_shifts
         jacobi_matrices = returned derivatives
       /\ Z.of_nat (length derivatives) = back_I quad_nodes_shifts
       /\ forall e i q,
            e < 1 -> i < nodes_count (element_2d e) -> q < qnodes_count (element_2d e) ->
            exists J,
              jacobi_matrices !! (Z.to_nat (quad_element_shifts !!! e) + q) = Some J
              /\ derivatives
                   !! (Z.to_nat (quad_nodes_shifts !!! e)
                       + i * qnodes_count (element_2d e) + q)
                 = Some (derivative element_2d e i q J).
Proof.
  intros nodes element_2d jacobi_matrices quad_element_shifts quad_nodes_shifts.
  split; [reflexivity|].
  exact (proj2 (X5_derivatives_in_quad_on_the_shifts_of_the_mesh float double
                  double_functions nodes element_2d jacobi_matrices) eq_refl).
Defined.

(** ** Elements the VTK writer has no case for *)

Section save_cells.
Import mesh_container_2d.

(** One turn of the loop of [save_cells]. *)
Definition save_cell (lines : outcome (list (list nat))) (cell : list nat * element_2d_t)
    : outcome (list (list nat)) :=
  let '(element, type) := cell in
  lines ← lines;
  match write_pack type with
  | Some K => returned (lines ++ [length element :: write_element element K])
  | None => thrown domain_error
  end.

Lemma save_cell_thrown exn cells : foldl save_cell (thrown exn) cells = thrown exn.
Proof. induction cells as [|[??] cells IH]; [done|]. exact IH. Qed.

Lemma save_cells_outcome cells : forall lines,
  (Forall (fun cell => is_Some (write_pack cell.2)) cells
   /\ foldl save_cell (returned lines) cells
      = returned (lines ++ ((fun cell =>
                               length cell.1
                               :: write_element cell.1 (default [] (write_pack cell.2)))
                            <$> cells)))
  \/ (Exists (fun cell => write_pack cell.2 = None) cells
      /\ foldl save_cell (returned lines) cells = thrown domain_error).
Proof.
  induction cells as [|[element type] cells IH]; intros lines.
  { left. split; [constructor|]. simpl. by rewrite app_nil_r. }
  cbn [foldl save_cell mbind outcome_bind].
  destruct (write_pack type) as [K|] eqn:HK.
  - destruct (IH (lines ++ [length element :: write_element element K]))
      as [[Hall Hrun]|[Hsome Hrun]].
    + left. split; [constructor; [cbn [snd]; by rewrite HK | done]|].
      rewrite Hrun. cbn [fmap list_fmap fst snd]. rewrite HK. cbn [default from_option id].
      by rewrite <- app_assoc.
    + right. split; [by apply Exists_cons_tl | done].
  - right. split; [by apply Exists_cons_hd|]. apply save_cell_thrown.
Qed.

End save_cells.

(** X6: the CELLS block of [save_as_vtk] throws [domain_error] exactly
    when some element is of a type the [switch] has no case for, and throws
    nothing else; otherwise the line of every element holds its node count
    and then its nodes in the order of the index pack of its type. *)
Theorem X6_save_cells_throws_on_elements_without_a_case :
  forall (elements : list (list nat)) (types : list mesh_container_2d.element_2d_t),
    (forall exn,
       mesh_container_2d.save_cells elements types = thrown exn
       <-> exn = domain_error
           /\ exists e type, e < length elements /\ types !! e = Some type
                             /\ mesh_container_2d.write_pack type = None)
    /\ ((forall e type, e < length elements -> types !! e = Some type ->
           mesh_container_2d.write_pack type <> None) ->
        exists lines,
          mesh_container_2d.save_cells elements types = returned lines
          /\ forall e element type,
               elements !! e = Some element -> types !! e = Some type ->
               exists K,
                 mesh_container_2d.write_pack type = Some K
                 /\ lines !! e
                    = Some (length element :: mesh_container_2d.write_element element K)).
Proof.
  intros elements types.
  change (mesh_container_2d.save_cells elements types)
    with (foldl save_cell (returned []) (zip elements types)).
  assert (Hexists :
    Exists (fun cell => mesh_container_2d.write_pack cell.2 = None) (zip elements types)
    <-> exists e type, e < length elements /\ types !! e = Some type
                       /\ mesh_container_2d.write_pack type = None).
  { rewrite Exists_exists. split.
    - intros ([element type] & (e & He)%list_elem_of_lookup & Hnone).
      apply lookup_zip_with_Some in He as (? & ? & [= <- <-] & Helement & Htype).
      exists e, type. split; [by apply lookup_lt_Some in Helement | done].
    - intros (e & type & He & Htype & Hnone).
      destruct (lookup_lt_is_Some_2 elements e He) as [element Helement].
      exists (element, type). split; [|done].
      apply list_elem_of_lookup. exists e. apply lookup_zip_with_Some. by exists element, type. }
  destruct (save_cells_outcome (zip elements types) []) as [[Hall Hrun]|[Hsome Hrun]];
    rewrite Hrun.
  - split.
    + intros exn. split; [done|]. intros [_ Hbad%Hexists]. exfalso.
      apply Exists_exists in Hbad as (cell & Hin & Hnone).
      rewrite Forall_forall in Hall. destruct (Hall cell Hin) as [K HK]. congruence.
    + intros _. eexists. split; [done|]. intros e element type Helement Htype.
      assert (Hcell : zip elements types !! e = Some (element, type)).
      { apply lookup_zip_with_Some. by exists element, type. }
      rewrite Forall_forall in Hall.
      destruct (Hall (element, type) (list_elem_of_lookup_2 _ _ _ Hcell)) as [K HK].
      exists K. split; [done|]. cbn [app]. rewrite list_lookup_fmap, Hcell.
      cbn [fmap option_fmap option_map fst snd]. cbn [fst snd] in HK. by rewrite HK.
  - split.
    + intros exn. split; [intros [= <-]; split; [done | by apply Hexists] | by intros [-> _]].
    + intros Hall. exfalso. apply Hexists in Hsome as (e & type & He & Htype & Hnone).
      by apply (Hall e type He Htype).
Qed.

(** ** Element blocks that end early or hold an unknown element *)

Section short_blocks.
Import mesh_container_2d specification.

(** The loop of [read_elements_2d] over the elements that are there, when
    more were announced. *)
Lemma read_elements_2d_prefix : forall elements done_elements done_types more rest,
  Forall well_formed_element elements ->
  length done_elements = length done_types ->
  foldl read_elements_2d_step
    (returned (done_elements ++ replicate (length elements + more) [],
               done_types ++ replicate (length elements + more) TRIANGLE,
               {| tokens := concat (su2_element <$> elements) ++ rest;
                  failed := false |}))
    (seq (length done_elements) (length elements))
  = returned (done_elements ++ (stored_element <$> elements) ++ replicate more [],
              done_types ++ (stored_type <$> elements) ++ replicate more TRIANGLE,
              {| tokens := rest; failed := false |}).
Proof.
  induction elements as [|e elements IH]; intros done_elements done_types more rest Hwf Hlen.
  { done. }
  apply Forall_cons in Hwf as [(K & HK & Hnodes) Hwf].
  destruct (read_pack_permutes _ _ HK) as (_ & _ & local & Hlocal & _).
  destruct e as [[type nodes] id]. cbn [fst snd] in *.
  cbn [length seq foldl fmap list_fmap concat plus].
  unfold read_elements_2d_step at 2. cbn [mbind outcome_bind].
  unfold su2_element at 1. cbn [fst snd app read_number tokens failed].
  rewrite Hlocal, HK. rewrite <- !app_assoc.
  rewrite read_element_scatter by done.
  cbn [app read_string tokens failed].
  rewrite !insert_app_r_alt, Hlen, !Nat.sub_diag by lia.
  cbn [replicate insert list_insert].
  rewrite !(cons_middle _ done_elements), !(cons_middle _ done_types), !app_assoc.
  replace (S (length done_types)) with (length (done_elements ++ [scatter K nodes]))
    by (rewrite length_app; simpl; lia).
  rewrite IH; [|done|by rewrite !length_app, Hlen].
  unfold stored_element, stored_type. cbn [fst snd]. rewrite HK, Hlocal.
  by rewrite <- !app_assoc.
Qed.

Lemma read_elements_2d_step_thrown exn (es : list nat) :
  foldl read_elements_2d_step (thrown exn) es = thrown exn.
Proof. induction es as [|e es IH]; [done|]. exact IH. Qed.

Lemma read_pack_None_local type :
  read_pack type = None -> model_to_local_2d type = None.
Proof.
  unfold read_pack, model_to_local_2d. by repeat case_decide.
Qed.

End short_blocks.

(** X7: [read_elements_2d] throws [domain_error] on a block that announces
    more elements than it holds: after the elements that are there, the
    stream ends, or goes on with something that is not a number, or with the
    code of an element the reader has no case for. *)
Theorem X7_read_elements_2d_rejects_short_and_unknown_blocks :
  forall (elements : list (nat * list nat * nat)) (announced : nat)
         (rest : list mesh_container_2d.token),
    Forall specification.well_formed_element elements ->
    length elements < announced ->
    (forall type tail, rest = mesh_container_2d.number type :: tail ->
                       mesh_container_2d.read_pack type = None) ->
    mesh_container_2d.read_elements_2d
      {| mesh_container_2d.tokens :=
           [mesh_container_2d.word "NDIME="; mesh_container_2d.number 2;
            mesh_container_2d.word "NELEM="; mesh_container_2d.number announced]
           ++ concat (specification.su2_element <$> elements) ++ rest;
         mesh_container_2d.failed := false |}
    = thrown domain_error.
Proof.
  intros elements announced rest Hwf Hshort Hrest.
  unfold mesh_container_2d.read_elements_2d.
  cbn [app mesh_container_2d.read_string mesh_container_2d.read_number
       mesh_container_2d.tokens mesh_container_2d.failed].
  replace announced with (length elements + S (announced - S (length elements))) by lia.
  set (more := announced - S (length elements)).
  rewrite seq_app, foldl_app.
  pose proof (read_elements_2d_prefix elements [] [] (S more) rest Hwf eq_refl) as Hloop.
  cbn [app length] in Hloop. rewrite Hloop. cbn [seq foldl plus].
  assert (Hstep : forall elements_2d types,
    mesh_container_2d.read_elements_2d_step
      (returned (elements_2d, types,
                 {| mesh_container_2d.tokens := rest; mesh_container_2d.failed := false |}))
      (length elements)
    = thrown domain_error).
  { intros elements_2d types. unfold mesh_container_2d.read_elements_2d_step.
    cbn [mbind outcome_bind mesh_container_2d.read_number mesh_container_2d.failed
         mesh_container_2d.tokens].
    destruct rest as [|[w|type] tail]; [done|done|].
    rewrite (Hrest type tail eq_refl), (read_pack_None_local _ (Hrest type tail eq_refl)).
    done. }
  rewrite Hstep. apply read_elements_2d_step_thrown.
Qed.

Lemma X7_read_elements_2d_rejects_short_and_unknown_blocks_witness :
  let elements := [(5, [0; 1; 2], 0); (9, [1; 4; 3; 2], 1)] in
  let rest := [mesh_container_2d.number 12; mesh_container_2d.number 7] in
  Forall specification.well_formed_element elements
  /\ mesh_container_2d.read_elements_2d
       {| mesh_container_2d.tokens :=
            [mesh_container_2d.word "NDIME="; mesh_container_2d.number 2;
             mesh_container_2d.word "NELEM="; mesh_container_2d.number 3]
            ++ concat (specification.su2_element <$> elements) ++ rest;
          mesh_container_2d.failed := false |}
     = thrown domain_error.
Proof.
  intros elements rest.
  assert (Hwf : Forall specification.well_formed_element elements).
  { repeat constructor; eexists; (split; [reflexivity | reflexivity]). }
  split; [exact Hwf|].
  apply (X7_read_elements_2d_rejects_short_and_unknown_blocks elements 3 rest Hwf).
  - simpl. lia.
  - intros type tail [= <- _]. reflexivity.
Defined.

(** * The passes of the sparsity portrait *)

(** ** The passes of the indexer, one by one *)

Lemma NoDup_foldl_note cols : forall noted, NoDup noted -> NoDup (foldl note noted cols).
Proof.
  induction cols as [|col cols IH]; intros noted Hnoted; [done|]. simpl. apply IH.
  unfold note. case_bool_decide as Hin; [done|].
  apply NoDup_app. split; [done|]. split; [|apply NoDup_singleton].
  intros x Hx ->%list_elem_of_singleton. done.
Qed.

(** The columns of a row: each once, and they are the columns of the pairs
    of the row that the stencil rules send to [K_inner]. *)
Lemma row_cols_spec inner_nodes P row :
  NoDup (row_cols inner_nodes P row)
  /\ forall col, col ∈ row_cols inner_nodes P row
                 <-> (row, col) ∈ P /\ to_inner inner_nodes (row, col) = true.
Proof.
  unfold row_cols. split; [apply NoDup_foldl_note; constructor|].
  intros col. rewrite elem_of_foldl_note, elem_of_nil. unfold cols_for.
  rewrite list_elem_of_fmap. split.
  - intros [[]|([r c] & -> & [[Hrow Hto] Hin]%list_elem_of_filter)].
    cbn [fst snd] in *. by subst r.
  - intros [Hin Hto]. right. exists (row, col). split; [done|].
    apply list_elem_of_filter. by split.
Qed.

(** X8: run on two matrices fresh from their constructor, on a mesh whose
    elements name existing nodes, the pass [mesh_index<DoF, SHIFTS, Theory>]
    leaves in [K_inner.outerIndexPtr()[r + 1]] the number of distinct
    columns of the row [r]: the columns [col] such that the loops visit the
    pair of the row and [col] and the stencil rules send it to [K_inner].
    A column that comes up several times is counted once. *)
Theorem X8_counting_pass_counts_the_columns_of_each_row :
  forall (T : Type) (ST : Scalar T) (proxy : mesh.mesh_proxy T) (DoF : nat)
         (Theory : theory) (inner_nodes : list bool),
    0 < DoF ->
    length inner_nodes = DoF * mesh.nodes_count_all (mesh.mesh proxy) ->
    (forall node block_col,
       mesh.first_node proxy <= node -> node < mesh.last_node proxy ->
       block_col ∈ block_cols proxy Theory node ->
       block_col < mesh.nodes_count_all (mesh.mesh proxy)) ->
    let rows := DoF * (mesh.last_node proxy - mesh.first_node proxy) in
    let cols := DoF * mesh.nodes_count_all (mesh.mesh proxy) in
    let all :=
      visited proxy DoF Theory
        (seq (mesh.first_node proxy) (mesh.last_node proxy - mesh.first_node proxy)) in
    let K_inner :=
      (finite_element_solver_base.mesh_index proxy DoF SHIFTS Theory
         (Eigen.make rows cols) (Eigen.make rows cols) inner_nodes).1 in
    length (Eigen.outerIndexPtr K_inner) = S rows
    /\ Eigen.outerIndexPtr K_inner !!! 0 = 0
    /\ forall r, r < rows ->
         exists columns,
           NoDup columns
           /\ (forall col, col ∈ columns
                 <-> (DoF * mesh.first_node proxy + r, col) ∈ all
                     /\ to_inner inner_nodes (DoF * mesh.first_node proxy + r, col) = true)
           /\ Eigen.outerIndexPtr K_inner !!! S r = length columns.
Proof.
  intros T ST proxy DoF Theory inner_nodes HDoF Hsize Hvalid rows cols all K_inner.
  subst K_inner. rewrite mesh_index_inner.
  destruct (shifts_pass proxy DoF inner_nodes Theory HDoF Hsize Hvalid cols _ (le_n _))
    as (_ & _ & Hlen & Hzero & Hcount).
  split; [exact Hlen|]. split; [exact Hzero|]. intros r Hr.
  exists (row_cols inner_nodes all (DoF * mesh.first_node proxy + r)).
  destruct (row_cols_spec inner_nodes all (DoF * mesh.first_node proxy + r))
    as [Hnodup Hin].
  split; [done|]. split; [done|]. by apply Hcount.
Qed.

Lemma X8_counting_pass_counts_the_columns_of_each_row_witness :
  let inner_nodes := [false; true; true; false] in
  let K_inner :=
    (finite_element_solver_base.mesh_index inputs.square_proxy 1 SHIFTS LOCAL
       (Eigen.make 4 4) (Eigen.make 4 4) inner_nodes).1 in
  Eigen.outerIndexPtr K_inner = [0; 1; 2; 1; 1]
  /\ forall r, r < 4 ->
       exists columns,
         NoDup columns
         /\ (forall col, col ∈ columns
               <-> (1 * 0 + r, col) ∈ visited inputs.square_proxy 1 LOCAL (seq 0 4)
                   /\ to_inner inner_nodes (1 * 0 + r, col) = true)
         /\ Eigen.outerIndexPtr K_inner !!! S r = length columns.
Proof.
  intros inner_nodes K_inner. split; [reflexivity|].
  refine (proj2 (proj2 (X8_counting_pass_counts_the_columns_of_each_row
            float double inputs.square_proxy 1 LOCAL inner_nodes _ _ _))).
  - simpl. lia.
  - reflexivity.
  - intros node block_col _ _ Hin. vm_compute in Hin.
    repeat (apply elem_of_cons in Hin as [->|Hin]; [simpl; lia|]).
    by apply elem_of_nil in Hin.
Defined.

(** X10: run after the counting pass and [prepare_memory], which size the
    arrays of the two matrices, the pass [mesh_index<DoF, NONZERO, Theory>]
    leaves the outer index array of [K_inner] as [prepare_memory] made it
    and writes in the cells of each row of [K_inner] the columns of the
    row, each once, in the order in which the loops first come to them. *)
Theorem X10_filling_pass_writes_the_columns_of_each_row :
  forall (T : Type) (ST : Scalar T) (proxy : mesh.mesh_proxy T) (DoF : nat)
         (fresh_index : nat -> nat) (fresh_value : nat -> T)
         (Theory : theory) (inner_nodes : list bool),
    0 < DoF ->
    length inner_nodes = DoF * mesh.nodes_count_all (mesh.mesh proxy) ->
    (forall node block_col,
       mesh.first_node proxy <= node -> node < mesh.last_node proxy ->
       block_col ∈ block_cols proxy Theory node ->
       block_col < mesh.nodes_count_all (mesh.mesh proxy)) ->
    let rows := DoF * (mesh.last_node proxy - mesh.first_node proxy) in
    let cols := DoF * mesh.nodes_count_all (mesh.mesh proxy) in
    let all :=
      visited proxy DoF Theory
        (seq (mesh.first_node proxy) (mesh.last_node proxy - mesh.first_node proxy)) in
    let columns r := row_cols inner_nodes all (DoF * mesh.first_node proxy + r) in
    let counted :=
      finite_element_solver_base.mesh_index proxy DoF SHIFTS Theory
        (Eigen.make rows cols) (Eigen.make rows cols) inner_nodes in
    let K_inner :=
      finite_element_solver_base.prepare_memory fresh_index fresh_value counted.1 in
    let K_bound :=
      finite_element_solver_base.prepare_memory fresh_index fresh_value counted.2 in
    let K_inner' :=
      (finite_element_solver_base.mesh_index proxy DoF NONZERO Theory
         K_inner K_bound inner_nodes).1 in
    Eigen.outerIndexPtr K_inner' = Eigen.outerIndexPtr K_inner
    /\ forall r, r < rows ->
         Eigen.row_indices K_inner' r = columns r
         /\ NoDup (columns r)
         /\ forall col, col ∈ columns r
              <-> (DoF * mesh.first_node proxy + r, col) ∈ all
                  /\ to_inner inner_nodes (DoF * mesh.first_node proxy + r, col) = true.
Proof.
  intros T ST proxy DoF fresh_index fresh_value Theory inner_nodes HDoF Hsize Hvalid rows
         cols all columns counted K_inner K_bound K_inner'.
  assert (Hcounted : Eigen.rows counted.1 = rows
            /\ length (Eigen.outerIndexPtr counted.1) = S rows
            /\ forall r, r < rows -> Eigen.outerIndexPtr counted.1 !!! S r = length (columns r)).
  { subst counted. rewrite mesh_index_inner.
    destruct (shifts_pass proxy DoF inner_nodes Theory HDoF Hsize Hvalid cols _ (le_n _))
      as (_ & _ & Hlen & _ & Hcount).
    split; [|by split]. by rewrite rows_half_pass. }
  destruct Hcounted as (Hrows1 & Hlen1 & Hcounts).
  destruct (prepare_memory_spec proxy DoF inner_nodes HDoF Hsize fresh_index fresh_value
              counted.1 rows Hrows1 Hlen1)
    as (_ & Hlen2 & _ & Hsteps & Hcells).
  fold K_inner in Hlen2, Hsteps, Hcells.
  assert (Hstep : forall r, r < rows ->
            Eigen.outerIndexPtr K_inner !!! S r
            = Eigen.outerIndexPtr K_inner !!! r + length (columns r)).
  { intros r Hr. rewrite Hsteps by done. by rewrite Hcounts. }
  subst K_inner'. rewrite mesh_index_inner.
  destruct (nonzero_pass proxy DoF inner_nodes Theory HDoF Hsize Hvalid
              (Eigen.outerIndexPtr K_inner) all Hlen2 Hstep eq_refl K_inner _ eq_refl
              Hcells (le_n _)) as (_ & _ & Houter & Hlength & Hwrite).
  split; [exact Houter|]. intros r Hr.
  destruct (row_cols_spec inner_nodes all (DoF * mesh.first_node proxy + r))
    as [Hnodup Hin].
  split; [|by split].
  unfold Eigen.row_indices. rewrite Houter.
  apply list_eq. intros k. rewrite (Hstep r Hr).
  replace (Eigen.outerIndexPtr K_inner !!! r + length (columns r)
           - Eigen.outerIndexPtr K_inner !!! r) with (length (columns r)) by lia.
  destruct (decide (k < length (columns r))) as [Hk|Hk].
  - rewrite lookup_take_lt, lookup_drop by done. by apply Hwrite.
  - rewrite lookup_take_ge by lia. symmetry. apply lookup_ge_None. lia.
Qed.

Lemma X10_filling_pass_writes_the_columns_of_each_row_witness :
  let inner_nodes := [false; true; true; false] in
  let counted :=
    finite_element_solver_base.mesh_index inputs.square_proxy 1 SHIFTS LOCAL
      (Eigen.make 4 4) (Eigen.make 4 4) inner_nodes in
  let K_inner : Eigen.SparseMatrix float :=
    finite_element_solver_base.prepare_memory (fun _ => 9) (fun _ => 1%float) counted.1 in
  let K_bound :=
    finite_element_solver_base.prepare_memory (fun _ => 9) (fun _ => 1%float) counted.2 in
  let K_inner' :=
    (finite_element_solver_base.mesh_index inputs.square_proxy 1 NONZERO LOCAL
       K_inner K_bound inner_nodes).1 in
  (Eigen.outerIndexPtr K_inner = [0; 1; 3; 4; 5]
   /\ Eigen.innerIndexPtr K_inner = [9; 9; 9; 9; 9]
   /\ Eigen.outerIndexPtr K_bound = [0; 1; 3; 5; 6]
   /\ length (Eigen.innerIndexPtr K_bound) = 6
   /\ length (Eigen.valuePtr K_bound) = 6)
  /\ Eigen.innerIndexPtr K_inner' = [0; 1; 2; 2; 3]
  /\ Eigen.outerIndexPtr K_inner' = Eigen.outerIndexPtr K_inner
  /\ forall r, r < 4 ->
       Eigen.row_indices K_inner' r
       = row_cols inner_nodes (visited inputs.square_proxy 1 LOCAL (seq 0 4)) (1 * 0 + r).
Proof.
  intros inner_nodes counted K_inner K_bound K_inner'.
  split; [repeat split; reflexivity|]. split; [reflexivity|].
  assert (Hspec := X10_filling_pass_writes_the_columns_of_each_row
            float double inputs.square_proxy 1 (fun _ => 9) (fun _ => 1%float) LOCAL
            inner_nodes).
  destruct Hspec as [Houter Hrows].
  - simpl. lia.
  - reflexivity.
  - intros node block_col _ _ Hin. vm_compute in Hin.
    repeat (apply elem_of_cons in Hin as [->|Hin]; [simpl; lia|]).
    by apply elem_of_nil in Hin.
  - split; [exact Houter|]. intros r Hr. exact (proj1 (Hrows r Hr)).
Defined.

(** ** Counts into offsets, and sorted rows *)

(** The loop [outer[i+1] += outer[i]] of the two [prepare_memory]. *)
Lemma prefix_sums_loop (outer : list nat) (n : nat) :
  length outer = S n ->
  let outer' := foldl (fun o i => <[S i := o !!! S i + o !!! i]> o) outer (seq 0 n) in
  length outer' = S n
  /\ forall r, r <= n -> outer' !!! r = sum_list (take (S r) outer).
Proof.
  intros Hlen.
  assert (Hgen : forall k, k <= n ->
    let o := foldl (fun o i => <[S i := o !!! S i + o !!! i]> o) outer (seq 0 k) in
    length o = S n
    /\ (forall r, r <= k -> o !!! r = sum_list (take (S r) outer))
    /\ (forall j, k < j -> o !!! j = outer !!! j)).
  { induction k as [|k IH]; intros Hk.
    { cbn [seq foldl]. split; [done|]. split; [|done]. intros r Hr.
      assert (r = 0) as -> by lia. destruct outer as [|x outer']; [done|].
      simpl. rewrite ?take_0. simpl. lia. }
    destruct (IH ltac:(lia)) as (Hl & Hdone & Hrest).
    rewrite seq_S, foldl_app. cbn [foldl plus].
    split; [by rewrite length_insert|]. split.
    - intros r Hr. destruct (decide (r = S k)) as [->|Hne].
      + rewrite list_lookup_total_insert_eq by lia.
        rewrite (Hrest (S k)) by lia. rewrite (Hdone k) by lia.
        destruct (lookup_lt_is_Some_2 outer (S k) ltac:(lia)) as [x Hx].
        rewrite (take_S_r _ _ _ Hx), sum_list_with_app.
        rewrite (list_lookup_total_correct _ _ _ Hx). simpl. lia.
      + rewrite list_lookup_total_insert_ne by lia. apply Hdone. lia.
    - intros j Hj. rewrite list_lookup_total_insert_ne by lia. apply Hrest. lia. }
  destruct (Hgen n (le_n _)) as (Hl & Hdone & _). by split.
Qed.

Lemma length_Eigen_resize {A} (fresh : nat -> A) (n : nat) (l : list A) :
  length (Eigen.resize fresh n l) = n.
Proof.
  unfold Eigen.resize. rewrite length_app, length_take, length_fmap, length_seq. lia.
Qed.

Lemma lookup_resize {A} (fresh : nat -> A) (n : nat) (l : list A) (p : nat) :
  p < n -> p < length l -> Eigen.resize fresh n l !! p = l !! p.
Proof.
  intros Hn Hl. unfold Eigen.resize.
  rewrite lookup_app_l by (rewrite length_take; lia). by apply lookup_take_lt.
Qed.

(** What [prepare_memory] makes of the matrix [K]: the matrix [K']. *)
Definition offsets_of_counts {T : Type} (K K' : Eigen.SparseMatrix T) : Prop :=
  let n := Eigen.rows K in
  Eigen.rows K' = n /\ Eigen.cols K' = Eigen.cols K
  /\ length (Eigen.outerIndexPtr K') = S n
  /\ (forall r, r <= n ->
        Eigen.outerIndexPtr K' !!! r = sum_list (take (S r) (Eigen.outerIndexPtr K)))
  /\ length (Eigen.innerIndexPtr K') = Eigen.outerIndexPtr K' !!! n
  /\ length (Eigen.valuePtr K') = Eigen.outerIndexPtr K' !!! n
  /\ (forall p, p < Eigen.outerIndexPtr K' !!! n ->
        (p < length (Eigen.innerIndexPtr K) ->
         Eigen.innerIndexPtr K' !! p = Eigen.innerIndexPtr K !! p)
        /\ (p < length (Eigen.valuePtr K) ->
            Eigen.valuePtr K' !! p = Eigen.valuePtr K !! p)).

(** X9: [prepare_memory], of the two-dimensional solver as of the
    one-dimensional one, replaces every entry of the outer index array by
    the sum of the entries up to it, so that counts kept one cell further
    become the offsets of the rows; it sizes the index and value arrays to
    the last offset and keeps the cells they held. *)
Theorem X9_prepare_memory_turns_counts_into_offsets :
  forall (T : Type) (fresh_index : nat -> nat) (fresh_value : nat -> T)
         (K : Eigen.SparseMatrix T),
    length (Eigen.outerIndexPtr K) = S (Eigen.rows K) ->
    offsets_of_counts K (finite_element_solver_base.prepare_memory fresh_index fresh_value K)
    /\ offsets_of_counts K
         (finite_element_solver_base_1d.prepare_memory fresh_index fresh_value K).
Proof.
  intros T fresh_index fresh_value K Hlen.
  destruct (prefix_sums_loop (Eigen.outerIndexPtr K) (Eigen.rows K) Hlen)
    as [Hlength Hsums].
  assert (Hspec : offsets_of_counts K
            (finite_element_solver_base.prepare_memory fresh_index fresh_value K)).
  { unfold offsets_of_counts, finite_element_solver_base.prepare_memory.
    cbn [Eigen.rows Eigen.cols Eigen.outerIndexPtr Eigen.innerIndexPtr Eigen.valuePtr].
    split; [done|]. split; [done|]. split; [done|]. split; [done|].
    split; [apply length_Eigen_resize|]. split; [apply length_Eigen_resize|].
    intros p Hp. split; intros Hp'; by apply lookup_resize. }
  split; exact Hspec.
Qed.

Lemma X9_prepare_memory_turns_counts_into_offsets_witness :
  let K : Eigen.SparseMatrix nat :=
    Eigen.set_outer (Eigen.make 3 3) [0; 2; 1; 3] in
  let K' := finite_element_solver_base.prepare_memory (fun _ => 7) (fun _ => 7) K in
  Eigen.outerIndexPtr K' = [0; 2; 3; 6]
  /\ length (Eigen.innerIndexPtr K') = 6
  /\ offsets_of_counts K K'.
Proof.
  intros K K'. split; [reflexivity|]. split; [reflexivity|].
  exact (proj1 (X9_prepare_memory_turns_counts_into_offsets nat (fun _ => 7) (fun _ => 7)
                  K eq_refl)).
Defined.

(** [std::sort] on a range leaves the vector outside the range alone. *)
Lemma sort_range_length a b v :
  a <= b -> b <= length v ->
  length (finite_element_solver_base.sort_range a b v) = length v.
Proof.
  intros Hab Hb. unfold finite_element_solver_base.sort_range.
  rewrite !length_app, (Permutation_length (merge_sort_Permutation le _)).
  rewrite !length_take, !length_drop. lia.
Qed.

Lemma sort_range_outside a b v p :
  a <= b -> b <= length v -> p < a \/ b <= p ->
  finite_element_solver_base.sort_range a b v !! p = v !! p.
Proof.
  intros Hab Hb Hp. unfold finite_element_solver_base.sort_range.
  assert (Hsorted : length (merge_sort le (take (b - a) (drop a v))) = b - a).
  { rewrite (Permutation_length (merge_sort_Permutation le _)).
    rewrite length_take, length_drop. lia. }
  destruct Hp as [Hp|Hp].
  - rewrite lookup_app_l by (rewrite length_take; lia). by rewrite lookup_take_lt.
  - rewrite lookup_app_r by (rewrite length_take; lia).
    rewrite lookup_app_r by (rewrite Hsorted, length_take; lia).
    rewrite Hsorted, length_take, lookup_drop. f_equal. lia.
Qed.

Lemma sort_range_cells_same a b v :
  a <= b -> b <= length v ->
  cells a b (finite_element_solver_base.sort_range a b v) = merge_sort le (cells a b v).
Proof.
  intros Hab Hb. unfold cells at 1, finite_element_solver_base.sort_range.
  rewrite drop_app_length' by (rewrite length_take; lia).
  rewrite take_app_length'; [done|].
  unfold cells. rewrite (Permutation_length (merge_sort_Permutation le _)).
  rewrite length_take, length_drop. lia.
Qed.

Lemma cells_lookup a b v k :
  cells a b v !! k = if decide (k < b - a) then v !! (a + k) else None.
Proof.
  unfold cells. destruct (decide (k < b - a)).
  - by rewrite lookup_take_lt, lookup_drop.
  - by rewrite lookup_take_ge by lia.
Qed.

Lemma sort_range_cells_other a b a' b' v :
  a <= b -> b <= length v -> b' <= a \/ b <= a' ->
  cells a' b' (finite_element_solver_base.sort_range a b v) = cells a' b' v.
Proof.
  intros Hab Hb Hother. apply list_eq. intros k. rewrite !cells_lookup.
  destruct (decide (k < b' - a')); [|done].
  apply sort_range_outside; [done|done|lia].
Qed.

(** The loop of [sort_indices] row by row. *)
Lemma sort_indices_rows {T : Type} (K : Eigen.SparseMatrix T) :
  (forall r r', r <= r' -> r' <= Eigen.rows K ->
     Eigen.outerIndexPtr K !!! r <= Eigen.outerIndexPtr K !!! r') ->
  Eigen.outerIndexPtr K !!! Eigen.rows K <= length (Eigen.innerIndexPtr K) ->
  let K' := finite_element_solver_base.sort_indices K in
  Eigen.rows K' = Eigen.rows K /\ Eigen.cols K' = Eigen.cols K
  /\ Eigen.outerIndexPtr K' = Eigen.outerIndexPtr K
  /\ Eigen.valuePtr K' = Eigen.valuePtr K
  /\ length (Eigen.innerIndexPtr K') = length (Eigen.innerIndexPtr K)
  /\ forall r, r < Eigen.rows K ->
       Eigen.row_indices K' r = merge_sort le (Eigen.row_indices K r).
Proof.
  intros Hmono Hlen K'. subst K'. unfold finite_element_solver_base.sort_indices.
  set (n := Eigen.rows K) in *. set (O := Eigen.outerIndexPtr K) in *.
  assert (Hgen : forall k, k <= n ->
    let Kk :=
      foldl (fun K i =>
               Eigen.set_inner K
                 (finite_element_solver_base.sort_range
                    (Eigen.outerIndexPtr K !!! i) (Eigen.outerIndexPtr K !!! S i)
                    (Eigen.innerIndexPtr K)))
            K (seq 0 k) in
    Eigen.rows Kk = n /\ Eigen.cols Kk = Eigen.cols K /\ Eigen.outerIndexPtr Kk = O
    /\ Eigen.valuePtr Kk = Eigen.valuePtr K
    /\ length (Eigen.innerIndexPtr Kk) = length (Eigen.innerIndexPtr K)
    /\ (forall r, r < k ->
          cells (O !!! r) (O !!! S r) (Eigen.innerIndexPtr Kk)
          = merge_sort le (cells (O !!! r) (O !!! S r) (Eigen.innerIndexPtr K)))
    /\ (forall r, k <= r -> r < n ->
          cells (O !!! r) (O !!! S r) (Eigen.innerIndexPtr Kk)
          = cells (O !!! r) (O !!! S r) (Eigen.innerIndexPtr K))).
  { induction k as [|k IH]; intros Hk.
    { cbn [seq foldl]. repeat (split; [done|]). split; [|done]. intros r Hr. lia. }
    destruct (IH ltac:(lia)) as (Hr & Hc & Ho & Hv & Hl & Hdone & Hrest).
    rewrite seq_S, foldl_app. cbn [foldl plus].
    set (Kk := foldl _ K (seq 0 k)) in *.
    cbn [Eigen.set_inner Eigen.rows Eigen.cols Eigen.outerIndexPtr Eigen.innerIndexPtr
         Eigen.valuePtr].
    rewrite Ho.
    pose proof (Hmono k (S k) ltac:(lia) ltac:(lia)) as Hab.
    pose proof (Hmono (S k) n ltac:(lia) ltac:(lia)) as Hbn.
    split; [done|]. split; [done|]. split; [done|]. split; [done|].
    split; [rewrite sort_range_length; [done|done|lia]|]. split.
    - intros r Hr'. destruct (decide (r = k)) as [->|Hne].
      + rewrite sort_range_cells_same by lia. by rewrite Hrest by lia.
      + pose proof (Hmono (S r) k ltac:(lia) ltac:(lia)).
        rewrite sort_range_cells_other by lia. apply Hdone. lia.
    - intros r Hr1 Hr2. pose proof (Hmono (S k) r ltac:(lia) ltac:(lia)).
      rewrite sort_range_cells_other by lia. apply Hrest; lia. }
  destruct (Hgen n (le_n _)) as (Hr & Hc & Ho & Hv & Hl & Hdone & _).
  repeat (split; [done|]). intros r Hr'. unfold Eigen.row_indices. rewrite Ho.
  by apply Hdone.
Qed.

(** X11: on a matrix whose outer index array is ascending and ends inside
    the index array, [sort_indices] leaves every row with the columns it
    had, in ascending order, and changes nothing else: the dimensions, the
    outer index array and the values stay as they were (the values do not
    follow their columns). *)
Theorem X11_sort_indices_sorts_each_row_and_nothing_else :
  forall (T : Type) (K : Eigen.SparseMatrix T),
    (forall r r', r <= r' -> r' <= Eigen.rows K ->
       Eigen.outerIndexPtr K !!! r <= Eigen.outerIndexPtr K !!! r') ->
    Eigen.outerIndexPtr K !!! Eigen.rows K <= length (Eigen.innerIndexPtr K) ->
    let K' := finite_element_solver_base.sort_indices K in
    Eigen.rows K' = Eigen.rows K /\ Eigen.cols K' = Eigen.cols K
    /\ Eigen.outerIndexPtr K' = Eigen.outerIndexPtr K
    /\ Eigen.valuePtr K' = Eigen.valuePtr K
    /\ forall r, r < Eigen.rows K ->
         Sorted le (Eigen.row_indices K' r)
         /\ Eigen.row_indices K' r ≡ₚ Eigen.row_indices K r.
Proof.
  intros T K Hmono Hlen K'.
  destruct (sort_indices_rows K Hmono Hlen) as (Hr & Hc & Ho & Hv & _ & Hrows).
  fold K' in Hr, Hc, Ho, Hv, Hrows. repeat (split; [done|]).
  intros r Hr'. rewrite (Hrows r Hr'). split.
  - apply Sorted_merge_sort. apply _.
  - apply merge_sort_Permutation.
Qed.

Lemma X11_sort_indices_sorts_each_row_and_nothing_else_witness :
  let K : Eigen.SparseMatrix nat :=
    {| Eigen.rows := 2; Eigen.cols := 6; Eigen.outerIndexPtr := [0; 3; 5];
       Eigen.innerIndexPtr := [4; 0; 2; 5; 1]; Eigen.valuePtr := [10; 11; 12; 13; 14] |} in
  let K' := finite_element_solver_base.sort_indices K in
  Eigen.innerIndexPtr K' = [0; 2; 4; 1; 5]
  /\ Eigen.valuePtr K' = [10; 11; 12; 13; 14]
  /\ forall r, r < 2 ->
       Sorted le (Eigen.row_indices K' r)
       /\ Eigen.row_indices K' r ≡ₚ Eigen.row_indices K r.
Proof.
  intros K K'. split; [reflexivity|]. split; [reflexivity|].
  refine (proj2 (proj2 (proj2 (proj2
            (X11_sort_indices_sorts_each_row_and_nothing_else nat K _ _))))).
  - intros r r' Hle Hr'. destruct r as [|[|[|r]]], r' as [|[|[|r']]]; simpl in *; lia.
  - simpl. lia.
Defined.

(** * Boundary conditions of the two-dimensional solver *)

(** ** Conditions of the first kind in the two-dimensional solver *)

Section first_kind.
Context {T : Type} `{!Scalar T}.
Variable proxy : mesh.mesh_proxy T.
Variable DoF : nat.
Variable bounds_cond : list (boundary_condition T).

(** The triples [(b, el, i)] that [boundary_nodes_run] hands to its
    callback, in order. *)
Definition boundary_visits : list (nat * nat * nat) :=
  b ← seq 0 (mesh.boundary_groups_count (mesh.mesh proxy));
  el ← seq 0 (mesh.elements_count (mesh.mesh proxy) b);
  i ← seq 0 (mesh.nodes_count_1d (mesh.mesh proxy) b el);
  [(b, el, i)].

Lemma boundary_nodes_run_visits {S : Type} (callback : S -> nat -> nat -> nat -> S) (s : S) :
  finite_element_solver_base.boundary_nodes_run proxy callback s
  = foldl (fun s v => callback s v.1.1 v.1.2 v.2) s boundary_visits.
Proof.
  unfold finite_element_solver_base.boundary_nodes_run, boundary_visits.
  rewrite foldl_bind. apply foldl_ext_in. intros a b _.
  rewrite foldl_bind. apply foldl_ext_in. intros a' el _.
  by rewrite foldl_bind.
Qed.

Lemma elem_of_boundary_visits b el i :
  (b, el, i) ∈ boundary_visits
  <-> b < mesh.boundary_groups_count (mesh.mesh proxy)
      /\ el < mesh.elements_count (mesh.mesh proxy) b
      /\ i < mesh.nodes_count_1d (mesh.mesh proxy) b el.
Proof.
  unfold boundary_visits. rewrite list_elem_of_bind. split.
  - intros (b' & (el' & (i' & [= -> -> ->]%list_elem_of_singleton
                            & Hi%elem_of_seq)%list_elem_of_bind
                      & Hel%elem_of_seq)%list_elem_of_bind & Hb%elem_of_seq).
    lia.
  - intros (Hb & Hel & Hi). exists b. split; [|apply elem_of_seq; lia].
    apply list_elem_of_bind. exists el. split; [|apply elem_of_seq; lia].
    apply list_elem_of_bind. exists i. split; [|apply elem_of_seq; lia].
    by apply list_elem_of_singleton.
Qed.

Lemma first_kind_value_keeps (x : list T) (b el i node : nat) :
  eqb (x !!! node) zero = false ->
  finite_element_solver_base.first_kind_value proxy DoF bounds_cond x b el i !!! node
  = x !!! node.
Proof.
  intros Hnode. unfold finite_element_solver_base.first_kind_value.
  destruct (bounds_cond !! b) as [bc|]; [|reflexivity].
  apply (foldl_invariant (fun x' => x' !!! node = x !!! node)); [reflexivity|].
  intros x' comp Hx'. destruct (decide (type bc comp = FIRST_KIND)); [|done].
  destruct (eqb (x' !!! _) zero) eqn:Hzero; [|done].
  rewrite list_lookup_total_insert_ne; [done|].
  intros Heq. rewrite Heq, Hx', Hnode in Hzero. done.
Qed.

End first_kind.

(** X12: while [boundary_condition_first_kind] collects the prescribed
    values, an entry of [x] that does not compare equal to zero is never
    written again: whatever groups come later, the node keeps the value it
    has. *)
Theorem X12_first_kind_value_that_is_not_zero_is_kept :
  forall (T : Type) (ST : Scalar T) (proxy : mesh.mesh_proxy T) (DoF : nat)
         (bounds_cond : list (boundary_condition T)) (x : list T) (node : nat),
    eqb (x !!! node) zero = false ->
    finite_element_solver_base.boundary_nodes_run proxy
      (finite_element_solver_base.first_kind_value proxy DoF bounds_cond) x !!! node
    = x !!! node.
Proof.
  intros T ST proxy DoF bounds_cond x node Hnode.
  rewrite boundary_nodes_run_visits.
  apply (foldl_invariant (fun x' => x' !!! node = x !!! node)); [done|].
  intros x' v Hx'. rewrite first_kind_value_keeps; [done|]. by rewrite Hx'.
Qed.

Lemma X12_first_kind_value_that_is_not_zero_is_kept_witness :
  let x := [0; 3; 0; 0]%float in
  eqb (x !!! 1) zero = false
  /\ finite_element_solver_base.boundary_nodes_run inputs.square_proxy
       (finite_element_solver_base.first_kind_value inputs.square_proxy 1
          inputs.cold_bottom_hot_right) x !!! 1
     = x !!! 1.
Proof.
  intros x. split; [reflexivity|].
  exact (X12_first_kind_value_that_is_not_zero_is_kept float double inputs.square_proxy 1
           inputs.cold_bottom_hot_right x 1 eq_refl).
Defined.

(** Writes whose value depends on the cell only: a cell written at least
    once holds the value of the cell, the other cells are as before. *)
Lemma foldl_writes {A V : Type} (cond : V -> bool) (pos : V -> nat) (g : nat -> A)
    (l : list V) (f : list A) :
  let f' := foldl (fun f v => if cond v then <[pos v := g (pos v)]> f else f) f l in
  length f' = length f
  /\ (forall v, v ∈ l -> cond v = true -> pos v < length f ->
        f' !! pos v = Some (g (pos v)))
  /\ (forall p, (forall v, v ∈ l -> cond v = true -> pos v <> p) -> f' !! p = f !! p).
Proof.
  induction l as [|v l IH] using rev_ind.
  { cbn [foldl]. split; [done|]. split; [|done]. by intros v Hv%elem_of_nil. }
  destruct IH as (Hlen & Hhit & Hmiss). rewrite foldl_app. cbn [foldl].
  set (F := foldl _ f l) in *. split; [|split].
  - destruct (cond v); [|done]. by rewrite length_insert.
  - intros w [Hw| ->%list_elem_of_singleton]%elem_of_app Hcond Hpos.
    + destruct (cond v) eqn:Hv; [|by apply Hhit].
      destruct (decide (pos v = pos w)) as [Heq|Hne].
      * rewrite Heq. apply list_lookup_insert_eq. lia.
      * rewrite list_lookup_insert_ne by done. by apply Hhit.
    + rewrite Hcond. apply list_lookup_insert_eq. lia.
  - intros p Hp. destruct (cond v) eqn:Hv.
    + rewrite list_lookup_insert_ne.
      * apply Hmiss. intros w Hw. apply Hp. apply elem_of_app. by left.
      * apply Hp; [|done]. apply elem_of_app. right. by apply list_elem_of_singleton.
    + apply Hmiss. intros w Hw. apply Hp. apply elem_of_app. by left.
Qed.

(** X13: [boundary_condition_first_kind] keeps the size of [f].  Among the
    rows of this rank, the row of a degree of freedom that lies on a boundary
    element of a group whose condition is of the first kind for its
    component ends as the entry of the vector [x] of the prescribed values
    for that degree of freedom; every other row ends as the entry of
    [f - K_bound * x]. *)
Theorem X13_first_kind_rows_of_the_right_part_hold_the_prescribed_values :
  forall (T : Type) (ST : Scalar T) (proxy : mesh.mesh_proxy T) (DoF : nat)
         (f : list T) (bounds_cond : list (boundary_condition T))
         (K_bound : Eigen.SparseMatrix T),
    let x := finite_element_solver_base.first_kind_values proxy DoF bounds_cond K_bound in
    let f' :=
      finite_element_solver_base.boundary_condition_first_kind proxy DoF f bounds_cond
        K_bound in
    let first := DoF * mesh.first_node proxy in
    let first_kind (node : nat) : Prop :=
      exists b el i comp bc,
        b < mesh.boundary_groups_count (mesh.mesh proxy)
        /\ el < mesh.elements_count (mesh.mesh proxy) b
        /\ i < mesh.nodes_count_1d (mesh.mesh proxy) b el
        /\ comp < DoF
        /\ bounds_cond !! b = Some bc /\ type bc comp = FIRST_KIND
        /\ node = DoF * mesh.node_number_1d (mesh.mesh proxy) b el i + comp in
    length f' = length f
    /\ forall r, r < length f -> first + r < DoF * mesh.last_node proxy ->
         (first_kind (first + r) -> f' !! r = Some (x !!! (first + r)))
         /\ (~ first_kind (first + r) ->
             f' !! r = Some (sub (f !!! r) (finite_element_solver_base.row_times K_bound x r))).
Proof.
  intros T ST proxy DoF f bounds_cond K_bound x f' first first_kind.
  subst f'. unfold finite_element_solver_base.boundary_condition_first_kind. fold x.
  set (f1 := imap (fun r fr => sub fr (finite_element_solver_base.row_times K_bound x r)) f).
  rewrite boundary_nodes_run_visits.
  set (node := fun (v : nat * nat * nat * nat) =>
         DoF * mesh.node_number_1d (mesh.mesh proxy) v.1.1.1 v.1.1.2 v.1.2 + v.2).
  set (cond := fun (v : nat * nat * nat * nat) =>
         match bounds_cond !! v.1.1.1 with
         | Some bc =>
             bool_decide (type bc v.2 = FIRST_KIND)
             && (bool_decide (first <= node v)
                 && bool_decide (node v < DoF * mesh.last_node proxy))
         | None => false
         end).
  rewrite (foldl_ext_in _
    (fun f v =>
       foldl (fun f vc =>
                if cond vc then <[node vc - first := x !!! (node vc - first + first)]> f
                else f)
             f ((fun comp => (v, comp)) <$> seq 0 DoF))).
  2:{ intros a [[b el] i] _. cbn [fst snd].
      unfold finite_element_solver_base.first_kind_row. rewrite foldl_fmap.
      destruct (bounds_cond !! b) as [bc|] eqn:Hbc.
      - apply foldl_ext_in. intros a' comp _. unfold cond, node. cbn [fst snd].
        rewrite Hbc. fold first.
        destruct (decide (type bc comp = FIRST_KIND)) as [Hkind|Hkind].
        + rewrite (bool_decide_eq_true_2 _ Hkind). cbn [andb].
          destruct (bool_decide (first <= _)) eqn:Hlow; [|done].
          apply bool_decide_eq_true in Hlow. cbn [andb].
          destruct (bool_decide (_ < _)); [|done].
          do 2 f_equal. lia.
        + by rewrite (bool_decide_eq_false_2 _ Hkind).
      - symmetry. apply (foldl_invariant (fun f' => f' = a)); [done|].
        intros f' comp ->. unfold cond. cbn [fst snd]. by rewrite Hbc. }
  rewrite <- (foldl_bind
    (fun f vc => if cond vc then <[node vc - first := x !!! (node vc - first + first)]> f
                 else f)
    (fun v => (fun comp => (v, comp)) <$> seq 0 DoF)).
  set (visits := boundary_visits proxy ≫= _).
  destruct (foldl_writes cond (fun vc => node vc - first) (fun p => x !!! (p + first))
              visits f1) as (Hlen & Hhit & Hmiss).
  assert (Hf1 : length f1 = length f) by (unfold f1; by rewrite length_imap).
  split; [by rewrite Hlen|].
  assert (Hvisit : forall vc, vc ∈ visits /\ cond vc = true
            <-> first_kind (node vc) /\ first <= node vc
                /\ node vc < DoF * mesh.last_node proxy
                /\ exists b el i comp, vc = (b, el, i, comp)
                     /\ b < mesh.boundary_groups_count (mesh.mesh proxy)
                     /\ el < mesh.elements_count (mesh.mesh proxy) b
                     /\ i < mesh.nodes_count_1d (mesh.mesh proxy) b el
                     /\ comp < DoF
                     /\ exists bc, bounds_cond !! b = Some bc /\ type bc comp = FIRST_KIND).
  { intros [[[b el] i] comp]. unfold visits. rewrite list_elem_of_bind. unfold cond.
    cbn [fst snd]. split.
    - intros [(v & (comp' & [= <- ->] & Hcomp%elem_of_seq)%list_elem_of_fmap
                 & Hv%elem_of_boundary_visits) Hcond].
      destruct (bounds_cond !! b) as [bc|] eqn:Hbc; [|done].
      apply andb_true_iff in Hcond as [Hkind%bool_decide_eq_true Hrange].
      apply andb_true_iff in Hrange
        as [Hlow%bool_decide_eq_true Hhigh%bool_decide_eq_true].
      destruct Hv as (Hb & Hel & Hi).
      split; [exists b, el, i, comp', bc; repeat split; (done || lia)|].
      split; [done|]. split; [done|].
      exists b, el, i, comp'. repeat split; try (done || lia). by exists bc.
    - intros (_ & Hlow & Hhigh & b' & el' & i' & comp' & [= -> -> -> ->]
                & Hb & Hel & Hi & Hcomp & bc & Hbc & Hkind).
      split.
      + exists (b', el', i'). split.
        * apply list_elem_of_fmap. exists comp'. split; [done|]. apply elem_of_seq. lia.
        * by apply elem_of_boundary_visits.
      + rewrite Hbc, (bool_decide_eq_true_2 _ Hkind), (bool_decide_eq_true_2 _ Hlow),
          (bool_decide_eq_true_2 _ Hhigh). done. }
  intros r Hr Hhigh. split.
  - intros (b & el & i & comp & bc & Hb & Hel & Hi & Hcomp & Hbc & Hkind & Hnode).
    assert (Hvc : (b, el, i, comp) ∈ visits /\ cond (b, el, i, comp) = true).
    { apply Hvisit. unfold node. cbn [fst snd]. rewrite <- Hnode.
      split; [exists b, el, i, comp, bc; repeat split; done|].
      split; [lia|]. split; [done|].
      exists b, el, i, comp. repeat split; try done. by exists bc. }
    destruct Hvc as [Hin Hcond].
    pose proof (Hhit _ Hin Hcond) as Hget. cbn beta in Hget.
    unfold node in Hget. cbn [fst snd] in Hget. rewrite <- Hnode in Hget.
    replace (first + r - first) with r in Hget by lia.
    replace (r + first) with (first + r) in Hget by lia. apply Hget. lia.
  - intros Hnot. rewrite Hmiss.
    + unfold f1. rewrite list_lookup_imap.
      destruct (lookup_lt_is_Some_2 f r Hr) as [fr Hfr].
      by rewrite Hfr, (list_lookup_total_correct _ _ _ Hfr).
    + intros vc Hin Hcond Hpos.
      destruct (proj1 (Hvisit vc) (conj Hin Hcond)) as (Hkind & Hlow & _).
      apply Hnot. replace (first + r) with (node vc) by lia. done.
Qed.

(** ** Loads of the second kind *)

Lemma foldl_invariant_in {A B : Type} (P : A -> Prop) (f : A -> B -> A) (l : list B) :
  (forall a x, x ∈ l -> P a -> P (f a x)) -> forall a, P a -> P (foldl f a l).
Proof.
  induction l as [|x l IH]; intros Hstep a Ha; [done|]. cbn [foldl].
  apply IH.
  - intros a' y Hy. apply Hstep. by apply list_elem_of_further.
  - apply Hstep; [apply list_elem_of_here | done].
Qed.

(** X14: [integrate_boundary_condition_second_kind] keeps the size of [f]
    and changes no row but those of the degrees of freedom that lie on a
    boundary element of a group whose condition is of the second kind for
    their component; when every condition is of the first kind it returns
    [f] as it was. *)
Theorem X14_second_kind_loads_touch_only_their_rows :
  forall (T : Type) (ST : Scalar T) (FT : Scalar_functions T) (proxy : mesh.mesh_proxy T)
         (DoF : nat) (quad_coord_1d jacobi_matrix_1d : nat -> nat -> nat -> T * T)
         (element_1d : nat -> nat -> element_1d_integrate T)
         (f : list T) (bounds_cond : list (boundary_condition T)),
    let f' :=
      finite_element_solver_base.integrate_boundary_condition_second_kind proxy DoF
        quad_coord_1d jacobi_matrix_1d element_1d f bounds_cond in
    let first := DoF * mesh.first_node proxy in
    let second_kind (node : nat) : Prop :=
      exists b e i comp bc,
        bounds_cond !! b = Some bc /\ comp < DoF /\ type bc comp = SECOND_KIND
        /\ e < mesh.elements_count (mesh.mesh proxy) b
        /\ i < nodes_count (element_1d b e)
        /\ node = DoF * mesh.node_number_1d (mesh.mesh proxy) b e i + comp in
    length f' = length f
    /\ (forall r, ~ second_kind (first + r) -> f' !! r = f !! r)
    /\ ((forall bc comp, bc ∈ bounds_cond -> comp < DoF -> type bc comp = FIRST_KIND) ->
        f' = f).
Proof.
  intros T ST FT proxy DoF quad_coord_1d jacobi_matrix_1d element_1d f bounds_cond
         f' first second_kind.
  assert (Hframe : length f' = length f
                   /\ forall r, ~ second_kind (first + r) -> f' !! r = f !! r).
  { subst f'. unfold finite_element_solver_base.integrate_boundary_condition_second_kind.
    set (P := fun g : list T =>
           length g = length f /\ forall r, ~ second_kind (first + r) -> g !! r = f !! r).
    apply (foldl_invariant_in P); [|by split].
    intros g b _ Hg. destruct (bounds_cond !! b) as [bc|] eqn:Hbc; [|done].
    revert Hg. apply (foldl_invariant_in P). intros g1 comp Hcomp%elem_of_seq Hg1.
    destruct (decide (type bc comp = SECOND_KIND)) as [Hkind|_]; [|done].
    revert Hg1. apply (foldl_invariant_in P). intros g2 e He%elem_of_seq Hg2.
    revert Hg2. apply (foldl_invariant_in P). intros g3 i Hi%elem_of_seq [Hlen Hkeep].
    cbn zeta. fold first.
    destruct (bool_decide (first <= _)) eqn:Hlow; [|by split].
    apply bool_decide_eq_true in Hlow. cbn [andb].
    destruct (bool_decide (_ < _)); [|by split].
    split; [by rewrite length_insert|]. intros r Hr.
    rewrite list_lookup_insert_ne; [by apply Hkeep|].
    intros Heq. apply Hr. exists b, e, i, comp, bc.
    repeat split; try (done || lia). }
  destruct Hframe as [Hlen Hkeep]. split; [done|]. split; [done|].
  intros Hall. apply list_eq. intros r. apply Hkeep.
  intros (b & e & i & comp & bc & Hbc & Hcomp & Hkind & _).
  rewrite (Hall bc comp (list_elem_of_lookup_2 _ _ _ Hbc) Hcomp) in Hkind. done.
Qed.

(** * The one-dimensional solver *)

(** ** The portrait of the one-dimensional matrix *)

(** A loop that writes some of the cells from [a] on. *)
Lemma lookup_foldl_insert_from {A} (c : nat -> bool) (v : nat -> A) (a m : nat) :
  forall (l : list A) (p : nat),
    a + m <= length l ->
    foldl (fun l d => if c d then <[a + d := v d]> l else l) l (seq 0 m) !! p
    = if bool_decide (a <= p /\ p < a + m) && c (p - a) then Some (v (p - a)) else l !! p.
Proof.
  induction m as [|m IH]; intros l p Hm.
  { cbn [seq foldl]. rewrite bool_decide_eq_false_2 by lia. done. }
  rewrite seq_S, foldl_app. cbn [foldl plus].
  assert (Hlen : length (foldl (fun l d => if c d then <[a + d := v d]> l else l) l (seq 0 m))
                 = length l).
  { apply (foldl_invariant (fun l' => length l' = length l)); [done|].
    intros l' d Hl'. destruct (c d); [by rewrite length_insert | done]. }
  destruct (decide (p = a + m)) as [->|Hne].
  - rewrite (bool_decide_eq_true_2 (a <= a + m /\ a + m < a + S m)) by lia.
    replace (a + m - a) with m by lia. cbn [andb]. destruct (c m) eqn:Hc.
    + apply list_lookup_insert_eq. lia.
    + rewrite IH by lia. rewrite bool_decide_eq_false_2 by lia. done.
  - assert (Hsame : bool_decide (a <= p /\ p < a + S m) = bool_decide (a <= p /\ p < a + m)).
    { apply bool_decide_ext. lia. }
    rewrite Hsame. destruct (c m).
    + rewrite list_lookup_insert_ne by lia. apply IH. lia.
    + apply IH. lia.
Qed.

(** Rows written one after the other, each in its own cells: the cells of
    the row [i] start at [O i]. *)
Lemma lookup_block_writes {A} (O : nat -> nat) (c : nat -> nat -> bool)
    (v : nat -> nat -> A) (l : list A) (n : nat) :
  (forall i, i < n -> O i <= O (S i)) -> O n <= length l ->
  let l' :=
    foldl (fun l i =>
             foldl (fun l d => if c i d then <[O i + d := v i d]> l else l)
                   l (seq 0 (O (S i) - O i)))
          l (seq 0 n) in
  length l' = length l
  /\ forall r d, r < n -> d < O (S r) - O r ->
       l' !! (O r + d) = if c r d then Some (v r d) else l !! (O r + d).
Proof.
  intros Hmono Hlen.
  assert (Hle : forall i j, i <= j -> j <= n -> O i <= O j).
  { intros i j Hij Hj. induction Hij as [|j Hij IH]; [done|].
    specialize (IH ltac:(lia)). specialize (Hmono j ltac:(lia)). lia. }
  assert (Hgen : forall k, k <= n ->
    let lk :=
      foldl (fun l i =>
               foldl (fun l d => if c i d then <[O i + d := v i d]> l else l)
                     l (seq 0 (O (S i) - O i)))
            l (seq 0 k) in
    length lk = length l
    /\ (forall r d, r < k -> d < O (S r) - O r ->
          lk !! (O r + d) = if c r d then Some (v r d) else l !! (O r + d))
    /\ (forall p, O k <= p -> lk !! p = l !! p)).
  { induction k as [|k IH]; intros Hk.
    { cbn [seq foldl]. split; [done|]. split; [|done]. intros r d Hr. lia. }
    destruct (IH ltac:(lia)) as (Hl & Hdone & Hrest).
    rewrite seq_S, foldl_app. cbn [foldl plus].
    set (lk := foldl _ l (seq 0 k)) in *.
    pose proof (Hle (S k) n ltac:(lia) ltac:(lia)) as Hend.
    pose proof (Hmono k ltac:(lia)) as Hstep.
    assert (Hrow : forall p,
      foldl (fun l d => if c k d then <[O k + d := v k d]> l else l) lk
            (seq 0 (O (S k) - O k)) !! p
      = if bool_decide (O k <= p /\ p < O k + (O (S k) - O k)) && c k (p - O k)
        then Some (v k (p - O k)) else lk !! p).
    { intros p. apply lookup_foldl_insert_from. lia. }
    split; [|split].
    - rewrite <- Hl.
      apply (foldl_invariant (fun l' => length l' = length lk)); [done|].
      intros l' d Hl'. destruct (c k d); [by rewrite length_insert | done].
    - intros r d Hr Hd. rewrite Hrow. destruct (decide (r = k)) as [->|Hne].
      + rewrite bool_decide_eq_true_2 by lia. replace (O k + d - O k) with d by lia.
        cbn [andb]. destruct (c k d); [done|]. apply Hrest. lia.
      + pose proof (Hle (S r) k ltac:(lia) ltac:(lia)).
        rewrite bool_decide_eq_false_2 by lia. apply Hdone; [lia|done].
    - intros p Hp. rewrite Hrow. rewrite bool_decide_eq_false_2 by lia.
      apply Hrest. lia. }
  destruct (Hgen n (le_n _)) as (Hl & Hdone & _). by split.
Qed.

Section portrait_1d.
Import Eigen finite_element_solver_base_1d.
Context {T : Type} `{!Scalar T}.
Variable mesh : mesh_1d T.
Variables (fresh_index : nat -> nat) (fresh_value : nat -> T).

Lemma portrait_counts_frame (K : SparseMatrix T) boundary_first_kind nonlocal_task :
  let K' := portrait_counts mesh K boundary_first_kind nonlocal_task in
  rows K' = rows K /\ cols K' = cols K
  /\ length (outerIndexPtr K') = length (outerIndexPtr K)
  /\ innerIndexPtr K' = innerIndexPtr K /\ valuePtr K' = valuePtr K.
Proof.
  unfold portrait_counts.
  set (P := fun K' : SparseMatrix T =>
         rows K' = rows K /\ cols K' = cols K
         /\ length (outerIndexPtr K') = length (outerIndexPtr K)
         /\ innerIndexPtr K' = innerIndexPtr K /\ valuePtr K' = valuePtr K).
  apply (foldl_invariant P); [by repeat split|].
  intros K1 e HK1. apply (foldl_invariant P); [done|].
  intros K2 i (Hr & Hc & Ho & Hi & Hv).
  destruct (_ || _); unfold P; cbn [set_outer rows cols outerIndexPtr innerIndexPtr valuePtr];
    by rewrite length_insert.
Qed.

(** The loop [++K_inner.outerIndexPtr()[row+1]] of a Neumann problem. *)
Lemma neumann_counts (K : SparseMatrix T) :
  length (outerIndexPtr K) = S (rows K) ->
  let K' :=
    foldl (fun K row =>
             set_outer K (<[S row := S (outerIndexPtr K !!! S row)]> (outerIndexPtr K)))
          K (seq 0 (rows K)) in
  rows K' = rows K /\ cols K' = cols K
  /\ length (outerIndexPtr K') = S (rows K)
  /\ innerIndexPtr K' = innerIndexPtr K /\ valuePtr K' = valuePtr K
  /\ forall r, r < rows K -> outerIndexPtr K' !!! S r = S (outerIndexPtr K !!! S r).
Proof.
  intros Hlen.
  assert (Hgen : forall k, k <= rows K ->
    let Kk :=
      foldl (fun K row =>
               set_outer K (<[S row := S (outerIndexPtr K !!! S row)]> (outerIndexPtr K)))
            K (seq 0 k) in
    rows Kk = rows K /\ cols Kk = cols K
    /\ length (outerIndexPtr Kk) = S (rows K)
    /\ innerIndexPtr Kk = innerIndexPtr K /\ valuePtr Kk = valuePtr K
    /\ (forall r, r < k -> outerIndexPtr Kk !!! S r = S (outerIndexPtr K !!! S r))
    /\ (forall j, k < j -> outerIndexPtr Kk !!! j = outerIndexPtr K !!! j)).
  { induction k as [|k IH]; intros Hk.
    { cbn [seq foldl]. repeat (split; [done|]). split; [|done]. intros r Hr. lia. }
    destruct (IH ltac:(lia)) as (Hr & Hc & Ho & Hi & Hv & Hdone & Hrest).
    rewrite seq_S, foldl_app. cbn [foldl plus].
    set (Kk := foldl _ K (seq 0 k)) in *.
    cbn [set_outer rows cols outerIndexPtr innerIndexPtr valuePtr].
    split; [done|]. split; [done|]. split; [by rewrite length_insert|].
    split; [done|]. split; [done|]. split.
    - intros r Hr'. destruct (decide (r = k)) as [->|Hne].
      + rewrite list_lookup_total_insert_eq by lia. by rewrite Hrest by lia.
      + rewrite list_lookup_total_insert_ne by lia. apply Hdone. lia.
    - intros j Hj. rewrite list_lookup_total_insert_ne by lia. apply Hrest. lia. }
  destruct (Hgen (rows K) (le_n _)) as (Hr & Hc & Ho & Hi & Hv & Hdone & _).
  by repeat (split; [done|]).
Qed.

Lemma sum_list_take_S (l : list nat) (r : nat) :
  S r < length l -> sum_list (take (S (S r)) l) = sum_list (take (S r) l) + l !!! S r.
Proof.
  intros Hr. destruct (lookup_lt_is_Some_2 l (S r) Hr) as [x Hx].
  rewrite (take_S_r _ _ _ Hx), sum_list_with_app, (list_lookup_total_correct _ _ _ Hx).
  simpl. lia.
Qed.

(** The loop that marks the last cell of every row of a Neumann problem. *)
Lemma neumann_marks (N : nat) (rs : list nat) : forall K : SparseMatrix T,
  foldl (fun K row =>
           set_inner K (<[outerIndexPtr K !!! S row - 1 := N]> (innerIndexPtr K)))
        K rs
  = set_inner K
      (foldl (fun l row => if true then <[outerIndexPtr K !!! S row - 1 := N]> l else l)
             (innerIndexPtr K) rs).
Proof.
  induction rs as [|row rs IH]; intros K; [by destruct K|].
  cbn [foldl]. by rewrite IH.
Qed.

(** The last loop nest: the columns and the cleared values of one row,
    then of all rows. *)
Lemma fill_row (neumann : nat) (i first last m : nat) : forall K : SparseMatrix T,
  foldl (fun K d =>
      let j := first + d in
      let k := i + d in
      let K :=
        if bool_decide (j < last - neumann)
        then set_inner K (<[j := k]> (innerIndexPtr K))
        else K in
      set_values K (<[j := zero]> (valuePtr K)))
    K (seq 0 m)
  = {| rows := rows K; cols := cols K; outerIndexPtr := outerIndexPtr K;
       innerIndexPtr :=
         foldl (fun l d => if bool_decide (first + d < last - neumann)
                           then <[first + d := i + d]> l else l)
               (innerIndexPtr K) (seq 0 m);
       valuePtr :=
         foldl (fun l d => if true then <[first + d := zero]> l else l)
               (valuePtr K) (seq 0 m) |}.
Proof.
  induction m as [|m IH]; intros K; [by destruct K|].
  rewrite !seq_S, !foldl_app, IH. cbn [foldl plus].
  by destruct (bool_decide _).
Qed.

Lemma fill_rows (neumann : nat) (rs : list nat) : forall K : SparseMatrix T,
  let O i := outerIndexPtr K !!! i in
  foldl (fun K i =>
    let first := outerIndexPtr K !!! i in
    let last := outerIndexPtr K !!! S i in
    foldl (fun K d =>
      let j := first + d in
      let k := i + d in
      let K :=
        if bool_decide (j < last - neumann)
        then set_inner K (<[j := k]> (innerIndexPtr K))
        else K in
      set_values K (<[j := zero]> (valuePtr K)))
      K (seq 0 (last - first)))
    K rs
  = {| rows := rows K; cols := cols K; outerIndexPtr := outerIndexPtr K;
       innerIndexPtr :=
         foldl (fun l i =>
                  foldl (fun l d => if bool_decide (O i + d < O (S i) - neumann)
                                    then <[O i + d := i + d]> l else l)
                        l (seq 0 (O (S i) - O i)))
               (innerIndexPtr K) rs;
       valuePtr :=
         foldl (fun l i =>
                  foldl (fun l d => if true then <[O i + d := zero]> l else l)
                        l (seq 0 (O (S i) - O i)))
               (valuePtr K) rs |}.
Proof.
  induction rs as [|i rs IH]; intros K O; [by destruct K|].
  cbn [foldl]. rewrite fill_row, IH. done.
Qed.

(** The rows after the last loop nest, on a matrix whose arrays are sized
    by its outer index array. *)
Lemma fill_rows_spec (neumann_task : bool) (N : nat) (K : SparseMatrix T) :
  length (outerIndexPtr K) = S (rows K) ->
  (forall i, i < rows K -> outerIndexPtr K !!! i <= outerIndexPtr K !!! S i) ->
  length (innerIndexPtr K) = outerIndexPtr K !!! rows K ->
  length (valuePtr K) = outerIndexPtr K !!! rows K ->
  (neumann_task = true ->
   forall i, i < rows K ->
     outerIndexPtr K !!! i < outerIndexPtr K !!! S i
     /\ innerIndexPtr K !! (outerIndexPtr K !!! S i - 1) = Some N) ->
  let K' :=
    foldl (fun K i =>
      let first := outerIndexPtr K !!! i in
      let last := outerIndexPtr K !!! S i in
      foldl (fun K d =>
        let j := first + d in
        let k := i + d in
        let K :=
          if bool_decide (j < last - Nat_of_bool neumann_task)
          then set_inner K (<[j := k]> (innerIndexPtr K))
          else K in
        set_values K (<[j := zero]> (valuePtr K)))
        K (seq 0 (last - first)))
      K (seq 0 (rows K)) in
  rows K' = rows K /\ cols K' = cols K /\ outerIndexPtr K' = outerIndexPtr K
  /\ forall i, i < rows K ->
       let len := outerIndexPtr K !!! S i - outerIndexPtr K !!! i in
       row_values K' i = replicate len zero
       /\ row_indices K' i
          = if neumann_task then seq i (len - 1) ++ [N] else seq i len.
Proof.
  intros Hlen Hmono Hinner Hvalues Hneumann K'. subst K'.
  rewrite fill_rows. cbn [rows cols outerIndexPtr].
  split; [done|]. split; [done|]. split; [done|]. intros i Hi.
  destruct (lookup_block_writes (fun i => outerIndexPtr K !!! i)
              (fun _ _ => true) (fun _ _ => zero) (valuePtr K) (rows K)
              Hmono ltac:(lia)) as [Hlv Hv].
  destruct (lookup_block_writes (fun i => outerIndexPtr K !!! i)
              (fun i d => bool_decide (outerIndexPtr K !!! i + d
                                       < outerIndexPtr K !!! S i - Nat_of_bool neumann_task))
              (fun i d => i + d) (innerIndexPtr K) (rows K)
              Hmono ltac:(lia)) as [Hli Hc].
  cbn beta in Hv, Hc.
  unfold row_values, row_indices. cbn [outerIndexPtr innerIndexPtr valuePtr].
  pose proof (Hmono i Hi) as Hle.
  split.
  - apply list_eq. intros d.
    destruct (decide (d < outerIndexPtr K !!! S i - outerIndexPtr K !!! i)) as [Hd|Hd].
    + rewrite lookup_take_lt, lookup_drop by done.
      rewrite lookup_replicate_2 by done. exact (Hv i d Hi Hd).
    + rewrite lookup_take_ge by lia. symmetry. apply lookup_ge_None.
      rewrite length_replicate. lia.
  - apply list_eq. intros d.
    destruct (decide (d < outerIndexPtr K !!! S i - outerIndexPtr K !!! i)) as [Hd|Hd].
    + rewrite lookup_take_lt, lookup_drop by done.
      etrans; [exact (Hc i d Hi Hd)|].
      destruct neumann_task; cbn [Nat_of_bool].
      * destruct (Hneumann eq_refl i Hi) as [Hpos Hmark].
        case_bool_decide as Hlast.
        -- rewrite lookup_app_l by (rewrite length_seq; lia).
           rewrite lookup_seq_lt by lia. done.
        -- rewrite lookup_app_r by (rewrite length_seq; lia).
           rewrite length_seq.
           replace (d - (outerIndexPtr K !!! S i - outerIndexPtr K !!! i - 1)) with 0
             by lia.
           replace (outerIndexPtr K !!! i + d) with (outerIndexPtr K !!! S i - 1) by lia.
           done.
      * rewrite bool_decide_eq_true_2 by lia. by rewrite lookup_seq_lt.
    + rewrite lookup_take_ge by lia. symmetry. apply lookup_ge_None.
      destruct neumann_task.
      * destruct (Hneumann eq_refl i Hi) as [Hpos _].
        rewrite length_app, length_seq. simpl. lia.
      * rewrite length_seq. lia.
Qed.

Lemma prepare_memory_offsets (K : SparseMatrix T) :
  length (outerIndexPtr K) = S (rows K) ->
  let K' := prepare_memory fresh_index fresh_value K in
  rows K' = rows K /\ cols K' = cols K
  /\ length (outerIndexPtr K') = S (rows K)
  /\ (forall r, r < rows K ->
        outerIndexPtr K' !!! S r = outerIndexPtr K' !!! r + outerIndexPtr K !!! S r)
  /\ length (innerIndexPtr K') = outerIndexPtr K' !!! rows K
  /\ length (valuePtr K') = outerIndexPtr K' !!! rows K.
Proof.
  intros Hlen K'. subst K'. unfold prepare_memory.
  cbn [rows cols outerIndexPtr innerIndexPtr valuePtr].
  destruct (prefix_sums_loop (outerIndexPtr K) (rows K) Hlen) as [Hlength Hsums].
  split; [done|]. split; [done|]. split; [done|]. split.
  - intros r Hr. rewrite !Hsums by lia. apply sum_list_take_S. lia.
  - split; apply length_Eigen_resize.
Qed.

End portrait_1d.

(** X15: [create_matrix_portrait] of the one-dimensional solver, on a matrix
    whose offset array has [rows + 1] cells and holds every row that the
    elements of a mesh with at least one node name (and, in a nonlocal task,
    on a mesh where the neighbours of an element end past the element, so
    that no count wraps around), keeps the sizes of the matrix and leaves every
    row as a band that starts on the diagonal: the offsets are in order, the
    values of row [i] are all zero and its columns are [i, i + 1, ...] in
    ascending order; in a Neumann task the last cell of every row holds the
    extra column [nodes_count] instead. Cells left uninitialised by the
    resize do not survive. *)
Theorem X15_portrait_of_the_1d_matrix_is_banded :
  forall (T : Type) (ST : Scalar T) (mesh : finite_element_solver_base_1d.mesh_1d T)
         (fresh_index : nat -> nat) (fresh_value : nat -> T)
         (K_inner : Eigen.SparseMatrix T) (neumann_task : bool)
         (boundary_first_kind : bool * bool) (nonlocal_task : bool),
    length (Eigen.outerIndexPtr K_inner) = S (Eigen.rows K_inner) ->
    0 < finite_element_solver_base_1d.nodes_count_all mesh ->
    (forall e i,
       e < finite_element_solver_base_1d.elements_count mesh ->
       i < nodes_count (finite_element_solver_base_1d.element mesh) ->
       e * (nodes_count (finite_element_solver_base_1d.element mesh) - 1) + i + 1
       <= Eigen.rows K_inner) ->
    (nonlocal_task = true ->
     forall e, e < finite_element_solver_base_1d.elements_count mesh ->
       e < finite_element_solver_base_1d.right_neighbour mesh e) ->
    let K :=
      finite_element_solver_base_1d.create_matrix_portrait mesh fresh_index fresh_value
        K_inner neumann_task boundary_first_kind nonlocal_task in
    Eigen.rows K = Eigen.rows K_inner /\ Eigen.cols K = Eigen.cols K_inner
    /\ length (Eigen.outerIndexPtr K) = S (Eigen.rows K_inner)
    /\ forall i, i < Eigen.rows K_inner ->
         let len := Eigen.outerIndexPtr K !!! S i - Eigen.outerIndexPtr K !!! i in
         Eigen.outerIndexPtr K !!! i <= Eigen.outerIndexPtr K !!! S i
         /\ Eigen.row_values K i = replicate len zero
         /\ Eigen.row_indices K i
            = if neumann_task
              then seq i (len - 1) ++ [finite_element_solver_base_1d.nodes_count_all mesh]
              else seq i len.
Proof.
  intros T ST mesh fresh_index fresh_value K_inner neumann_task boundary_first_kind
         nonlocal_task Hlen _ _ _ K.
  subst K. unfold finite_element_solver_base_1d.create_matrix_portrait.
  destruct (portrait_counts_frame mesh K_inner boundary_first_kind nonlocal_task)
    as (Hr1 & Hc1 & Ho1 & Hi1 & Hv1).
  set (K1 := finite_element_solver_base_1d.portrait_counts mesh K_inner boundary_first_kind
               nonlocal_task) in *.
  assert (Hlen1 : length (Eigen.outerIndexPtr K1) = S (Eigen.rows K1)) by congruence.
  destruct neumann_task.
  - destruct (neumann_counts K1 Hlen1) as (Hr2 & Hc2 & Ho2 & Hi2 & Hv2 & Hcount).
    set (K2 := foldl _ K1 (seq 0 (Eigen.rows K1))) in *.
    assert (Hlen2 : length (Eigen.outerIndexPtr K2) = S (Eigen.rows K2)) by congruence.
    destruct (prepare_memory_offsets fresh_index fresh_value K2 Hlen2)
      as (Hr3 & Hc3 & Ho3 & Hstep & Hinner3 & Hvalues3).
    set (K3 := finite_element_solver_base_1d.prepare_memory fresh_index fresh_value K2) in *.
    rewrite neumann_marks.
    set (N := finite_element_solver_base_1d.nodes_count_all mesh).
    destruct (foldl_writes (fun _ : nat => true)
                (fun row => Eigen.outerIndexPtr K3 !!! S row - 1) (fun _ => N)
                (seq 0 (Eigen.rows K3)) (Eigen.innerIndexPtr K3)) as (Hlen4 & Hmark & _).
    set (L := foldl _ (Eigen.innerIndexPtr K3) (seq 0 (Eigen.rows K3))) in *.
    assert (Hpos : forall r, r < Eigen.rows K3 ->
              Eigen.outerIndexPtr K3 !!! r < Eigen.outerIndexPtr K3 !!! S r).
    { intros r Hr. rewrite Hstep by lia. rewrite Hcount by lia. lia. }
    assert (Hmono : forall r r', r <= r' -> r' <= Eigen.rows K3 ->
              Eigen.outerIndexPtr K3 !!! r <= Eigen.outerIndexPtr K3 !!! r').
    { intros r r' Hle Hr'. induction Hle as [|r' Hle IH]; [done|].
      specialize (IH ltac:(lia)). specialize (Hpos r' ltac:(lia)). lia. }
    destruct (fill_rows_spec true N (Eigen.set_inner K3 L)) as (Hr5 & Hc5 & Ho5 & Hrows).
    + cbn [Eigen.set_inner Eigen.rows Eigen.outerIndexPtr]. congruence.
    + cbn [Eigen.set_inner Eigen.rows Eigen.outerIndexPtr]. intros i Hi.
      specialize (Hpos i Hi). lia.
    + cbn [Eigen.set_inner Eigen.rows Eigen.outerIndexPtr Eigen.innerIndexPtr]. congruence.
    + cbn [Eigen.set_inner Eigen.rows Eigen.outerIndexPtr Eigen.valuePtr]. congruence.
    + intros _ i Hi.
      cbn [Eigen.set_inner Eigen.rows Eigen.outerIndexPtr Eigen.innerIndexPtr] in *.
      split; [by apply Hpos|].
      apply (Hmark i); [apply elem_of_seq; lia | done |].
      pose proof (Hpos i Hi). pose proof (Hmono (S i) (Eigen.rows K3) ltac:(lia) ltac:(lia)).
      rewrite Hinner3, <- Hr3. lia.
    + cbn [Eigen.set_inner Eigen.rows Eigen.cols Eigen.outerIndexPtr] in *.
      split; [congruence|]. split; [congruence|]. split; [congruence|].
      intros i Hi. cbn zeta. rewrite Ho5.
      destruct (Hrows i ltac:(congruence)) as [Hvalues Hindices].
      split; [|by split]. specialize (Hpos i ltac:(congruence)). lia.
  - destruct (prepare_memory_offsets fresh_index fresh_value K1 Hlen1)
      as (Hr3 & Hc3 & Ho3 & Hstep & Hinner3 & Hvalues3).
    set (K3 := finite_element_solver_base_1d.prepare_memory fresh_index fresh_value K1) in *.
    assert (Hpos : forall r, r < Eigen.rows K3 ->
              Eigen.outerIndexPtr K3 !!! r <= Eigen.outerIndexPtr K3 !!! S r).
    { intros r Hr. rewrite Hstep by lia. lia. }
    destruct (fill_rows_spec false 0 K3) as (Hr5 & Hc5 & Ho5 & Hrows);
      [congruence | done | rewrite Hinner3, Hr3; done | rewrite Hvalues3, Hr3; done | done |].
    set (R := foldl _ K3 (seq 0 (Eigen.rows K3))) in *.
    match goal with |- Eigen.rows ?X = _ /\ _ => change X with R end.
    split; [congruence|]. split; [congruence|]. split; [congruence|].
    intros i Hi. cbn zeta. rewrite Ho5.
    destruct (Hrows i ltac:(congruence)) as [Hvalues Hindices].
    split; [|by split]. apply Hpos. congruence.
Qed.

Lemma X15_portrait_of_the_1d_matrix_is_banded_witness :
  let K :=
    finite_element_solver_base_1d.create_matrix_portrait
      (inputs.segment inputs.linear_gauss1) (fun _ => 7) (fun _ => 7%float)
      (Eigen.make 3 3) true (false, false) false in
  Eigen.rows K = 3 /\ Eigen.cols K = 3
  /\ length (Eigen.outerIndexPtr K) = 4
  /\ forall i, i < 3 ->
       let len := Eigen.outerIndexPtr K !!! S i - Eigen.outerIndexPtr K !!! i in
       Eigen.outerIndexPtr K !!! i <= Eigen.outerIndexPtr K !!! S i
       /\ Eigen.row_values K i = replicate len zero
       /\ Eigen.row_indices K i = seq i (len - 1) ++ [3].
Proof.
  apply (X15_portrait_of_the_1d_matrix_is_banded float double
           (inputs.segment inputs.linear_gauss1) (fun _ => 7) (fun _ => 7%float)
           (Eigen.make 3 3) true (false, false) false).
  - reflexivity.
  - vm_compute. lia.
  - intros e i He Hi. vm_compute in He, Hi. vm_compute Eigen.rows.
    vm_compute (nodes_count _). lia.
  - intros [=].
Defined.

(** ** The right part of the one-dimensional system *)

Section right_part_1d.
Import Eigen finite_element_solver_base_1d.
Context {T : Type} `{!Scalar T}.
Variable mesh : mesh_1d T.

(** [integrate_right_part] writes the rows of the nodes only. *)
Lemma integrate_right_part_frame (right_part : T -> T) (f : list T) :
  length (integrate_right_part mesh f right_part) = length f
  /\ forall p, nodes_count_all mesh <= p ->
       integrate_right_part mesh f right_part !! p = f !! p.
Proof.
  unfold integrate_right_part.
  apply (foldl_invariant_in
           (fun f' => length f' = length f
                      /\ forall p, nodes_count_all mesh <= p -> f' !! p = f !! p));
    [|done].
  intros f1 node Hnode%elem_of_seq Hf1.
  apply (foldl_invariant
           (fun f' => length f' = length f
                      /\ forall p, nodes_count_all mesh <= p -> f' !! p = f !! p));
    [done|].
  intros f2 [[e i]|] [Hlen Hframe]; [|done].
  split; [by rewrite length_insert|].
  intros p Hp. rewrite list_lookup_insert_ne by lia. by apply Hframe.
Qed.

(** The two passes over the ends of the segment, with the empty [K_bound]
    that [stationary] hands over. *)
Lemma boundary_conditions_1d (bound_cond : stationary_boundary) (f : list T) :
  let n := nodes_count_all mesh in
  let f' :=
    boundary_condition_first_kind mesh
      (boundary_condition_second_kind mesh f bound_cond) bound_cond ([], []) in
  0 < n -> n <= length f ->
  length f' = length f
  /\ (bound_cond.2.1 = FIRST_KIND -> f' !! (n - 1) = Some bound_cond.2.2)
  /\ (bound_cond.1.1 = FIRST_KIND -> bound_cond.2.1 = SECOND_KIND \/ 1 < n ->
        f' !! 0 = Some bound_cond.1.2)
  /\ (bound_cond.1.1 = SECOND_KIND -> 1 < n ->
        f' !! 0 = Some (add (f !!! 0) bound_cond.1.2))
  /\ (bound_cond.2.1 = SECOND_KIND -> 1 < n ->
        f' !! (n - 1) = Some (add (f !!! (n - 1)) bound_cond.2.2))
  /\ (forall i, 0 < i -> i <> n - 1 -> f' !! i = f !! i).
Proof.
  intros n f' Hn Hlen. subst f'.
  unfold boundary_condition_first_kind, boundary_condition_second_kind.
  cbn [seq foldl]. unfold bound_cond_at, K_bound_at, fval. fold n.
  destruct bound_cond as [[kind_left value_left] [kind_right value_right]].
  cbn [fst snd foldl].
  destruct (decide (0 = 0)) as [_|]; [|done].
  destruct (decide (1 = 0)) as [|_]; [done|].
  cbn [fst snd foldl].
  destruct kind_left, kind_right;
    repeat (match goal with
            | |- context [decide (?a = ?b)] => destruct (decide (a = b)); try done
            end);
    cbn [foldl].
  all: rewrite ?length_insert.
  all: repeat split; try done; try (intros; congruence).
  all: intros.
  all: repeat match goal with H : _ \/ _ |- _ => destruct H; try done end.
  all: try (destruct (decide (n - 1 = 0));
       [ replace (n - 1) with 0 by lia |
         rewrite ?list_lookup_insert_eq, ?(list_lookup_insert_ne _ (n - 1) 0),
                 ?(list_lookup_insert_ne _ 0 (n - 1)) by (rewrite ?length_insert; lia) ]).
  all: rewrite ?list_lookup_insert_eq by (rewrite ?length_insert; lia); try done; try lia.
  all: try (rewrite !list_lookup_insert_ne by lia; done).
  all: try (rewrite ?list_lookup_insert_ne by lia;
            rewrite ?list_lookup_insert_eq by (rewrite ?length_insert; lia);
            rewrite ?list_lookup_total_insert_ne by lia; done).
Qed.

End right_part_1d.

(** X16: the right part that [stationary] of the one-dimensional solver hands
    to the linear solver, on a mesh with at least one node. It has the size
    of the system. At an end of the first kind it holds the prescribed
    value (for the left end when the right end is of the second kind or the
    mesh has two nodes or more). At an end of the second kind of a mesh with
    two nodes or more it holds the integrated load of the node plus the
    flux of the end. Every other row holds the integrated load alone, and in
    a Neumann task the extra row is zero. *)
Theorem X16_right_part_of_the_1d_stationary_system :
  forall (T : Type) (ST : Scalar T) (mesh : finite_element_solver_base_1d.mesh_1d T)
         (fresh_index : nat -> nat) (fresh_value : nat -> T)
         (parameters : equation_parameters T)
         (bound_cond : finite_element_solver_base_1d.stationary_boundary)
         (right_part : T -> T) (influence_function : T -> T -> T),
    0 < finite_element_solver_base_1d.nodes_count_all mesh ->
    let n := finite_element_solver_base_1d.nodes_count_all mesh in
    let size := finite_element_solver_base_1d.system_size mesh bound_cond in
    let f :=
      (finite_element_solver_base_1d.stationary_system mesh fresh_index fresh_value
         parameters bound_cond right_part influence_function).2 in
    let loads :=
      finite_element_solver_base_1d.integrate_right_part mesh (replicate size zero)
        right_part in
    length f = size
    /\ (bound_cond.2.1 = FIRST_KIND -> f !! (n - 1) = Some bound_cond.2.2)
    /\ (bound_cond.1.1 = FIRST_KIND -> bound_cond.2.1 = SECOND_KIND \/ 1 < n ->
          f !! 0 = Some bound_cond.1.2)
    /\ (bound_cond.1.1 = SECOND_KIND -> 1 < n ->
          f !! 0 = Some (add (loads !!! 0) bound_cond.1.2))
    /\ (bound_cond.2.1 = SECOND_KIND -> 1 < n ->
          f !! (n - 1) = Some (add (loads !!! (n - 1)) bound_cond.2.2))
    /\ (forall i, 0 < i -> i <> n - 1 -> f !! i = loads !! i)
    /\ (finite_element_solver_base_1d.is_neumann_task bound_cond = true ->
          f !! n = Some zero).
Proof.
  intros T ST mesh fresh_index fresh_value parameters bound_cond right_part
         influence_function Hn n size f loads.
  destruct (integrate_right_part_frame mesh right_part (replicate size zero))
    as [Hlength Hframe].
  fold loads in Hlength, Hframe. rewrite length_replicate in Hlength.
  assert (Hsize : n <= length loads).
  { rewrite Hlength. unfold size, finite_element_solver_base_1d.system_size. fold n. lia. }
  destruct (boundary_conditions_1d mesh bound_cond loads Hn Hsize)
    as (Hlen & Hright & Hleft & Hleft2 & Hright2 & Hother).
  change (finite_element_solver_base_1d.boundary_condition_first_kind mesh
            (finite_element_solver_base_1d.boundary_condition_second_kind mesh loads
               bound_cond) bound_cond ([], [])) with f in *.
  fold n in Hright, Hleft, Hleft2, Hright2, Hother.
  split; [congruence|]. split; [done|]. split; [done|]. split; [done|].
  split; [done|]. split; [done|].
  intros Hneumann. rewrite Hother by lia. rewrite Hframe by (fold n; lia).
  apply lookup_replicate_2. unfold size, finite_element_solver_base_1d.system_size.
  fold n. rewrite Hneumann. cbn. lia.
Qed.

Lemma X16_right_part_of_the_1d_stationary_system_witness :
  let mesh := inputs.segment inputs.linear_gauss1 in
  let bound_cond := ((FIRST_KIND, 0%float), (FIRST_KIND, 1%float)) in
  let f :=
    (finite_element_solver_base_1d.stationary_system mesh (fun _ => 0) (fun _ => 0%float)
       {| lambda := 1%float; rho := 1%float; c := 1%float; p1 := 1%float; r := 0%float |}
       bound_cond (fun _ => 0%float) (fun _ _ => 0%float)).2 in
  length f = 3 /\ f !! 2 = Some 1%float /\ f !! 0 = Some 0%float.
Proof.
  intros mesh bound_cond f.
  destruct (X16_right_part_of_the_1d_stationary_system float double mesh
              (fun _ => 0) (fun _ => 0%float)
              {| lambda := 1%float; rho := 1%float; c := 1%float; p1 := 1%float;
                 r := 0%float |}
              bound_cond (fun _ => 0%float) (fun _ _ => 0%float))
    as (Hlength & Hright & Hleft & _).
  - vm_compute. lia.
  - split; [exact Hlength|]. split; [by apply Hright|].
    apply Hleft; [done|]. right. vm_compute. lia.
Defined.

(** * The elasticity solver *)

(** ** The nodes of the boundaries *)

(** A loop that clears the flag at the place of each item, run when [kind]
    holds. *)
Lemma foldl_marks {V : Type} (kind : Prop) (d : Decision kind) (pos : V -> nat)
    (l : list V) (R : list bool) (p : nat) :
  let R' := if d then foldl (fun R v => <[pos v := false]> R) R l else R in
  length R' = length R
  /\ (R' !! p = Some false <->
      (p < length R /\ kind /\ exists v, v ∈ l /\ pos v = p) \/ R !! p = Some false)
  /\ (R' !! p = Some true <->
      R !! p = Some true /\ ~ (kind /\ exists v, v ∈ l /\ pos v = p)).
Proof.
  destruct d as [Hkind|Hkind]; cbn zeta.
  2:{ split; [done|]. split; split; tauto. }
  destruct (foldl_writes (fun _ : V => true) pos (fun _ => false) l R) as (Hlen & Hhit & Hmiss).
  cbn beta iota zeta in Hlen, Hhit, Hmiss. split; [done|].
  destruct (decide (Exists (fun v => pos v = p) l)) as [Hex|Hnone].
  - apply Exists_exists in Hex as (v & Hv & <-). split; split.
    + intros Hp. left. pose proof (lookup_lt_Some _ _ _ Hp) as Hlt. rewrite Hlen in Hlt.
      split; [done|]. split; [done|]. by exists v.
    + intros [(Hlt & _)|Hp]; [by apply Hhit|].
      apply Hhit; [done..|]. by apply lookup_lt_Some in Hp.
    + intros Hp. pose proof (lookup_lt_Some _ _ _ Hp) as Hlt. rewrite Hlen in Hlt.
      rewrite (Hhit v Hv eq_refl Hlt) in Hp. done.
    + intros [_ Hno]. destruct Hno. split; [done|]. by exists v.
  - assert (Hno : ~ exists v, v ∈ l /\ pos v = p).
    { intros (v & Hv & Hp). apply Hnone, Exists_exists. by exists v. }
    rewrite !(Hmiss p) by (intros v Hv _ Hp; apply Hno; by exists v).
    split; split; tauto.
Qed.

Section boundaries.
Import mesh statics_with_nonloc.
Context {T : Type}.
Variable mesh : mesh_2d T.
Variable boundary : nat -> list nat.
Variable bounds_cond : list (boundary_condition T).

(** The degree of freedom [p] lies on one of the first [k] boundaries, and
    its axis is fixed there. *)
Definition fixed_before (k p : nat) : Prop :=
  exists b bc node,
    b < k /\ bounds_cond !! b = Some bc /\ node ∈ boundary b
    /\ (p = 2 * node /\ type_x bc = TRANSLATION
        \/ p = 2 * node + 1 /\ type_y bc = TRANSLATION).

Lemma fixed_before_S k p :
  fixed_before (S k) p <->
  fixed_before k p
  \/ exists bc node,
       bounds_cond !! k = Some bc /\ node ∈ boundary k
       /\ (p = 2 * node /\ type_x bc = TRANSLATION
           \/ p = 2 * node + 1 /\ type_y bc = TRANSLATION).
Proof.
  split.
  - intros (b & bc & node & Hb & Hbc & Hnode & Hp).
    destruct (decide (b = k)) as [->|Hne].
    + right. by exists bc, node.
    + left. exists b, bc, node. split; [lia|done].
  - intros [(b & bc & node & Hb & Hrest)|(bc & node & Hrest)].
    + exists b, bc, node. split; [lia|done].
    + exists k, bc, node. split; [lia|done].
Qed.

Lemma inner_nodes_vector_loop (k : nat) :
  let inner_nodes :=
    foldl (fun inner_nodes b =>
      match bounds_cond !! b with
      | Some bc =>
          let inner_nodes :=
            if decide (type_x bc = TRANSLATION)
            then foldl (fun inner_nodes node => <[2 * node := false]> inner_nodes)
                       inner_nodes (boundary b)
            else inner_nodes in
          if decide (type_y bc = TRANSLATION)
          then foldl (fun inner_nodes node => <[2 * node + 1 := false]> inner_nodes)
                     inner_nodes (boundary b)
          else inner_nodes
      | None => inner_nodes
      end)
      (replicate (2 * nodes_count_all mesh) true) (seq 0 k) in
  length inner_nodes = 2 * nodes_count_all mesh
  /\ forall p, p < 2 * nodes_count_all mesh ->
       (inner_nodes !! p = Some false <-> fixed_before k p)
       /\ (inner_nodes !! p = Some true <-> ~ fixed_before k p).
Proof.
  induction k as [|k IH].
  { cbn [seq foldl]. split; [by rewrite length_replicate|]. intros p Hp.
    rewrite lookup_replicate_2 by done.
    assert (Hnone : ~ fixed_before 0 p) by (intros (b & ? & ? & ? & _); lia).
    split; split; done. }
  cbn zeta in IH |- *. rewrite seq_S, foldl_app. cbn [foldl Nat.add].
  destruct IH as [Hlen IH]. set (R := foldl _ _ (seq 0 k)) in *.
  destruct (bounds_cond !! k) as [bc|] eqn:Hbc.
  2:{ split; [done|]. intros p Hp. destruct (IH p Hp) as [Hfalse Htrue].
      assert (Hsame : fixed_before (S k) p <-> fixed_before k p).
      { rewrite fixed_before_S. split; [|by left].
        intros [?|(? & ? & ? & _)]; [done|congruence]. }
      by rewrite Hsame. }
  set (Rx := if decide (type_x bc = TRANSLATION) then _ else R).
  assert (Hlenx : length Rx = length R)
    by apply (foldl_marks _ _ (fun node => 2 * node) (boundary k) R 0).
  assert (Hleny : length (if decide (type_y bc = TRANSLATION)
                          then foldl (fun inner_nodes node =>
                                        <[2 * node + 1 := false]> inner_nodes) Rx (boundary k)
                          else Rx) = length Rx)
    by apply (foldl_marks _ _ (fun node => 2 * node + 1) (boundary k) Rx 0).
  split; [congruence|]. intros p Hp. destruct (IH p Hp) as [Hfalse Htrue].
  destruct (foldl_marks _ (decide (type_x bc = TRANSLATION)) (fun node => 2 * node)
              (boundary k) R p) as (_ & Hxf & Hxt).
  destruct (foldl_marks _ (decide (type_y bc = TRANSLATION)) (fun node => 2 * node + 1)
              (boundary k) Rx p) as (_ & Hyf & Hyt).
  cbn zeta beta in Hxf, Hxt, Hyf, Hyt. fold Rx in Hxf, Hxt.
  assert (Hnow : (exists bc' node,
                    bounds_cond !! k = Some bc' /\ node ∈ boundary k
                    /\ (p = 2 * node /\ type_x bc' = TRANSLATION
                        \/ p = 2 * node + 1 /\ type_y bc' = TRANSLATION))
                 <-> (type_x bc = TRANSLATION /\ exists node, node ∈ boundary k /\ 2 * node = p)
                     \/ (type_y bc = TRANSLATION
                         /\ exists node, node ∈ boundary k /\ 2 * node + 1 = p)).
  { rewrite Hbc. split.
    - intros (bc' & node & [= <-] & Hnode & [[-> Hkind]|[-> Hkind]]);
        [left|right]; (split; [done|]); by exists node.
    - intros [[Hkind (node & Hnode & <-)]|[Hkind (node & Hnode & <-)]];
        exists bc, node; (split; [done|]); (split; [done|]); [by left|by right]. }
  rewrite fixed_before_S, Hnow, Hyf, Hyt, Hxf, Hxt, Hfalse, Htrue.
  rewrite Hlenx, Hlen. clear Hnow Hyf Hyt Hxf Hxt Hfalse Htrue.
  split; split; tauto.
Qed.

End boundaries.

(** X17: [inner_nodes_vector], on boundaries whose nodes are nodes of the
    mesh, returns two flags for every node of the mesh; the flag of an axis
    of a node is cleared exactly when the node lies on a boundary whose
    condition for this axis is a translation, and is set otherwise. *)
Theorem X17_inner_nodes_vector_clears_the_translation_boundaries :
  forall (T : Type) (mesh : mesh.mesh_2d T) (boundary : nat -> list nat)
         (bounds_cond : list (statics_with_nonloc.boundary_condition T)),
    (forall b node, b < length bounds_cond -> node ∈ boundary b ->
       node < mesh.nodes_count_all mesh) ->
    let inner_nodes := statics_with_nonloc.inner_nodes_vector mesh boundary bounds_cond in
    length inner_nodes = 2 * mesh.nodes_count_all mesh
    /\ forall node,
         (inner_nodes !! (2 * node) = Some false <->
          exists b bc, bounds_cond !! b = Some bc
                       /\ statics_with_nonloc.type_x bc = statics_with_nonloc.TRANSLATION
                       /\ node ∈ boundary b)
         /\ (inner_nodes !! (2 * node + 1) = Some false <->
             exists b bc, bounds_cond !! b = Some bc
                          /\ statics_with_nonloc.type_y bc = statics_with_nonloc.TRANSLATION
                          /\ node ∈ boundary b)
         /\ (node < mesh.nodes_count_all mesh ->
             is_Some (inner_nodes !! (2 * node)) /\ is_Some (inner_nodes !! (2 * node + 1))).
Proof.
  intros T mesh boundary bounds_cond Hnodes inner_nodes.
  destruct (inner_nodes_vector_loop mesh boundary bounds_cond (length bounds_cond))
    as [Hlen Hflags].
  change (foldl _ _ (seq 0 (length bounds_cond))) with inner_nodes in Hlen, Hflags.
  split; [done|]. intros node.
  assert (Hfixed : forall p, inner_nodes !! p = Some false <->
                     fixed_before boundary bounds_cond (length bounds_cond) p).
  { intros p. destruct (decide (p < 2 * mesh.nodes_count_all mesh)) as [Hp|Hp].
    { by apply Hflags. }
    split.
    - intros Hsome%lookup_lt_Some. lia.
    - intros (b & bc & node' & Hb & _ & Hnode' & Hp').
      specialize (Hnodes b node' Hb Hnode'). lia. }
  split; [|split].
  - rewrite Hfixed. split.
    + intros (b & bc & node' & Hb & Hbc & Hnode' & [[Hp Hkind]|[Hp _]]); [|lia].
      assert (node' = node) as -> by lia. by exists b, bc.
    + intros (b & bc & Hbc & Hkind & Hnode). exists b, bc, node.
      split; [by eapply lookup_lt_Some|]. split; [done|]. split; [done|]. by left.
  - rewrite Hfixed. split.
    + intros (b & bc & node' & Hb & Hbc & Hnode' & [[Hp _]|[Hp Hkind]]); [lia|].
      assert (node' = node) as -> by lia. by exists b, bc.
    + intros (b & bc & Hbc & Hkind & Hnode). exists b, bc, node.
      split; [by eapply lookup_lt_Some|]. split; [done|]. split; [done|]. by right.
  - intros Hnode. split; apply lookup_lt_is_Some; lia.
Qed.

Lemma X17_inner_nodes_vector_clears_the_translation_boundaries_witness :
  let boundary := fun b : nat => match b with 0 => [0; 1] | 1 => [1; 2] | _ => [] end in
  let bounds_cond :=
    [ {| statics_with_nonloc.type_x := statics_with_nonloc.TRANSLATION;
         statics_with_nonloc.type_y := statics_with_nonloc.PRESSURE;
         statics_with_nonloc.func_x := fun _ _ => 0%float;
         statics_with_nonloc.func_y := fun _ _ => 0%float |};
      {| statics_with_nonloc.type_x := statics_with_nonloc.PRESSURE;
         statics_with_nonloc.type_y := statics_with_nonloc.TRANSLATION;
         statics_with_nonloc.func_x := fun _ _ => 0%float;
         statics_with_nonloc.func_y := fun _ _ => 0%float |} ] in
  length (statics_with_nonloc.inner_nodes_vector inputs.square boundary bounds_cond) = 8.
Proof.
  intros boundary bounds_cond.
  apply (X17_inner_nodes_vector_clears_the_translation_boundaries float inputs.square
           boundary bounds_cond).
  intros b node Hb Hnode. cbn in Hb.
  destruct b as [|[|b]]; [| |lia]; cbn in Hnode;
    repeat (apply elem_of_cons in Hnode as [->|Hnode]);
    try (by apply elem_of_nil in Hnode); vm_compute; lia.
Defined.

(** A list of lists that grows by one item at the end of one of its lists. *)
Lemma join_insert_snoc {A} (ls : list (list A)) (k : nat) (l : list A) (x : A) :
  ls !! k = Some l -> mjoin (<[k := l ++ [x]]> ls) ≡ₚ x :: mjoin ls.
Proof.
  intros Hk. pose proof (lookup_lt_Some _ _ _ Hk) as Hlt.
  rewrite insert_take_drop by done.
  rewrite <- (take_drop_middle ls k l Hk) at 3.
  rewrite !join_app. cbn [mjoin list_join]. fold (@mjoin list _ A).
  rewrite <- !app_assoc. cbn [app].
  rewrite (Permutation_app_comm l (x :: _)). cbn [app].
  rewrite <- Permutation_middle. constructor.
  apply Permutation_app_head, Permutation_app_comm.
Qed.

Section kinematic.
Import mesh statics_with_nonloc.
Context {T : Type}.
Variable boundary : nat -> list nat.
Variable bounds_cond : list (boundary_condition T).

(** The turn of the inner loop of [kinematic_nodes_vectors] for the node
    [node] of the boundary [b]. *)
Definition keep_node (b : nat) (kinematic_nodes : list (list nat)) (node : nat)
    : list (list nat) :=
  match list_find (fun nodes : list nat => node ∈ nodes) kinematic_nodes with
  | Some _ => kinematic_nodes
  | None => <[b := kinematic_nodes !!! b ++ [node]]> kinematic_nodes
  end.

Lemma keep_nodes_spec (b : nat) (l : list nat) :
  forall K : list (list nat),
    b < length K -> NoDup (mjoin K) ->
    let K' := foldl (keep_node b) K l in
    length K' = length K
    /\ NoDup (mjoin K')
    /\ (forall b', b' <> b -> K' !!! b' = K !!! b')
    /\ (forall node, node ∈ K' !!! b <->
          node ∈ K !!! b \/ (node ∈ l /\ node ∉ mjoin K))
    /\ (forall node, node ∈ mjoin K' <-> node ∈ mjoin K \/ node ∈ l).
Proof.
  induction l as [|x l IH]; intros K Hb Hdup; cbn [foldl].
  { split; [done|]. split; [done|]. split; [done|]. split.
    - intros node. split; [by left|]. by intros [?|[?%elem_of_nil _]].
    - intros node. split; [by left|]. by intros [?|?%elem_of_nil]. }
  assert (Hstep : keep_node b K x
                  = if decide (x ∈ mjoin K) then K else <[b := K !!! b ++ [x]]> K).
  { unfold keep_node.
    destruct (list_find (fun nodes : list nat => x ∈ nodes) K) as [[i nodes]|] eqn:Hfind.
    - apply list_find_Some in Hfind as (Hi & Hx & _).
      rewrite decide_True; [done|]. apply list_elem_of_join. exists nodes.
      split; [done|]. by eapply list_elem_of_lookup_2.
    - rewrite decide_False; [done|]. intros (nodes & Hx & Hnodes)%list_elem_of_join.
      apply list_find_None in Hfind. rewrite Forall_forall in Hfind.
      by apply (Hfind nodes). }
  cbn zeta. rewrite Hstep. clear Hstep.
  destruct (decide (x ∈ mjoin K)) as [Hx|Hx].
  - destruct (IH K Hb Hdup) as (Hlen & Hdup' & Hother & Hmine & Hjoin).
    split; [done|]. split; [done|]. split; [done|]. split.
    + intros node. rewrite Hmine.
      split; (intros [?|[Hnode Hnew]]; [by left|right]); (split; [|done]).
      * by apply list_elem_of_further.
      * apply elem_of_cons in Hnode as [->|Hnode]; [done|done].
    + intros node. rewrite Hjoin, elem_of_cons.
      destruct (decide (node = x)) as [->|Hne]; tauto.
  - assert (Hk : K !! b = Some (K !!! b)) by (by apply list_lookup_lookup_total_lt).
    pose proof (join_insert_snoc K b (K !!! b) x Hk) as Hperm.
    set (K1 := <[b := K !!! b ++ [x]]> K) in *.
    assert (Hlen1 : length K1 = length K) by apply length_insert.
    destruct (IH K1) as (Hlen & Hdup' & Hother & Hmine & Hjoin).
    { by rewrite Hlen1. }
    { rewrite Hperm. by constructor. }
    split; [congruence|]. split; [done|]. split.
    { intros b' Hb'. rewrite Hother by done. subst K1.
      by rewrite list_lookup_total_insert_ne. }
    split.
    + intros node. rewrite Hmine. subst K1.
      rewrite list_lookup_total_insert_eq by done.
      rewrite elem_of_app, list_elem_of_singleton, Hperm, !elem_of_cons.
      destruct (decide (node = x)) as [->|Hne]; tauto.
    + intros node. rewrite Hjoin, Hperm, !elem_of_cons. tauto.
Qed.

(** The boundary [b] has a condition, and it is a translation along one of
    the axes. *)
Definition translation_boundary (b : nat) : Prop :=
  exists bc, bounds_cond !! b = Some bc
             /\ (type_x bc = TRANSLATION \/ type_y bc = TRANSLATION).

Lemma kinematic_nodes_loop (k : nat) :
  k <= length bounds_cond ->
  let K :=
    foldl (fun kinematic_nodes b =>
      match bounds_cond !! b with
      | Some bc =>
          if decide (type_x bc = TRANSLATION \/ type_y bc = TRANSLATION)
          then foldl (keep_node b) kinematic_nodes (boundary b)
          else kinematic_nodes
      | None => kinematic_nodes
      end)
      (replicate (length bounds_cond) []) (seq 0 k) in
  length K = length bounds_cond
  /\ NoDup (mjoin K)
  /\ (forall node, node ∈ mjoin K <->
        exists b, b < k /\ translation_boundary b /\ node ∈ boundary b)
  /\ (forall b node, node ∈ K !!! b <->
        b < k /\ translation_boundary b /\ node ∈ boundary b
        /\ forall b', b' < b -> translation_boundary b' -> node ∉ boundary b').
Proof.
  induction k as [|k IH]; intros Hk.
  { cbn [seq foldl]. split; [by rewrite length_replicate|].
    assert (Hempty : mjoin (replicate (length bounds_cond) ([] : list nat)) = []).
    { apply join_nil_2, Forall_replicate. done. }
    rewrite Hempty. split; [constructor|]. split.
    - intros node. split; [by intros ?%elem_of_nil|]. intros (b & ? & _). lia.
    - intros b node. split; [|intros [? _]; lia].
      destruct (decide (b < length bounds_cond)) as [Hb|Hb].
      + rewrite list_lookup_total_alt, lookup_replicate_2 by done.
        by intros ?%elem_of_nil.
      + rewrite list_lookup_total_alt, lookup_ge_None_2 by (rewrite length_replicate; lia).
        by intros ?%elem_of_nil. }
  cbn zeta in IH |- *. rewrite seq_S, foldl_app. cbn [foldl Nat.add].
  destruct (IH ltac:(lia)) as (Hlen & Hdup & Hjoin & Hlists). clear IH.
  set (K := foldl _ _ (seq 0 k)) in *.
  assert (Hkeep : ~ translation_boundary k ->
            length K = length bounds_cond
            /\ NoDup (mjoin K)
            /\ (forall node, node ∈ mjoin K <->
                  exists b, b < S k /\ translation_boundary b /\ node ∈ boundary b)
            /\ (forall b node, node ∈ K !!! b <->
                  b < S k /\ translation_boundary b /\ node ∈ boundary b
                  /\ forall b', b' < b -> translation_boundary b' -> node ∉ boundary b')).
  { intros Hnot. split; [done|]. split; [done|]. split.
    - intros node. rewrite Hjoin. split; intros (b & Hb & Hkind & Hnode).
      + exists b. split; [lia|done].
      + exists b. split; [|done]. destruct (decide (b = k)) as [->|]; [done|lia].
    - intros b node. rewrite Hlists. split; intros (Hb & Hkind & Hrest).
      + split; [lia|done].
      + split; [|done]. destruct (decide (b = k)) as [->|]; [done|lia]. }
  destruct (bounds_cond !! k) as [bc|] eqn:Hbc.
  2:{ apply Hkeep. intros (bc & Hbc' & _). congruence. }
  destruct (decide (type_x bc = TRANSLATION \/ type_y bc = TRANSLATION)) as [Hkind|Hkind].
  2:{ apply Hkeep. intros (bc' & Hbc' & Hkind'). congruence. }
  clear Hkeep.
  assert (Htrans : translation_boundary k) by (by exists bc).
  destruct (keep_nodes_spec k (boundary k) K) as (Hlen' & Hdup' & Hother & Hmine & Hjoin');
    [lia | done |].
  cbn zeta in Hlen', Hdup', Hother, Hmine, Hjoin'.
  set (K' := foldl (keep_node k) K (boundary k)) in *.
  split; [congruence|]. split; [done|]. split.
  - intros node. rewrite Hjoin', Hjoin. split.
    + intros [(b & Hb & Hrest)|Hnode].
      * exists b. split; [lia|done].
      * exists k. split; [lia|done].
    + intros (b & Hb & Hkindb & Hnode). destruct (decide (b = k)) as [->|Hne].
      * by right.
      * left. exists b. split; [lia|done].
  - intros b node. destruct (decide (b = k)) as [->|Hne].
    + rewrite Hmine, Hlists, Hjoin. split.
      * intros [[? _]|[Hnode Hnew]]; [lia|].
        split; [lia|]. split; [done|]. split; [done|].
        intros b' Hb' Hkind' Hnode'. apply Hnew. by exists b'.
      * intros (_ & _ & Hnode & Hfirst). right. split; [done|].
        intros (b' & Hb' & Hkind' & Hnode'). by apply (Hfirst b').
    + rewrite Hother, Hlists by done. split; intros [Hb Hrest]; (split; [lia|done]).
Qed.

End kinematic.

(** X18: [kinematic_nodes_vectors] returns one list for each boundary
    condition. A node is in the list of the boundary [b] exactly when [b]
    prescribes a translation along an axis, the node lies on [b] and it lies
    on no earlier boundary that prescribes a translation: every node of
    such boundaries goes to the first one that holds it. No node is listed
    twice, in one list or in two. *)
Theorem X18_kinematic_nodes_go_to_their_first_translation_boundary :
  forall (T : Type) (boundary : nat -> list nat)
         (bounds_cond : list (statics_with_nonloc.boundary_condition T)),
    let K := statics_with_nonloc.kinematic_nodes_vectors boundary bounds_cond in
    length K = length bounds_cond
    /\ NoDup (mjoin K)
    /\ forall b node,
         node ∈ K !!! b <->
         translation_boundary bounds_cond b /\ node ∈ boundary b
         /\ forall b', b' < b -> translation_boundary bounds_cond b' -> node ∉ boundary b'.
Proof.
  intros T boundary bounds_cond K.
  destruct (kinematic_nodes_loop boundary bounds_cond (length bounds_cond) (le_n _))
    as (Hlen & Hdup & _ & Hlists).
  change (foldl _ _ (seq 0 (length bounds_cond))) with K in Hlen, Hdup, Hlists.
  split; [done|]. split; [done|]. intros b node. rewrite Hlists.
  split; [by intros [_ ?]|]. intros (Hkind & Hrest). split; [|done].
  destruct Hkind as (bc & Hbc & _). by eapply lookup_lt_Some.
Qed.

(** ** The two passes over the triplets *)

(** A cursor that writes the kept items one after the other. *)
Lemma cursor_fill {A C : Type} (keep : C -> bool) (val : C -> A) (l : list C) :
  forall (data : list A) (j : nat),
    j + length (filter (fun c => keep c = true) l) <= length data ->
    foldl (fun (s : list A * nat) c =>
             if keep c then (<[s.2 := val c]> s.1, S s.2) else s) (data, j) l
    = (take j data ++ (val <$> filter (fun c => keep c = true) l)
         ++ drop (j + length (filter (fun c => keep c = true) l)) data,
       j + length (filter (fun c => keep c = true) l)).
Proof.
  induction l as [|c l IH]; intros data j Hj; cbn [foldl].
  { cbn [filter list_filter length fmap list_fmap app]. rewrite Nat.add_0_r.
    by rewrite take_drop. }
  destruct (keep c) eqn:Hc.
  - rewrite filter_cons_True in Hj |- * by done. cbn [length fmap list_fmap] in Hj |- *.
    cbn [fst snd]. rewrite IH by (rewrite length_insert; lia).
    f_equal; [|lia].
    rewrite (take_S_r _ j (val c)) by (apply list_lookup_insert_eq; lia).
    rewrite take_insert_ge by lia. rewrite drop_insert_lt by lia.
    rewrite <- app_assoc. cbn [app].
    by replace (j + S (length (filter (fun c => keep c = true) l)))
      with (S j + length (filter (fun c => keep c = true) l)) by lia.
  - rewrite filter_cons_False in Hj |- * by (by rewrite Hc). by apply IH.
Qed.

(** The same with the cursor kept in the cell [el] of an array. *)
Lemma cursor_fill_at {A C : Type} (keep : C -> bool) (val : C -> A) (el : nat)
    (l : list C) :
  forall (cur : list nat) (data : list A),
    el < length cur ->
    foldl (fun (s : list nat * list A) c =>
             if keep c
             then (<[el := S (s.1 !!! el)]> s.1, <[s.1 !!! el := val c]> s.2)
             else s) (cur, data) l
    = let r := foldl (fun (s : list A * nat) c =>
                        if keep c then (<[s.2 := val c]> s.1, S s.2) else s)
                     (data, cur !!! el) l in
      (<[el := r.2]> cur, r.1).
Proof.
  induction l as [|c l IH]; intros cur data Hel; cbn [foldl].
  { cbn zeta. cbn [fst snd]. rewrite list_insert_id; [done|].
    by apply list_lookup_lookup_total_lt. }
  destruct (keep c); [|by apply IH].
  cbn [fst snd]. rewrite IH by (by rewrite length_insert). cbn zeta.
  rewrite list_lookup_total_insert_eq by done. by rewrite list_insert_insert_eq.
Qed.

Section passes.
Context {A C : Type}.
Variable keep : nat -> C -> bool.
Variable val : nat -> C -> A.
Variable calls : nat -> list C.

(** The calls of the element [el] that are kept, in the order of the
    calls. *)
Definition kept_calls (el : nat) : list C :=
  filter (fun c => keep el c = true) (calls el).

(** The counting pass: the cell [el + 1] counts the kept calls of [el]. *)
Lemma count_pass (n : nat) (s0 : list nat) :
  length s0 = S n ->
  let s :=
    foldl (fun s el =>
      foldl (fun s c => if keep el c then <[S el := S (s !!! S el)]> s else s)
            s (calls el)) s0 (seq 0 n) in
  length s = S n
  /\ s !!! 0 = s0 !!! 0
  /\ forall el, el < n -> s !!! S el = s0 !!! S el + length (kept_calls el).
Proof.
  intros Hlen.
  assert (Hinner : forall el (l : list C) (s : list nat),
            S el < length s ->
            foldl (fun s c => if keep el c then <[S el := S (s !!! S el)]> s else s) s l
            = <[S el := s !!! S el + length (filter (fun c => keep el c = true) l)]> s).
  { intros el l. induction l as [|c l IH]; intros s Hs; cbn [foldl].
    { cbn [filter list_filter length]. rewrite Nat.add_0_r, list_insert_id; [done|].
      by apply list_lookup_lookup_total_lt. }
    destruct (keep el c) eqn:Hc.
    - rewrite filter_cons_True by done. rewrite IH by (by rewrite length_insert).
      rewrite list_lookup_total_insert_eq by done. rewrite list_insert_insert_eq.
      cbn [length]. f_equal. lia.
    - rewrite filter_cons_False by (by rewrite Hc). by apply IH. }
  assert (Hgen : forall k, k <= n ->
            let s :=
              foldl (fun s el =>
                foldl (fun s c => if keep el c then <[S el := S (s !!! S el)]> s else s)
                      s (calls el)) s0 (seq 0 k) in
            length s = S n
            /\ (forall el, el < k -> s !!! S el = s0 !!! S el + length (kept_calls el))
            /\ (forall p, p = 0 \/ k < p -> s !!! p = s0 !!! p)).
  { induction k as [|k IH]; intros Hk.
    { cbn [seq foldl]. split; [done|]. split; [intros; lia|done]. }
    cbn zeta in IH |- *. rewrite seq_S, foldl_app. cbn [foldl Nat.add].
    destruct (IH ltac:(lia)) as (Hl & Hcounted & Hrest). clear IH.
    set (s := foldl _ s0 (seq 0 k)) in *.
    rewrite Hinner by lia. split; [by rewrite length_insert|]. split.
    - intros el Hel. destruct (decide (el = k)) as [->|Hne].
      + rewrite list_lookup_total_insert_eq by lia. rewrite Hrest by lia. done.
      + rewrite list_lookup_total_insert_ne by lia. apply Hcounted. lia.
    - intros p Hp. rewrite list_lookup_total_insert_ne by lia. apply Hrest. lia. }
  destruct (Hgen n (le_n _)) as (Hl & Hcounted & Hrest).
  cbn zeta. split; [done|]. split; [|done]. apply Hrest. by left.
Qed.

(** The filling pass: with cursors that start where the counts say, the
    kept calls of the elements fill the cells from [shifts[0]] on, element
    after element and call after call. *)
Lemma fill_pass (n : nat) (shifts : list nat) (data0 : list A) :
  length shifts = S n ->
  (forall el, el < n -> shifts !!! S el = shifts !!! el + length (kept_calls el)) ->
  length data0 = shifts !!! n ->
  (foldl (fun (s : list nat * list A) el =>
     foldl (fun (s : list nat * list A) c =>
              if keep el c
              then (<[el := S (s.1 !!! el)]> s.1, <[s.1 !!! el := val el c]> s.2)
              else s) s (calls el))
     (shifts, data0) (seq 0 n)).2
  = take (shifts !!! 0) data0 ++ mjoin ((fun el => val el <$> kept_calls el) <$> seq 0 n).
Proof.
  intros Hlen Hstep Hdata.
  assert (Hmono : forall k k', k <= k' -> k' <= n -> shifts !!! k <= shifts !!! k').
  { intros k k' Hle Hk'. induction Hle as [|k' Hle IH]; [done|].
    specialize (IH ltac:(lia)). rewrite Hstep by lia. lia. }
  assert (Hgen : forall k, k <= n ->
            let r :=
              foldl (fun (s : list nat * list A) el =>
                foldl (fun (s : list nat * list A) c =>
                         if keep el c
                         then (<[el := S (s.1 !!! el)]> s.1, <[s.1 !!! el := val el c]> s.2)
                         else s) s (calls el))
                (shifts, data0) (seq 0 k) in
            let filled :=
              take (shifts !!! 0) data0
              ++ mjoin ((fun el => val el <$> kept_calls el) <$> seq 0 k) in
            length r.1 = S n
            /\ (forall el, k <= el -> r.1 !!! el = shifts !!! el)
            /\ length filled = shifts !!! k
            /\ r.2 = filled ++ drop (shifts !!! k) data0).
  { induction k as [|k IH]; intros Hk.
    { cbn [seq foldl fmap list_fmap mjoin list_join fst snd]. cbn zeta.
      rewrite app_nil_r. split; [done|]. split; [done|].
      pose proof (Hmono 0 n ltac:(lia) ltac:(lia)).
      split; [rewrite length_take; lia|]. by rewrite take_drop. }
    cbn zeta in IH |- *. rewrite seq_S, foldl_app, fmap_app, join_app.
    cbn [foldl Nat.add fmap list_fmap mjoin list_join]. rewrite app_nil_r.
    rewrite !(app_assoc (take (shifts !!! 0) data0)).
    destruct (IH ltac:(lia)) as (Hl & Hcur & Hfilled & Hr). clear IH.
    set (r := foldl _ (shifts, data0) (seq 0 k)) in *.
    set (filled := take (shifts !!! 0) data0 ++ mjoin _) in *.
    destruct r as [cur data]. cbn [fst snd] in Hl, Hcur, Hr.
    rewrite (cursor_fill_at (keep k) (val k) k (calls k) cur data) by lia.
    cbn zeta. rewrite Hcur by lia.
    pose proof (Hmono (S k) n ltac:(lia) ltac:(lia)) as Hend.
    rewrite Hstep in Hend by lia. fold (kept_calls k).
    assert (Hsize : length data = length data0).
    { rewrite Hr, length_app, length_drop, Hfilled.
      pose proof (Hmono k n ltac:(lia) ltac:(lia)). lia. }
    rewrite cursor_fill by (fold (kept_calls k); lia). fold (kept_calls k).
    cbn [fst snd]. split; [by rewrite length_insert|]. split.
    { intros el Hel. rewrite list_lookup_total_insert_ne by lia. apply Hcur. lia. }
    split.
    { rewrite length_app, length_fmap, Hfilled, Hstep by lia. done. }
    rewrite Hr. rewrite take_app_length' by done.
    rewrite <- Hfilled at 1. rewrite drop_app_add, drop_drop.
    rewrite <- app_assoc. do 2 f_equal. rewrite Hstep by lia. done. }
  destruct (Hgen n (le_n _)) as (_ & _ & Hfilled & Hr). cbn zeta in Hr.
  rewrite Hr, drop_ge by lia. by rewrite app_nil_r.
Qed.

End passes.

Lemma filter_ext_in {A} (P1 P2 : A -> Prop) `{!forall x, Decision (P1 x)}
    `{!forall x, Decision (P2 x)} (l : list A) :
  (forall x, x ∈ l -> P1 x <-> P2 x) -> filter P1 l = filter P2 l.
Proof.
  induction l as [|x l IH]; intros Hiff; [done|].
  rewrite !filter_cons.
  rewrite IH by (intros y Hy; apply Hiff; by apply list_elem_of_further).
  pose proof (Hiff x (list_elem_of_here _ _)) as Hx.
  destruct (decide (P1 x)), (decide (P2 x)); tauto || done.
Qed.

(** Counting the cleared flags by index or by item. *)
Lemma count_cleared (l : list bool) :
  length (filter (fun i => l !!! i = false) (seq 0 (length l)))
  = length (filter (fun b => b = false) l).
Proof.
  induction l as [|x l IH] using rev_ind; [done|].
  rewrite length_app. cbn [length]. rewrite Nat.add_1_r, seq_S, !filter_app, !length_app.
  cbn [Nat.add]. f_equal.
  - rewrite <- IH. f_equal. apply filter_ext_in. intros i Hi%elem_of_seq.
    by rewrite lookup_total_app_l by lia.
  - rewrite !filter_cons. cbn [filter list_filter].
    rewrite list_lookup_total_middle by done.
    by destruct (decide (x = false)).
Qed.

(** The prefix sums of the elasticity solver, written from the first cell
    on. *)
Lemma statics_prefix_sums (shifts : list nat) (n : nat) :
  length shifts = S n ->
  let sums := statics_with_nonloc.prefix_sums shifts in
  length sums = S n
  /\ sums !!! 0 = shifts !!! 0
  /\ forall el, el < n -> sums !!! S el = sums !!! el + shifts !!! S el.
Proof.
  intros Hlen. cbn zeta. unfold statics_with_nonloc.prefix_sums. rewrite Hlen.
  replace (S n - 1) with n by lia.
  rewrite <- fmap_S_seq, foldl_fmap.
  rewrite (foldl_ext_in _ (fun o i => <[S i := o !!! S i + o !!! i]> o)).
  2:{ intros o i _. by rewrite Nat.sub_1_r. }
  destruct (prefix_sums_loop shifts n Hlen) as [Hlength Hsums]. cbn zeta in Hlength, Hsums.
  split; [done|]. split.
  - rewrite Hsums by lia. destruct shifts as [|x shifts]; [done|].
    change (x + 0 = x). lia.
  - intros el Hel. rewrite !Hsums by lia. apply sum_list_take_S. lia.
Qed.

Section triplets.
Import mesh statics_with_nonloc.
Context {T : Type} `{!Scalar T}.
Variable mesh : mesh_2d T.
Variable inner_nodes : list bool.

(** A call of [counter_loc] or [filler_loc]: the local indices [i] and [j],
    the projection and the form. *)
Definition call : Type := nat * nat * component * component.

(** The calls that [mesh_run_loc] makes for the element [el], in order. *)
Definition visits (el : nat) : list call :=
  i ← seq 0 (finite_element.nodes_count (element_2d mesh el));
  j ← seq 0 (finite_element.nodes_count (element_2d mesh el));
  [(i, j, X, X); (i, j, X, Y); (i, j, Y, X); (i, j, Y, Y)].

Definition row_of (el : nat) (c : call) : nat :=
  2 * node_number mesh el c.1.1.1 + size_t c.1.2.

Definition col_of (el : nat) (c : call) : nat :=
  2 * node_number mesh el c.1.1.2 + size_t c.2.

(** The call stores a triplet of the matrix: [row >= col] and both degrees
    of freedom are inner. *)
Definition kept (el : nat) (c : call) : bool :=
  bool_decide (col_of el c <= row_of el c)
  && ((inner_nodes !!! row_of el c) && (inner_nodes !!! col_of el c)).

(** The call stores a triplet of the boundary matrix: [row > col] and one
    of the two degrees of freedom is not inner. *)
Definition kept_bound (el : nat) (c : call) : bool :=
  bool_decide (col_of el c <= row_of el c)
  && (negb ((inner_nodes !!! row_of el c) && (inner_nodes !!! col_of el c))
      && negb (bool_decide (row_of el c = col_of el c))).

Lemma mesh_run_loc_visits {S : Type} (step : S -> nat -> call -> S)
    (rule : S -> nat -> nat -> nat -> S) (s : S) :
  (forall s i j el,
     rule s i j el
     = foldl (fun s c => step s el c) s [(i, j, X, X); (i, j, X, Y); (i, j, Y, X); (i, j, Y, Y)]) ->
  finite_element_routine.mesh_run_loc mesh rule s
  = foldl (fun s el => foldl (fun s c => step s el c) s (visits el)) s
          (seq 0 (elements_count_2d mesh)).
Proof.
  intros Hrule. unfold finite_element_routine.mesh_run_loc, visits.
  apply foldl_ext_in. intros s' el _. cbn zeta.
  rewrite foldl_bind. apply foldl_ext_in. intros s'' i _.
  rewrite foldl_bind. apply foldl_ext_in. intros s''' j _.
  apply Hrule.
Qed.

Lemma counter_loc_fst (s : list nat * list nat) (el : nat) (c : call) :
  (counter_loc mesh inner_nodes s c.1.1.1 c.1.1.2 el c.1.2 c.2).1
  = if kept el c then <[S el := S (s.1 !!! S el)]> s.1 else s.1.
Proof.
  unfold counter_loc, kept. fold (row_of el c) (col_of el c).
  destruct (bool_decide (col_of el c <= row_of el c)); [|done].
  cbn [andb]. destruct (_ && _); [done|].
  by destruct (negb _).
Qed.

Lemma counter_loc_snd (s : list nat * list nat) (el : nat) (c : call) :
  (counter_loc mesh inner_nodes s c.1.1.1 c.1.1.2 el c.1.2 c.2).2
  = if kept_bound el c then <[S el := S (s.2 !!! S el)]> s.2 else s.2.
Proof.
  unfold counter_loc, kept_bound. fold (row_of el c) (col_of el c).
  destruct (bool_decide (col_of el c <= row_of el c)); [|done].
  cbn [andb]. destruct (_ && _); [done|].
  cbn [negb andb]. by destruct (negb _).
Qed.

(** What [mesh_analysis] returns for a local problem. *)
Lemma mesh_analysis_spec :
  let n := elements_count_2d mesh in
  let shifts := mesh_analysis mesh inner_nodes in
  length shifts.1 = S n /\ length shifts.2 = S n
  /\ shifts.1 !!! 0 = length (filter (fun b => b = false) inner_nodes)
  /\ shifts.2 !!! 0 = 0
  /\ (forall el, el < n ->
        shifts.1 !!! S el = shifts.1 !!! el + length (kept_calls kept visits el))
  /\ (forall el, el < n ->
        shifts.2 !!! S el = shifts.2 !!! el + length (kept_calls kept_bound visits el)).
Proof.
  intros n shifts. subst shifts. unfold mesh_analysis.
  rewrite (mesh_run_loc_visits
             (fun s el c => counter_loc mesh inner_nodes s c.1.1.1 c.1.1.2 el c.1.2 c.2))
    by done.
  fold n. set (s0 := (replicate (n + 1) 0, replicate (n + 1) 0)).
  set (s := foldl _ s0 (seq 0 n)).
  assert (Hfst : s.1 = foldl (fun s el =>
                         foldl (fun s c => if kept el c then <[S el := S (s !!! S el)]> s else s)
                               s (visits el)) s0.1 (seq 0 n)).
  { subst s. apply (foldl_project (fun s : list nat * list nat => s.1)). intros a el.
    apply (foldl_project (fun s : list nat * list nat => s.1)). intros a' c.
    apply counter_loc_fst. }
  assert (Hsnd : s.2 = foldl (fun s el =>
                         foldl (fun s c =>
                                  if kept_bound el c then <[S el := S (s !!! S el)]> s else s)
                               s (visits el)) s0.2 (seq 0 n)).
  { subst s. apply (foldl_project (fun s : list nat * list nat => s.2)). intros a el.
    apply (foldl_project (fun s : list nat * list nat => s.2)). intros a' c.
    apply counter_loc_snd. }
  assert (Hzeros : length (replicate (n + 1) 0) = S n) by (rewrite length_replicate; lia).
  destruct (count_pass kept visits n s0.1 Hzeros) as (Hlen1 & Hfirst1 & Hcount1).
  destruct (count_pass kept_bound visits n s0.2 Hzeros) as (Hlen2 & Hfirst2 & Hcount2).
  cbn zeta in Hlen1, Hfirst1, Hcount1, Hlen2, Hfirst2, Hcount2.
  rewrite <- Hfst in Hlen1, Hfirst1, Hcount1. rewrite <- Hsnd in Hlen2, Hfirst2, Hcount2.
  clear Hfst Hsnd. cbn [fst snd] in *.
  assert (Hzero : forall p, replicate (n + 1) 0 !!! p = 0).
  { intros p. rewrite list_lookup_total_alt. destruct (decide (p < n + 1)).
    - by rewrite lookup_replicate_2.
    - rewrite lookup_ge_None_2; [done|]. rewrite length_replicate. lia. }
  destruct (statics_prefix_sums (<[0 := length (filter (fun b => b = false) inner_nodes)]> s.1) n)
    as (Hl1 & Hz1 & Hs1); [by rewrite length_insert|].
  destruct (statics_prefix_sums s.2 n) as (Hl2 & Hz2 & Hs2); [done|].
  cbn zeta in Hl1, Hz1, Hs1, Hl2, Hz2, Hs2.
  split; [done|]. split; [done|]. split.
  { rewrite Hz1. rewrite list_lookup_total_insert_eq by lia. done. }
  split.
  { rewrite Hz2, Hfirst2. apply Hzero. }
  split.
  - intros el Hel. rewrite Hs1 by done. rewrite list_lookup_total_insert_ne by lia.
    rewrite Hcount1 by done. by rewrite Hzero.
  - intros el Hel. rewrite Hs2 by done. rewrite Hcount2 by done. by rewrite Hzero.
Qed.

Variable integrate_rule : component -> component -> nat -> nat -> nat -> T.

(** The triplet that a kept call stores in [triplets]. *)
Definition triplet_of (el : nat) (c : call) : Triplet (T := T) :=
  (row_of el c, col_of el c, integrate_rule c.1.2 c.2 el c.1.1.1 c.1.1.2).

(** The triplet that a kept call stores in [triplets_bound]. *)
Definition bound_triplet_of (el : nat) (c : call) : Triplet (T := T) :=
  if (inner_nodes !!! col_of el c : bool)
  then (col_of el c, row_of el c, integrate_rule c.1.2 c.2 el c.1.1.1 c.1.1.2)
  else (row_of el c, col_of el c, integrate_rule c.1.2 c.2 el c.1.1.1 c.1.1.2).

(** The unit diagonal of the degrees of freedom that are not inner. *)
Definition unit_triplets : list (Triplet (T := T)) :=
  (fun i => (i, i, one)) <$> filter (fun i => inner_nodes !!! i = false)
                                    (seq 0 (length inner_nodes)).

Lemma unit_diagonal_spec (triplets : list (Triplet (T := T))) :
  length (filter (fun b => b = false) inner_nodes) <= length triplets ->
  unit_diagonal inner_nodes triplets
  = unit_triplets ++ drop (length (filter (fun b => b = false) inner_nodes)) triplets.
Proof.
  intros Hlen. unfold unit_diagonal, unit_triplets.
  assert (Hfilter : filter (fun i => negb (inner_nodes !!! i) = true)
                           (seq 0 (length inner_nodes))
                    = filter (fun i => inner_nodes !!! i = false)
                             (seq 0 (length inner_nodes))).
  { apply list_filter_iff. intros i. apply negb_true_iff. }
  pose proof (cursor_fill (fun i => negb (inner_nodes !!! i))
                (fun i => (i, i, one) : Triplet (T := T))
                (seq 0 (length inner_nodes)) triplets 0) as Hfill.
  cbn beta in Hfill. rewrite Hfilter, count_cleared in Hfill. specialize (Hfill Hlen).
  etrans; [exact (f_equal fst Hfill)|]. cbn [fst]. by rewrite take_0.
Qed.

Lemma filler_loc_inner (s : filling (T := T)) (el : nat) (c : call) :
  let s' := filler_loc mesh inner_nodes s c.1.1.1 c.1.1.2 el c.1.2 c.2
              (integrate_rule c.1.2 c.2 el c.1.1.1 c.1.1.2) in
  (shifts_loc s', triplets s')
  = if kept el c
    then (<[el := S (shifts_loc s !!! el)]> (shifts_loc s),
          <[shifts_loc s !!! el := triplet_of el c]> (triplets s))
    else (shifts_loc s, triplets s).
Proof.
  cbn zeta. unfold filler_loc, kept, triplet_of. fold (row_of el c) (col_of el c).
  destruct (bool_decide (col_of el c <= row_of el c)); [|done].
  cbn [andb]. destruct (_ && _); [done|].
  by destruct (negb _).
Qed.

Lemma filler_loc_bound (s : filling (T := T)) (el : nat) (c : call) :
  let s' := filler_loc mesh inner_nodes s c.1.1.1 c.1.1.2 el c.1.2 c.2
              (integrate_rule c.1.2 c.2 el c.1.1.1 c.1.1.2) in
  (shifts_bound_loc s', triplets_bound s')
  = if kept_bound el c
    then (<[el := S (shifts_bound_loc s !!! el)]> (shifts_bound_loc s),
          <[shifts_bound_loc s !!! el := bound_triplet_of el c]> (triplets_bound s))
    else (shifts_bound_loc s, triplets_bound s).
Proof.
  cbn zeta. unfold filler_loc, kept_bound, bound_triplet_of.
  fold (row_of el c) (col_of el c).
  destruct (bool_decide (col_of el c <= row_of el c)); [|done].
  cbn [andb]. destruct (_ && _); [done|].
  cbn [negb andb]. by destruct (negb _).
Qed.

Lemma triplets_fill_spec :
  triplets_fill mesh inner_nodes integrate_rule
  = (unit_triplets
       ++ mjoin ((fun el => triplet_of el <$> kept_calls kept visits el)
                   <$> seq 0 (elements_count_2d mesh)),
     mjoin ((fun el => bound_triplet_of el <$> kept_calls kept_bound visits el)
              <$> seq 0 (elements_count_2d mesh))).
Proof.
  unfold triplets_fill.
  destruct mesh_analysis_spec as (Hlen1 & Hlen2 & Hfirst1 & Hfirst2 & Hstep1 & Hstep2).
  cbn zeta in Hlen1, Hlen2, Hfirst1, Hfirst2, Hstep1, Hstep2.
  set (shifts := mesh_analysis mesh inner_nodes) in *.
  set (n := elements_count_2d mesh) in *.
  rewrite (back_lookup_total shifts.1 n) by lia.
  rewrite (back_lookup_total shifts.2 n) by lia.
  assert (Hmono : forall k, k <= n -> shifts.1 !!! 0 <= shifts.1 !!! k).
  { induction k as [|k IH]; intros Hk; [done|]. rewrite Hstep1 by lia.
    specialize (IH ltac:(lia)). lia. }
  rewrite unit_diagonal_spec
    by (rewrite length_replicate, <- Hfirst1; by apply Hmono).
  set (U := unit_triplets ++ _).
  assert (HU : length U = shifts.1 !!! n /\ take (shifts.1 !!! 0) U = unit_triplets).
  { assert (Hunit : length unit_triplets = shifts.1 !!! 0).
    { unfold unit_triplets. by rewrite length_fmap, count_cleared, Hfirst1. }
    subst U. split.
    - rewrite length_app, length_drop, length_replicate, Hunit, <- Hfirst1.
      pose proof (Hmono n (le_n _)). lia.
    - by rewrite <- Hunit, take_app_length. }
  destruct HU as [HUlen HUtake].
  rewrite (mesh_run_loc_visits
             (fun s el c => filler_loc mesh inner_nodes s c.1.1.1 c.1.1.2 el c.1.2 c.2
                              (integrate_rule c.1.2 c.2 el c.1.1.1 c.1.1.2)))
    by done.
  fold n. set (s0 := {| shifts_loc := shifts.1 |}).
  set (s := foldl _ s0 (seq 0 n)).
  assert (Hinner : (shifts_loc s, triplets s)
                   = foldl (fun (s : list nat * list (Triplet (T := T))) el =>
                       foldl (fun (s : list nat * list (Triplet (T := T))) c =>
                                if kept el c
                                then (<[el := S (s.1 !!! el)]> s.1,
                                      <[s.1 !!! el := triplet_of el c]> s.2)
                                else s) s (visits el))
                       (shifts.1, U) (seq 0 n)).
  { subst s.
    apply (foldl_project (fun s : filling (T := T) => (shifts_loc s, triplets s))).
    intros a el.
    apply (foldl_project (fun s : filling (T := T) => (shifts_loc s, triplets s))).
    intros a' c. apply filler_loc_inner. }
  assert (Hbound : (shifts_bound_loc s, triplets_bound s)
                   = foldl (fun (s : list nat * list (Triplet (T := T))) el =>
                       foldl (fun (s : list nat * list (Triplet (T := T))) c =>
                                if kept_bound el c
                                then (<[el := S (s.1 !!! el)]> s.1,
                                      <[s.1 !!! el := bound_triplet_of el c]> s.2)
                                else s) s (visits el))
                       (shifts.2, replicate (shifts.2 !!! n) (0, 0, zero)) (seq 0 n)).
  { subst s.
    apply (foldl_project
             (fun s : filling (T := T) => (shifts_bound_loc s, triplets_bound s))).
    intros a el.
    apply (foldl_project
             (fun s : filling (T := T) => (shifts_bound_loc s, triplets_bound s))).
    intros a' c. apply filler_loc_bound. }
  apply (f_equal snd) in Hinner, Hbound. cbn [snd] in Hinner, Hbound.
  rewrite Hinner, Hbound.
  rewrite (fill_pass kept triplet_of visits n shifts.1 U Hlen1 Hstep1 HUlen).
  rewrite (fill_pass kept_bound bound_triplet_of visits n shifts.2 _ Hlen2 Hstep2)
    by apply length_replicate.
  by rewrite HUtake, Hfirst2, take_0.
Qed.

End triplets.

(** X19: [mesh_analysis] for a local problem, on flags that cover the degrees
    of freedom of the mesh, returns two arrays of [elements_count + 1]
    offsets. The offsets of the matrix start at the number of cleared
    flags, those of the boundary matrix at zero, and the step from the cell
    of an element to the next is the number of calls of this element that
    store a triplet there: the calls with [row >= col] and two inner
    degrees of freedom for the matrix, those with [row > col] and a degree
    of freedom that is not inner for the boundary matrix. *)
Theorem X19_mesh_analysis_counts_the_triplets_of_each_element :
  forall (T : Type) (ST : Scalar T) (mesh : mesh.mesh_2d T) (inner_nodes : list bool),
    (forall el i,
       el < mesh.elements_count_2d mesh ->
       i < nodes_count (mesh.element_2d mesh el) ->
       2 * mesh.node_number mesh el i + 1 < length inner_nodes) ->
    let n := mesh.elements_count_2d mesh in
    let shifts := statics_with_nonloc.mesh_analysis mesh inner_nodes in
    length shifts.1 = n + 1 /\ length shifts.2 = n + 1
    /\ shifts.1 !!! 0 = length (filter (fun b => b = false) inner_nodes)
    /\ shifts.2 !!! 0 = 0
    /\ forall el, el < n ->
         shifts.1 !!! S el
         = shifts.1 !!! el + length (kept_calls (kept mesh inner_nodes) (visits mesh) el)
         /\ shifts.2 !!! S el
            = shifts.2 !!! el
              + length (kept_calls (kept_bound mesh inner_nodes) (visits mesh) el).
Proof.
  intros T ST mesh inner_nodes _ n shifts.
  destruct (mesh_analysis_spec mesh inner_nodes)
    as (Hlen1 & Hlen2 & Hfirst1 & Hfirst2 & Hstep1 & Hstep2).
  cbn zeta in Hlen1, Hlen2, Hfirst1, Hfirst2, Hstep1, Hstep2.
  fold n shifts in Hlen1, Hlen2, Hfirst1, Hfirst2, Hstep1, Hstep2.
  rewrite Nat.add_1_r. split; [done|]. split; [done|]. split; [done|]. split; [done|].
  intros el Hel. split; [by apply Hstep1 | by apply Hstep2].
Qed.

Lemma X19_mesh_analysis_counts_the_triplets_of_each_element_witness :
  let shifts := statics_with_nonloc.mesh_analysis inputs.square (replicate 8 true) in
  length shifts.1 = 2 /\ length shifts.2 = 2.
Proof.
  destruct (X19_mesh_analysis_counts_the_triplets_of_each_element float double
              inputs.square (replicate 8 true)) as (Hlen1 & Hlen2 & _).
  - intros el i Hel Hi. vm_compute in Hel, Hi. rewrite length_replicate.
    change (mesh.node_number inputs.square el i) with i. lia.
  - split; [exact Hlen1 | exact Hlen2].
Defined.

(** X20: [triplets_fill] for a local problem, on flags that cover the
    degrees of freedom of the mesh, fills every cell that [mesh_analysis]
    reserved and writes nowhere else. The triplets of the matrix are the
    unit diagonal of the degrees of freedom whose flag is cleared, in
    ascending order, followed by the triplets of the kept calls, element
    after element and call after call; the triplets of the boundary matrix
    are those of the calls kept for it, in the same order, with the row and
    the column swapped when the column is inner. No default triplet is
    left. *)
Theorem X20_triplets_fill_stores_the_kept_calls_in_order :
  forall (T : Type) (ST : Scalar T) (mesh : mesh.mesh_2d T) (inner_nodes : list bool)
         (integrate_rule : statics_with_nonloc.component -> statics_with_nonloc.component ->
                           nat -> nat -> nat -> T),
    (forall el i,
       el < mesh.elements_count_2d mesh ->
       i < nodes_count (mesh.element_2d mesh el) ->
       2 * mesh.node_number mesh el i + 1 < length inner_nodes) ->
    statics_with_nonloc.triplets_fill mesh inner_nodes integrate_rule
    = (unit_triplets inner_nodes
         ++ mjoin ((fun el =>
                      triplet_of mesh integrate_rule el
                        <$> kept_calls (kept mesh inner_nodes) (visits mesh) el)
                     <$> seq 0 (mesh.elements_count_2d mesh)),
       mjoin ((fun el =>
                 bound_triplet_of mesh inner_nodes integrate_rule el
                   <$> kept_calls (kept_bound mesh inner_nodes) (visits mesh) el)
                <$> seq 0 (mesh.elements_count_2d mesh))).
Proof.
  intros T ST mesh inner_nodes integrate_rule _. apply triplets_fill_spec.
Qed.

Lemma X20_triplets_fill_stores_the_kept_calls_in_order_witness :
  statics_with_nonloc.triplets_fill inputs.square (replicate 8 true)
    (fun _ _ _ _ _ => 1%float)
  = (unit_triplets (replicate 8 true)
       ++ mjoin ((fun el =>
                    triplet_of inputs.square (fun _ _ _ _ _ => 1%float) el
                      <$> kept_calls (kept inputs.square (replicate 8 true))
                            (visits inputs.square) el)
                   <$> seq 0 (mesh.elements_count_2d inputs.square)),
     mjoin ((fun el =>
               bound_triplet_of inputs.square (replicate 8 true)
                 (fun _ _ _ _ _ => 1%float) el
                 <$> kept_calls (kept_bound inputs.square (replicate 8 true))
                       (visits inputs.square) el)
              <$> seq 0 (mesh.elements_count_2d inputs.square))).
Proof.
  apply (X20_triplets_fill_stores_the_kept_calls_in_order float double inputs.square
           (replicate 8 true) (fun _ _ _ _ _ => 1%float)).
  intros el i Hel Hi. vm_compute in Hel, Hi. rewrite length_replicate.
  change (mesh.node_number inputs.square el i) with i. lia.
Defined.

(** ** The geometry on the shifts of the mesh *)

(** Offsets that start at zero and step by the size of each block leave no
    cell of the vector outside of the blocks. *)
Lemma blocks_tile (n : nat) (qnodes : nat -> nat) (offset : nat -> nat) :
  offset 0 = 0 ->
  (forall e, e < n -> offset (S e) = offset e + qnodes e) ->
  forall p, p < offset n ->
    exists e q, e < n /\ q < qnodes e /\ p = offset e + q.
Proof.
  intros Hzero Hstep.
  assert (Hgen : forall k, k <= n -> forall p, p < offset k ->
            exists e q, e < k /\ q < qnodes e /\ p = offset e + q).
  { induction k as [|k IH]; intros Hk p Hp; [lia|].
    destruct (decide (p < offset k)) as [Hlt|Hge].
    - destruct (IH ltac:(lia) p Hlt) as (e & q & He & Hq & ->).
      exists e, q. split; [lia|done].
    - rewrite Hstep in Hp by lia. exists k, (p - offset k).
      split; [lia|]. split; lia. }
  by apply Hgen.
Qed.

(** X21: the shifts of [quadrature_shifts_init] start at zero, have one cell
    more than the mesh has elements and step by the number of quadrature
    nodes of each element. On them the loops shared by
    [approx_all_quad_nodes] and [approx_all_jacobi_matrices] throw nothing
    and return a vector with one entry for every quadrature node of the
    mesh: the entry of the node [q] of the element [e] stands at
    [shifts[e] + q] and holds the contributions of the nodes of the element,
    and every cell of the vector is the entry of some quadrature node. *)
Theorem X21_geometry_on_the_shifts_of_the_mesh :
  forall (T : Type) (ST : Scalar T) (A : Type) (mesh : mesh.mesh_2d T) (cleared : A)
         (contribution : nat -> nat -> nat -> A -> A),
    let n := mesh.elements_count_2d mesh in
    let qnodes e := qnodes_count (mesh.element_2d mesh e) in
    let shifts := finite_element_routine.quadrature_shifts_init mesh in
    length shifts = n + 1
    /\ shifts !!! 0 = 0%Z
    /\ (forall e, e < n -> shifts !!! S e = (shifts !!! e + Z.of_nat (qnodes e))%Z)
    /\ exists data,
         finite_element_routine.accumulate_in_quad_nodes mesh cleared contribution shifts
         = returned data
         /\ Z.of_nat (length data) = shifts !!! n
         /\ (forall e q, e < n -> q < qnodes e ->
               data !! (Z.to_nat (shifts !!! e) + q)
               = Some (accumulated mesh cleared contribution e q))
         /\ (forall p, p < length data ->
               exists e q, e < n /\ q < qnodes e /\ p = Z.to_nat (shifts !!! e) + q).
Proof.
  intros T ST A mesh cleared contribution n qnodes shifts.
  destruct (quadrature_shifts_2d_spec n qnodes) as (Hlen & Hzero & Hstep).
  change (utils.quadrature_shifts_2d n qnodes) with shifts in Hlen, Hzero, Hstep.
  split; [done|]. split; [done|]. split; [done|].
  assert (Hord : blocks_in_order n qnodes shifts).
  { split; [by rewrite Hzero|]. intros e He. rewrite Hstep by done. lia. }
  assert (Hpos : forall e, e <= n -> (0 <= shifts !!! e)%Z).
  { intros e He. by apply (blocks_in_order_nonneg n qnodes). }
  unfold finite_element_routine.accumulate_in_quad_nodes. fold n.
  destruct (decide (n + 1 ≠ length shifts)) as [Hne|_]; [lia|].
  rewrite (back_I_lookup_total shifts n Hlen).
  rewrite vector_of_size_returned by (by apply Hpos). cbn [mbind outcome_bind].
  set (step := fun (e q : nat) (data : outcome (list A)) =>
         foldl (fun data i =>
                  data ≫= update_at_I (shifts !!! e + Z.of_nat q)%Z (contribution e q i))
               data (seq 0 (nodes_count (mesh.element_2d mesh e)))).
  change (foldl _ ?d (seq 0 n)) with (mesh_loop qnodes step d n).
  destruct (mesh_loop_spec n qnodes (fun e => Z.to_nat (shifts !!! e)) step
              (fun e q a => foldl (fun a i => contribution e q i a) a
                              (seq 0 (nodes_count (mesh.element_2d mesh e)))))
    with (cleared := cleared) (k := n)
    as (data & Hrun & Hlength & Hset & _).
  { intros e q data a He Ha. unfold step.
    apply update_at_I_repeated; [|done]. apply Hpos. lia. }
  { by apply blocks_in_order_offsets. }
  { done. }
  exists data. split; [done|]. split; [pose proof (Hpos n (le_n n)); lia|].
  split; [done|].
  intros p Hp. rewrite Hlength in Hp.
  apply (blocks_tile n qnodes (fun e => Z.to_nat (shifts !!! e))); [|  |done].
  - by rewrite Hzero.
  - intros e He. rewrite Hstep by done. pose proof (Hpos e ltac:(lia)). lia.
Qed.

(** * The solution of the heat equation *)

Section solution.
Context {T : Type} `{!Scalar T}.
Variable temperature : list T.

(** The turn of the loop of the constructor. *)
Definition copy_cell (_temperature : outcome (list T)) (i : nat) : outcome (list T) :=
  _temperature ← _temperature;
  match temperature !! i with
  | Some value => returned (<[i := value]> _temperature)
  | None => undefined
  end.

Lemma copy_cells (n k : nat) :
  k <= n -> k <= length temperature ->
  foldl copy_cell (returned (replicate n zero)) (seq 0 k)
  = returned (take k temperature ++ replicate (n - k) zero).
Proof.
  induction k as [|k IH]; intros Hn Hk.
  { cbn [seq foldl take app]. by rewrite Nat.sub_0_r. }
  rewrite seq_S, foldl_app, IH by lia. cbn [foldl Nat.add]. unfold copy_cell.
  cbn [mbind outcome_bind].
  destruct (lookup_lt_is_Some_2 temperature k ltac:(lia)) as [value Hvalue].
  rewrite Hvalue. f_equal.
  rewrite (take_S_r _ _ _ Hvalue).
  replace (n - k) with (S (n - S k)) by lia. cbn [replicate].
  rewrite insert_app_r_alt by (rewrite length_take; lia).
  rewrite length_take, Nat.min_l by lia. rewrite Nat.sub_diag. cbn [insert list_insert].
  by rewrite <- app_assoc.
Qed.

Lemma copy_cell_undefined (l : list nat) : foldl copy_cell undefined l = undefined.
Proof. by induction l. Qed.

Lemma copy_cell_no_throw (l : list nat) (start : outcome (list T)) exn :
  (forall exn', start <> thrown exn') -> foldl copy_cell start l <> thrown exn.
Proof.
  intros Hstart. revert exn.
  apply (foldl_invariant (fun d : outcome (list T) => forall exn, d <> thrown exn)); [done|].
  intros d i Hd exn. unfold copy_cell.
  destruct d as [v|exn'|]; cbn [mbind outcome_bind]; [|by destruct (Hd exn')|done].
  by destruct (temperature !! i).
Qed.

End solution.

(** X22: the constructor of [heat::solution] keeps the proxy and the first
    [nodes_count] values of the vector it is given, which
    [get_temperature] returns; the values past the number of nodes are
    dropped. On a vector with fewer values than the mesh has nodes it reads
    past the end of the vector. It throws nothing. *)
Theorem X22_solution_keeps_the_temperatures_of_the_nodes :
  forall (T : Type) (ST : Scalar T) (mesh_proxy : mesh.mesh_proxy T) (temperature : list T),
    let nodes_count := mesh.nodes_count_all (mesh.mesh mesh_proxy) in
    (nodes_count <= length temperature ->
     exists s, heat.make_solution mesh_proxy temperature = returned s
               /\ heat._mesh_proxy s = mesh_proxy
               /\ heat.get_temperature s = take nodes_count temperature)
    /\ (length temperature < nodes_count ->
        heat.make_solution mesh_proxy temperature = undefined)
    /\ forall exn, heat.make_solution mesh_proxy temperature <> thrown exn.
Proof.
  intros T ST mesh_proxy temperature nodes_count.
  unfold heat.make_solution. fold nodes_count.
  change (foldl _ ?d ?l) with (foldl (copy_cell temperature) d l).
  unfold vector_resize. rewrite take_nil, Nat.sub_0_r. cbn [app length].
  split; [|split].
  - intros Hlen. rewrite copy_cells by lia. cbn [mbind outcome_bind].
    eexists. split; [done|]. split; [done|]. cbn [heat.get_temperature heat._temperature].
    rewrite Nat.sub_diag. cbn [replicate]. by rewrite app_nil_r.
  - intros Hlen.
    replace nodes_count
      with (length temperature + S (nodes_count - S (length temperature))) at 2 by lia.
    rewrite seq_app, foldl_app, copy_cells by lia.
    cbn [seq foldl Nat.add]. unfold copy_cell at 2. cbn [mbind outcome_bind].
    rewrite lookup_ge_None_2 by lia. by rewrite copy_cell_undefined.
  - intros exn Hthrown.
    destruct (foldl (copy_cell temperature) _ _) as [v|exn'|] eqn:Hloop;
      cbn [mbind outcome_bind] in Hthrown; [done| |done].
    revert Hloop. by apply copy_cell_no_throw.
Qed.

(** ** The numeric pass over the one-dimensional matrix *)

Section compressed.
Import Eigen.
Context {T : Type} `{!Scalar T}.

(** The three arrays agree: one offset per row and one more, offsets in
    order, and as many indices and values as the last offset says.  A
    matrix in compressed mode is of this kind; for the record of a matrix
    that [coeffRef] has inserted into, it says that the rows are laid out one
    after the other, not that Eigen holds them so. *)
Definition compressed (K : SparseMatrix T) : Prop :=
  length (outerIndexPtr K) = S (rows K)
  /\ (forall i, i < rows K -> outerIndexPtr K !!! i <= outerIndexPtr K !!! S i)
  /\ length (innerIndexPtr K) = outerIndexPtr K !!! rows K
  /\ length (valuePtr K) = outerIndexPtr K !!! rows K.

(** Every row holds its columns in strictly ascending order, none of them
    before the diagonal. *)
Definition upper_sorted (K : SparseMatrix T) : Prop :=
  forall i, i < rows K ->
    StronglySorted lt (row_indices K i) /\ Forall (le i) (row_indices K i).

Lemma compressed_mono (K : SparseMatrix T) i j :
  compressed K -> i <= j -> j <= rows K ->
  outerIndexPtr K !!! i <= outerIndexPtr K !!! j.
Proof.
  intros (_ & Hord & _) Hle Hj. induction Hle as [|j Hle IH]; [done|].
  specialize (IH ltac:(lia)). specialize (Hord j ltac:(lia)). lia.
Qed.

Lemma row_indices_lookup (K : SparseMatrix T) i j :
  row_indices K i !! j
  = if decide (j < outerIndexPtr K !!! S i - outerIndexPtr K !!! i)
    then innerIndexPtr K !! (outerIndexPtr K !!! i + j) else None.
Proof.
  unfold row_indices. case_decide.
  - by rewrite lookup_take_lt, lookup_drop.
  - by rewrite lookup_take_ge by lia.
Qed.

Lemma length_row_indices (K : SparseMatrix T) i :
  compressed K -> i < rows K ->
  length (row_indices K i) = outerIndexPtr K !!! S i - outerIndexPtr K !!! i.
Proof.
  intros HK Hi. unfold row_indices. rewrite length_take, length_drop.
  pose proof (compressed_mono K (S i) (rows K) HK ltac:(lia) ltac:(lia)) as Hend.
  destruct HK as (Hlen & Hord & Hinner & _).
  specialize (Hord i Hi). lia.
Qed.

(** The columns below [c] of a sorted row are its first columns. *)
Lemma sorted_split (c : nat) (l : list nat) :
  StronglySorted lt l ->
  let m := length (filter (fun k => k < c) l) in
  m <= length l /\ Forall (fun k => k < c) (take m l) /\ Forall (fun k => c <= k) (drop m l).
Proof.
  induction 1 as [|x l Hsorted IH Hx]; cbn zeta.
  { cbn. split; [done|]. split; constructor. }
  rewrite filter_cons. destruct (decide (x < c)) as [Hlt|Hge].
  - cbn [length take drop]. destruct IH as (Hm & Htake & Hdrop).
    split; [lia|]. split; [by constructor | done].
  - assert (Hnone : filter (fun k => k < c) l = []).
    { clear IH Hsorted. induction Hx as [|y l Hy Hx IH]; [done|].
      rewrite filter_cons_False by lia. done. }
    rewrite Hnone. cbn [length take drop]. split; [lia|]. split; [constructor|].
    constructor; [lia|]. eapply Forall_impl; [exact Hx|]. intros y Hy. cbn in Hy. lia.
Qed.

Lemma sorted_insert (c m : nat) (l : list nat) :
  StronglySorted lt l -> c ∉ l ->
  Forall (fun k => k < c) (take m l) -> Forall (fun k => c <= k) (drop m l) ->
  StronglySorted lt (take m l ++ c :: drop m l).
Proof.
  intros Hsorted Hnew Htake Hdrop.
  rewrite <- (take_drop m l) in Hsorted. apply StronglySorted_app in Hsorted
    as (Hcross & Hl & Hr).
  assert (Hdrop' : Forall (lt c) (drop m l)).
  { rewrite Forall_forall in Hdrop |- *. intros y Hy.
    pose proof (Hdrop y Hy). assert (y <> c); [|lia].
    intros ->. apply Hnew. rewrite <- (take_drop m l). apply elem_of_app. by right. }
  apply StronglySorted_app. split; [|split; [done|by constructor]].
  intros x y Hx Hy. apply elem_of_cons in Hy as [->|Hy].
  - rewrite Forall_forall in Htake. by apply Htake.
  - by apply Hcross.
Qed.

(** What [coeffRef] does to the rows: the row [row] gains the column
    [col] at its place when it did not hold it, and no other row changes. *)
Lemma coeffRef_update_rows (f : T -> T) (K : SparseMatrix T) (row col : nat) :
  compressed K -> row < rows K -> StronglySorted lt (row_indices K row) ->
  let K' := coeffRef_update f K row col in
  compressed K' /\ rows K' = rows K /\ cols K' = cols K
  /\ (forall i, i < rows K -> i <> row -> row_indices K' i = row_indices K i)
  /\ StronglySorted lt (row_indices K' row)
  /\ (forall c, c ∈ row_indices K' row <-> c = col \/ c ∈ row_indices K row).
Proof.
  intros HK Hrow Hsorted. cbn zeta. unfold coeffRef_update.
  pose proof (length_row_indices K row HK Hrow) as Hlen_stored.
  pose proof (compressed_mono K row (S row) HK ltac:(lia) ltac:(lia)) as Hstart.
  pose proof (compressed_mono K (S row) (rows K) HK ltac:(lia) ltac:(lia)) as Hend.
  set (stored := row_indices K row) in *.
  destruct (list_find (fun k => k = col) stored) as [[d k]|] eqn:Hfind.
  { apply list_find_Some in Hfind as (Hd & -> & _).
    split.
    { destruct HK as (H1 & H2 & H3 & H4). unfold compressed.
      cbn [set_values rows outerIndexPtr innerIndexPtr valuePtr].
      by rewrite length_insert. }
    split; [done|]. split; [done|]. split; [done|]. split; [done|].
    intros c. split; [by right|]. intros [->|Hc]; [|done].
    by eapply list_elem_of_lookup_2. }
  apply list_find_None in Hfind.
  assert (Hnew : col ∉ stored).
  { intros Hin. rewrite Forall_forall in Hfind. by apply (Hfind col Hin). }
  destruct (sorted_split col stored Hsorted) as (Hm & Htake & Hdrop).
  cbn zeta in Hm, Htake, Hdrop.
  set (m := length (filter (fun k => k < col) stored)) in *.
  set (o := outerIndexPtr K) in *. set (inn := innerIndexPtr K).
  set (start := o !!! row) in *. set (p := start + m).
  set (o' := imap (fun i o => if bool_decide (row < i) then S o else o) o).
  set (inn' := take p inn ++ col :: drop p inn).
  destruct HK as (Hlen_o & Hord & Hlen_inn & Hlen_val).
  fold o in Hlen_o, Hord, Hlen_inn, Hlen_val. fold inn in Hlen_inn.
  assert (Hp : p <= o !!! S row) by (unfold p; lia).
  assert (Hp' : p <= length inn) by lia.
  assert (Ho' : forall i, i <= rows K ->
            o' !!! i = if bool_decide (row < i) then S (o !!! i) else o !!! i).
  { intros i Hi. unfold o'. rewrite !list_lookup_total_alt, list_lookup_imap.
    destruct (lookup_lt_is_Some_2 o i ltac:(lia)) as [x Hx]. by rewrite Hx. }
  assert (Hlt : forall q, q < p -> inn' !! q = inn !! q).
  { intros q Hq. unfold inn'. rewrite lookup_app_l by (rewrite length_take; lia).
    by apply lookup_take_lt. }
  assert (Hat : inn' !! p = Some col).
  { unfold inn'. apply list_lookup_middle. rewrite length_take. lia. }
  assert (Hgt : forall q, p <= q -> inn' !! S q = inn !! q).
  { intros q Hq. unfold inn'. rewrite lookup_app_r by (rewrite length_take; lia).
    rewrite length_take, Nat.min_l by lia.
    replace (S q - p) with (S (q - p)) by lia.
    change ((col :: drop p inn) !! S (q - p)) with (drop p inn !! (q - p)).
    rewrite lookup_drop. f_equal. lia. }
  assert (Hrows' : forall i j,
            i < rows K ->
            take (o' !!! S i - o' !!! i) (drop (o' !!! i) inn') !! j
            = if decide (j < o' !!! S i - o' !!! i) then inn' !! (o' !!! i + j) else None).
  { intros i j Hi. case_decide.
    - by rewrite lookup_take_lt, lookup_drop.
    - by rewrite lookup_take_ge by lia. }
  split.
  { unfold compressed. cbn [rows outerIndexPtr innerIndexPtr valuePtr].
    fold o o' inn inn'. split; [unfold o'; by rewrite length_imap|]. split.
    - intros i Hi. rewrite !Ho' by lia. specialize (Hord i Hi).
      repeat case_bool_decide; lia.
    - rewrite Ho' by lia. rewrite bool_decide_true by lia.
      unfold inn'. rewrite !length_app. cbn [length].
      rewrite !length_take, !length_drop. lia. }
  split; [done|]. split; [done|].
  assert (Hmine : take (o' !!! S row - o' !!! row) (drop (o' !!! row) inn')
                  = take m stored ++ col :: drop m stored).
  { apply list_eq. intros j. rewrite Hrows' by done.
    rewrite (Ho' row), (Ho' (S row)) by lia.
    rewrite (bool_decide_false (row < row)), (bool_decide_true (row < S row)) by lia.
    fold start.
    destruct (decide (j < m)) as [Hj|Hj].
    - rewrite decide_True by lia. rewrite Hlt by (unfold p; lia).
      rewrite lookup_app_l by (rewrite length_take; lia).
      rewrite lookup_take_lt by done. unfold stored. rewrite row_indices_lookup.
      fold o start. by rewrite decide_True by lia.
    - destruct (decide (j = m)) as [->|Hne].
      + rewrite decide_True by lia. fold p. rewrite Hat. symmetry.
        apply list_lookup_middle. rewrite length_take. lia.
      + destruct j as [|j]; [lia|].
        rewrite lookup_app_r by (rewrite length_take; lia).
        rewrite length_take, Nat.min_l by lia.
        replace (S j - m) with (S (j - m)) by lia.
        change ((col :: drop m stored) !! S (j - m)) with (drop m stored !! (j - m)).
        rewrite lookup_drop. replace (m + (j - m)) with j by lia.
        unfold stored. rewrite row_indices_lookup. fold o start.
        destruct (decide (S j < S (o !!! S row) - start)).
        * rewrite decide_True by lia.
          replace (start + S j) with (S (start + j)) by lia.
          apply Hgt. unfold p. lia.
        * by rewrite decide_False by lia. }
  split; [|split].
  - intros i Hi Hne. apply list_eq. intros j.
    unfold row_indices at 1. cbn [outerIndexPtr innerIndexPtr]. fold o o' inn inn'.
    rewrite Hrows' by done. rewrite row_indices_lookup. fold o inn.
    rewrite (Ho' i), (Ho' (S i)) by lia.
    destruct (decide (i < row)) as [Hbefore|Hafter].
    + rewrite !bool_decide_false by lia. case_decide; [|done].
      apply Hlt.
      pose proof (compressed_mono K (S i) row
                    (conj Hlen_o (conj Hord (conj Hlen_inn Hlen_val))) ltac:(lia) ltac:(lia))
        as Hchain.
      fold o start in Hchain. unfold p. lia.
    + rewrite !bool_decide_true by lia.
      replace (S (o !!! S i) - S (o !!! i)) with (o !!! S i - o !!! i) by lia.
      case_decide; [|done].
      replace (S (o !!! i) + j) with (S (o !!! i + j)) by lia. apply Hgt.
      pose proof (compressed_mono K (S row) i
                    (conj Hlen_o (conj Hord (conj Hlen_inn Hlen_val))) ltac:(lia) ltac:(lia))
        as Hchain.
      fold o in Hchain. lia.
  - unfold row_indices at 1. cbn [outerIndexPtr innerIndexPtr]. fold o o' inn inn'.
    rewrite Hmine. by apply sorted_insert.
  - intros c. unfold row_indices at 1. cbn [outerIndexPtr innerIndexPtr].
    fold o o' inn inn'. rewrite Hmine.
    rewrite elem_of_app, elem_of_cons. rewrite <- (take_drop m stored) at 3.
    rewrite elem_of_app. tauto.
Qed.

End compressed.

Section calc_matrix.
Import Eigen finite_element_solver_base_1d.
Context {T : Type} `{!Scalar T}.
Variable mesh : mesh_1d T.

(** The record is well formed and of the rows and columns of [K0], its
    rows are sorted and hold nothing before the diagonal, and they hold the
    columns that the rows of [K0] held. *)
Definition kept_upper (K0 K : SparseMatrix T) : Prop :=
  compressed K /\ rows K = rows K0 /\ cols K = cols K0 /\ upper_sorted K
  /\ forall i c, i < rows K0 -> c ∈ row_indices K0 i -> c ∈ row_indices K i.

Lemma coeffRef_update_kept_upper (f : T -> T) (K0 K : SparseMatrix T) (row col : nat) :
  kept_upper K0 K -> row < rows K0 -> row <= col ->
  kept_upper K0 (coeffRef_update f K row col).
Proof.
  intros (HK & Hrows & Hcols & Hupper & Hkept) Hrow Hcol.
  destruct (Hupper row ltac:(lia)) as [Hsorted Hdiag].
  destruct (coeffRef_update_rows f K row col HK ltac:(lia) Hsorted)
    as (HK' & Hrows' & Hcols' & Hother & Hsorted' & Hmine).
  cbn zeta in HK', Hrows', Hcols', Hother, Hsorted', Hmine.
  split; [done|]. split; [congruence|]. split; [congruence|]. split.
  - intros i Hi. rewrite Hrows' in Hi. destruct (decide (i = row)) as [->|Hne].
    + split; [done|]. apply Forall_forall. intros c [->|Hc]%Hmine; [done|].
      rewrite Forall_forall in Hdiag. by apply Hdiag.
    + rewrite Hother by done. by apply Hupper.
  - intros i c Hi Hc. destruct (decide (i = row)) as [->|Hne].
    + apply Hmine. right. by apply Hkept.
    + rewrite Hother by lia. by apply Hkept.
Qed.

Hypothesis node_elements_number : forall node e i,
  node < nodes_count_all mesh -> Some (e, i) ∈ node_elements mesh node ->
  node_number mesh e i = node.

Lemma calc_matrix_kept_upper (K_inner : SparseMatrix T)
    (K_bound : list (nat * T) * list (nat * T))
    (neumann_task : bool) (boundary_first_kind : bool * bool)
    (integrate_rule_loc : nat -> nat -> nat -> T)
    (integrate_rule_nonloc : nat -> nat -> nat -> nat -> (T -> T -> T) -> T)
    (nonlocal_task : bool) (influence_fun : T -> T -> T) :
  compressed K_inner -> upper_sorted K_inner ->
  nodes_count_all mesh <= rows K_inner ->
  kept_upper K_inner
    (calc_matrix mesh K_inner K_bound neumann_task boundary_first_kind
       integrate_rule_loc integrate_rule_nonloc nonlocal_task influence_fun).
Proof.
  intros HK Hupper Hnodes. unfold calc_matrix.
  assert (Hstart : kept_upper K_inner K_inner) by (by split).
  set (K1 := if neumann_task then _ else K_inner).
  assert (H1 : kept_upper K_inner K1).
  { subst K1. destruct neumann_task; [|done].
    apply (foldl_invariant_in (kept_upper K_inner)); [|done].
    intros K node Hnode%elem_of_seq HKn.
    apply (foldl_invariant (kept_upper K_inner)).
    - apply coeffRef_update_kept_upper; [done|lia|lia].
    - intros K' [[e i]|] HK'; [|done].
      apply coeffRef_update_kept_upper; [done|lia|lia]. }
  set (K2 := mesh_run_local mesh _ K1).
  assert (H2 : kept_upper K_inner K2).
  { subst K2. unfold mesh_run_local.
    apply (foldl_invariant_in (kept_upper K_inner)); [|done].
    intros K node Hnode%elem_of_seq HKn.
    apply (foldl_invariant_in (kept_upper K_inner)); [|done].
    intros K' [[e i]|] Hei HK'; [|done].
    apply (foldl_invariant (kept_upper K_inner)); [done|].
    intros K'' j HK''. cbn zeta. case_bool_decide as Hle; [|done].
    apply coeffRef_update_kept_upper; [done| |done].
    rewrite (node_elements_number node e i) by (done || lia). lia. }
  destruct nonlocal_task; [|done].
  unfold mesh_run_nonlocal.
  apply (foldl_invariant_in (kept_upper K_inner)); [|done].
  intros K node Hnode%elem_of_seq HKn.
  apply (foldl_invariant_in (kept_upper K_inner)); [|done].
  intros K' [[e i]|] Hei HK'; [|done]. cbn zeta.
  apply (foldl_invariant (kept_upper K_inner)); [done|].
  intros K'' eNL HK''.
  apply (foldl_invariant (kept_upper K_inner)); [done|].
  intros K3 j HK3. case_bool_decide as Hle; [|done].
  apply coeffRef_update_kept_upper; [done| |done].
  rewrite (node_elements_number node e i) by (done || lia). lia.
Qed.

End calc_matrix.

(** X23: [calc_matrix] of the one-dimensional solver, on a matrix in
    compressed mode with a row for every node of a mesh whose
    [node_elements] agree with [node_number], keeps the size of the matrix.
    When the rows come in sorted and without a column before the diagonal,
    they leave the same way, whatever the boundary flags and the task: the
    pass stores nothing below the diagonal, and a column that it adds goes
    to its place in the row. No column that a row held is lost.  The rows are
    the lists of the columns stored in them; how Eigen lays them out after an
    insertion is not part of the statement. *)
Theorem X23_calc_matrix_keeps_the_rows_upper_and_sorted :
  forall (T : Type) (ST : Scalar T) (mesh : finite_element_solver_base_1d.mesh_1d T)
         (K_inner : Eigen.SparseMatrix T) (K_bound : list (nat * T) * list (nat * T))
         (neumann_task : bool) (boundary_first_kind : bool * bool)
         (integrate_rule_loc : nat -> nat -> nat -> T)
         (integrate_rule_nonloc : nat -> nat -> nat -> nat -> (T -> T -> T) -> T)
         (nonlocal_task : bool) (influence_fun : T -> T -> T),
    compressed K_inner -> upper_sorted K_inner ->
    finite_element_solver_base_1d.nodes_count_all mesh <= Eigen.rows K_inner ->
    (forall node e i,
       node < finite_element_solver_base_1d.nodes_count_all mesh ->
       Some (e, i) ∈ finite_element_solver_base_1d.node_elements mesh node ->
       finite_element_solver_base_1d.node_number mesh e i = node) ->
    let K :=
      finite_element_solver_base_1d.calc_matrix mesh K_inner K_bound neumann_task
        boundary_first_kind integrate_rule_loc integrate_rule_nonloc nonlocal_task
        influence_fun in
    Eigen.rows K = Eigen.rows K_inner /\ Eigen.cols K = Eigen.cols K_inner
    /\ upper_sorted K
    /\ forall i c, i < Eigen.rows K_inner ->
         c ∈ Eigen.row_indices K_inner i -> c ∈ Eigen.row_indices K i.
Proof.
  intros T ST mesh K_inner K_bound neumann_task boundary_first_kind integrate_rule_loc
         integrate_rule_nonloc nonlocal_task influence_fun HK Hupper Hnodes Hmesh K.
  by apply calc_matrix_kept_upper.
Qed.

Lemma X23_calc_matrix_keeps_the_rows_upper_and_sorted_witness :
  let K :=
    finite_element_solver_base_1d.calc_matrix (inputs.segment inputs.linear_gauss1)
      (Eigen.make 3 3) ([], []) false (false, false) (fun _ _ _ => 1%float)
      (fun _ _ _ _ _ => 1%float) false (fun _ _ => 0%float) in
  Eigen.row_indices K 0 = [0; 1] /\ Eigen.row_indices K 1 = [1; 2]
  /\ Eigen.row_indices K 2 = [2] /\ upper_sorted K.
Proof.
  split; [reflexivity|]. split; [reflexivity|]. split; [reflexivity|].
  destruct (X23_calc_matrix_keeps_the_rows_upper_and_sorted float double
              (inputs.segment inputs.linear_gauss1) (Eigen.make 3 3) ([], []) false
              (false, false) (fun _ _ _ => 1%float) (fun _ _ _ _ _ => 1%float) false
              (fun _ _ => 0%float))
    as (_ & _ & Hupper & _).
  - split; [reflexivity|]. split; [|split; reflexivity].
    intros i Hi. cbn in Hi. by destruct i as [|[|[|i]]]; [..|lia].
  - intros i Hi. cbn in Hi. destruct i as [|[|[|i]]]; [..|lia]; (split; constructor).
  - vm_compute. lia.
  - intros node e i Hnode Hin. cbn in Hnode.
    destruct node as [|[|[|node]]]; [..|lia]; cbn in Hin;
      repeat (apply elem_of_cons in Hin as [Hin|Hin]; [by simplify_eq|]);
      by apply elem_of_nil in Hin.
  - exact Hupper.
Defined.

(** ** The matrix of the one-dimensional solver *)

Lemma seq_sorted (a n : nat) : StronglySorted lt (seq a n) /\ Forall (le a) (seq a n).
Proof.
  split.
  - revert a. induction n as [|n IH]; intros a; cbn [seq]; constructor; [apply IH|].
    apply Forall_forall. intros x Hx%elem_of_seq. lia.
  - apply Forall_forall. intros x Hx%elem_of_seq. lia.
Qed.

(** Outside of a Neumann task the portrait is a compressed matrix with
    sorted rows that start on the diagonal. *)
Lemma portrait_compressed {T : Type} `{!Scalar T}
    (mesh : finite_element_solver_base_1d.mesh_1d T)
    (fresh_index : nat -> nat) (fresh_value : nat -> T) (K_inner : Eigen.SparseMatrix T)
    (boundary_first_kind : bool * bool) (nonlocal_task : bool) :
  length (Eigen.outerIndexPtr K_inner) = S (Eigen.rows K_inner) ->
  let K :=
    finite_element_solver_base_1d.create_matrix_portrait mesh fresh_index fresh_value
      K_inner false boundary_first_kind nonlocal_task in
  compressed K /\ Eigen.rows K = Eigen.rows K_inner /\ Eigen.cols K = Eigen.cols K_inner
  /\ upper_sorted K.
Proof.
  intros Hlen K. subst K. unfold finite_element_solver_base_1d.create_matrix_portrait.
  destruct (portrait_counts_frame mesh K_inner boundary_first_kind nonlocal_task)
    as (Hr1 & Hc1 & Ho1 & Hi1 & Hv1).
  set (K1 := finite_element_solver_base_1d.portrait_counts mesh K_inner boundary_first_kind
               nonlocal_task) in *.
  assert (Hlen1 : length (Eigen.outerIndexPtr K1) = S (Eigen.rows K1)) by congruence.
  destruct (prepare_memory_offsets fresh_index fresh_value K1 Hlen1)
    as (Hr3 & Hc3 & Ho3 & Hstep & Hinner3 & Hvalues3).
  set (K3 := finite_element_solver_base_1d.prepare_memory fresh_index fresh_value K1) in *.
  assert (Hpos : forall r, r < Eigen.rows K3 ->
            Eigen.outerIndexPtr K3 !!! r <= Eigen.outerIndexPtr K3 !!! S r).
  { intros r Hr. rewrite Hstep by lia. lia. }
  destruct (fill_rows_spec false 0 K3) as (Hr5 & Hc5 & Ho5 & Hrows);
    [congruence | done | rewrite Hinner3, Hr3; done | rewrite Hvalues3, Hr3; done | done |].
  pose proof (fill_rows (finite_element_solver_base_1d.Nat_of_bool false)
                (seq 0 (Eigen.rows K3)) K3) as Hfill.
  cbn zeta in Hfill.
  set (R := foldl _ K3 (seq 0 (Eigen.rows K3))) in *.
  match goal with |- compressed ?X /\ _ => change X with R end.
  assert (Hlen_inner : length (Eigen.innerIndexPtr R) = length (Eigen.innerIndexPtr K3)).
  { rewrite Hfill. cbn [Eigen.innerIndexPtr].
    apply (foldl_invariant (fun l : list nat => length l = length (Eigen.innerIndexPtr K3)));
      [done|].
    intros l i Hl.
    apply (foldl_invariant (fun l : list nat => length l = length (Eigen.innerIndexPtr K3)));
      [done|].
    intros l' d Hl'. case_bool_decide; [by rewrite length_insert | done]. }
  assert (Hlen_values : length (Eigen.valuePtr R) = length (Eigen.valuePtr K3)).
  { rewrite Hfill. cbn [Eigen.valuePtr].
    apply (foldl_invariant (fun l : list T => length l = length (Eigen.valuePtr K3)));
      [done|].
    intros l i Hl.
    apply (foldl_invariant (fun l : list T => length l = length (Eigen.valuePtr K3)));
      [done|].
    intros l' d Hl'. by rewrite length_insert. }
  split.
  { unfold compressed. rewrite Ho5, Hr5, Hlen_inner, Hlen_values.
    split; [congruence|]. split; [done|]. split; [by rewrite Hinner3, Hr3|].
    by rewrite Hvalues3, Hr3. }
  split; [congruence|]. split; [congruence|].
  intros i Hi. rewrite Hr5 in Hi. destruct (Hrows i Hi) as [_ Hindices].
  cbn zeta in Hindices. rewrite Hindices. apply seq_sorted.
Qed.

(** X24: outside of a Neumann task, [create_matrix] of the one-dimensional
    solver, on a matrix whose offset array has [rows + 1] cells and that
    has a row for every node and for every row that the elements name, on
    a mesh with at least one node whose [node_elements] agree with
    [node_number] (and, in a nonlocal task, where the neighbours of an
    element end past the element, so that no count wraps around), returns a
    matrix of the same size in which every row holds its columns in strictly
    ascending order, none of them before the diagonal.  The rows are the lists
    of the columns stored in them; how Eigen lays them out after an insertion
    is not part of the statement. *)
Theorem X24_the_1d_matrix_is_upper_triangular_and_sorted :
  forall (T : Type) (ST : Scalar T) (mesh : finite_element_solver_base_1d.mesh_1d T)
         (fresh_index : nat -> nat) (fresh_value : nat -> T)
         (K_inner : Eigen.SparseMatrix T) (K_bound : list (nat * T) * list (nat * T))
         (bound_cond : finite_element_solver_base_1d.stationary_boundary)
         (integrate_rule_loc : nat -> nat -> nat -> T)
         (integrate_rule_nonloc : nat -> nat -> nat -> nat -> (T -> T -> T) -> T)
         (nonlocal_task : bool) (influence_fun : T -> T -> T),
    length (Eigen.outerIndexPtr K_inner) = S (Eigen.rows K_inner) ->
    0 < finite_element_solver_base_1d.nodes_count_all mesh ->
    finite_element_solver_base_1d.nodes_count_all mesh <= Eigen.rows K_inner ->
    (forall e i,
       e < finite_element_solver_base_1d.elements_count mesh ->
       i < nodes_count (finite_element_solver_base_1d.element mesh) ->
       e * (nodes_count (finite_element_solver_base_1d.element mesh) - 1) + i + 1
       <= Eigen.rows K_inner) ->
    (nonlocal_task = true ->
     forall e, e < finite_element_solver_base_1d.elements_count mesh ->
       e < finite_element_solver_base_1d.right_neighbour mesh e) ->
    (forall node e i,
       node < finite_element_solver_base_1d.nodes_count_all mesh ->
       Some (e, i) ∈ finite_element_solver_base_1d.node_elements mesh node ->
       finite_element_solver_base_1d.node_number mesh e i = node) ->
    let K :=
      finite_element_solver_base_1d.create_matrix mesh fresh_index fresh_value K_inner
        K_bound false bound_cond integrate_rule_loc integrate_rule_nonloc nonlocal_task
        influence_fun in
    Eigen.rows K = Eigen.rows K_inner /\ Eigen.cols K = Eigen.cols K_inner
    /\ upper_sorted K.
Proof.
  intros T ST mesh fresh_index fresh_value K_inner K_bound bound_cond integrate_rule_loc
         integrate_rule_nonloc nonlocal_task influence_fun Hlen _ Hnodes _ _ Hmesh K.
  subst K. unfold finite_element_solver_base_1d.create_matrix.
  destruct (portrait_compressed mesh fresh_index fresh_value K_inner
              (finite_element_solver_base_1d.is_first_kind bound_cond.1,
               finite_element_solver_base_1d.is_first_kind bound_cond.2)
              nonlocal_task Hlen) as (HP & Hrows & Hcols & Hupper).
  cbn zeta in HP, Hrows, Hcols, Hupper |- *.
  set (P := finite_element_solver_base_1d.create_matrix_portrait _ _ _ _ _ _ _) in *.
  destruct (calc_matrix_kept_upper mesh Hmesh P K_bound false
              (finite_element_solver_base_1d.is_first_kind bound_cond.1,
               finite_element_solver_base_1d.is_first_kind bound_cond.2)
              integrate_rule_loc integrate_rule_nonloc nonlocal_task influence_fun
              HP Hupper ltac:(lia)) as (HK & Hrows' & Hcols' & Hupper' & _).
  split; [congruence|]. split; [congruence|done].
Qed.

Lemma X24_the_1d_matrix_is_upper_triangular_and_sorted_witness :
  let K :=
    finite_element_solver_base_1d.create_matrix (inputs.segment inputs.linear_gauss1)
      (fun _ => 7) (fun _ => 7%float) (Eigen.make 3 3) ([], []) false
      ((FIRST_KIND, 0%float), (SECOND_KIND, 1%float))
      (fun _ _ _ => 1%float) (fun _ _ _ _ _ => 1%float) false (fun _ _ => 0%float) in
  Eigen.row_indices K 0 = [0; 1] /\ Eigen.row_indices K 1 = [1; 2]
  /\ Eigen.row_indices K 2 = [2] /\ upper_sorted K.
Proof.
  split; [reflexivity|]. split; [reflexivity|]. split; [reflexivity|].
  destruct (X24_the_1d_matrix_is_upper_triangular_and_sorted float double
              (inputs.segment inputs.linear_gauss1) (fun _ => 7) (fun _ => 7%float)
              (Eigen.make 3 3) ([], []) ((FIRST_KIND, 0%float), (SECOND_KIND, 1%float))
              (fun _ _ _ => 1%float) (fun _ _ _ _ _ => 1%float) false (fun _ _ => 0%float))
    as (_ & _ & Hupper).
  - reflexivity.
  - vm_compute. lia.
  - vm_compute. lia.
  - intros e i He Hi. vm_compute in He, Hi. vm_compute Eigen.rows.
    vm_compute (nodes_count _). lia.
  - intros [=].
  - intros node e i Hnode Hin. cbn in Hnode.
    destruct node as [|[|[|node]]]; [..|lia]; cbn in Hin;
      repeat (apply elem_of_cons in Hin as [Hin|Hin]; [by simplify_eq|]);
      by apply elem_of_nil in Hin.
  - exact Hupper.
Defined.

(** ** The triplets of the nonlocal condition *)

(** A cursor that writes every item fills the cells from its start on. *)
Lemma cursor_write_all {A : Type} (items : list A) :
  forall (data : list A) (j : nat),
    j + length items <= length data ->
    foldl (fun (s : list A * nat) x => (<[s.2 := x]> s.1, S s.2)) (data, j) items
    = (take j data ++ items ++ drop (j + length items) data, j + length items).
Proof.
  intros data j Hj.
  pose proof (cursor_fill (fun _ : A => true) (fun x : A => x) items data j) as Hfill.
  assert (Hall : filter (fun _ : A => true = true) items = items).
  { clear. induction items as [|x items IH]; [done|].
    rewrite filter_cons_True by done. by rewrite IH. }
  cbn beta in Hfill. rewrite Hall, list_fmap_id in Hfill. by apply Hfill.
Qed.

Section nonlocal_condition.
Import mesh statics_with_nonloc.
Context {T : Type} `{!Scalar T}.
Variable mesh : mesh_2d T.
Variable jacobi_matrices : nat -> nat -> nat -> T.

(** The two triplets of the node [i] of the element [el]. *)
Definition condition_triplets (el i : nat) : list (Triplet (T := T)) :=
  [ (2 * nodes_count_all mesh, 2 * node_number mesh el i,
     integrate_basic (element_2d mesh el) i (jacobi_matrices el));
    (2 * nodes_count_all mesh + 1, 2 * node_number mesh el i + 1,
     integrate_basic (element_2d mesh el) i (jacobi_matrices el)) ].

Definition element_triplets (el : nat) : list (Triplet (T := T)) :=
  i ← seq 0 (finite_element.nodes_count (element_2d mesh el)); condition_triplets el i.

Lemma length_element_triplets (el : nat) :
  length (element_triplets el) = 2 * finite_element.nodes_count (element_2d mesh el).
Proof.
  unfold element_triplets.
  assert (Hgen : forall n a, length (seq a n ≫= condition_triplets el) = 2 * n).
  { induction n as [|n IH]; intros a; [done|].
    cbn [seq]. rewrite bind_cons, length_app, IH. unfold condition_triplets.
    cbn [length]. lia. }
  apply Hgen.
Qed.

Lemma triplets_count_spec (k : nat) :
  2 * foldl (fun triplets_count el =>
               triplets_count + finite_element.nodes_count (element_2d mesh el))
            0 (seq 0 k)
  = length (seq 0 k ≫= element_triplets).
Proof.
  induction k as [|k IH]; [done|].
  rewrite seq_S, foldl_app, bind_app, length_app. cbn [foldl Nat.add].
  cbn [mbind list_bind]. rewrite app_nil_r, length_element_triplets. lia.
Qed.

Lemma nonlocal_condition_spec :
  nonlocal_condition mesh jacobi_matrices
  = seq 0 (elements_count_2d mesh) ≫= element_triplets.
Proof.
  unfold nonlocal_condition. rewrite triplets_count_spec.
  set (items := seq 0 (elements_count_2d mesh) ≫= element_triplets).
  set (data := replicate (length items) _).
  assert (Hloop : forall (s : list (Triplet (T := T)) * nat),
            foldl (fun (s : list (Triplet (T := T)) * nat) el =>
              foldl (fun (s : list (Triplet (T := T)) * nat) i =>
                       let s := (<[s.2 := (2 * nodes_count_all mesh,
                                           2 * node_number mesh el i,
                                           integrate_basic (element_2d mesh el) i
                                             (jacobi_matrices el))]> s.1, S s.2) in
                       (<[s.2 := (2 * nodes_count_all mesh + 1,
                                  2 * node_number mesh el i + 1,
                                  integrate_basic (element_2d mesh el) i
                                    (jacobi_matrices el))]> s.1, S s.2))
                    s (seq 0 (finite_element.nodes_count (element_2d mesh el))))
              s (seq 0 (elements_count_2d mesh))
            = foldl (fun (s : list (Triplet (T := T)) * nat) x => (<[s.2 := x]> s.1, S s.2))
                    s items).
  { intros s. unfold items, element_triplets. rewrite foldl_bind.
    apply foldl_ext_in. intros s' el _. rewrite foldl_bind.
    apply foldl_ext_in. intros s'' i _. done. }
  cbn zeta. etrans; [exact (f_equal fst (Hloop (data, 0)))|].
  rewrite cursor_write_all by (unfold data; rewrite length_replicate; lia).
  cbn [fst]. rewrite take_0, drop_ge by (unfold data; rewrite length_replicate; lia).
  by rewrite app_nil_r.
Qed.

End nonlocal_condition.

(** X25: [nonlocal_condition] reserves two triplets for every node of every
    element and fills them all: the vector it hands to [setFromTriplets]
    holds, element after element and node after node, a triplet in the row
    [2 * nodes_count] at the column of the first degree of freedom of the
    node and one in the row [2 * nodes_count + 1] at the column of the
    second, both with the value of [integrate_basic]. No default triplet is
    left and nothing is written past the end. *)
Theorem X25_nonlocal_condition_fills_the_triplets_it_reserves :
  forall (T : Type) (ST : Scalar T) (mesh : mesh.mesh_2d T)
         (jacobi_matrices : nat -> nat -> nat -> T),
    let triplets := statics_with_nonloc.nonlocal_condition mesh jacobi_matrices in
    triplets
    = (el ← seq 0 (mesh.elements_count_2d mesh);
       i ← seq 0 (nodes_count (mesh.element_2d mesh el));
       [ (2 * mesh.nodes_count_all mesh, 2 * mesh.node_number mesh el i,
          statics_with_nonloc.integrate_basic (mesh.element_2d mesh el) i
            (jacobi_matrices el));
         (2 * mesh.nodes_count_all mesh + 1, 2 * mesh.node_number mesh el i + 1,
          statics_with_nonloc.integrate_basic (mesh.element_2d mesh el) i
            (jacobi_matrices el)) ])
    /\ length triplets
       = 2 * sum_list ((fun el => nodes_count (mesh.element_2d mesh el))
                         <$> seq 0 (mesh.elements_count_2d mesh)).
Proof.
  intros T ST mesh jacobi_matrices triplets. subst triplets.
  rewrite nonlocal_condition_spec. split; [done|].
  generalize (mesh.elements_count_2d mesh). intros n.
  induction n as [|n IH]; [done|].
  rewrite seq_S, bind_app, fmap_app, length_app, sum_list_with_app, IH.
  cbn [Nat.add]. cbn [mbind list_bind]. rewrite app_nil_r, length_element_triplets.
  cbn. lia.
Qed.

(** ** The two passes of a nonlocal problem *)

(** The filling pass on a vector that is longer than the cursors need: the
    cells past the last offset stay as they were. *)
Lemma fill_pass_within {A C : Type} (keep : nat -> C -> bool) (val : nat -> C -> A)
    (calls : nat -> list C) (n : nat) (shifts : list nat) (data0 : list A) :
  length shifts = S n ->
  (forall el, el < n ->
     shifts !!! S el = shifts !!! el + length (kept_calls keep calls el)) ->
  shifts !!! n <= length data0 ->
  (foldl (fun (s : list nat * list A) el =>
     foldl (fun (s : list nat * list A) c =>
              if keep el c
              then (<[el := S (s.1 !!! el)]> s.1, <[s.1 !!! el := val el c]> s.2)
              else s) s (calls el))
     (shifts, data0) (seq 0 n)).2
  = take (shifts !!! 0) data0
    ++ mjoin ((fun el => val el <$> kept_calls keep calls el) <$> seq 0 n)
    ++ drop (shifts !!! n) data0.
Proof.
  intros Hlen Hstep Hdata.
  assert (Hmono : forall k k', k <= k' -> k' <= n -> shifts !!! k <= shifts !!! k').
  { intros k k' Hle Hk'. induction Hle as [|k' Hle IH]; [done|].
    specialize (IH ltac:(lia)). rewrite Hstep by lia. lia. }
  assert (Hgen : forall k, k <= n ->
            let r :=
              foldl (fun (s : list nat * list A) el =>
                foldl (fun (s : list nat * list A) c =>
                         if keep el c
                         then (<[el := S (s.1 !!! el)]> s.1, <[s.1 !!! el := val el c]> s.2)
                         else s) s (calls el))
                (shifts, data0) (seq 0 k) in
            let filled :=
              take (shifts !!! 0) data0
              ++ mjoin ((fun el => val el <$> kept_calls keep calls el) <$> seq 0 k) in
            length r.1 = S n
            /\ (forall el, k <= el -> r.1 !!! el = shifts !!! el)
            /\ length filled = shifts !!! k
            /\ r.2 = filled ++ drop (shifts !!! k) data0).
  { induction k as [|k IH]; intros Hk.
    { cbn [seq foldl fmap list_fmap mjoin list_join fst snd]. cbn zeta.
      rewrite app_nil_r. split; [done|]. split; [done|].
      pose proof (Hmono 0 n ltac:(lia) ltac:(lia)).
      split; [rewrite length_take; lia|]. by rewrite take_drop. }
    cbn zeta in IH |- *. rewrite seq_S, foldl_app, fmap_app, join_app.
    cbn [foldl Nat.add fmap list_fmap mjoin list_join]. rewrite app_nil_r.
    rewrite !(app_assoc (take (shifts !!! 0) data0)).
    destruct (IH ltac:(lia)) as (Hl & Hcur & Hfilled & Hr). clear IH.
    set (r := foldl _ (shifts, data0) (seq 0 k)) in *.
    set (filled := take (shifts !!! 0) data0 ++ mjoin _) in *.
    destruct r as [cur data]. cbn [fst snd] in Hl, Hcur, Hr.
    rewrite (cursor_fill_at (keep k) (val k) k (calls k) cur data) by lia.
    cbn zeta. rewrite Hcur by lia.
    pose proof (Hmono (S k) n ltac:(lia) ltac:(lia)) as Hend.
    rewrite Hstep in Hend by lia. fold (kept_calls keep calls k).
    assert (Hsize : length data = length data0).
    { rewrite Hr, length_app, length_drop, Hfilled.
      pose proof (Hmono k n ltac:(lia) ltac:(lia)). lia. }
    rewrite cursor_fill by (fold (kept_calls keep calls k); lia).
    fold (kept_calls keep calls k).
    cbn [fst snd]. split; [by rewrite length_insert|]. split.
    { intros el Hel. rewrite list_lookup_total_insert_ne by lia. apply Hcur. lia. }
    split.
    { rewrite length_app, length_fmap, Hfilled, Hstep by lia. done. }
    rewrite Hr. rewrite take_app_length' by done.
    rewrite <- Hfilled at 1. rewrite drop_app_add, drop_drop.
    rewrite <- app_assoc. do 2 f_equal. rewrite Hstep by lia. done. }
  destruct (Hgen n (le_n _)) as (_ & _ & Hfilled & Hr). cbn zeta in Hr.
  rewrite Hr. by rewrite <- app_assoc.
Qed.

Section triplets_nonlocal.
Import mesh statics_with_nonloc.
Context {T : Type} `{!Scalar T}.
Variable mesh : mesh_2d T.
Variable element_neighbors : nat -> list nat.
Variable inner_nodes : list bool.

(** A call of [counter_nonloc] or [filler_nonloc] for an element: the
    neighbour, the local indices [iL] and [jNL], the projection and the
    form. *)
Definition call_nonloc : Type := nat * nat * nat * component * component.

(** The calls that [mesh_run_nonloc] makes for the element [elL], in order. *)
Definition visits_nonloc (elL : nat) : list call_nonloc :=
  elNL ← element_neighbors elL;
  iL ← seq 0 (finite_element.nodes_count (element_2d mesh elL));
  jNL ← seq 0 (finite_element.nodes_count (element_2d mesh elNL));
  [(elNL, iL, jNL, X, X); (elNL, iL, jNL, X, Y); (elNL, iL, jNL, Y, X); (elNL, iL, jNL, Y, Y)].

Definition row_nonloc (elL : nat) (c : call_nonloc) : nat :=
  2 * node_number mesh elL c.1.1.1.2 + size_t c.1.2.

Definition col_nonloc (c : call_nonloc) : nat :=
  2 * node_number mesh c.1.1.1.1 c.1.1.2 + size_t c.2.

Definition kept_nonloc (elL : nat) (c : call_nonloc) : bool :=
  bool_decide (col_nonloc c <= row_nonloc elL c)
  && ((inner_nodes !!! row_nonloc elL c) && (inner_nodes !!! col_nonloc c)).

Definition kept_bound_nonloc (elL : nat) (c : call_nonloc) : bool :=
  bool_decide (col_nonloc c <= row_nonloc elL c)
  && (negb ((inner_nodes !!! row_nonloc elL c) && (inner_nodes !!! col_nonloc c))
      && negb (bool_decide (row_nonloc elL c = col_nonloc c))).

Lemma mesh_run_nonloc_visits {S : Type} (step : S -> nat -> call_nonloc -> S)
    (rule : S -> nat -> nat -> nat -> nat -> S) (s : S) :
  (forall s iL jNL elL elNL,
     rule s iL jNL elL elNL
     = foldl (fun s c => step s elL c) s
             [(elNL, iL, jNL, X, X); (elNL, iL, jNL, X, Y);
              (elNL, iL, jNL, Y, X); (elNL, iL, jNL, Y, Y)]) ->
  finite_element_routine.mesh_run_nonloc mesh element_neighbors rule s
  = foldl (fun s elL => foldl (fun s c => step s elL c) s (visits_nonloc elL)) s
          (seq 0 (elements_count_2d mesh)).
Proof.
  intros Hrule. unfold finite_element_routine.mesh_run_nonloc, visits_nonloc.
  apply foldl_ext_in. intros s' elL _. cbn zeta.
  rewrite foldl_bind. apply foldl_ext_in. intros s'' elNL _.
  rewrite foldl_bind. apply foldl_ext_in. intros s''' iL _.
  rewrite foldl_bind. apply foldl_ext_in. intros s'''' jNL _.
  apply Hrule.
Qed.

Lemma counter_nonloc_fst (s : list nat * list nat) (elL : nat) (c : call_nonloc) :
  (counter_nonloc mesh inner_nodes s c.1.1.1.2 c.1.1.2 elL c.1.1.1.1 c.1.2 c.2).1
  = if kept_nonloc elL c then <[S elL := S (s.1 !!! S elL)]> s.1 else s.1.
Proof.
  unfold counter_nonloc, kept_nonloc. fold (row_nonloc elL c) (col_nonloc c).
  destruct (bool_decide (col_nonloc c <= row_nonloc elL c)); [|done].
  cbn [andb]. destruct (_ && _); [done|].
  by destruct (negb _).
Qed.

Lemma counter_nonloc_snd (s : list nat * list nat) (elL : nat) (c : call_nonloc) :
  (counter_nonloc mesh inner_nodes s c.1.1.1.2 c.1.1.2 elL c.1.1.1.1 c.1.2 c.2).2
  = if kept_bound_nonloc elL c then <[S elL := S (s.2 !!! S elL)]> s.2 else s.2.
Proof.
  unfold counter_nonloc, kept_bound_nonloc. fold (row_nonloc elL c) (col_nonloc c).
  destruct (bool_decide (col_nonloc c <= row_nonloc elL c)); [|done].
  cbn [andb]. destruct (_ && _); [done|].
  cbn [negb andb]. by destruct (negb _).
Qed.

(** What the nonlocal part of [mesh_analysis] returns. *)
Lemma mesh_analysis_nonloc_spec :
  let n := elements_count_2d mesh in
  let shifts := mesh_analysis mesh inner_nodes in
  let shifts_nl := mesh_analysis_nonloc mesh element_neighbors inner_nodes in
  length shifts_nl.1 = S n /\ length shifts_nl.2 = S n
  /\ shifts_nl.1 !!! 0 = shifts.1 !!! n
  /\ shifts_nl.2 !!! 0 = shifts.2 !!! n
  /\ (forall el, el < n ->
        shifts_nl.1 !!! S el
        = shifts_nl.1 !!! el + length (kept_calls kept_nonloc visits_nonloc el))
  /\ (forall el, el < n ->
        shifts_nl.2 !!! S el
        = shifts_nl.2 !!! el + length (kept_calls kept_bound_nonloc visits_nonloc el)).
Proof.
  intros n shifts shifts_nl. subst shifts_nl. unfold mesh_analysis_nonloc.
  destruct (mesh_analysis_spec mesh inner_nodes) as (Hloc1 & Hloc2 & _).
  cbn zeta in Hloc1, Hloc2. fold n shifts in Hloc1, Hloc2. fold shifts.
  rewrite (back_lookup_total shifts.1 n) by lia.
  rewrite (back_lookup_total shifts.2 n) by lia.
  rewrite (mesh_run_nonloc_visits
             (fun s elL c =>
                counter_nonloc mesh inner_nodes s c.1.1.1.2 c.1.1.2 elL c.1.1.1.1 c.1.2 c.2))
    by done.
  fold n. unfold vector_resize. rewrite take_nil, Nat.sub_0_r. cbn [app length].
  set (s0 := (replicate (n + 1) 0, replicate (n + 1) 0)).
  set (s := foldl _ s0 (seq 0 n)).
  assert (Hfst : s.1 = foldl (fun s el =>
                         foldl (fun s c =>
                                  if kept_nonloc el c then <[S el := S (s !!! S el)]> s else s)
                               s (visits_nonloc el)) s0.1 (seq 0 n)).
  { subst s. apply (foldl_project (fun s : list nat * list nat => s.1)). intros a el.
    apply (foldl_project (fun s : list nat * list nat => s.1)). intros a' c.
    apply counter_nonloc_fst. }
  assert (Hsnd : s.2 = foldl (fun s el =>
                         foldl (fun s c =>
                                  if kept_bound_nonloc el c
                                  then <[S el := S (s !!! S el)]> s else s)
                               s (visits_nonloc el)) s0.2 (seq 0 n)).
  { subst s. apply (foldl_project (fun s : list nat * list nat => s.2)). intros a el.
    apply (foldl_project (fun s : list nat * list nat => s.2)). intros a' c.
    apply counter_nonloc_snd. }
  assert (Hzeros : length (replicate (n + 1) 0) = S n) by (rewrite length_replicate; lia).
  destruct (count_pass kept_nonloc visits_nonloc n s0.1 Hzeros)
    as (Hlen1 & Hfirst1 & Hcount1).
  destruct (count_pass kept_bound_nonloc visits_nonloc n s0.2 Hzeros)
    as (Hlen2 & Hfirst2 & Hcount2).
  cbn zeta in Hlen1, Hfirst1, Hcount1, Hlen2, Hfirst2, Hcount2.
  rewrite <- Hfst in Hlen1, Hfirst1, Hcount1. rewrite <- Hsnd in Hlen2, Hfirst2, Hcount2.
  clear Hfst Hsnd. cbn [fst snd] in *.
  assert (Hzero : forall p, replicate (n + 1) 0 !!! p = 0).
  { intros p. rewrite list_lookup_total_alt. destruct (decide (p < n + 1)).
    - by rewrite lookup_replicate_2.
    - rewrite lookup_ge_None_2; [done|]. rewrite length_replicate. lia. }
  destruct (statics_prefix_sums (<[0 := shifts.1 !!! n]> s.1) n)
    as (Hl1 & Hz1 & Hs1); [by rewrite length_insert|].
  destruct (statics_prefix_sums (<[0 := shifts.2 !!! n]> s.2) n)
    as (Hl2 & Hz2 & Hs2); [by rewrite length_insert|].
  cbn zeta in Hl1, Hz1, Hs1, Hl2, Hz2, Hs2.
  split; [done|]. split; [done|]. split.
  { rewrite Hz1. rewrite list_lookup_total_insert_eq by lia. done. }
  split.
  { rewrite Hz2. rewrite list_lookup_total_insert_eq by lia. done. }
  split.
  - intros el Hel. rewrite Hs1 by done. rewrite list_lookup_total_insert_ne by lia.
    rewrite Hcount1 by done. by rewrite Hzero.
  - intros el Hel. rewrite Hs2 by done. rewrite list_lookup_total_insert_ne by lia.
    rewrite Hcount2 by done. by rewrite Hzero.
Qed.

Variable integrate_rule : component -> component -> nat -> nat -> nat -> T.
Variable integrate_rule_nonloc :
  component -> component -> nat -> nat -> nat -> nat -> T.

(** The triplet that a kept call of the nonlocal pass stores in [triplets]. *)
Definition triplet_nonloc (elL : nat) (c : call_nonloc) : Triplet (T := T) :=
  (row_nonloc elL c, col_nonloc c,
   integrate_rule_nonloc c.1.2 c.2 elL c.1.1.1.1 c.1.1.1.2 c.1.1.2).

(** The triplet that a kept call of the nonlocal pass stores in
    [triplets_bound]. *)
Definition bound_triplet_nonloc (elL : nat) (c : call_nonloc) : Triplet (T := T) :=
  if (inner_nodes !!! col_nonloc c : bool)
  then (col_nonloc c, row_nonloc elL c,
        integrate_rule_nonloc c.1.2 c.2 elL c.1.1.1.1 c.1.1.1.2 c.1.1.2)
  else (row_nonloc elL c, col_nonloc c,
        integrate_rule_nonloc c.1.2 c.2 elL c.1.1.1.1 c.1.1.1.2 c.1.1.2).

Lemma filler_nonloc_inner (s : filling_nonloc (T := T)) (elL : nat) (c : call_nonloc) :
  let s' := filler_nonloc mesh inner_nodes s c.1.1.1.2 c.1.1.2 elL c.1.1.1.1 c.1.2 c.2
              (integrate_rule_nonloc c.1.2 c.2 elL c.1.1.1.1 c.1.1.1.2 c.1.1.2) in
  (shifts_nonloc s', triplets_nonloc s')
  = if kept_nonloc elL c
    then (<[elL := S (shifts_nonloc s !!! elL)]> (shifts_nonloc s),
          <[shifts_nonloc s !!! elL := triplet_nonloc elL c]> (triplets_nonloc s))
    else (shifts_nonloc s, triplets_nonloc s).
Proof.
  cbn zeta. unfold filler_nonloc, kept_nonloc, triplet_nonloc.
  fold (row_nonloc elL c) (col_nonloc c).
  destruct (bool_decide (col_nonloc c <= row_nonloc elL c)); [|done].
  cbn [andb]. destruct (_ && _); [done|].
  by destruct (negb _).
Qed.

Lemma filler_nonloc_bound (s : filling_nonloc (T := T)) (elL : nat) (c : call_nonloc) :
  let s' := filler_nonloc mesh inner_nodes s c.1.1.1.2 c.1.1.2 elL c.1.1.1.1 c.1.2 c.2
              (integrate_rule_nonloc c.1.2 c.2 elL c.1.1.1.1 c.1.1.1.2 c.1.1.2) in
  (shifts_bound_nonloc s', triplets_bound_nonloc s')
  = if kept_bound_nonloc elL c
    then (<[elL := S (shifts_bound_nonloc s !!! elL)]> (shifts_bound_nonloc s),
          <[shifts_bound_nonloc s !!! elL := bound_triplet_nonloc elL c]>
            (triplets_bound_nonloc s))
    else (shifts_bound_nonloc s, triplets_bound_nonloc s).
Proof.
  cbn zeta. unfold filler_nonloc, kept_bound_nonloc, bound_triplet_nonloc.
  fold (row_nonloc elL c) (col_nonloc c).
  destruct (bool_decide (col_nonloc c <= row_nonloc elL c)); [|done].
  cbn [andb]. destruct (_ && _); [done|].
  cbn [negb andb]. by destruct (negb _).
Qed.

(** The kept calls of the elements take as many cells as the offsets
    say. *)
Lemma length_kept_join {A C : Type} (keep : nat -> C -> bool) (val : nat -> C -> A)
    (calls : nat -> list C) (n : nat) (shifts : list nat) :
  (forall el, el < n ->
     shifts !!! S el = shifts !!! el + length (kept_calls keep calls el)) ->
  shifts !!! 0
  + length (mjoin ((fun el => val el <$> kept_calls keep calls el) <$> seq 0 n))
  = shifts !!! n.
Proof.
  intros Hstep. induction n as [|n IH]; [cbn; lia|].
  rewrite seq_S, fmap_app, join_app, length_app. cbn [Nat.add fmap list_fmap mjoin list_join].
  rewrite app_nil_r, length_fmap. rewrite Hstep by lia.
  rewrite <- IH by (intros el Hel; apply Hstep; lia). lia.
Qed.

Lemma triplets_fill_nonlocal_spec :
  triplets_fill_nonlocal mesh element_neighbors inner_nodes integrate_rule
    integrate_rule_nonloc
  = (unit_triplets inner_nodes
       ++ mjoin ((fun el => triplet_of mesh integrate_rule el
                              <$> kept_calls (kept mesh inner_nodes) (visits mesh) el)
                   <$> seq 0 (elements_count_2d mesh))
       ++ mjoin ((fun el => triplet_nonloc el
                              <$> kept_calls kept_nonloc visits_nonloc el)
                   <$> seq 0 (elements_count_2d mesh)),
     mjoin ((fun el => bound_triplet_of mesh inner_nodes integrate_rule el
                         <$> kept_calls (kept_bound mesh inner_nodes) (visits mesh) el)
              <$> seq 0 (elements_count_2d mesh))
       ++ mjoin ((fun el => bound_triplet_nonloc el
                              <$> kept_calls kept_bound_nonloc visits_nonloc el)
                   <$> seq 0 (elements_count_2d mesh))).
Proof.
  unfold triplets_fill_nonlocal.
  destruct (mesh_analysis_spec mesh inner_nodes)
    as (Hlen1 & Hlen2 & Hfirst1 & Hfirst2 & Hstep1 & Hstep2).
  destruct mesh_analysis_nonloc_spec
    as (Hnlen1 & Hnlen2 & Hnfirst1 & Hnfirst2 & Hnstep1 & Hnstep2).
  cbn zeta in Hlen1, Hlen2, Hfirst1, Hfirst2, Hstep1, Hstep2,
              Hnlen1, Hnlen2, Hnfirst1, Hnfirst2, Hnstep1, Hnstep2.
  set (shifts := mesh_analysis mesh inner_nodes) in *.
  set (shifts_nl := mesh_analysis_nonloc mesh element_neighbors inner_nodes) in *.
  set (n := elements_count_2d mesh) in *.
  rewrite (back_lookup_total shifts_nl.1 n) by lia.
  rewrite (back_lookup_total shifts_nl.2 n) by lia.
  pose proof (length_kept_join (kept mesh inner_nodes) (triplet_of mesh integrate_rule)
                (visits mesh) n shifts.1 Hstep1) as Hjoin1.
  pose proof (length_kept_join (kept_bound mesh inner_nodes)
                (bound_triplet_of mesh inner_nodes integrate_rule)
                (visits mesh) n shifts.2 Hstep2) as Hjoin2.
  pose proof (length_kept_join kept_nonloc triplet_nonloc visits_nonloc n shifts_nl.1
                Hnstep1) as Hnjoin1.
  pose proof (length_kept_join kept_bound_nonloc bound_triplet_nonloc visits_nonloc n
                shifts_nl.2 Hnstep2) as Hnjoin2.
  set (J1 := mjoin ((fun el => triplet_of mesh integrate_rule el <$> _) <$> seq 0 n)) in *.
  set (J2 := mjoin ((fun el => bound_triplet_of mesh inner_nodes integrate_rule el <$> _)
                      <$> seq 0 n)) in *.
  set (N1 := mjoin ((fun el => triplet_nonloc el <$> _) <$> seq 0 n)) in *.
  set (N2 := mjoin ((fun el => bound_triplet_nonloc el <$> _) <$> seq 0 n)) in *.
  assert (Hunit : length (unit_triplets inner_nodes) = shifts.1 !!! 0).
  { unfold unit_triplets. by rewrite length_fmap, count_cleared, Hfirst1. }
  rewrite unit_diagonal_spec by (rewrite length_replicate; lia).
  set (U := unit_triplets inner_nodes ++ _).
  assert (HU : length U = shifts_nl.1 !!! n /\ take (shifts.1 !!! 0) U = unit_triplets inner_nodes).
  { subst U. split.
    - rewrite length_app, length_drop, length_replicate, Hunit, <- Hfirst1. lia.
    - by rewrite <- Hunit, take_app_length. }
  destruct HU as [HUlen HUtake].
  rewrite (mesh_run_loc_visits mesh
             (fun s el c => filler_loc mesh inner_nodes s c.1.1.1 c.1.1.2 el c.1.2 c.2
                              (integrate_rule c.1.2 c.2 el c.1.1.1 c.1.1.2)))
    by done.
  fold n. set (s0 := {| shifts_loc := shifts.1 |}).
  set (s := foldl _ s0 (seq 0 n)).
  assert (Hinner : (shifts_loc s, triplets s)
                   = foldl (fun (s : list nat * list (Triplet (T := T))) el =>
                       foldl (fun (s : list nat * list (Triplet (T := T))) c =>
                                if kept mesh inner_nodes el c
                                then (<[el := S (s.1 !!! el)]> s.1,
                                      <[s.1 !!! el := triplet_of mesh integrate_rule el c]> s.2)
                                else s) s (visits mesh el))
                       (shifts.1, U) (seq 0 n)).
  { subst s.
    apply (foldl_project (fun s : filling (T := T) => (shifts_loc s, triplets s))).
    intros a el.
    apply (foldl_project (fun s : filling (T := T) => (shifts_loc s, triplets s))).
    intros a' c. apply filler_loc_inner. }
  assert (Hbound : (shifts_bound_loc s, triplets_bound s)
                   = foldl (fun (s : list nat * list (Triplet (T := T))) el =>
                       foldl (fun (s : list nat * list (Triplet (T := T))) c =>
                                if kept_bound mesh inner_nodes el c
                                then (<[el := S (s.1 !!! el)]> s.1,
                                      <[s.1 !!! el :=
                                          bound_triplet_of mesh inner_nodes integrate_rule el c]>
                                        s.2)
                                else s) s (visits mesh el))
                       (shifts.2, replicate (shifts_nl.2 !!! n) (0, 0, zero)) (seq 0 n)).
  { subst s.
    apply (foldl_project
             (fun s : filling (T := T) => (shifts_bound_loc s, triplets_bound s))).
    intros a el.
    apply (foldl_project
             (fun s : filling (T := T) => (shifts_bound_loc s, triplets_bound s))).
    intros a' c. apply filler_loc_bound. }
  apply (f_equal snd) in Hinner, Hbound. cbn [snd] in Hinner, Hbound.
  rewrite (fill_pass_within (kept mesh inner_nodes) (triplet_of mesh integrate_rule)
             (visits mesh) n shifts.1 U Hlen1 Hstep1) in Hinner by lia.
  rewrite (fill_pass_within (kept_bound mesh inner_nodes)
             (bound_triplet_of mesh inner_nodes integrate_rule)
             (visits mesh) n shifts.2 _ Hlen2 Hstep2) in Hbound
    by (rewrite length_replicate; lia).
  fold J1 in Hinner. fold J2 in Hbound.
  rewrite HUtake in Hinner. rewrite Hfirst2, take_0 in Hbound. cbn [app] in Hbound.
  rewrite (mesh_run_nonloc_visits
             (fun s elL c =>
                filler_nonloc mesh inner_nodes s c.1.1.1.2 c.1.1.2 elL c.1.1.1.1 c.1.2 c.2
                  (integrate_rule_nonloc c.1.2 c.2 elL c.1.1.1.1 c.1.1.1.2 c.1.1.2)))
    by done.
  fold n. set (t0 := {| shifts_nonloc := shifts_nl.1 |}).
  set (t := foldl _ t0 (seq 0 n)).
  assert (Hninner : (shifts_nonloc t, triplets_nonloc t)
                    = foldl (fun (s : list nat * list (Triplet (T := T))) el =>
                        foldl (fun (s : list nat * list (Triplet (T := T))) c =>
                                 if kept_nonloc el c
                                 then (<[el := S (s.1 !!! el)]> s.1,
                                       <[s.1 !!! el := triplet_nonloc el c]> s.2)
                                 else s) s (visits_nonloc el))
                        (shifts_nl.1, triplets s) (seq 0 n)).
  { subst t.
    apply (foldl_project
             (fun s : filling_nonloc (T := T) => (shifts_nonloc s, triplets_nonloc s))).
    intros a el.
    apply (foldl_project
             (fun s : filling_nonloc (T := T) => (shifts_nonloc s, triplets_nonloc s))).
    intros a' c. apply filler_nonloc_inner. }
  assert (Hnbound : (shifts_bound_nonloc t, triplets_bound_nonloc t)
                    = foldl (fun (s : list nat * list (Triplet (T := T))) el =>
                        foldl (fun (s : list nat * list (Triplet (T := T))) c =>
                                 if kept_bound_nonloc el c
                                 then (<[el := S (s.1 !!! el)]> s.1,
                                       <[s.1 !!! el := bound_triplet_nonloc el c]> s.2)
                                 else s) s (visits_nonloc el))
                        (shifts_nl.2, triplets_bound s) (seq 0 n)).
  { subst t.
    apply (foldl_project
             (fun s : filling_nonloc (T := T) =>
                (shifts_bound_nonloc s, triplets_bound_nonloc s))).
    intros a el.
    apply (foldl_project
             (fun s : filling_nonloc (T := T) =>
                (shifts_bound_nonloc s, triplets_bound_nonloc s))).
    intros a' c. apply filler_nonloc_bound. }
  apply (f_equal snd) in Hninner, Hnbound. cbn [snd] in Hninner, Hnbound.
  assert (Hlen_s : length (triplets s) = shifts_nl.1 !!! n).
  { rewrite Hinner, !length_app, length_drop, HUlen. lia. }
  assert (Hlen_sb : length (triplets_bound s) = shifts_nl.2 !!! n).
  { rewrite Hbound, length_app, length_drop, length_replicate. lia. }
  rewrite (fill_pass_within kept_nonloc triplet_nonloc visits_nonloc n shifts_nl.1 _
             Hnlen1 Hnstep1) in Hninner by lia.
  rewrite (fill_pass_within kept_bound_nonloc bound_triplet_nonloc visits_nonloc n
             shifts_nl.2 _ Hnlen2 Hnstep2) in Hnbound by lia.
  fold N1 in Hninner. fold N2 in Hnbound.
  rewrite Hninner, Hnbound. f_equal.
  - rewrite drop_ge by lia. rewrite app_nil_r, Hnfirst1, Hinner.
    rewrite app_assoc. rewrite take_app_length' by (rewrite length_app; lia).
    by rewrite <- app_assoc.
  - rewrite drop_ge by lia. rewrite app_nil_r, Hnfirst2, Hbound.
    rewrite take_app_length' by lia. done.
Qed.

End triplets_nonlocal.

(** X26: the nonlocal part of [mesh_analysis], on flags that cover the
    degrees of freedom of the mesh and neighbours that are elements of the
    mesh, returns two more arrays of [elements_count + 1] offsets. They
    start where the arrays of the local stencil end, and the step from the
    cell of an element to the next is the number of calls that the element
    makes over its neighbours and that store a triplet: those with
    [row >= col] and two inner degrees of freedom for the matrix, those
    with [row > col] and a degree of freedom that is not inner for the
    boundary matrix. *)
Theorem X26_mesh_analysis_counts_the_nonlocal_triplets_after_the_local_ones :
  forall (T : Type) (ST : Scalar T) (mesh : mesh.mesh_2d T)
         (element_neighbors : nat -> list nat) (inner_nodes : list bool),
    (forall el i,
       el < mesh.elements_count_2d mesh ->
       i < nodes_count (mesh.element_2d mesh el) ->
       2 * mesh.node_number mesh el i + 1 < length inner_nodes) ->
    (forall elL elNL,
       elL < mesh.elements_count_2d mesh -> elNL ∈ element_neighbors elL ->
       elNL < mesh.elements_count_2d mesh) ->
    let n := mesh.elements_count_2d mesh in
    let shifts := statics_with_nonloc.mesh_analysis mesh inner_nodes in
    let shifts_nl :=
      statics_with_nonloc.mesh_analysis_nonloc mesh element_neighbors inner_nodes in
    length shifts_nl.1 = n + 1 /\ length shifts_nl.2 = n + 1
    /\ shifts_nl.1 !!! 0 = back shifts.1
    /\ shifts_nl.2 !!! 0 = back shifts.2
    /\ forall el, el < n ->
         shifts_nl.1 !!! S el
         = shifts_nl.1 !!! el
           + length (kept_calls (kept_nonloc mesh inner_nodes)
                       (visits_nonloc mesh element_neighbors) el)
         /\ shifts_nl.2 !!! S el
            = shifts_nl.2 !!! el
              + length (kept_calls (kept_bound_nonloc mesh inner_nodes)
                          (visits_nonloc mesh element_neighbors) el).
Proof.
  intros T ST mesh element_neighbors inner_nodes _ _ n shifts shifts_nl.
  destruct (mesh_analysis_nonloc_spec mesh element_neighbors inner_nodes)
    as (Hlen1 & Hlen2 & Hfirst1 & Hfirst2 & Hstep1 & Hstep2).
  destruct (mesh_analysis_spec mesh inner_nodes) as (Hloc1 & Hloc2 & _).
  cbn zeta in Hlen1, Hlen2, Hfirst1, Hfirst2, Hstep1, Hstep2, Hloc1, Hloc2.
  fold n shifts shifts_nl in Hlen1, Hlen2, Hfirst1, Hfirst2, Hstep1, Hstep2, Hloc1, Hloc2.
  rewrite (back_lookup_total shifts.1 n) by lia.
  rewrite (back_lookup_total shifts.2 n) by lia.
  rewrite Nat.add_1_r. split; [done|]. split; [done|]. split; [done|]. split; [done|].
  intros el Hel. split; [by apply Hstep1 | by apply Hstep2].
Qed.

Lemma X26_mesh_analysis_counts_the_nonlocal_triplets_after_the_local_ones_witness :
  let shifts_nl :=
    statics_with_nonloc.mesh_analysis_nonloc inputs.square (fun _ => [0])
      (replicate 8 true) in
  length shifts_nl.1 = 2 /\ length shifts_nl.2 = 2.
Proof.
  destruct (X26_mesh_analysis_counts_the_nonlocal_triplets_after_the_local_ones
              float double inputs.square (fun _ => [0]) (replicate 8 true))
    as (Hlen1 & Hlen2 & _).
  - intros el i Hel Hi. vm_compute in Hel, Hi. rewrite length_replicate.
    change (mesh.node_number inputs.square el i) with i. lia.
  - intros elL elNL _ ->%list_elem_of_singleton. vm_compute. lia.
  - split; [exact Hlen1 | exact Hlen2].
Defined.

(** X27: [triplets_fill] for a nonlocal problem, on flags that cover the
    degrees of freedom of the mesh and neighbours that are elements of the
    mesh, fills every cell of the two vectors and writes nowhere else. The
    triplets of the matrix are the unit diagonal of the degrees of freedom
    whose flag is cleared, then the triplets that the local pass keeps,
    then those that the nonlocal pass keeps, each pass element after
    element and call after call; the triplets of the boundary matrix are
    those kept for it by the local pass and then by the nonlocal pass. The
    nonlocal pass overwrites no triplet of the local pass. *)
Theorem X27_triplets_fill_stores_the_nonlocal_calls_after_the_local_ones :
  forall (T : Type) (ST : Scalar T) (mesh : mesh.mesh_2d T)
         (element_neighbors : nat -> list nat) (inner_nodes : list bool)
         (integrate_rule : statics_with_nonloc.component -> statics_with_nonloc.component ->
                           nat -> nat -> nat -> T)
         (integrate_rule_nonloc :
            statics_with_nonloc.component -> statics_with_nonloc.component ->
            nat -> nat -> nat -> nat -> T),
    (forall el i,
       el < mesh.elements_count_2d mesh ->
       i < nodes_count (mesh.element_2d mesh el) ->
       2 * mesh.node_number mesh el i + 1 < length inner_nodes) ->
    (forall elL elNL,
       elL < mesh.elements_count_2d mesh -> elNL ∈ element_neighbors elL ->
       elNL < mesh.elements_count_2d mesh) ->
    statics_with_nonloc.triplets_fill_nonlocal mesh element_neighbors inner_nodes
      integrate_rule integrate_rule_nonloc
    = (unit_triplets inner_nodes
         ++ mjoin ((fun el =>
                      triplet_of mesh integrate_rule el
                        <$> kept_calls (kept mesh inner_nodes) (visits mesh) el)
                     <$> seq 0 (mesh.elements_count_2d mesh))
         ++ mjoin ((fun el =>
                      triplet_nonloc mesh integrate_rule_nonloc el
                        <$> kept_calls (kept_nonloc mesh inner_nodes)
                              (visits_nonloc mesh element_neighbors) el)
                     <$> seq 0 (mesh.elements_count_2d mesh)),
       mjoin ((fun el =>
                 bound_triplet_of mesh inner_nodes integrate_rule el
                   <$> kept_calls (kept_bound mesh inner_nodes) (visits mesh) el)
                <$> seq 0 (mesh.elements_count_2d mesh))
         ++ mjoin ((fun el =>
                      bound_triplet_nonloc mesh inner_nodes integrate_rule_nonloc el
                        <$> kept_calls (kept_bound_nonloc mesh inner_nodes)
                              (visits_nonloc mesh element_neighbors) el)
                     <$> seq 0 (mesh.elements_count_2d mesh))).
Proof.
  intros T ST mesh element_neighbors inner_nodes integrate_rule integrate_rule_nonloc _ _.
  apply triplets_fill_nonlocal_spec.
Qed.

Lemma X27_triplets_fill_stores_the_nonlocal_calls_after_the_local_ones_witness :
  length (statics_with_nonloc.triplets_fill_nonlocal inputs.square (fun _ => [0])
            (replicate 8 true) (fun _ _ _ _ _ => 1%float)
            (fun _ _ _ _ _ _ => 2%float)).1
  = 72.
Proof.
  rewrite (X27_triplets_fill_stores_the_nonlocal_calls_after_the_local_ones float double
             inputs.square (fun _ => [0]) (replicate 8 true) (fun _ _ _ _ _ => 1%float)
             (fun _ _ _ _ _ _ => 2%float)).
  - reflexivity.
  - intros el i Hel Hi. vm_compute in Hel, Hi. rewrite length_replicate.
    change (mesh.node_number inputs.square el i) with i. lia.
  - intros elL elNL _ ->%list_elem_of_singleton. vm_compute. lia.
Defined.

(** ** The right part of the elasticity solver *)

(** A property that every turn keeps and that one turn of the loop
    establishes holds after the loop. *)
Lemma foldl_stable {A B : Type} (I Q : A -> Prop) (step : A -> B -> A) (l : list B) :
  (forall a y, y ∈ l -> I a -> I (step a y)) ->
  (forall a y, y ∈ l -> I a -> Q a -> Q (step a y)) ->
  forall a, I a -> Q a -> I (foldl step a l) /\ Q (foldl step a l).
Proof.
  intros HI HQ a Ha Hq.
  apply (foldl_invariant_in (fun a => I a /\ Q a)); [|done].
  intros a' y Hy [Ha' Hq']. split; [by apply HI | by apply HQ].
Qed.

Lemma foldl_establish {A B : Type} (I Q : A -> Prop) (step : A -> B -> A) (l : list B)
    (x : B) :
  x ∈ l ->
  (forall a y, y ∈ l -> I a -> I (step a y)) ->
  (forall a y, y ∈ l -> I a -> Q a -> Q (step a y)) ->
  (forall a, I a -> Q (step a x)) ->
  forall a, I a -> I (foldl step a l) /\ Q (foldl step a l).
Proof.
  intros Hx HI HQ Hset a Ha.
  apply list_elem_of_split in Hx as (l1 & l2 & ->).
  rewrite foldl_app. cbn [foldl].
  assert (H1 : I (foldl step a l1)).
  { apply (foldl_invariant_in I); [|done]. intros a' y Hy. apply HI.
    apply elem_of_app. by left. }
  apply foldl_stable.
  - intros a' y Hy. apply HI. apply elem_of_app. right. by apply list_elem_of_further.
  - intros a' y Hy. apply HQ. apply elem_of_app. right. by apply list_elem_of_further.
  - apply HI; [|done]. apply elem_of_app. right. apply list_elem_of_here.
  - by apply Hset.
Qed.

Section prescribed.
Import mesh statics_with_nonloc.
Context {T : Type} `{!Scalar T}.
Variable mesh : mesh_2d T.
Variable temperature_nodes : list (list nat).
Variable bounds_cond : list (boundary_condition T).

(** The last loop nest of [boundary_condition_calc]. *)
Definition prescribe (f : list T) (b : nat) : list T :=
  match bounds_cond !! b with
  | Some bc =>
      let f :=
        if decide (type_x bc = TRANSLATION)
        then foldl (fun f node =>
                      <[2 * node := func_x bc (coord mesh node 0) (coord mesh node 1)]> f)
                   f (temperature_nodes !!! b)
        else f in
      if decide (type_y bc = TRANSLATION)
      then foldl (fun f node =>
                    <[2 * node + 1 := func_y bc (coord mesh node 0) (coord mesh node 1)]> f)
                 f (temperature_nodes !!! b)
      else f
  | None => f
  end.

Lemma length_prescribe (f : list T) (b : nat) : length (prescribe f b) = length f.
Proof.
  unfold prescribe. destruct (bounds_cond !! b) as [bc|]; [|done]. cbn zeta.
  set (fx := if decide (type_x bc = TRANSLATION) then _ else f).
  assert (Hx : length fx = length f).
  { subst fx. case_decide; [|done]. apply length_foldl_insert. }
  case_decide; [|done]. etrans; [|exact Hx].
  apply (length_foldl_insert (fun node => 2 * node + 1)).
Qed.

Lemma length_foldl_prescribe (l : list nat) :
  forall f, length (foldl prescribe f l) = length f.
Proof.
  induction l as [|x l IH]; intros f; [done|]. cbn [foldl].
  by rewrite IH, length_prescribe.
Qed.

(** No node is in the lists of two boundaries. *)
Hypothesis one_list : forall b b' node,
  node ∈ temperature_nodes !!! b -> node ∈ temperature_nodes !!! b' -> b = b'.

Lemma prescribe_spec (f : list T) (b : nat) (bc : boundary_condition T) (node : nat) :
  bounds_cond !! b = Some bc -> b < length temperature_nodes ->
  node ∈ temperature_nodes !!! b -> 2 * node + 1 < length f ->
  let f' := foldl prescribe f (seq 0 (length temperature_nodes)) in
  length f' = length f
  /\ (type_x bc = TRANSLATION ->
      f' !! (2 * node) = Some (func_x bc (coord mesh node 0) (coord mesh node 1)))
  /\ (type_y bc = TRANSLATION ->
      f' !! (2 * node + 1) = Some (func_y bc (coord mesh node 0) (coord mesh node 1))).
Proof.
  intros Hbc Hb Hnode Hrange. cbn zeta.
  split; [apply length_foldl_prescribe|].
  assert (Hin : b ∈ seq 0 (length temperature_nodes)) by (apply elem_of_seq; lia).
  split.
  - intros Hkind.
    set (v := func_x bc (coord mesh node 0) (coord mesh node 1)).
    apply (foldl_establish (fun f0 => length f0 = length f)
             (fun f0 => f0 !! (2 * node) = Some v) prescribe _ b Hin); [| | |done].
    + intros f0 b' _ Hf0. by rewrite length_prescribe.
    + intros f0 b' _ Hf0 Hq. unfold prescribe.
      destruct (bounds_cond !! b') as [bc'|] eqn:Hbc'; [|done]. cbn zeta.
      set (fx := if decide (type_x bc' = TRANSLATION) then _ else f0).
      assert (Hx : fx !! (2 * node) = Some v).
      { subst fx. case_decide; [|done].
        apply (foldl_invariant_in (fun f1 : list T => f1 !! (2 * node) = Some v)); [|done].
        intros f1 node' Hnode' Hf1. destruct (decide (node' = node)) as [->|Hne].
        - pose proof (one_list b b' node Hnode Hnode') as <-.
          assert (bc' = bc) as -> by congruence.
          rewrite list_lookup_insert_eq; [done|]. by eapply lookup_lt_Some.
        - rewrite list_lookup_insert_ne by lia. done. }
      case_decide; [|done].
      apply (foldl_invariant (fun f1 : list T => f1 !! (2 * node) = Some v)); [done|].
      intros f1 node' Hf1. rewrite list_lookup_insert_ne by lia. done.
    + intros f0 Hf0. unfold prescribe. rewrite Hbc. cbn zeta.
      rewrite (decide_True (P := type_x bc = TRANSLATION)) by done.
      set (fx := foldl _ f0 (temperature_nodes !!! b)).
      assert (Hx : fx !! (2 * node) = Some v).
      { subst fx.
        apply (foldl_establish (fun f1 : list T => length f1 = length f)
                 (fun f1 : list T => f1 !! (2 * node) = Some v) _ _ node Hnode);
          [| | |done].
        - intros f1 node' _ Hf1. by rewrite length_insert.
        - intros f1 node' _ Hf1 Hq. destruct (decide (node' = node)) as [->|Hne].
          + rewrite list_lookup_insert_eq; [done|]. lia.
          + rewrite list_lookup_insert_ne by lia. done.
        - intros f1 Hf1. rewrite list_lookup_insert_eq; [done|]. lia. }
      case_decide; [|done].
      apply (foldl_invariant (fun f1 : list T => f1 !! (2 * node) = Some v)); [done|].
      intros f1 node' Hf1. rewrite list_lookup_insert_ne by lia. done.
  - intros Hkind.
    set (v := func_y bc (coord mesh node 0) (coord mesh node 1)).
    apply (foldl_establish (fun f0 => length f0 = length f)
             (fun f0 => f0 !! (2 * node + 1) = Some v) prescribe _ b Hin); [| | |done].
    + intros f0 b' _ Hf0. by rewrite length_prescribe.
    + intros f0 b' _ Hf0 Hq. unfold prescribe.
      destruct (bounds_cond !! b') as [bc'|] eqn:Hbc'; [|done]. cbn zeta.
      set (fx := if decide (type_x bc' = TRANSLATION) then _ else f0).
      assert (Hx : fx !! (2 * node + 1) = Some v).
      { subst fx. case_decide; [|done].
        apply (foldl_invariant (fun f1 : list T => f1 !! (2 * node + 1) = Some v)); [done|].
        intros f1 node' Hf1. rewrite list_lookup_insert_ne by lia. done. }
      case_decide; [|done].
      apply (foldl_invariant_in (fun f1 : list T => f1 !! (2 * node + 1) = Some v)); [|done].
      intros f1 node' Hnode' Hf1. destruct (decide (node' = node)) as [->|Hne].
      * pose proof (one_list b b' node Hnode Hnode') as <-.
        assert (bc' = bc) as -> by congruence.
        rewrite list_lookup_insert_eq; [done|]. by eapply lookup_lt_Some.
      * rewrite list_lookup_insert_ne by lia. done.
    + intros f0 Hf0. unfold prescribe. rewrite Hbc. cbn zeta.
      set (fx := if decide (type_x bc = TRANSLATION) then _ else f0).
      assert (Hx : length fx = length f).
      { subst fx. case_decide; [|done]. by rewrite length_foldl_insert. }
      rewrite (decide_True (P := type_y bc = TRANSLATION)) by done.
      apply (foldl_establish (fun f1 : list T => length f1 = length f)
               (fun f1 : list T => f1 !! (2 * node + 1) = Some v) _ _ node Hnode);
        [| | |done].
      * intros f1 node' _ Hf1. by rewrite length_insert.
      * intros f1 node' _ Hf1 Hq. destruct (decide (node' = node)) as [->|Hne].
        -- rewrite list_lookup_insert_eq; [done|]. lia.
        -- rewrite list_lookup_insert_ne by lia. done.
      * intros f1 Hf1. rewrite list_lookup_insert_eq; [done|]. lia.
Qed.

End prescribed.

(** X28: [boundary_condition_calc], run on the lists of
    [kinematic_nodes_vectors] and on a right part that holds the degrees of
    freedom of the nodes of the boundaries and the rows of [K_bound], keeps
    the size of the right part, and the entry of a degree of freedom of a node in the list of a
    boundary that prescribes a translation along its axis ends as the
    prescribed value at the node: the loads and the terms of [K_bound]
    that the first two loops put there are overwritten, and no other
    boundary writes there afterwards. *)
Theorem X28_prescribed_translations_end_in_the_right_part :
  forall (T : Type) (ST : Scalar T) (mesh : mesh.mesh_2d T)
         (boundary : nat -> list nat)
         (boundary_rows : nat -> nat) (boundary_cols : nat -> nat -> nat)
         (boundary_node : nat -> nat -> nat -> nat)
         (integrate_boundary_gradient : nat -> nat -> nat -> (T -> T -> T) -> T)
         (bounds_cond : list (statics_with_nonloc.boundary_condition T))
         (K_bound : nat -> list (nat * T)) (f : list T),
    (forall b node, b < length bounds_cond -> node ∈ boundary b ->
       2 * node + 1 < length f) ->
    (forall b el i, b < length bounds_cond -> el < boundary_rows b ->
       i < boundary_cols b el -> 2 * boundary_node b el i + 1 < length f) ->
    (forall col it, it ∈ K_bound col -> it.1 < length f) ->
    let temperature_nodes :=
      statics_with_nonloc.kinematic_nodes_vectors boundary bounds_cond in
    let f' :=
      statics_with_nonloc.boundary_condition_calc mesh boundary_rows boundary_cols
        boundary_node integrate_boundary_gradient temperature_nodes bounds_cond K_bound f in
    length f' = length f
    /\ forall b bc node,
         bounds_cond !! b = Some bc -> node ∈ temperature_nodes !!! b ->
         (statics_with_nonloc.type_x bc = statics_with_nonloc.TRANSLATION ->
          f' !! (2 * node)
          = Some (statics_with_nonloc.func_x bc (statics_with_nonloc.coord mesh node 0)
                    (statics_with_nonloc.coord mesh node 1)))
         /\ (statics_with_nonloc.type_y bc = statics_with_nonloc.TRANSLATION ->
             f' !! (2 * node + 1)
             = Some (statics_with_nonloc.func_y bc (statics_with_nonloc.coord mesh node 0)
                       (statics_with_nonloc.coord mesh node 1))).
Proof.
  intros T ST mesh boundary boundary_rows boundary_cols boundary_node
         integrate_boundary_gradient bounds_cond K_bound f Hrange _ _ temperature_nodes f'.
  destruct (kinematic_nodes_loop boundary bounds_cond (length bounds_cond) (le_n _))
    as (Hlen & _ & _ & Hlists).
  change (foldl _ _ (seq 0 (length bounds_cond))) with temperature_nodes in Hlen, Hlists.
  subst f'. unfold statics_with_nonloc.boundary_condition_calc.
  set (f1 := foldl _ f (seq 0 (length bounds_cond))).
  assert (H1 : length f1 = length f).
  { subst f1. apply (foldl_invariant (fun f0 : list T => length f0 = length f)); [done|].
    intros f0 b Hf0. destruct (bounds_cond !! b) as [bc|]; [|done]. cbn zeta.
    set (fx := if decide (statics_with_nonloc.type_x bc = statics_with_nonloc.PRESSURE)
               then _ else f0).
    assert (Hx : length fx = length f).
    { subst fx. case_decide; [|done].
      apply (foldl_invariant (fun f2 : list T => length f2 = length f)); [done|].
      intros f2 el Hf2.
      apply (foldl_invariant (fun f3 : list T => length f3 = length f)); [done|].
      intros f3 i Hf3. by rewrite length_insert. }
    case_decide; [|done].
    apply (foldl_invariant (fun f2 : list T => length f2 = length f)); [done|].
    intros f2 el Hf2.
    apply (foldl_invariant (fun f3 : list T => length f3 = length f)); [done|].
    intros f3 i Hf3. by rewrite length_insert. }
  set (f2 := foldl _ f1 (seq 0 (length temperature_nodes))).
  assert (H2 : length f2 = length f).
  { subst f2. apply (foldl_invariant (fun f0 : list T => length f0 = length f)); [done|].
    intros f0 b Hf0. destruct (bounds_cond !! b) as [bc|]; [|done]. cbn zeta.
    set (fx := if decide (statics_with_nonloc.type_x bc = statics_with_nonloc.TRANSLATION)
               then _ else f0).
    assert (Hx : length fx = length f).
    { subst fx. case_decide; [|done].
      apply (foldl_invariant (fun f3 : list T => length f3 = length f)); [done|].
      intros f3 node Hf3. cbn zeta.
      apply (foldl_invariant (fun f4 : list T => length f4 = length f)); [done|].
      intros f4 it Hf4. by rewrite length_insert. }
    case_decide; [|done].
    apply (foldl_invariant (fun f3 : list T => length f3 = length f)); [done|].
    intros f3 node Hf3. cbn zeta.
    apply (foldl_invariant (fun f4 : list T => length f4 = length f)); [done|].
    intros f4 it Hf4. by rewrite length_insert. }
  change (foldl _ f2 (seq 0 (length temperature_nodes)))
    with (foldl (prescribe mesh temperature_nodes bounds_cond) f2
            (seq 0 (length temperature_nodes))).
  assert (Hone : forall b b' node,
            node ∈ temperature_nodes !!! b -> node ∈ temperature_nodes !!! b' -> b = b').
  { intros b b' node (_ & Hkind & Hnode & Hfirst)%Hlists
           (_ & Hkind' & Hnode' & Hfirst')%Hlists.
    destruct (Nat.lt_trichotomy b b') as [Hlt|[Heq|Hgt]]; [|done|].
    - by destruct (Hfirst' b Hlt Hkind).
    - by destruct (Hfirst b' Hgt Hkind'). }
  split.
  { etrans; [|exact H2]. apply length_foldl_prescribe. }
  intros b bc node Hbc Hnode.
  pose proof Hnode as (Hb & _ & Hon & _)%Hlists.
  destruct (prescribe_spec mesh temperature_nodes bounds_cond Hone f2 b bc node Hbc)
    as (_ & Hx & Hy); [lia | done | |by split].
  rewrite H2. by apply (Hrange b).
Qed.

Lemma X28_prescribed_translations_end_in_the_right_part_witness :
  let boundary := fun b : nat => match b with 0 => [0; 1] | 1 => [1; 2] | _ => [] end in
  let bounds_cond :=
    [ {| statics_with_nonloc.type_x := statics_with_nonloc.TRANSLATION;
         statics_with_nonloc.type_y := statics_with_nonloc.PRESSURE;
         statics_with_nonloc.func_x := fun _ _ => 3%float;
         statics_with_nonloc.func_y := fun _ _ => 0%float |};
      {| statics_with_nonloc.type_x := statics_with_nonloc.TRANSLATION;
         statics_with_nonloc.type_y := statics_with_nonloc.TRANSLATION;
         statics_with_nonloc.func_x := fun _ _ => 5%float;
         statics_with_nonloc.func_y := fun _ _ => 7%float |} ] in
  length (statics_with_nonloc.boundary_condition_calc inputs.square (fun _ => 1)
            (fun _ _ => 2) (fun b _ i => b + i) (fun _ _ _ _ => 1%float)
            (statics_with_nonloc.kinematic_nodes_vectors boundary bounds_cond)
            bounds_cond (fun _ => []) (replicate 8 0%float))
  = 8.
Proof.
  intros boundary bounds_cond.
  destruct (X28_prescribed_translations_end_in_the_right_part float double inputs.square
              boundary (fun _ => 1) (fun _ _ => 2) (fun b _ i => b + i)
              (fun _ _ _ _ => 1%float) bounds_cond (fun _ => []) (replicate 8 0%float))
    as [Hlen _].
  - intros b node Hb Hnode. cbn in Hb. rewrite length_replicate.
    destruct b as [|[|b]]; [| |lia]; cbn in Hnode;
      repeat (apply elem_of_cons in Hnode as [->|Hnode]);
      try (by apply elem_of_nil in Hnode); lia.
  - intros b el i Hb Hel Hi. cbn in Hb. rewrite length_replicate. lia.
  - intros col it Hit. by apply elem_of_nil in Hit.
  - etrans; [exact Hlen|]. apply length_replicate.
Defined.
